(** * lttng-tools relay daemon: CTF traces, viewer sessions, TSDL identifiers

    A shallow embedding of
    - [escape_tsdl_identifier] (tsdl-trace-class-visitor.cpp),
    - the reference-counted [ctf_trace] objects of the relay daemon
      (ctf-trace.cpp),
    - the viewer session attach/detach protocol (viewer-session.cpp),
    together with the properties the specification states about them,
    and of
    - the TSDL emitter: environment values, field visitor, stream and
      event class fragments (tsdl-trace-class-visitor.cpp),
    - the event exclusions of the enable-event command (enable_events.cpp),
    - the garbage-collected strings of the filter parser
      (filter-parser.ypp),
    - the lookup of a snapshot output by name (snapshot.cpp),
    - the stop-session action (stop-session.c). *)

From Stdlib Require Import ZArith Ascii String List Bool Lia DecimalString.
From stdpp Require Import base option list gmap strings.

Local Open Scope Z_scope.

(* ===================================================================== *)
(** ** TSDL identifier escaping *)
(* ===================================================================== *)

Module Tsdl.

Local Open Scope string_scope.

(** [LTTNG_THROW_ERROR("Invalid 0-length identifier ...")]: the only error
    the escaping function raises. *)
Inductive tsdl_error : Type :=
  | InvalidIdentifier.

(** Reserved CTF names that readers such as Babeltrace 1.x expect without
    a prepended underscore ([std::set<std::string>]). *)
Definition safe_tsdl_identifiers : list string :=
  [ "stream_id"; "packet_size"; "content_size"; "id"; "v"; "timestamp";
    "events_discarded"; "packet_seq_num"; "timestamp_begin";
    "timestamp_end"; "cpu_id"; "magic"; "uuid"; "stream_instance_id" ].

(** [safe_tsdl_identifiers.find(x) != safe_tsdl_identifiers.end()] *)
Definition is_safe_tsdl_identifier (x : string) : bool :=
  existsb (String.eqb x) safe_tsdl_identifiers.

Definition in_range (lo hi : nat) (c : ascii) : bool :=
  (Nat.leb lo (nat_of_ascii c) && Nat.leb (nat_of_ascii c) hi)%bool.

(** [std::isalnum(c, std::locale{"C"})]: digits and ASCII letters only. *)
Definition isalnum (c : ascii) : bool :=
  (in_range 48 57 c || in_range 65 90 c || in_range 97 122 c)%bool.

Definition underscore : ascii := "_"%char.

(** Body of the [for] loop: one output character per input character. *)
Definition escape_char (current_char : ascii) : ascii :=
  if (negb (isalnum current_char) && negb (Ascii.eqb current_char underscore))%bool
  then underscore
  else current_char.

Fixpoint escape_chars (s : string) : string :=
  match s with
  | EmptyString => EmptyString
  | String c rest => String (escape_char c) (escape_chars rest)
  end.

Definition escape_tsdl_identifier (original_identifier : string)
  : tsdl_error + string :=
  if Nat.eqb (String.length original_identifier) 0 then inl InvalidIdentifier
  else if is_safe_tsdl_identifier original_identifier
       then inr original_identifier
       else inr (String underscore (escape_chars original_identifier)).

(** Characters of the class [[A-Za-z0-9_]]. *)
Definition tsdl_char (c : ascii) : bool :=
  (isalnum c || Ascii.eqb c underscore)%bool.

Fixpoint all_chars (p : ascii -> bool) (s : string) : bool :=
  match s with
  | EmptyString => true
  | String c rest => (p c && all_chars p rest)%bool
  end.

End Tsdl.

(* ===================================================================== *)
(** ** Relay daemon: object graph *)
(* ===================================================================== *)

Module Relayd.

(** Objects live in per-type heaps indexed by address; a C pointer is an
    [option nat], [None] being [NULL]. *)

(** [struct ctf_trace] (ctf-trace.hpp).  [zmalloc] returns zeroed memory,
    hence the [None]/[0] readings of a field nobody wrote yet.
    - [t_stream_list]: [None] is a zeroed [cds_list_head] ([next == NULL]),
      [Some l] a head initialised by [CDS_INIT_LIST_HEAD] linking [l];
    - [t_node]: the key of the embedded [lttng_ht_node_str], once
      [lttng_ht_node_init_str] ran. *)
Record ctf_trace : Type := mk_ctf_trace {
  t_ref : Z;
  t_session : option nat;
  t_id : Z;
  t_viewer_metadata_stream : option nat;
  t_stream_list : option (list nat);
  t_node : option string;
  t_path : option string
}.

Definition zeroed_ctf_trace : ctf_trace :=
  mk_ctf_trace 0 None 0 None None None None.

Definition set_t_ref (v : Z) (tr : ctf_trace) : ctf_trace :=
  mk_ctf_trace v (t_session tr) (t_id tr) (t_viewer_metadata_stream tr)
    (t_stream_list tr) (t_node tr) (t_path tr).

Definition set_t_session (v : option nat) (tr : ctf_trace) : ctf_trace :=
  mk_ctf_trace (t_ref tr) v (t_id tr) (t_viewer_metadata_stream tr)
    (t_stream_list tr) (t_node tr) (t_path tr).

Definition set_t_id (v : Z) (tr : ctf_trace) : ctf_trace :=
  mk_ctf_trace (t_ref tr) (t_session tr) v (t_viewer_metadata_stream tr)
    (t_stream_list tr) (t_node tr) (t_path tr).

Definition set_t_stream_list (v : option (list nat)) (tr : ctf_trace) : ctf_trace :=
  mk_ctf_trace (t_ref tr) (t_session tr) (t_id tr) (t_viewer_metadata_stream tr)
    v (t_node tr) (t_path tr).

Definition set_t_node (v : option string) (tr : ctf_trace) : ctf_trace :=
  mk_ctf_trace (t_ref tr) (t_session tr) (t_id tr) (t_viewer_metadata_stream tr)
    (t_stream_list tr) v (t_path tr).

Definition set_t_path (v : option string) (tr : ctf_trace) : ctf_trace :=
  mk_ctf_trace (t_ref tr) (t_session tr) (t_id tr) (t_viewer_metadata_stream tr)
    (t_stream_list tr) (t_node tr) v.

(** [struct relay_session], the fields the modelled code touches.
    [s_ctf_traces_ht] is the string-keyed hash table of the session's
    traces: entries are (key, address of the trace embedding the node).
    [lttng_ht_add_str] is a plain (non-unique) add, so the same key may
    occur twice, which is why this is a list and not a map. *)
Record relay_session : Type := mk_relay_session {
  s_ref : Z;
  s_lock : bool;
  s_ctf_traces_ht : list (string * nat);
  s_viewer_attached : bool;
  s_current_trace_chunk : option nat
}.

Definition set_s_ref (v : Z) (s : relay_session) : relay_session :=
  mk_relay_session v (s_lock s) (s_ctf_traces_ht s) (s_viewer_attached s)
    (s_current_trace_chunk s).

Definition set_s_lock (v : bool) (s : relay_session) : relay_session :=
  mk_relay_session (s_ref s) v (s_ctf_traces_ht s) (s_viewer_attached s)
    (s_current_trace_chunk s).

Definition set_s_ctf_traces_ht (v : list (string * nat)) (s : relay_session)
  : relay_session :=
  mk_relay_session (s_ref s) (s_lock s) v (s_viewer_attached s)
    (s_current_trace_chunk s).

Definition set_s_viewer_attached (v : bool) (s : relay_session) : relay_session :=
  mk_relay_session (s_ref s) (s_lock s) (s_ctf_traces_ht s) v
    (s_current_trace_chunk s).

(** The readiness of a relay stream, after the state machine of section
    4.3 of the specification ([struct relay_stream] is not under src/). *)
Inductive stream_state : Type :=
  | Allocated
  | Indexed
  | Ready
  | Closing
  | Destroyed.

(** [struct relay_viewer_stream]: only its reference count matters here. *)
Record relay_viewer_stream : Type := mk_relay_viewer_stream {
  vstream_ref : Z
}.

(** [struct relay_viewer_session]. *)
Record relay_viewer_session : Type := mk_relay_viewer_session {
  vs_session_list : list nat;
  vs_current_trace_chunk : option nat
}.

(** The process state of the relay daemon, as far as this code reads or
    writes it.
    - [last_relay_ctf_trace_id]: the static [uint64_t] counter;
    - [rcu_nesting]: read-side nesting of the running thread
      ([rcu_read_lock]/[rcu_read_unlock]);
    - [rcu_callbacks]: traces handed to [call_rcu(..., rcu_destroy_ctf_trace)]
      whose grace period has not elapsed yet;
    - [ctf_traces], [next_ctf_trace]: the allocated [struct ctf_trace]
      objects and the next address [zmalloc] hands out;
    - [released_sessions]: sessions whose count reached zero, for which
      [session_release] (session.cpp) was invoked;
    - [relay_streams]: the relay streams and where each stands. *)
Record relayd : Type := mk_relayd {
  last_relay_ctf_trace_id : Z;
  rcu_nesting : nat;
  rcu_callbacks : list nat;
  ctf_traces : gmap nat ctf_trace;
  next_ctf_trace : nat;
  sessions : gmap nat relay_session;
  released_sessions : list nat;
  viewer_streams : gmap nat relay_viewer_stream;
  viewer_sessions : gmap nat relay_viewer_session;
  relay_streams : gmap nat stream_state
}.

Definition set_last_relay_ctf_trace_id (v : Z) (st : relayd) : relayd :=
  mk_relayd v (rcu_nesting st) (rcu_callbacks st) (ctf_traces st)
    (next_ctf_trace st) (sessions st) (released_sessions st)
    (viewer_streams st) (viewer_sessions st) (relay_streams st).

Definition set_rcu_nesting (v : nat) (st : relayd) : relayd :=
  mk_relayd (last_relay_ctf_trace_id st) v (rcu_callbacks st) (ctf_traces st)
    (next_ctf_trace st) (sessions st) (released_sessions st)
    (viewer_streams st) (viewer_sessions st) (relay_streams st).

Definition set_rcu_callbacks (v : list nat) (st : relayd) : relayd :=
  mk_relayd (last_relay_ctf_trace_id st) (rcu_nesting st) v (ctf_traces st)
    (next_ctf_trace st) (sessions st) (released_sessions st)
    (viewer_streams st) (viewer_sessions st) (relay_streams st).

Definition set_ctf_traces (v : gmap nat ctf_trace) (st : relayd) : relayd :=
  mk_relayd (last_relay_ctf_trace_id st) (rcu_nesting st) (rcu_callbacks st) v
    (next_ctf_trace st) (sessions st) (released_sessions st)
    (viewer_streams st) (viewer_sessions st) (relay_streams st).

Definition set_next_ctf_trace (v : nat) (st : relayd) : relayd :=
  mk_relayd (last_relay_ctf_trace_id st) (rcu_nesting st) (rcu_callbacks st)
    (ctf_traces st) v (sessions st) (released_sessions st)
    (viewer_streams st) (viewer_sessions st) (relay_streams st).

Definition set_sessions (v : gmap nat relay_session) (st : relayd) : relayd :=
  mk_relayd (last_relay_ctf_trace_id st) (rcu_nesting st) (rcu_callbacks st)
    (ctf_traces st) (next_ctf_trace st) v (released_sessions st)
    (viewer_streams st) (viewer_sessions st) (relay_streams st).

Definition set_released_sessions (v : list nat) (st : relayd) : relayd :=
  mk_relayd (last_relay_ctf_trace_id st) (rcu_nesting st) (rcu_callbacks st)
    (ctf_traces st) (next_ctf_trace st) (sessions st) v
    (viewer_streams st) (viewer_sessions st) (relay_streams st).

Definition set_viewer_streams (v : gmap nat relay_viewer_stream) (st : relayd)
  : relayd :=
  mk_relayd (last_relay_ctf_trace_id st) (rcu_nesting st) (rcu_callbacks st)
    (ctf_traces st) (next_ctf_trace st) (sessions st) (released_sessions st)
    v (viewer_sessions st) (relay_streams st).

Definition set_viewer_sessions (v : gmap nat relay_viewer_session) (st : relayd)
  : relayd :=
  mk_relayd (last_relay_ctf_trace_id st) (rcu_nesting st) (rcu_callbacks st)
    (ctf_traces st) (next_ctf_trace st) (sessions st) (released_sessions st)
    (viewer_streams st) v (relay_streams st).

Definition set_relay_streams (v : gmap nat stream_state) (st : relayd) : relayd :=
  mk_relayd (last_relay_ctf_trace_id st) (rcu_nesting st) (rcu_callbacks st)
    (ctf_traces st) (next_ctf_trace st) (sessions st) (released_sessions st)
    (viewer_streams st) (viewer_sessions st) v.

(** *** Faults and the state-and-fault monad *)

(** Ways the C code stops instead of returning. *)
Inductive fault : Type :=
  | NullDeref                 (* dereference of a NULL pointer *)
  | BadPointer                (* dereference of an address that is not allocated *)
  | AssertFailed (what : string)  (* LTTNG_ASSERT / urcu_posix_assert *)
  | Deadlock                  (* pthread_mutex_lock on a mutex the thread holds *)
  | OutOfFuel.                (* the model ran out of steps; never the C code *)

Definition M (A : Type) : Type := relayd -> fault + (A * relayd).

Definition ret {A : Type} (x : A) : M A := fun st => inr (x, st).

Definition bind {A B : Type} (c : M A) (k : A -> M B) : M B :=
  fun st => match c st with
            | inl f => inl f
            | inr (x, st') => k x st'
            end.

Definition throw {A : Type} (f : fault) : M A := fun _ => inl f.

Definition get_state : M relayd := fun st => inr (st, st).

Definition modify (f : relayd -> relayd) : M unit := fun st => inr (tt, f st).

Notation "'let*' x ':=' c 'in' k" := (bind c (fun x => k))
  (at level 10, x name, c at level 100, k at level 200).

Definition LTTNG_ASSERT (cond : bool) (what : string) : M unit :=
  if cond then ret tt else throw (AssertFailed what).

(** Dereference of a possibly-NULL pointer. *)
Definition deref {A : Type} (p : option A) : M A :=
  match p with
  | Some x => ret x
  | None => throw NullDeref
  end.

Definition load_trace (t : nat) : M ctf_trace :=
  fun st => match ctf_traces st !! t with
            | Some tr => inr (tr, st)
            | None => inl BadPointer
            end.

Definition store_trace (t : nat) (tr : ctf_trace) : M unit :=
  modify (fun st => set_ctf_traces (<[t := tr]> (ctf_traces st)) st).

Definition load_session (s : nat) : M relay_session :=
  fun st => match sessions st !! s with
            | Some sess => inr (sess, st)
            | None => inl BadPointer
            end.

Definition store_session (s : nat) (sess : relay_session) : M unit :=
  modify (fun st => set_sessions (<[s := sess]> (sessions st)) st).

Definition load_viewer_stream (v : nat) : M relay_viewer_stream :=
  fun st => match viewer_streams st !! v with
            | Some vs => inr (vs, st)
            | None => inl BadPointer
            end.

Definition store_viewer_stream (v : nat) (vs : relay_viewer_stream) : M unit :=
  modify (fun st => set_viewer_streams (<[v := vs]> (viewer_streams st)) st).

Definition load_viewer_session (v : nat) : M relay_viewer_session :=
  fun st => match viewer_sessions st !! v with
            | Some vs => inr (vs, st)
            | None => inl BadPointer
            end.

Definition store_viewer_session (v : nat) (vs : relay_viewer_session) : M unit :=
  modify (fun st => set_viewer_sessions (<[v := vs]> (viewer_sessions st)) st).

(** *** RCU read side and deferred reclamation *)

Definition rcu_read_lock : M unit :=
  modify (fun st => set_rcu_nesting (S (rcu_nesting st)) st).

Definition rcu_read_unlock : M unit :=
  modify (fun st => set_rcu_nesting (Nat.pred (rcu_nesting st)) st).

Definition rcu_read_ongoing (st : relayd) : bool :=
  negb (Nat.eqb (rcu_nesting st) 0).

Definition ASSERT_RCU_READ_LOCKED : M unit :=
  let* st := get_state in
  LTTNG_ASSERT (rcu_read_ongoing st) "rcu_read_ongoing()".

(** [rcu_destroy_ctf_trace]: [free(trace)]. *)
Definition rcu_destroy_ctf_trace (t : nat) (st : relayd) : relayd :=
  set_ctf_traces (delete t (ctf_traces st)) st.

(** [call_rcu(&trace->rcu_node, rcu_destroy_ctf_trace)]: the callback is
    queued, it does not run now. *)
Definition call_rcu (t : nat) : M unit :=
  modify (fun st => set_rcu_callbacks (rcu_callbacks st ++ [t]) st).

(** The end of a grace period: every queued callback runs.  A grace period
    cannot end while the read-side critical section that was open when the
    callback was queued is still open. *)
Definition rcu_grace_period (st : relayd) : relayd :=
  match rcu_nesting st with
  | O => set_rcu_callbacks []
           (fold_left (fun acc t => rcu_destroy_ctf_trace t acc)
              (rcu_callbacks st) st)
  | S _ => st
  end.

(** *** Reference counts *)

(** Modelled from the spec: [urcu_ref_init], [urcu_ref_get_unless_zero] and
    [urcu_ref_put] belong to liburcu and are not under src/.  Section 4.1
    gives their contract: a fresh count is 1; acquiring is an atomic
    increment-unless-zero; releasing decrements and runs the release
    function when the count reaches zero.  The count is a C [long]; the
    contract says nothing of a count that reaches [LONG_MAX], and neither
    does this model. *)
Definition urcu_ref_init : Z := 1.

Definition urcu_ref_get_unless_zero (refcount : Z) : bool * Z :=
  if refcount =? 0 then (false, refcount) else (true, refcount + 1).

Definition urcu_ref_put (load : M Z) (store : Z -> M unit) (release : M unit)
  : M unit :=
  let* old := load in
  let res := old - 1 in
  let* _ := store res in
  let* _ := LTTNG_ASSERT (0 <=? res) "urcu_ref_put: res >= 0" in
  if res =? 0 then release else ret tt.

(** Modelled from the spec: [session_get] and [session_put] (session.cpp,
    not under src/) acquire and release a reference on a relay session
    with the primitives above; [session_put(NULL)] does nothing.  The body
    of [session_release] is not modelled: the session is recorded in
    [released_sessions]. *)
Definition session_get (s : nat) : M bool :=
  let* sess := load_session s in
  let (ref, count) := urcu_ref_get_unless_zero (s_ref sess) in
  if ref then
    let* _ := store_session s (set_s_ref count sess) in
    ret true
  else ret false.

Definition session_release (s : nat) : M unit :=
  modify (fun st => set_released_sessions (released_sessions st ++ [s]) st).

Definition session_put (session : option nat) : M unit :=
  match session with
  | None => ret tt
  | Some s =>
      let* _ := rcu_read_lock in
      let* _ := urcu_ref_put
                  (let* sess := load_session s in ret (s_ref sess))
                  (fun v => let* sess := load_session s in
                            store_session s (set_s_ref v sess))
                  (session_release s) in
      rcu_read_unlock
  end.

(** Modelled from the spec: [viewer_stream_get] (viewer-stream.cpp, not
    under src/) is the try-acquire of section 4.1 on a viewer stream. *)
Definition viewer_stream_get (v : nat) : M bool :=
  let* vs := load_viewer_stream v in
  let (ref, count) := urcu_ref_get_unless_zero (vstream_ref vs) in
  if ref then
    let* _ := store_viewer_stream v (mk_relay_viewer_stream count) in
    ret true
  else ret false.

(** *** The session's hash table of traces *)

(** Modelled from the spec: the [lttng_ht_*] wrappers (hashtable.cpp, not
    under src/) over the string-keyed table of traces of section 3.3.
    A lookup yields the first node whose key equals the searched one; an
    add links the node under the key the node was initialised with and
    never refuses; a delete unlinks the given node and returns 0, or a
    negative value when the node is not in the table. *)
Definition lttng_ht_lookup (s : nat) (key : string) : M (option nat) :=
  let* sess := load_session s in
  ret (snd <$> find (fun e => String.eqb (fst e) key) (s_ctf_traces_ht sess)).

Definition lttng_ht_add_str (s : nat) (t : nat) : M unit :=
  let* tr := load_trace t in
  let* key := deref (t_node tr) in
  let* sess := load_session s in
  store_session s (set_s_ctf_traces_ht ((key, t) :: s_ctf_traces_ht sess) sess).

Definition ht_has_node (t : nat) (ht : list (string * nat)) : bool :=
  existsb (fun e => Nat.eqb (snd e) t) ht.

Definition ht_unlink (t : nat) (ht : list (string * nat)) : list (string * nat) :=
  List.filter (fun e => negb (Nat.eqb (snd e) t)) ht.

Definition lttng_ht_del (s : nat) (t : nat) : M Z :=
  let* sess := load_session s in
  if ht_has_node t (s_ctf_traces_ht sess) then
    let* _ := store_session s
                (set_s_ctf_traces_ht (ht_unlink t (s_ctf_traces_ht sess)) sess) in
    ret 0
  else ret (-2).

(** *** ctf-trace.cpp *)

(** [cds_list_empty(head)] is [head == head->next]: false on a zeroed head. *)
Definition cds_list_empty (head : option (list nat)) : bool :=
  match head with
  | Some [] => true
  | _ => false
  end.

Definition ctf_trace_destroy (trace : nat) : M unit :=
  let* tr := load_trace trace in
  let* _ := LTTNG_ASSERT (cds_list_empty (t_stream_list tr))
              "cds_list_empty(&trace->stream_list)" in
  let* _ := ASSERT_RCU_READ_LOCKED in
  let* _ := session_put (t_session tr) in
  let* tr := load_trace trace in
  let* _ := store_trace trace (set_t_path None (set_t_session None tr)) in
  call_rcu trace.

Definition ctf_trace_release (trace : nat) : M unit :=
  let* tr := load_trace trace in
  let* session := deref (t_session tr) in
  let* r := lttng_ht_del session trace in
  let* _ := LTTNG_ASSERT (r =? 0) "!ret" in
  ctf_trace_destroy trace.

Definition ctf_trace_get (trace : nat) : M bool :=
  let* tr := load_trace trace in
  let (ref, count) := urcu_ref_get_unless_zero (t_ref tr) in
  if ref then
    let* _ := store_trace trace (set_t_ref count tr) in
    ret true
  else
    let* _ := ASSERT_RCU_READ_LOCKED in
    ret false.

Definition ctf_trace_put (trace : nat) : M unit :=
  let* _ := rcu_read_lock in
  let* _ := urcu_ref_put
              (let* tr := load_trace trace in ret (t_ref tr))
              (fun v => let* tr := load_trace trace in
                        store_trace trace (set_t_ref v tr))
              (ctf_trace_release trace) in
  rcu_read_unlock.

(** The body of the [cds_list_for_each_entry_rcu] loop of
    [ctf_trace_close], over the streams linked when the loop starts; an RCU
    list traversal tolerates the unlinking of the visited node. *)
Definition close_all (try_stream_close : nat -> relayd -> relayd)
    (streams : list nat) (st : relayd) : relayd :=
  fold_left (fun acc stream => try_stream_close stream acc) streams st.

(** [try_stream_close] (stream.cpp) is not under src/: it is a parameter. *)
Definition ctf_trace_close (try_stream_close : nat -> relayd -> relayd)
    (trace : nat) : M Z :=
  let* _ := rcu_read_lock in
  let* tr := load_trace trace in
  let* streams := deref (t_stream_list tr) in
  let* _ := modify (close_all try_stream_close streams) in
  let* _ := rcu_read_unlock in
  ret 0.

Definition ctf_trace_get_viewer_metadata_stream (trace : nat) : M (option nat) :=
  let* _ := rcu_read_lock in
  let* tr := load_trace trace in
  let* vstream :=
    match t_viewer_metadata_stream tr with
    | None => ret None
    | Some v =>
        let* ok := viewer_stream_get v in
        ret (if ok then Some v else None)
    end in
  let* _ := rcu_read_unlock in
  ret vstream.

(** *** [ctf_trace_get_by_path_or_create] and [ctf_trace_create], step by step

    The two functions are run as a small machine, one step per statement
    (or per critical section) of the source, so that the states between two
    statements exist in the model and the calls of several threads can be
    interleaved.  *)

(** Whether the two allocations of [ctf_trace_create] succeed is decided by
    the environment. *)
Record alloc_outcome : Type := mk_alloc_outcome {
  zmalloc_ok : bool;
  strdup_ok : bool
}.

Definition no_oom : alloc_outcome := mk_alloc_outcome true true.

Inductive pc : Type :=
  | pc_lookup        (* l.152-164: lookup and ctf_trace_get, RCU read side *)
  | pc_zmalloc       (* l.100-104: trace = zmalloc<ctf_trace>() *)
  | pc_ref_init      (* l.105: urcu_ref_init(&trace->ref) *)
  | pc_session_get   (* l.107-110: if (!session_get(session)) goto error *)
  | pc_set_session   (* l.111: trace->session = session *)
  | pc_strdup        (* l.112-115: trace->path = strdup(subpath) *)
  | pc_init_list     (* l.117: CDS_INIT_LIST_HEAD(&trace->stream_list) *)
  | pc_assign_id     (* l.119-121: trace->id = ++last_relay_ctf_trace_id *)
  | pc_node_init     (* l.123: lttng_ht_node_init_str(&trace->node, trace->path) *)
  | pc_locks_init    (* l.124-126: trace->session = session, mutex inits *)
  | pc_ht_add        (* l.127: lttng_ht_add_str(session->ctf_traces_ht, ...) *)
  | pc_error         (* l.136: ctf_trace_put(trace) *)
  | pc_return (r : option nat).  (* l.134, l.137, l.169 *)

(** A call in progress: where it stands, its arguments and its local
    [trace]. *)
Record thread : Type := mk_thread {
  th_pc : pc;
  th_session : nat;
  th_subpath : string;
  th_trace : option nat;
  th_alloc : alloc_outcome
}.

Definition goto (p : pc) (th : thread) : thread :=
  mk_thread p (th_session th) (th_subpath th) (th_trace th) (th_alloc th).

Definition set_th_trace (t : option nat) (th : thread) : thread :=
  mk_thread (th_pc th) (th_session th) (th_subpath th) t (th_alloc th).

Definition zmalloc_ctf_trace (ok : bool) : M (option nat) :=
  if ok then
    let* st := get_state in
    let t := next_ctf_trace st in
    let* _ := modify (fun st =>
                set_next_ctf_trace (S t)
                  (set_ctf_traces (<[t := zeroed_ctf_trace]> (ctf_traces st)) st)) in
    ret (Some t)
  else ret None.

Definition UINT64_MODULUS : Z := 2 ^ 64.

(** [++last_relay_ctf_trace_id] on a [uint64_t], under its mutex. *)
Definition next_relay_ctf_trace_id : M Z :=
  let* st := get_state in
  let v := (last_relay_ctf_trace_id st + 1) mod UINT64_MODULUS in
  let* _ := modify (set_last_relay_ctf_trace_id v) in
  ret v.

(** Update of one field of the thread's local [trace]. *)
Definition update_trace (f : ctf_trace -> ctf_trace) (t : nat) : M unit :=
  let* tr := load_trace t in
  store_trace t (f tr).

Definition step (th : thread) : M thread :=
  match th_pc th with
  | pc_lookup =>
      let* _ := rcu_read_lock in
      let* node := lttng_ht_lookup (th_session th) (th_subpath th) in
      let* trace :=
        match node with
        | None => ret None
        | Some t =>
            let* ok := ctf_trace_get t in
            ret (if ok then Some t else None)
        end in
      let* _ := rcu_read_unlock in
      match trace with
      | Some t => ret (goto (pc_return (Some t)) (set_th_trace (Some t) th))
      | None => ret (goto pc_zmalloc th)
      end
  | pc_zmalloc =>
      let* trace := zmalloc_ctf_trace (zmalloc_ok (th_alloc th)) in
      match trace with
      | None => ret (goto (pc_return None) (set_th_trace None th))
      | Some t => ret (goto pc_ref_init (set_th_trace (Some t) th))
      end
  | pc_ref_init =>
      let* t := deref (th_trace th) in
      let* _ := update_trace (set_t_ref urcu_ref_init) t in
      ret (goto pc_session_get th)
  | pc_session_get =>
      let* ok := session_get (th_session th) in
      if ok then ret (goto pc_set_session th) else ret (goto pc_error th)
  | pc_set_session =>
      let* t := deref (th_trace th) in
      let* _ := update_trace (set_t_session (Some (th_session th))) t in
      ret (goto pc_strdup th)
  | pc_strdup =>
      let* t := deref (th_trace th) in
      if strdup_ok (th_alloc th) then
        let* _ := update_trace (set_t_path (Some (th_subpath th))) t in
        ret (goto pc_init_list th)
      else
        let* _ := update_trace (set_t_path None) t in
        ret (goto pc_error th)
  | pc_init_list =>
      let* t := deref (th_trace th) in
      let* _ := update_trace (set_t_stream_list (Some [])) t in
      ret (goto pc_assign_id th)
  | pc_assign_id =>
      let* t := deref (th_trace th) in
      let* v := next_relay_ctf_trace_id in
      let* _ := update_trace (set_t_id v) t in
      ret (goto pc_node_init th)
  | pc_node_init =>
      let* t := deref (th_trace th) in
      let* _ := update_trace (fun tr => set_t_node (t_path tr) tr) t in
      ret (goto pc_locks_init th)
  | pc_locks_init =>
      let* t := deref (th_trace th) in
      let* _ := update_trace (set_t_session (Some (th_session th))) t in
      ret (goto pc_ht_add th)
  | pc_ht_add =>
      let* t := deref (th_trace th) in
      let* _ := lttng_ht_add_str (th_session th) t in
      ret (goto (pc_return (Some t)) th)
  | pc_error =>
      let* t := deref (th_trace th) in
      let* _ := ctf_trace_put t in
      ret (goto (pc_return None) th)
  | pc_return _ => ret th
  end.

Fixpoint run (fuel : nat) (th : thread) : M thread :=
  match fuel with
  | O => ret th
  | S fuel' =>
      match th_pc th with
      | pc_return _ => ret th
      | _ => let* th' := step th in run fuel' th'
      end
  end.

Definition result_of (th : thread) : M (option nat) :=
  match th_pc th with
  | pc_return r => ret r
  | _ => throw OutOfFuel
  end.

Definition start (entry : pc) (alloc : alloc_outcome) (session : nat)
    (subpath : string) : thread :=
  mk_thread entry session subpath None alloc.

(** The longest path through [ctf_trace_create] takes 10 steps. *)
Definition ctf_trace_create (alloc : alloc_outcome) (session : nat)
    (subpath : string) : M (option nat) :=
  let* th := run 10 (start pc_zmalloc alloc session subpath) in
  result_of th.

Definition ctf_trace_get_by_path_or_create (alloc : alloc_outcome)
    (session : nat) (subpath : string) : M (option nat) :=
  let* th := run 11 (start pc_lookup alloc session subpath) in
  result_of th.

(** Calls of [ctf_trace_get_by_path_or_create(session, subpath)] made one
    after the other, one per allocation outcome; what each returned. *)
Fixpoint get_by_path_or_create_in_sequence (allocs : list alloc_outcome)
    (session : nat) (subpath : string) : M (list (option nat)) :=
  match allocs with
  | [] => ret []
  | alloc :: rest =>
      let* trace := ctf_trace_get_by_path_or_create alloc session subpath in
      let* traces := get_by_path_or_create_in_sequence rest session subpath in
      ret (trace :: traces)
  end.

(** Several calls in flight over one process state.  A schedule picks, at
    each instant, the thread that takes its next step, or lets a grace
    period end. *)
Inductive action : Type :=
  | Run (i : nat)
  | GracePeriod.

Definition sys_step (a : action) (c : list thread * relayd)
  : fault + (list thread * relayd) :=
  let (threads, st) := c in
  match a with
  | Run i =>
      match threads !! i with
      | None => inr c
      | Some th =>
          match step th st with
          | inl f => inl f
          | inr (th', st') => inr (<[i := th']> threads, st')
          end
      end
  | GracePeriod => inr (threads, rcu_grace_period st)
  end.

Fixpoint sys_run (schedule : list action) (c : list thread * relayd)
  : fault + (list thread * relayd) :=
  match schedule with
  | [] => inr c
  | a :: rest =>
      match sys_step a c with
      | inl f => inl f
      | inr c' => sys_run rest c'
      end
  end.

(** *** viewer-session.cpp *)

(** [enum lttng_viewer_attach_return_code], the values [viewer_session_attach]
    returns. *)
Inductive lttng_viewer_attach_return_code : Type :=
  | LTTNG_VIEWER_ATTACH_OK
  | LTTNG_VIEWER_ATTACH_ALREADY
  | LTTNG_VIEWER_ATTACH_UNK.

Definition is_attach_ok (c : lttng_viewer_attach_return_code) : bool :=
  match c with
  | LTTNG_VIEWER_ATTACH_OK => true
  | _ => false
  end.

Definition set_vs_current_trace_chunk (c : option nat)
    (vs : relay_viewer_session) : relay_viewer_session :=
  mk_relay_viewer_session (vs_session_list vs) c.

Definition set_vs_session_list (l : list nat)
    (vs : relay_viewer_session) : relay_viewer_session :=
  mk_relay_viewer_session l (vs_current_trace_chunk vs).

(** [lttng_trace_chunk_copy] belongs to the trace chunk registry, which
    is not under src/: it is the parameter [chunk_copy], [None] being the
    NULL it returns on failure.  Chunk handles are opaque; the reference
    [lttng_trace_chunk_put] drops is the registry's. *)
Definition viewer_session_set_trace_chunk_copy
    (chunk_copy : nat -> option nat) (vsession : nat)
    (relay_session_trace_chunk : option nat) : M Z :=
  let* vs := load_viewer_session vsession in
  let* _ := store_viewer_session vsession (set_vs_current_trace_chunk None vs) in
  match relay_session_trace_chunk with
  | None => ret 0
  | Some chunk =>
      match chunk_copy chunk with
      | None => ret (-1)
      | Some viewer_chunk =>
          let* vs := load_viewer_session vsession in
          let* _ := store_viewer_session vsession
                      (set_vs_current_trace_chunk (Some viewer_chunk) vs) in
          ret 0
      end
  end.

(** [cds_list_add_rcu(&session->viewer_session_node, &vsession->session_list)] *)
Definition session_list_add (vsession session : nat) : M unit :=
  let* vs := load_viewer_session vsession in
  store_viewer_session vsession
    (set_vs_session_list (session :: vs_session_list vs) vs).

(** Whether the list of a viewer session links the node
    [session->viewer_session_node]. *)
Definition session_linked (session : nat) (st : relayd) : bool :=
  bool_decide
    (map_Exists (fun _ vs => session ∈ vs_session_list vs)
       (viewer_sessions st)).

(** [cds_list_del_rcu(&session->viewer_session_node)] writes to the two
    neighbours of the node: a node that a list links leaves that list,
    whichever viewer session the list belongs to; the neighbours of a
    node that no list links are NULL (the node was never linked) or
    stale, and the write faults. *)
Definition session_list_del (session : nat) : M unit :=
  let* st := get_state in
  if session_linked session st then
    modify (fun st =>
      set_viewer_sessions
        ((fun vs => set_vs_session_list
                      (List.filter (fun x => negb (Nat.eqb x session))
                         (vs_session_list vs)) vs)
           <$> viewer_sessions st) st)
  else throw NullDeref.

Definition viewer_session_attach (chunk_copy : nat -> option nat)
    (vsession session : nat) : M lttng_viewer_attach_return_code :=
  let* sess := load_session session in
  let* _ := LTTNG_ASSERT (s_lock sess) "ASSERT_LOCKED(session->lock)" in
  let* got := session_get session in
  if negb got then ret LTTNG_VIEWER_ATTACH_UNK
  else
    let* sess := load_session session in
    let* viewer_attach_status :=
      if s_viewer_attached sess then ret LTTNG_VIEWER_ATTACH_ALREADY
      else
        let* _ := store_session session (set_s_viewer_attached true sess) in
        let* r := viewer_session_set_trace_chunk_copy chunk_copy vsession
                    (s_current_trace_chunk sess) in
        if r =? 0 then ret LTTNG_VIEWER_ATTACH_OK
        else ret LTTNG_VIEWER_ATTACH_UNK in
    let* _ :=
      if is_attach_ok viewer_attach_status
      then session_list_add vsession session
      else session_put (Some session) in
    ret viewer_attach_status.

Definition pthread_mutex_lock_session (session : nat) : M unit :=
  let* sess := load_session session in
  if s_lock sess then throw Deadlock
  else store_session session (set_s_lock true sess).

Definition pthread_mutex_unlock_session (session : nat) : M unit :=
  let* sess := load_session session in
  store_session session (set_s_lock false sess).

Definition viewer_session_detach (vsession session : nat) : M Z :=
  let* _ := pthread_mutex_lock_session session in
  let* sess := load_session session in
  let* r :=
    if negb (s_viewer_attached sess) then ret (-1)
    else
      let* _ := store_session session (set_s_viewer_attached false sess) in
      ret 0 in
  let* _ :=
    if r =? 0 then
      (* pthread_mutex_lock(&vsession->session_list_lock): [vsession] is
         dereferenced; the lock is released before the function goes on *)
      let* _ := load_viewer_session vsession in
      let* _ := session_list_del session in
      session_put (Some session)
    else ret tt in
  let* _ := pthread_mutex_unlock_session session in
  ret r.

(** *** Sample states *)

(** A live session at address 5 with no trace yet, in a process that has
    not created any trace. *)
Definition sample_session : relay_session :=
  mk_relay_session 1 false [] false None.

Definition sample_relayd : relayd :=
  mk_relayd 0 0 [] ∅ 0 {[ 5%nat := sample_session ]} [] ∅ ∅ ∅.

(** The same process once ["ust/uid/1000/64-bit"] was created in the
    session: the trace sits at address 0, holds one reference on the
    session and is itself referenced once. *)
Definition sample_trace : ctf_trace :=
  mk_ctf_trace 1 (Some 5%nat) 1 None (Some [])
    (Some "ust/uid/1000/64-bit"%string) (Some "ust/uid/1000/64-bit"%string).

Definition sample_session_one_trace : relay_session :=
  mk_relay_session 2 false [("ust/uid/1000/64-bit"%string, 0%nat)] false None.

Definition sample_relayd_one_trace : relayd :=
  mk_relayd 1 0 [] {[ 0%nat := sample_trace ]} 1
    {[ 5%nat := sample_session_one_trace ]} [] ∅ ∅ ∅.

(** *** Invariants *)

(** What a lookup may rely on when it finds [tr] under key [k] in the
    table of session [s]: the count is live and every field that
    [ctf_trace_create] sets has been set. *)
Definition constructed (s : nat) (k : string) (tr : ctf_trace) : Prop :=
  0 < t_ref tr /\
  t_session tr = Some s /\
  t_path tr = Some k /\
  t_node tr = Some k /\
  is_Some (t_stream_list tr) /\
  0 < t_id tr.

(** No table links the trace at address [t]. *)
Definition unpublished (st : relayd) (t : nat) : Prop :=
  forall s sess, sessions st !! s = Some sess ->
    ht_has_node t (s_ctf_traces_ht sess) = false.

(** Every entry of every table points to an allocated, fully constructed
    trace that is not awaiting reclamation. *)
Definition tables_ok (st : relayd) : Prop :=
  forall s sess k t,
    sessions st !! s = Some sess ->
    (k, t) ∈ s_ctf_traces_ht sess ->
    (t < next_ctf_trace st)%nat /\
    (t ∉ rcu_callbacks st) /\
    exists tr, ctf_traces st !! t = Some tr /\ constructed s k tr.

(** Sequential use keeps the keys of a table pairwise distinct. *)
Definition keys_unique (st : relayd) : Prop :=
  forall s sess, sessions st !! s = Some sess ->
    NoDup (fst <$> s_ctf_traces_ht sess).

(** The allocator never hands out an address twice. *)
Definition alloc_ok (st : relayd) : Prop :=
  (forall t, is_Some (ctf_traces st !! t) -> (t < next_ctf_trace st)%nat) /\
  (forall t, t ∈ rcu_callbacks st -> (t < next_ctf_trace st)%nat).

(** Ids handed out so far are at most the counter. *)
Definition ids_ok (st : relayd) : Prop :=
  0 <= last_relay_ctf_trace_id st /\
  forall t tr, ctf_traces st !! t = Some tr ->
    0 <= t_id tr <= last_relay_ctf_trace_id st.

(** Two traces that were given an id were given different ones. *)
Definition ids_distinct (st : relayd) : Prop :=
  forall t1 t2 tr1 tr2,
    ctf_traces st !! t1 = Some tr1 ->
    ctf_traces st !! t2 = Some tr2 ->
    0 < t_id tr1 -> t_id tr1 = t_id tr2 -> t1 = t2.

(** The state between two calls of the API made one after the other. *)
Definition wf (st : relayd) : Prop :=
  tables_ok st /\ keys_unique st /\ alloc_ok st /\ ids_ok st.

(** The trace a call of [ctf_trace_create] is still building. *)
Definition under_construction (th : thread) : option nat :=
  match th_pc th with
  | pc_lookup | pc_zmalloc | pc_return _ => None
  | _ => th_trace th
  end.

(** What the statements executed so far have made of the local trace. *)
Definition built (p : pc) (s : nat) (subpath : string) (tr : ctf_trace) : Prop :=
  match p with
  | pc_lookup | pc_zmalloc | pc_return _ | pc_ref_init => True
  | pc_session_get | pc_set_session | pc_error => t_ref tr = 1
  | pc_strdup => t_ref tr = 1 /\ t_session tr = Some s
  | pc_init_list =>
      t_ref tr = 1 /\ t_session tr = Some s /\ t_path tr = Some subpath
  | pc_assign_id =>
      t_ref tr = 1 /\ t_session tr = Some s /\ t_path tr = Some subpath /\
      is_Some (t_stream_list tr)
  | pc_node_init =>
      t_ref tr = 1 /\ t_session tr = Some s /\ t_path tr = Some subpath /\
      is_Some (t_stream_list tr) /\ 0 < t_id tr
  | pc_locks_init | pc_ht_add =>
      t_ref tr = 1 /\ t_session tr = Some s /\ t_path tr = Some subpath /\
      is_Some (t_stream_list tr) /\ 0 < t_id tr /\ t_node tr = Some subpath
  end.

Definition thread_ok (st : relayd) (th : thread) : Prop :=
  forall t, under_construction th = Some t ->
    (t < next_ctf_trace st)%nat /\
    (t ∉ rcu_callbacks st) /\
    unpublished st t /\
    exists tr, ctf_traces st !! t = Some tr /\
               built (th_pc th) (th_session th) (th_subpath th) tr.

(** No two calls are building the same object. *)
Definition threads_distinct (threads : list thread) : Prop :=
  forall i j thi thj t,
    threads !! i = Some thi -> threads !! j = Some thj ->
    under_construction thi = Some t -> under_construction thj = Some t ->
    i = j.

(** The invariant of a system of calls in flight. *)
Definition sys_inv (c : list thread * relayd) : Prop :=
  tables_ok (snd c) /\
  alloc_ok (snd c) /\
  ids_ok (snd c) /\
  ids_distinct (snd c) /\
  (forall i th, fst c !! i = Some th -> thread_ok (snd c) th) /\
  threads_distinct (fst c).

(** The tables of [st'] are those of [st], whatever else changed in the
    sessions. *)
Definition same_tables (st st' : relayd) : Prop :=
  forall s, s_ctf_traces_ht <$> sessions st' !! s
            = s_ctf_traces_ht <$> sessions st !! s.

(** From [st] to [st'] the counter did not go back, and a trace of [st']
    has no id yet, or the id it had in [st], or an id handed out in
    between. *)
Definition ids_grow (st st' : relayd) : Prop :=
  last_relay_ctf_trace_id st <= last_relay_ctf_trace_id st' /\
  forall t tr', ctf_traces st' !! t = Some tr' ->
    t_id tr' = 0 \/
    (exists tr, ctf_traces st !! t = Some tr /\ t_id tr' = t_id tr) \/
    last_relay_ctf_trace_id st < t_id tr' <= last_relay_ctf_trace_id st'.

(** *** The exactly-once claim, as the specification words it *)

(** The entries of session [s] under key [subpath]. *)
Definition published_under (st : relayd) (s : nat) (subpath : string)
  : list nat :=
  match sessions st !! s with
  | Some sess =>
      snd <$> List.filter (fun e => String.eqb (fst e) subpath)
                (s_ctf_traces_ht sess)
  | None => []
  end.

(** Whatever the number of callers of
    [ctf_trace_get_by_path_or_create(session, subpath)] and however their
    steps interleave, at most one trace is published under [subpath] and
    all the callers that return a trace return the same one. *)
Definition exactly_once_under_concurrency : Prop :=
  forall (st : relayd) (s : nat) (subpath : string) (callers : nat)
         (schedule : list action) (threads' : list thread) (st' : relayd),
    wf st ->
    published_under st s subpath = [] ->
    sys_run schedule
      (repeat (start pc_lookup no_oom s subpath) callers, st)
      = inr (threads', st') ->
    (length (published_under st' s subpath) <= 1)%nat /\
    forall th1 th2 t1 t2,
      th1 ∈ threads' -> th2 ∈ threads' ->
      th_pc th1 = pc_return (Some t1) -> th_pc th2 = pc_return (Some t2) ->
      t1 = t2.

(** The state a successful [ctf_trace_create (session, subpath)] leaves
    behind, from the state [st] it was called in ([sess] is the session
    record in [st]); see [ctf_trace_create_succeeds]. *)
Definition after_create (s : nat) (subpath : string) (sess : relay_session)
    (st : relayd) : relayd :=
  mk_relayd
    ((last_relay_ctf_trace_id st + 1) mod UINT64_MODULUS)
    (rcu_nesting st) (rcu_callbacks st)
    (<[next_ctf_trace st :=
         mk_ctf_trace 1 (Some s)
           ((last_relay_ctf_trace_id st + 1) mod UINT64_MODULUS)
           None (Some []) (Some subpath) (Some subpath)]>
       (ctf_traces st))
    (S (next_ctf_trace st))
    (<[s := set_s_ctf_traces_ht
              ((subpath, next_ctf_trace st) :: s_ctf_traces_ht sess)
              (set_s_ref (s_ref sess + 1) sess)]> (sessions st))
    (released_sessions st) (viewer_streams st) (viewer_sessions st)
    (relay_streams st).

(** Two callers that both miss the lookup before either publishes. *)
Definition racing_schedule : list action :=
  [Run 0; Run 1] ++ repeat (Run 0) 10 ++ repeat (Run 1) 10.

(** *** Stream close, and the attach scenario *)

(** Modelled from the spec: [try_stream_close] (stream.cpp, not under
    src/) initiates the transition to [Closing] of a stream that is
    [Indexed] or [Ready] (section 4.3); a stream in another state, or an
    address that is no stream, is left alone. *)
Definition try_stream_close (stream : nat) (st : relayd) : relayd :=
  match relay_streams st !! stream with
  | Some Indexed | Some Ready =>
      set_relay_streams (<[stream := Closing]> (relay_streams st)) st
  | _ => st
  end.

(** A trace with two streams linked, one [Ready] and one [Indexed]. *)
Definition sample_trace_two_streams : ctf_trace :=
  set_t_stream_list (Some [7%nat; 8%nat]) (set_t_ref 2 sample_trace).

Definition sample_relayd_two_streams : relayd :=
  mk_relayd 1 0 [] {[ 0%nat := sample_trace_two_streams ]} 1
    {[ 5%nat := sample_session_one_trace ]} [] ∅ ∅
    {[ 7%nat := Ready; 8%nat := Indexed ]}.

(** Scenario S5 of the specification: attach twice, detach, attach again.
    The caller of [viewer_session_attach] holds the session lock;
    [viewer_session_detach] takes it itself. *)
Definition attach_detach_scenario (chunk_copy : nat -> option nat)
    (vsession session : nat)
  : M (lttng_viewer_attach_return_code * lttng_viewer_attach_return_code
       * Z * lttng_viewer_attach_return_code) :=
  let* first := viewer_session_attach chunk_copy vsession session in
  let* second := viewer_session_attach chunk_copy vsession session in
  let* _ := pthread_mutex_unlock_session session in
  let* detached := viewer_session_detach vsession session in
  let* _ := pthread_mutex_lock_session session in
  let* third := viewer_session_attach chunk_copy vsession session in
  ret (first, second, detached, third).

(** What copying the session's current trace chunk yields for the viewer:
    [None] when [lttng_trace_chunk_copy] fails, otherwise the viewer's new
    current chunk (NULL when the session has no chunk). *)
Definition copied_chunk (chunk_copy : nat -> option nat)
    (relay_session_trace_chunk : option nat) : option (option nat) :=
  match relay_session_trace_chunk with
  | None => Some None
  | Some chunk =>
      match chunk_copy chunk with
      | Some viewer_chunk => Some (Some viewer_chunk)
      | None => None
      end
  end.

(** A session under its lock, with a current trace chunk, no viewer
    attached yet, and a viewer session at address 9. *)
Definition sample_locked_session : relay_session :=
  mk_relay_session 1 true [] false (Some 3%nat).

Definition sample_relayd_viewer : relayd :=
  mk_relayd 0 0 [] ∅ 0 {[ 5%nat := sample_locked_session ]} []
    ∅ {[ 9%nat := mk_relay_viewer_session [] None ]} ∅.

(** A chunk registry whose copies always succeed, and one whose copies
    always fail. *)
Definition chunk_copy_ok (chunk : nat) : option nat := Some (chunk + 100)%nat.

Definition chunk_copy_fails (chunk : nat) : option nat := None.

(** A trace whose viewer metadata stream, at address 4, is published. *)
Definition sample_trace_with_viewer : ctf_trace :=
  mk_ctf_trace 1 (Some 5%nat) 1 (Some 4%nat) (Some [])
    (Some "ust/uid/1000/64-bit"%string) (Some "ust/uid/1000/64-bit"%string).

Definition sample_relayd_with_viewer (vstream_count : Z) : relayd :=
  mk_relayd 1 0 [] {[ 0%nat := sample_trace_with_viewer ]} 1
    {[ 5%nat := sample_session_one_trace ]} []
    {[ 4%nat := mk_relay_viewer_stream vstream_count ]} ∅ ∅.

(** A trace whose last reference was just dropped, seen by a reader inside
    a read-side critical section. *)
Definition sample_relayd_dying : relayd :=
  mk_relayd 1 1 [] {[ 0%nat := set_t_ref 0 sample_trace ]} 1
    {[ 5%nat := sample_session_one_trace ]} [] ∅ ∅ ∅.

(** *** Termination of the machine *)

(** The number of statements a call at [p] may still execute. *)
Definition remaining (p : pc) : nat :=
  match p with
  | pc_lookup => 11
  | pc_zmalloc => 10
  | pc_ref_init => 9
  | pc_session_get => 8
  | pc_set_session => 7
  | pc_strdup => 6
  | pc_init_list => 5
  | pc_assign_id => 4
  | pc_node_init => 3
  | pc_locks_init => 2
  | pc_ht_add => 1
  | pc_error => 1
  | pc_return _ => 0
  end.

(** [c] never stops for lack of fuel. *)
Definition fuel_safe {A : Type} (c : M A) : Prop :=
  forall st, c st <> inl OutOfFuel.

(** Whatever [c] returns satisfies [Q]. *)
Definition returns {A : Type} (c : M A) (Q : A -> Prop) : Prop :=
  forall st x st', c st = inr (x, st') -> Q x.

End Relayd.

(* ===================================================================== *)
(** ** TSDL emitter: environment values and field types *)
(* ===================================================================== *)

Module TsdlEmitter.

Import Tsdl.
Local Open Scope string_scope.

(** Characters the source writes as escapes in its literals. *)
Definition newline : ascii := "010"%char.
Definition tab : ascii := "009"%char.
Definition backslash : ascii := "092"%char.
Definition double_quote : ascii := "034"%char.

(** The C++ literal made of a single line feed. *)
Definition nl : string := String newline "".

(** *** [escape_tsdl_env_string_value] *)

(** The [switch] of the loop: what one character of the value appends.
    The third case appends the C++ literal made of one double quote. *)
Definition escape_env_char (c : ascii) : string :=
  if Ascii.eqb c newline then String backslash "n"
  else if Ascii.eqb c backslash then String backslash (String backslash "")
  else if Ascii.eqb c double_quote then String double_quote ""
  else String c "".

Fixpoint escape_tsdl_env_string_value (original_string : string) : string :=
  match original_string with
  | EmptyString => ""
  | String c rest => escape_env_char c ++ escape_tsdl_env_string_value rest
  end.

(** Reading an escaped value back: a backslash announces ['n'] (a line
    feed) or a second backslash.  The source has no such function; it
    states what a reader of the metadata does with the value. *)
Fixpoint unescape_tsdl_env_string_value (s : string) : string :=
  match s with
  | EmptyString => ""
  | String c rest =>
      if Ascii.eqb c backslash then
        match rest with
        | EmptyString => String c ""
        | String d rest' =>
            String (if Ascii.eqb d "n"%char then newline else d)
              (unescape_tsdl_env_string_value rest')
        end
      else String c (unescape_tsdl_env_string_value rest)
  end.

Fixpoint occurrences (c : ascii) (s : string) : nat :=
  match s with
  | EmptyString => O
  | String d rest =>
      ((if Ascii.eqb d c then 1 else 0) + occurrences c rest)%nat
  end.

(** *** [fmt::format] of numbers *)

(** [fmt::format("{}", n)] of an unsigned integer: its decimal digits. *)
Definition format_unsigned (n : N) : string :=
  NilZero.string_of_uint (N.to_uint n).

(** [fmt::format("{}", z)] of a signed integer: a minus sign when negative,
    then the decimal digits. *)
Definition format_signed (z : Z) : string :=
  NilZero.string_of_int (Z.to_int z).

(** [s] between double quotes. *)
Definition quoted (s : string) : string :=
  String double_quote (s ++ String double_quote "").

(** [std::string::resize(size() + n, '\t')]: [n] tabs are appended. *)
Fixpoint tabs (n : nat) : string :=
  match n with
  | O => ""
  | S n => String tab (tabs n)
  end.

(** *** [tsdl_trace_environment_visitor] *)

(** [lst::environment_field<int64_t>] and
    [lst::environment_field<const char *>]. *)
Inductive environment_field : Type :=
  | int_field (name : string) (value : Z)
  | string_field (name : string) (value : string).

(** The constructor: [_environment{"env {\n"}]. *)
Definition environment_visitor_init : string := "env {" ++ nl.

(** The two [visit] overloads. *)
Definition visit_environment_field (field : environment_field)
    (_environment : string) : string :=
  match field with
  | int_field name value =>
      _environment ++
        (String tab (name ++ " = " ++ format_signed value ++ ";" ++ nl))
  | string_field name value =>
      _environment ++
        (String tab (name ++ " = " ++
           quoted (escape_tsdl_env_string_value value) ++ ";" ++ nl))
  end.

(** [transfer_description]. *)
Definition environment_transfer_description (_environment : string) : string :=
  _environment ++ "};" ++ nl ++ nl.

(** The environment block of a trace class whose environment holds
    [fields], visited in order. *)
Definition environment_block (fields : list environment_field) : string :=
  environment_transfer_description
    (fold_left (fun env field => visit_environment_field field env)
       fields environment_visitor_init).

Definition environment_field_name (field : environment_field) : string :=
  match field with
  | int_field name _ | string_field name _ => name
  end.

(** *** The trace object model, as the visitor reads it

    Modelled from the spec: the classes of [lttng::sessiond::trace]
    (field.hpp, not under src/), after section 3.2 and after the members
    the visitor reads. *)

Inductive byte_order : Type := BIG_ENDIAN_ | LITTLE_ENDIAN_.

Inductive signedness : Type := SIGNED | UNSIGNED.

Inductive base : Type := BINARY | OCTAL | DECIMAL | HEXADECIMAL.

Inductive encoding : Type := ASCII | UTF8.

(** The visitor tells the two clock roles from all the others. *)
Inductive role : Type :=
  | DEFAULT_CLOCK_TIMESTAMP
  | PACKET_END_DEFAULT_CLOCK_TIMESTAMP
  | other_role (tag : nat).

(** [lst::abi]. *)
Record abi : Type := mk_abi {
  bits_per_long : N;
  long_alignment : N;
  uint8_t_alignment : N;
  uint16_t_alignment : N;
  uint32_t_alignment : N;
  uint64_t_alignment : N;
  abi_byte_order : byte_order
}.

(** [lst::integer_type]; the constructor takes the alignment, the byte
    order, the size, the signedness, the base and the roles, in this
    order. *)
Record integer_type : Type := mk_integer_type {
  int_alignment : N;
  int_byte_order : byte_order;
  int_size : N;
  signedness_ : signedness;
  base_ : base;
  roles_ : list role
}.

Record floating_point_type : Type := mk_floating_point_type {
  fp_alignment : N;
  fp_byte_order : byte_order;
  exponent_digits : N;
  mantissa_digits : N
}.

(** A mapping of an enumeration: a name and an inclusive range. *)
Record enumeration_mapping : Type := mk_enumeration_mapping {
  mapping_name : string;
  range_begin : Z;
  range_end : Z
}.

(** [lst::type] and its subclasses.  A structure owns fields, each a name
    and a type; a variant owns choices, each a mapping and a type; a
    location is the vector [elements_] of a [field_location]. *)
#[warnings="-register-all"]
Inductive type : Type :=
  | integer (i : integer_type)
  | floating_point (f : floating_point_type)
  | signed_enumeration (i : integer_type) (mappings_ : list enumeration_mapping)
  | unsigned_enumeration (i : integer_type) (mappings_ : list enumeration_mapping)
  | static_length_array (alignment : N) (element_type : type) (length : N)
  | dynamic_length_array (alignment : N) (element_type : type)
      (length_field_location : list string)
  | static_length_blob (alignment : N) (length_bytes : N)
  | dynamic_length_blob (alignment : N) (length_field_location : list string)
  | null_terminated_string (encoding_ : encoding)
  | structure (fields_ : list (string * type))
  | signed_variant (alignment : N) (selector_field_location : list string)
      (choices_ : list (enumeration_mapping * type))
  | unsigned_variant (alignment : N) (selector_field_location : list string)
      (choices_ : list (enumeration_mapping * type))
  | static_length_string (alignment : N) (encoding_ : encoding) (length : N)
  | dynamic_length_string (alignment : N) (encoding_ : encoding)
      (length_field_location : list string).

(** *** [tsdl_field_visitor] *)

(** The members of the visitor.  [_current_field_name] is a stack, its top
    first; [_type_suffixes] a queue, its front first;
    [_indentation_level] an [unsigned int]. *)
Record tsdl_field_visitor : Type := mk_visitor {
  _current_field_name : list string;
  _current_integer_encoding_override : option encoding;
  _indentation_level : Z;
  _trace_abi : abi;
  _type_suffixes : list string;
  _description : string;
  _bypass_identifier_escape : bool;
  _default_clock_class_name : option string
}.

Definition set_current_field_name (x : list string) (v : tsdl_field_visitor) :=
  mk_visitor x (_current_integer_encoding_override v) (_indentation_level v)
    (_trace_abi v) (_type_suffixes v) (_description v)
    (_bypass_identifier_escape v) (_default_clock_class_name v).

Definition set_encoding_override (x : option encoding) (v : tsdl_field_visitor) :=
  mk_visitor (_current_field_name v) x (_indentation_level v)
    (_trace_abi v) (_type_suffixes v) (_description v)
    (_bypass_identifier_escape v) (_default_clock_class_name v).

Definition set_indentation_level (x : Z) (v : tsdl_field_visitor) :=
  mk_visitor (_current_field_name v) (_current_integer_encoding_override v) x
    (_trace_abi v) (_type_suffixes v) (_description v)
    (_bypass_identifier_escape v) (_default_clock_class_name v).

Definition set_type_suffixes (x : list string) (v : tsdl_field_visitor) :=
  mk_visitor (_current_field_name v) (_current_integer_encoding_override v)
    (_indentation_level v) (_trace_abi v) x (_description v)
    (_bypass_identifier_escape v) (_default_clock_class_name v).

Definition set_description (x : string) (v : tsdl_field_visitor) :=
  mk_visitor (_current_field_name v) (_current_integer_encoding_override v)
    (_indentation_level v) (_trace_abi v) (_type_suffixes v) x
    (_bypass_identifier_escape v) (_default_clock_class_name v).

Definition set_bypass_identifier_escape (x : bool) (v : tsdl_field_visitor) :=
  mk_visitor (_current_field_name v) (_current_integer_encoding_override v)
    (_indentation_level v) (_trace_abi v) (_type_suffixes v) (_description v)
    x (_default_clock_class_name v).

(** The constructor: no field name, no override, no suffix, an empty
    description, escaping enabled. *)
Definition new_visitor (trace_abi : abi) (indentation_level : Z)
    (in_default_clock_class_name : option string) : tsdl_field_visitor :=
  mk_visitor [] None indentation_level trace_abi [] "" false
    in_default_clock_class_name.

(** Ways a visit stops instead of returning. *)
Inductive emit_fault : Type :=
  | Thrown (e : tsdl_error)        (* LTTNG_THROW_ERROR *)
  | AssertFailed (what : string)  (* LTTNG_ASSERT *)
  | EmptyLocation                 (* [elements_.end() - 1] of an empty vector *)
  | EmptyStack.                   (* [top()] of an empty stack *)

Definition R : Type := emit_fault + tsdl_field_visitor.

Definition and_then (r : R) (k : tsdl_field_visitor -> R) : R :=
  match r with
  | inl e => inl e
  | inr v => k v
  end.

Notation "r >>= k" := (and_then r k) (at level 50, left associativity).

(** [_description += s] *)
Definition emit (s : string) (v : tsdl_field_visitor) : tsdl_field_visitor :=
  set_description (_description v ++ s) v.

Definition UINT_MODULUS : Z := 2 ^ 32.

(** [_description.resize(_description.size() + level, '\t')] *)
Definition indent (level : Z) (v : tsdl_field_visitor) : tsdl_field_visitor :=
  emit (tabs (Z.to_nat level)) v.

(** [_indentation_level++] and [_indentation_level--]. *)
Definition indentation_incr (v : tsdl_field_visitor) : tsdl_field_visitor :=
  set_indentation_level ((_indentation_level v + 1) mod UINT_MODULUS) v.

Definition indentation_decr (v : tsdl_field_visitor) : tsdl_field_visitor :=
  set_indentation_level ((_indentation_level v - 1) mod UINT_MODULUS) v.

Definition byte_order_eqb (a b : byte_order) : bool :=
  match a, b with
  | BIG_ENDIAN_, BIG_ENDIAN_ | LITTLE_ENDIAN_, LITTLE_ENDIAN_ => true
  | _, _ => false
  end.

Definition byte_order_str (b : byte_order) : string :=
  match b with
  | BIG_ENDIAN_ => "be"
  | LITTLE_ENDIAN_ => "le"
  end.

(** [" byte_order = {};"], when the order is not the trace's native one. *)
Definition emit_byte_order (order : byte_order) (v : tsdl_field_visitor)
  : tsdl_field_visitor :=
  if byte_order_eqb order (abi_byte_order (_trace_abi v)) then v
  else emit (" byte_order = " ++ byte_order_str order ++ ";") v.

Definition is_clock_role (r : role) : bool :=
  match r with
  | DEFAULT_CLOCK_TIMESTAMP | PACKET_END_DEFAULT_CLOCK_TIMESTAMP => true
  | other_role _ => false
  end.

(** The two [std::find] of [visit(integer_type)]. *)
Definition has_clock_role (roles : list role) : bool :=
  existsb is_clock_role roles.

(** [visit(const lst::integer_type&)].  The [default:] cases of the two
    [switch] cannot be reached from a value of the enumerations. *)
Definition visit_integer (t : integer_type) (v : tsdl_field_visitor) : R :=
  let v := emit "integer { " v in
  let v := emit ("size = " ++ format_unsigned (int_size t) ++
                 "; align = " ++ format_unsigned (int_alignment t) ++ ";") v in
  let v := match signedness_ t with
           | SIGNED => emit " signed = true;" v
           | UNSIGNED => v
           end in
  let v := match base_ t with
           | DECIMAL => v
           | BINARY => emit (" base = " ++ format_unsigned 2 ++ ";") v
           | OCTAL => emit (" base = " ++ format_unsigned 8 ++ ";") v
           | HEXADECIMAL => emit (" base = " ++ format_unsigned 16 ++ ";") v
           end in
  let v := emit_byte_order (int_byte_order t) v in
  let v := match _current_integer_encoding_override v with
           | Some e =>
               set_encoding_override None
                 (emit (" encoding = " ++
                        match e with ASCII => "ASCII" | UTF8 => "UTF8" end ++
                        ";") v)
           | None => v
           end in
  if has_clock_role (roles_ t) then
    match _default_clock_class_name v with
    | None => inl (AssertFailed "_default_clock_class_name")
    | Some name =>
        inr (emit " }" (emit (" map = clock." ++ name ++ ".value;") v))
    end
  else inr (emit " }" v).

(** [visit(const lst::floating_point_type&)] *)
Definition visit_floating_point (t : floating_point_type)
    (v : tsdl_field_visitor) : tsdl_field_visitor :=
  let v := emit ("floating_point { align = " ++ format_unsigned (fp_alignment t) ++
                 "; mant_dig = " ++ format_unsigned (mantissa_digits t) ++
                 "; exp_dig = " ++ format_unsigned (exponent_digits t) ++ ";") v in
  let v := emit_byte_order (fp_byte_order t) v in
  emit " }" v.

(** The body of the loop of [visit_enumeration] over the mappings. *)
Definition emit_mapping (mappings_indentation_level : Z) (first_mapping : bool)
    (mapping : enumeration_mapping) (v : tsdl_field_visitor)
  : tsdl_field_visitor :=
  let v := if first_mapping then v else emit ("," ++ nl) v in
  let v := indent mappings_indentation_level v in
  if Z.eqb (range_begin mapping) (range_end mapping) then
    emit (quoted (mapping_name mapping) ++ " = " ++
          format_signed (range_begin mapping)) v
  else
    emit (quoted (mapping_name mapping) ++ " = " ++
          format_signed (range_begin mapping) ++ " ... " ++
          format_signed (range_end mapping)) v.

Fixpoint emit_mappings (mappings_indentation_level : Z) (first_mapping : bool)
    (mappings : list enumeration_mapping) (v : tsdl_field_visitor)
  : tsdl_field_visitor :=
  match mappings with
  | [] => v
  | mapping :: rest =>
      emit_mappings mappings_indentation_level false rest
        (emit_mapping mappings_indentation_level first_mapping mapping v)
  end.

(** [visit_enumeration]: the underlying integer is described by a visitor
    of its own, built without a default clock class name. *)
Definition visit_enumeration (i : integer_type)
    (mappings : list enumeration_mapping) (v : tsdl_field_visitor) : R :=
  let v := emit "enum : " v in
  match visit_integer i (new_visitor (_trace_abi v) (_indentation_level v) None) with
  | inl e => inl e
  | inr integer_visitor =>
      let v := emit (_description integer_visitor ++ " {" ++ nl) v in
      let mappings_indentation_level :=
        (_indentation_level v + 1) mod UINT_MODULUS in
      let v := emit_mappings mappings_indentation_level true mappings v in
      let v := emit nl v in
      let v := indent (_indentation_level v) v in
      inr (emit "}" v)
  end.

(** The empty structure that carries the alignment of an array, a sequence
    or a variant, named after the field being visited. *)
Definition emit_padding (alignment : N) (v : tsdl_field_visitor) : R :=
  if N.eqb alignment 0 then inr v
  else
    match _current_field_name v with
    | [] => inl (AssertFailed "_current_field_name.size() > 0")
    | top :: _ =>
        inr (indent (_indentation_level v)
               (emit ("struct { } align(" ++ format_unsigned alignment ++ ") " ++
                      top ++ "_padding;" ++ nl) v))
    end.

(** [*(location.elements_.end() - 1)] *)
Definition location_tail (elements_ : list string) : emit_fault + string :=
  match last elements_ with
  | Some name => inr name
  | None => inl EmptyLocation
  end.

(** [_bypass_identifier_escape ? name : escape_tsdl_identifier(name)] *)
Definition identifier (name : string) (v : tsdl_field_visitor)
  : emit_fault + string :=
  if _bypass_identifier_escape v then inr name
  else match escape_tsdl_identifier name with
       | inl e => inl (Thrown e)
       | inr escaped => inr escaped
       end.

(** The identifier at the tail of a location. *)
Definition location_identifier (elements_ : list string) (v : tsdl_field_visitor)
  : emit_fault + string :=
  match location_tail elements_ with
  | inl e => inl e
  | inr name => identifier name v
  end.

(** [_type_suffixes.emplace(s)] *)
Definition emplace_suffix (s : string) (v : tsdl_field_visitor)
  : tsdl_field_visitor :=
  set_type_suffixes (_type_suffixes v ++ [s]) v.

(** [visit(const lst::static_length_array_type&)]; [accept_element] is
    [type.element_type->accept( *this)]. *)
Definition visit_static_length_array (alignment : N)
    (accept_element : tsdl_field_visitor -> R) (length : N)
    (v : tsdl_field_visitor) : R :=
  emit_padding alignment v >>= fun v =>
  accept_element v >>= fun v =>
  inr (emplace_suffix ("[" ++ format_unsigned length ++ "]") v).

(** [visit(const lst::dynamic_length_array_type&)] *)
Definition visit_dynamic_length_array (alignment : N)
    (accept_element : tsdl_field_visitor -> R)
    (length_field_location : list string) (v : tsdl_field_visitor) : R :=
  emit_padding alignment v >>= fun v =>
  accept_element v >>= fun v =>
  match location_identifier length_field_location v with
  | inl e => inl e
  | inr name => inr (emplace_suffix ("[" ++ name ++ "]") v)
  end.

(** The element of a blob: an unsigned hexadecimal integer of 8 bits. *)
Definition uint8_element (alignment : N) (trace_abi : abi) : integer_type :=
  mk_integer_type alignment (abi_byte_order trace_abi) 8 UNSIGNED HEXADECIMAL [].

(** [create_character_type]: the encoding is remembered for the next
    integer, which is the element returned. *)
Definition character_type (trace_abi : abi) : integer_type :=
  mk_integer_type 8 (abi_byte_order trace_abi) 8 UNSIGNED DECIMAL [].

(** [_description += front; pop] until the queue is empty. *)
Fixpoint append_suffixes (suffixes : list string) (description : string)
  : string :=
  match suffixes with
  | [] => description
  | suffix :: rest => append_suffixes rest (description ++ suffix)
  end.

(** [visit(const lst::field&)]; [accept_type] is
    [field.get_type().accept( *this)]. *)
Definition visit_field (name : string) (accept_type : tsdl_field_visitor -> R)
    (v : tsdl_field_visitor) : R :=
  match identifier name v with
  | inl e => inl e
  | inr pushed =>
      let v := set_current_field_name (pushed :: _current_field_name v) v in
      accept_type v >>= fun v =>
      let v := emit " " v in
      match _current_field_name v with
      | [] => inl EmptyStack
      | top :: rest =>
          let v := emit top v in
          let v := set_current_field_name rest v in
          let v := set_type_suffixes []
                     (set_description
                        (append_suffixes (_type_suffixes v) (_description v)) v) in
          inr (emit ";" v)
      end
  end.

(** The [visit] overloads of the types that own other types. *)
Fixpoint visit (t : type) (v : tsdl_field_visitor) {struct t} : R :=
  match t with
  | integer i => visit_integer i v
  | floating_point f => inr (visit_floating_point f v)
  | signed_enumeration i mappings => visit_enumeration i mappings v
  | unsigned_enumeration i mappings => visit_enumeration i mappings v
  | static_length_array alignment element_type length =>
      visit_static_length_array alignment (visit element_type) length v
  | dynamic_length_array alignment element_type location =>
      visit_dynamic_length_array alignment (visit element_type) location v
  | static_length_blob alignment length_bytes =>
      visit_static_length_array alignment
        (visit_integer (uint8_element 8 (_trace_abi v))) length_bytes v
  | dynamic_length_blob alignment location =>
      visit_dynamic_length_array alignment
        (visit_integer (uint8_element 0 (_trace_abi v))) location v
  | null_terminated_string e =>
      match e with
      | ASCII => inr (emit "string { encoding = ASCII }" v)
      | UTF8 => inr (emit "string" v)
      end
  | structure fields =>
      let v := indentation_incr v in
      let v := emit "struct {" v in
      let previous_bypass_identifier_escape := _bypass_identifier_escape v in
      let v := set_bypass_identifier_escape false v in
      (fix visit_fields (fields : list (string * type))
           (v : tsdl_field_visitor) {struct fields} : R :=
         match fields with
         | [] => inr v
         | (name, field_type) :: rest =>
             visit_field name (visit field_type)
               (indent (_indentation_level v) (emit nl v))
             >>= visit_fields rest
         end) fields v >>= fun v =>
      let v := set_bypass_identifier_escape previous_bypass_identifier_escape v in
      let v := indentation_decr v in
      let v := match fields with
               | [] => v
               | _ :: _ => indent (_indentation_level v) (emit nl v)
               end in
      inr (emit "}" v)
  | signed_variant alignment selector choices
  | unsigned_variant alignment selector choices =>
      emit_padding alignment v >>= fun v =>
      let v := indentation_incr v in
      match location_identifier selector v with
      | inl e => inl e
      | inr name =>
          let v := emit ("variant <" ++ name ++ "> {" ++ nl) v in
          let previous_bypass_identifier_escape := _bypass_identifier_escape v in
          let v := set_bypass_identifier_escape true v in
          (fix visit_choices (choices : list (enumeration_mapping * type))
               (v : tsdl_field_visitor) {struct choices} : R :=
             match choices with
             | [] => inr v
             | (mapping, choice_type) :: rest =>
                 visit choice_type (indent (_indentation_level v) v)
                 >>= fun v =>
                 visit_choices rest
                   (emit (" " ++ mapping_name mapping ++ ";" ++ nl) v)
             end) choices v >>= fun v =>
          let v := set_bypass_identifier_escape
                     previous_bypass_identifier_escape v in
          let v := indentation_decr v in
          let v := indent (_indentation_level v) v in
          inr (emit "}" v)
      end
  | static_length_string alignment e length =>
      visit_static_length_array alignment
        (visit_integer (character_type (_trace_abi v))) length
        (set_encoding_override (Some e) v)
  | dynamic_length_string alignment e location =>
      visit_dynamic_length_array alignment
        (visit_integer (character_type (_trace_abi v))) location
        (set_encoding_override (Some e) v)
  end.

(** The two loops of [visit], by name. *)
Fixpoint visit_fields (fields : list (string * type)) (v : tsdl_field_visitor)
  : R :=
  match fields with
  | [] => inr v
  | (name, field_type) :: rest =>
      visit_field name (visit field_type)
        (indent (_indentation_level v) (emit nl v))
      >>= visit_fields rest
  end.

Fixpoint visit_choices (choices : list (enumeration_mapping * type))
    (v : tsdl_field_visitor) : R :=
  match choices with
  | [] => inr v
  | (mapping, choice_type) :: rest =>
      visit choice_type (indent (_indentation_level v) v) >>= fun v =>
      visit_choices rest (emit (" " ++ mapping_name mapping ++ ";" ++ nl) v)
  end.

(** The description of [t] by a fresh visitor, as the top-level visitors
    obtain it ([accept] then [transfer_description]). *)
Definition describe (trace_abi : abi) (indentation_level : Z)
    (default_clock_class_name : option string) (t : type)
  : emit_fault + string :=
  match visit t (new_visitor trace_abi indentation_level
                   default_clock_class_name) with
  | inl e => inl e
  | inr v => inr (_description v)
  end.

(** *** What a type needs for its visit to return *)

(** The tail of a location can be emitted: the location is not empty and,
    unless escaping is bypassed, its tail is not the empty identifier. *)
Definition location_ok (bypass : bool) (elements_ : list string) : bool :=
  match last elements_ with
  | Some name => bypass || negb (String.eqb name "")
  | None => false
  end.

(** An alignment needs a field name to build the padding's name from. *)
Definition padding_ok (named : bool) (alignment : N) : bool :=
  N.eqb alignment 0 || named.

(** A clock role needs a default clock class name. *)
Definition integer_ok (clock : bool) (i : integer_type) : bool :=
  negb (has_clock_role (roles_ i)) || clock.

(** [emittable bypass named clock t]: [t] can be visited by a visitor
    whose escaping is bypassed or not ([bypass]), that is visiting a field
    or not ([named]), and that has a default clock class name or not
    ([clock]). *)
Fixpoint emittable (bypass named clock : bool) (t : type) {struct t} : bool :=
  match t with
  | integer i => integer_ok clock i
  | floating_point _ => true
  | signed_enumeration i _ | unsigned_enumeration i _ => integer_ok false i
  | static_length_array alignment element_type _ =>
      padding_ok named alignment && emittable bypass named clock element_type
  | dynamic_length_array alignment element_type location =>
      padding_ok named alignment && emittable bypass named clock element_type
      && location_ok bypass location
  | static_length_blob alignment _ => padding_ok named alignment
  | dynamic_length_blob alignment location =>
      padding_ok named alignment && location_ok bypass location
  | null_terminated_string _ => true
  | structure fields =>
      (fix fields_ok (fields : list (string * type)) : bool :=
         match fields with
         | [] => true
         | (name, field_type) :: rest =>
             negb (String.eqb name "") && emittable false true clock field_type
             && fields_ok rest
         end) fields
  | signed_variant alignment selector choices
  | unsigned_variant alignment selector choices =>
      padding_ok named alignment && location_ok bypass selector &&
      (fix choices_ok (choices : list (enumeration_mapping * type)) : bool :=
         match choices with
         | [] => true
         | (_, choice_type) :: rest =>
             emittable true named clock choice_type && choices_ok rest
         end) choices
  | static_length_string alignment _ _ => padding_ok named alignment
  | dynamic_length_string alignment _ location =>
      padding_ok named alignment && location_ok bypass location
  end.

Fixpoint fields_ok (clock : bool) (fields : list (string * type)) : bool :=
  match fields with
  | [] => true
  | (name, field_type) :: rest =>
      negb (String.eqb name "") && emittable false true clock field_type
      && fields_ok clock rest
  end.

Fixpoint choices_ok (named clock : bool)
    (choices : list (enumeration_mapping * type)) : bool :=
  match choices with
  | [] => true
  | (_, choice_type) :: rest =>
      emittable true named clock choice_type && choices_ok named clock rest
  end.

(** What a visit gives back unchanged, whatever the type. *)
Definition context (v : tsdl_field_visitor)
  : list string * abi * bool * option string :=
  (_current_field_name v, _trace_abi v, _bypass_identifier_escape v,
   _default_clock_class_name v).

(** *** [trace_class_visitor]: the fragments of a stream class and of an
    event class *)

(** Modelled from the spec: [lst::stream_class] and [lst::event_class]
    (stream-class.hpp and event-class.hpp, not under src/), after section
    3.2 and after the members the visitor reads; a type the class does
    not have is [None]. *)
Record stream_class : Type := mk_stream_class {
  stream_class_id : N;
  default_clock_class_name : option string;
  event_header : option type;
  packet_context : option type;
  event_context : option type
}.

Record event_class : Type := mk_event_class {
  event_class_id : N;
  event_class_stream_class_id : N;
  log_level : Z;
  event_class_name : string;
  model_emf_uri : option string;
  payload : type
}.

(** One optional member of the stream class: a visitor built at
    indentation 1 describes it, and the fragment gains a line. *)
Definition append_member (trace_abi : abi) (label : string)
    (clock_class_name : option string) (member : option type)
    (stream_class_str : string) : emit_fault + string :=
  match member with
  | None => inr stream_class_str
  | Some t =>
      match describe trace_abi 1 clock_class_name t with
      | inl e => inl e
      | inr description =>
          inr (stream_class_str ++
               String tab (label ++ " := " ++ description ++ ";" ++ nl))
      end
  end.

(** [trace_class_visitor::visit(const stream_class&)]: the fragment handed
    to [append_metadata_fragment]. *)
Definition visit_stream_class (trace_abi : abi) (sc : stream_class)
  : emit_fault + string :=
  let stream_class_str :=
    "stream {" ++ nl ++
    String tab ("id = " ++ format_unsigned (stream_class_id sc) ++ ";" ++ nl) in
  match append_member trace_abi "event.header" (default_clock_class_name sc)
          (event_header sc) stream_class_str with
  | inl e => inl e
  | inr stream_class_str =>
      match append_member trace_abi "packet.context"
              (default_clock_class_name sc) (packet_context sc)
              stream_class_str with
      | inl e => inl e
      | inr stream_class_str =>
          match append_member trace_abi "event.context" None
                  (event_context sc) stream_class_str with
          | inl e => inl e
          | inr stream_class_str => inr (stream_class_str ++ "};" ++ nl ++ nl)
          end
      end
  end.

(** [trace_class_visitor::visit(const event_class&)] *)
Definition visit_event_class (trace_abi : abi) (ec : event_class)
  : emit_fault + string :=
  let event_class_str :=
    "event {" ++ nl ++
    String tab ("name = " ++ quoted (event_class_name ec) ++ ";" ++ nl) ++
    String tab ("id = " ++ format_unsigned (event_class_id ec) ++ ";" ++ nl) ++
    String tab ("stream_id = " ++
                format_unsigned (event_class_stream_class_id ec) ++ ";" ++ nl) ++
    String tab ("loglevel = " ++ format_signed (log_level ec) ++ ";" ++ nl) in
  let event_class_str :=
    match model_emf_uri ec with
    | Some uri =>
        event_class_str ++
        String tab ("model.emf.uri = " ++ quoted uri ++ ";" ++ nl)
    | None => event_class_str
    end in
  match describe trace_abi 1 None (payload ec) with
  | inl e => inl e
  | inr description =>
      inr (event_class_str ++
           String tab ("fields := " ++ description ++ ";" ++ nl) ++
           "};" ++ nl ++ nl)
  end.

(** A member the class does not have asks for nothing. *)
Definition member_emittable (clock : bool) (member : option type) : bool :=
  match member with
  | None => true
  | Some t => emittable false false clock t
  end.

Definition is_some {A : Type} (x : option A) : bool :=
  match x with
  | Some _ => true
  | None => false
  end.

Definition produced (r : emit_fault + string) : bool :=
  match r with
  | inr _ => true
  | inl _ => false
  end.

(** Whether a visit returned. *)
Definition returned (r : R) : bool :=
  match r with
  | inr _ => true
  | inl _ => false
  end.

(** The visitor is visiting a field: the stack of names is not empty. *)
Definition in_field (v : tsdl_field_visitor) : bool :=
  match _current_field_name v with
  | [] => false
  | _ :: _ => true
  end.

Definition has_default_clock_class (v : tsdl_field_visitor) : bool :=
  match _default_clock_class_name v with
  | Some _ => true
  | None => false
  end.

(** [visit_variant], by name. *)
Definition visit_variant (alignment : N) (selector : list string)
    (choices : list (enumeration_mapping * type)) (v : tsdl_field_visitor) : R :=
  emit_padding alignment v >>= fun v1 =>
  match location_identifier selector (indentation_incr v1) with
  | inl e => inl e
  | inr name =>
      visit_choices choices
        (set_bypass_identifier_escape true
           (emit ("variant <" ++ name ++ "> {" ++ nl) (indentation_incr v1)))
      >>= fun v' =>
        let v' := indentation_decr
                    (set_bypass_identifier_escape
                       (_bypass_identifier_escape v1) v') in
        inr (emit "}" (indent (_indentation_level v') v'))
  end.

(** The characters [fmt::format] writes for a number. *)
Definition is_digit_or_minus (c : ascii) : bool :=
  (in_range 48 57 c || Ascii.eqb c "-"%char)%bool.

(** *** Induction on types, through the fields and the choices *)

Section TypeInduction.

Variable P : type -> Prop.

Hypothesis H_integer : forall i, P (integer i).
Hypothesis H_floating_point : forall f, P (floating_point f).
Hypothesis H_signed_enumeration : forall i ms, P (signed_enumeration i ms).
Hypothesis H_unsigned_enumeration : forall i ms, P (unsigned_enumeration i ms).
Hypothesis H_static_length_array :
  forall a el n, P el -> P (static_length_array a el n).
Hypothesis H_dynamic_length_array :
  forall a el loc, P el -> P (dynamic_length_array a el loc).
Hypothesis H_static_length_blob : forall a n, P (static_length_blob a n).
Hypothesis H_dynamic_length_blob : forall a loc, P (dynamic_length_blob a loc).
Hypothesis H_null_terminated_string : forall e, P (null_terminated_string e).
Hypothesis H_structure :
  forall fields, Forall (fun f => P (snd f)) fields -> P (structure fields).
Hypothesis H_signed_variant :
  forall a sel choices, Forall (fun c => P (snd c)) choices ->
    P (signed_variant a sel choices).
Hypothesis H_unsigned_variant :
  forall a sel choices, Forall (fun c => P (snd c)) choices ->
    P (unsigned_variant a sel choices).
Hypothesis H_static_length_string : forall a e n, P (static_length_string a e n).
Hypothesis H_dynamic_length_string :
  forall a e loc, P (dynamic_length_string a e loc).

Fixpoint type_nested_ind (t : type) : P t :=
  match t with
  | integer i => H_integer i
  | floating_point f => H_floating_point f
  | signed_enumeration i ms => H_signed_enumeration i ms
  | unsigned_enumeration i ms => H_unsigned_enumeration i ms
  | static_length_array a el n =>
      H_static_length_array a el n (type_nested_ind el)
  | dynamic_length_array a el loc =>
      H_dynamic_length_array a el loc (type_nested_ind el)
  | static_length_blob a n => H_static_length_blob a n
  | dynamic_length_blob a loc => H_dynamic_length_blob a loc
  | null_terminated_string e => H_null_terminated_string e
  | structure fields =>
      H_structure fields
        ((fix go (l : list (string * type)) : Forall (fun f => P (snd f)) l :=
            match l with
            | [] => List.Forall_nil _
            | f :: rest => List.Forall_cons _ _ _ (type_nested_ind (snd f)) (go rest)
            end) fields)
  | signed_variant a sel choices =>
      H_signed_variant a sel choices
        ((fix go (l : list (enumeration_mapping * type))
            : Forall (fun c => P (snd c)) l :=
            match l with
            | [] => List.Forall_nil _
            | c :: rest => List.Forall_cons _ _ _ (type_nested_ind (snd c)) (go rest)
            end) choices)
  | unsigned_variant a sel choices =>
      H_unsigned_variant a sel choices
        ((fix go (l : list (enumeration_mapping * type))
            : Forall (fun c => P (snd c)) l :=
            match l with
            | [] => List.Forall_nil _
            | c :: rest => List.Forall_cons _ _ _ (type_nested_ind (snd c)) (go rest)
            end) choices)
  | static_length_string a e n => H_static_length_string a e n
  | dynamic_length_string a e loc => H_dynamic_length_string a e loc
  end.

End TypeInduction.

(** [v'] has the stack of names, the ABI, the escape mode, the clock class
    name and the indentation level of [v], an [unsigned int]. *)
Definition kept (v v' : tsdl_field_visitor) : Prop :=
  context v' = context v /\
  (0 <= _indentation_level v < UINT_MODULUS ->
   _indentation_level v' = _indentation_level v).

(** [r], had the description held [d] before. *)
Definition prepend (d : string) (r : R) : R :=
  match r with
  | inl e => inl e
  | inr v => inr (set_description (d ++ _description v) v)
  end.

(** [f] only appends to the description, and what it appends, or how it
    fails, does not depend on what the description holds. *)
Definition appends (f : tsdl_field_visitor -> R) : Prop :=
  forall v d,
    f (set_description d v) = prepend d (f (set_description "" v)).

(** The same, of a step that cannot fail. *)
Definition pure_appends (g : tsdl_field_visitor -> tsdl_field_visitor) : Prop :=
  appends (fun v => inr (g v)).

(** Scenarios S2, S3 and S4 of the specification. *)
Definition le_abi : abi := mk_abi 64 8 8 8 8 8 LITTLE_ENDIAN_.

Definition scenario_timestamp : type :=
  structure
    [("ts", integer (mk_integer_type 8 LITTLE_ENDIAN_ 64 UNSIGNED HEXADECIMAL
                       [DEFAULT_CLOCK_TIMESTAMP]))].

Definition scenario_payload : type :=
  structure [("payload", dynamic_length_string 0 UTF8 ["length"])].

Definition scenario_enumeration : type :=
  signed_enumeration (mk_integer_type 8 LITTLE_ENDIAN_ 8 SIGNED DECIMAL [])
    [mk_enumeration_mapping "A" 0 0; mk_enumeration_mapping "B" 1 3].

(** The visitor of an event header in a stream class whose default clock
    class is ["monotonic"], before and after it visited
    [scenario_timestamp]. *)
Definition scenario_visitor : tsdl_field_visitor :=
  new_visitor le_abi 1 (Some "monotonic").

Definition scenario_visitor_after : tsdl_field_visitor :=
  Eval vm_compute in
    match visit scenario_timestamp scenario_visitor with
    | inr v => v
    | inl _ => scenario_visitor
    end.

(** A variant one of whose choices is an array, in a structure. *)
Definition variant_with_array_choice : type :=
  structure
    [("f", unsigned_variant 0 ["tag"]
             [(mk_enumeration_mapping "a" 0 0,
               static_length_array 0
                 (integer (mk_integer_type 8 LITTLE_ENDIAN_ 8 UNSIGNED DECIMAL []))
                 3)])].

(** A stream class with a default clock class whose event context holds
    a timestamp. *)
Definition stream_class_with_clock_in_context : stream_class :=
  mk_stream_class 0 (Some "monotonic") None None (Some scenario_timestamp).

(** An enumeration whose integer carries a clock role. *)
Definition enumeration_with_clock_role : type :=
  unsigned_enumeration
    (mk_integer_type 8 LITTLE_ENDIAN_ 64 UNSIGNED DECIMAL
       [DEFAULT_CLOCK_TIMESTAMP]) [].

End TsdlEmitter.

(* ===================================================================== *)
(** ** Relay daemon: is a viewer attached? *)
(* ===================================================================== *)

Module ViewerSession.

Import Relayd.

(** The [cds_list_for_each_entry_rcu] loop of [viewer_session_is_attached]:
    1 as soon as an entry is the session, 0 at the end of the list. *)
Fixpoint find_session (session : nat) (session_list : list nat) : Z :=
  match session_list with
  | [] => 0
  | iter :: rest =>
      if Nat.eqb session iter then 1 else find_session session rest
  end.

(** [viewer_session_is_attached]; [vsession] may be NULL. *)
Definition viewer_session_is_attached (vsession : option nat) (session : nat)
  : M Z :=
  let* _ := pthread_mutex_lock_session session in
  let* found :=
    match vsession with
    | None => ret 0
    | Some v =>
        let* sess := load_session session in
        if negb (s_viewer_attached sess) then ret 0
        else
          let* _ := rcu_read_lock in
          let* vs := load_viewer_session v in
          let found := find_session session (vs_session_list vs) in
          let* _ := rcu_read_unlock in
          ret found
    end in
  let* _ := pthread_mutex_unlock_session session in
  ret found.

(** What [viewer_session_is_attached] looks for in the state. *)
Definition attached_to (st : relayd) (vsession : option nat) (session : nat)
  : bool :=
  match vsession, sessions st !! session with
  | Some v, Some sess =>
      s_viewer_attached sess &&
      match viewer_sessions st !! v with
      | Some vs => bool_decide (session ∈ vs_session_list vs)
      | None => false
      end
  | _, _ => false
  end.

(** A connection attaches to a session, releases the session lock, asks
    whether it is attached, asks the same of another viewer session,
    detaches, and asks again. *)
Definition attach_query_detach (chunk_copy : nat -> option nat)
    (vsession other session : nat)
  : M (lttng_viewer_attach_return_code * Z * Z * Z * Z) :=
  let* status := viewer_session_attach chunk_copy vsession session in
  let* _ := pthread_mutex_unlock_session session in
  let* mine := viewer_session_is_attached (Some vsession) session in
  let* theirs := viewer_session_is_attached (Some other) session in
  let* detached := viewer_session_detach vsession session in
  let* after := viewer_session_is_attached (Some vsession) session in
  ret (status, mine, theirs, detached, after).

(** The viewer of [sample_relayd_viewer], and a second viewer session at
    address 10. *)
Definition sample_relayd_two_viewers : relayd :=
  set_viewer_sessions
    {[ 9%nat := mk_relay_viewer_session [] None;
       10%nat := mk_relay_viewer_session [] None ]}
    sample_relayd_viewer.

(** A session with a viewer attached through the viewer session at
    address 9, its lock released. *)
Definition sample_relayd_attached : relayd :=
  mk_relayd 0 0 [] ∅ 0
    {[ 5%nat := mk_relay_session 2 false [] true (Some 3%nat) ]} []
    ∅ {[ 9%nat := mk_relay_viewer_session [5%nat] (Some 103%nat) ]} ∅.

(** [session] is unlinked from the list of a viewer session. *)
Definition unlink_session (session : nat) (vs : relay_viewer_session)
  : relay_viewer_session :=
  set_vs_session_list
    (List.filter (fun x => negb (Nat.eqb x session)) (vs_session_list vs)) vs.

End ViewerSession.

(* ===================================================================== *)
(** ** lttng enable-event: exclusions *)
(* ===================================================================== *)

Module EnableEvents.

(** A C string is the list of its characters before the terminating NUL.
    A [const char *] into it is a cursor: what is left of the string, or
    the position just past the terminator, which may be formed but not
    read. *)
Inductive cursor : Type :=
  | at_ (rest : list ascii)
  | past_the_end.

Inductive fault : Type :=
  | OutOfBounds      (* a read past the terminating NUL *)
  | BufferOverflow   (* a write past the end of an allocation *)
  | OutOfFuel.       (* the model ran out of steps; never the C code *)

Definition NUL : ascii := "000"%char.
Definition star : ascii := "*"%char.
Definition backslash : ascii := "092"%char.
Definition double_quote : ascii := "034"%char.

(** [*p] *)
Definition deref (p : cursor) : fault + ascii :=
  match p with
  | at_ [] => inr NUL
  | at_ (c :: _) => inr c
  | past_the_end => inl OutOfBounds
  end.

(** [p++] *)
Definition next (p : cursor) : cursor :=
  match p with
  | at_ (_ :: rest) => at_ rest
  | at_ [] | past_the_end => past_the_end
  end.

(** What [check_exclusion_subsets] returns, and whether it warned. *)
Record verdict : Type := mk_verdict {
  ret : Z;
  warn : bool
}.

(** The label [cmp_chars] and what follows it in the loop: the two
    characters differ ([warn = true; break]) or both cursors advance. *)
Definition cmp_chars (e x : cursor)
    (continue : cursor -> cursor -> fault + verdict) : fault + verdict :=
  match deref x with
  | inl f => inl f
  | inr cx =>
      match deref e with
      | inl f => inl f
      | inr ce =>
          if negb (Ascii.eqb cx ce) then inr (mk_verdict 0 true)
          else continue (next e) (next x)
      end
  end.

(** The [while (true)] loop of [check_exclusion_subsets], one iteration
    per unit of fuel. *)
Fixpoint scan (fuel : nat) (e x : cursor) : fault + verdict :=
  match fuel with
  | O => inl OutOfFuel
  | S fuel =>
      match deref e with
      | inl f => inl f
      | inr ce =>
          if Ascii.eqb ce backslash then
            match deref x with
            | inl f => inl f
            | inr cx =>
                if negb (Ascii.eqb cx ce) then inr (mk_verdict 0 true)
                else cmp_chars (next e) (next x) (scan fuel)
            end
          else
            match deref x with
            | inl f => inl f
            | inr cx =>
                if Ascii.eqb cx star then inr (mk_verdict (-1) false)
                else if Ascii.eqb ce star then inr (mk_verdict 0 false)
                else cmp_chars e x (scan fuel)
            end
      end
  end.

(** [check_exclusion_subsets]: every iteration that goes on moves the
    cursor of the event name forward, and a cursor past the end cannot be
    read, so the loop runs at most [length event_name + 2] times. *)
Definition check_exclusion_subsets (event_name exclusion : list ascii)
  : fault + verdict :=
  scan (length event_name + 2) (at_ event_name) (at_ exclusion).

(** An event name whose only globbing star is its last character, which
    is what [validate_exclusion_list] requires before it calls
    [check_exclusion_subsets]: before the star, ordinary characters and
    escaped characters. *)
Inductive literal_prefix : list ascii -> Prop :=
  | literal_nil : literal_prefix []
  | literal_char (c : ascii) (p : list ascii) :
      c <> NUL -> c <> star -> c <> backslash ->
      literal_prefix p -> literal_prefix (c :: p)
  | literal_escape (c : ascii) (p : list ascii) :
      c <> NUL -> literal_prefix p -> literal_prefix (backslash :: c :: p).

(** No character of [p] is a NUL, a star or a backslash. *)
Definition plain (p : list ascii) : Prop :=
  Forall (fun c => c <> NUL /\ c <> star /\ c <> backslash) p.

(** [exclusion] has a star where the event name still has literal
    characters, or its own star: what comes before the star is the
    beginning of [p]. *)
Definition excludes_all (p exclusion : list ascii) : Prop :=
  exists q r, q `prefix_of` p /\ exclusion = q ++ star :: r.

(** What [check_exclusion_subsets] makes of [exclusion] for the event
    name [p] followed by a star. *)
Definition verdict_for (p exclusion : list ascii) (v : verdict) : Prop :=
  (excludes_all p exclusion /\ v = mk_verdict (-1) false) \/
  (~ excludes_all p exclusion /\ p `prefix_of` exclusion /\
   v = mk_verdict 0 false) \/
  (~ excludes_all p exclusion /\ ~ p `prefix_of` exclusion /\
   v = mk_verdict 0 true).

(** *** [print_exclusions] *)

(** A buffer obtained from [calloc]: so many bytes, all zero at first;
    [text] is the string it holds, the characters before the first NUL. *)
Record buffer : Type := mk_buffer {
  capacity : Z;
  text : list ascii
}.

(** [strcat(ret, src)]: the characters of [src] and a terminating NUL are
    written after the string the buffer holds. *)
Definition strcat (src : list ascii) (b : buffer) : fault + buffer :=
  if Z.of_nat (length (text b) + length src + 1) <=? capacity b
  then inr (mk_buffer (capacity b) (text b ++ src))
  else inl BufferOverflow.

(** [strncpy(ret, src, n)] into a zeroed buffer of [n] bytes: the
    characters of [src], what is left of the buffer staying zero.  When
    [src] and its NUL do not fit, [strncpy] leaves no NUL in the buffer
    and the [strcat] that follows runs past the allocation. *)
Definition strncpy (src : list ascii) (b : buffer) : fault + buffer :=
  if Z.of_nat (length src + 1) <=? capacity b
  then inr (mk_buffer (capacity b) src)
  else inl BufferOverflow.

Definition INT_MODULUS : Z := 2 ^ 32.

(** Conversion to [int] of a value computed in [size_t]. *)
Definition to_int (z : Z) : Z :=
  let w := z mod INT_MODULUS in
  if w <? 2 ^ 31 then w else w - INT_MODULUS.

(** The characters of [" excluding "]; [sizeof(preamble)] counts its
    terminating NUL. *)
Definition preamble : list ascii :=
  list_ascii_of_string " excluding ".

Definition sizeof_preamble : Z := 12.

(** The first loop: [length += strlen(exclusion) + 4]. *)
Fixpoint required_length (exclusions : list (list ascii)) (length_ : Z) : Z :=
  match exclusions with
  | [] => length_
  | exclusion :: rest =>
      required_length rest (to_int (length_ + Z.of_nat (length exclusion) + 4))
  end.

(** The second loop; [remaining] counts the exclusions left, the one at
    hand included, so that [i != count - 1] reads [remaining <> 1]. *)
Fixpoint write_exclusions (exclusions : list (list ascii)) (b : buffer)
  : fault + buffer :=
  match exclusions with
  | [] => inr b
  | exclusion :: rest =>
      match strcat [double_quote] b with
      | inl f => inl f
      | inr b =>
          match strcat exclusion b with
          | inl f => inl f
          | inr b =>
              match strcat [double_quote] b with
              | inl f => inl f
              | inr b =>
                  match rest with
                  | [] => inr b
                  | _ :: _ =>
                      match strcat (list_ascii_of_string ", ") b with
                      | inl f => inl f
                      | inr b => write_exclusions rest b
                      end
                  end
              end
          end
      end
  end.

(** [print_exclusions]: [None] is the NULL returned when the allocation
    fails, which [allocates] decides; the size handed to [calloc] is the
    [int] converted to [size_t]. *)
Definition print_exclusions (allocates : bool) (exclusions : list (list ascii))
  : fault + option buffer :=
  match exclusions with
  | [] => if allocates then inr (Some (mk_buffer 1 [])) else inr None
  | _ :: _ =>
      let length_ := required_length exclusions 0 in
      let length_ := to_int (length_ + sizeof_preamble) in
      if negb allocates then inr None
      else
        match strncpy preamble (mk_buffer (length_ mod 2 ^ 64) []) with
        | inl f => inl f
        | inr b =>
            match write_exclusions exclusions b with
            | inl f => inl f
            | inr b => inr (Some b)
            end
        end
  end.

(** The exclusions between double quotes, separated by [", "]. *)
Fixpoint quoted_list (exclusions : list (list ascii)) : list ascii :=
  match exclusions with
  | [] => []
  | [exclusion] => [double_quote] ++ exclusion ++ [double_quote]
  | exclusion :: rest =>
      [double_quote] ++ exclusion ++ [double_quote] ++
      list_ascii_of_string ", " ++ quoted_list rest
  end.

(** The characters of all the exclusions. *)
Definition total_length (exclusions : list (list ascii)) : Z :=
  Z.of_nat (length (concat exclusions)).

End EnableEvents.

(* ===================================================================== *)
(** ** Filter parser: garbage-collected strings *)
(* ===================================================================== *)

Module FilterParser.

(** [struct gc_string]: the link [gc] is the membership of the list
    [allocated_strings]; [s] is the string held by the flexible array
    member, the characters before its NUL. *)
Record gc_string : Type := mk_gc_string {
  alloclen : Z;
  s : list ascii
}.

(** [struct filter_parser_ctx], as far as the strings go:
    - [allocated_strings]: the list head, most recent first;
    - [strings]: the [gc_string] objects allocated and not freed;
    - [next_string]: the next address [zmalloc] hands out. *)
Record filter_parser_ctx : Type := mk_filter_parser_ctx {
  allocated_strings : list nat;
  strings : gmap nat gc_string;
  next_string : nat
}.

Inductive fault : Type :=
  | NullDeref        (* a write through a NULL pointer *)
  | BadPointer       (* a use of a freed or never allocated string *)
  | BufferOverflow   (* a write past the end of an allocation *)
  | Hang.            (* a loop that never ends *)

Definition M (A : Type) : Type := filter_parser_ctx -> fault + (A * filter_parser_ctx).

Definition ret {A : Type} (x : A) : M A := fun ctx => inr (x, ctx).

Definition bind {A B : Type} (c : M A) (k : A -> M B) : M B :=
  fun ctx => match c ctx with
             | inl f => inl f
             | inr (x, ctx') => k x ctx'
             end.

Definition throw {A : Type} (f : fault) : M A := fun _ => inl f.

Notation "'let*' x ':=' c 'in' k" := (bind c (fun x => k))
  (at level 10, x name, c at level 100, k at level 200).

(** On the LP64 targets of the tools a [size_t] and a [long] have 64
    bits, and [struct gc_string] before its flexible array member is two
    pointers and a [size_t]. *)
Definition SIZE_MODULUS : Z := 2 ^ 64.
Definition sizeof_long : Z := 8.
Definition sizeof_gc_string : Z := 24.

(** [for (alloclen = 8; alloclen < need; alloclen *= 2);] in [size_t].
    After 61 doublings [alloclen] is 0 and stays 0: [None] is a loop that
    never ends (see [double_until_hangs]). *)
Fixpoint double_until (fuel : nat) (alloclen_ need : Z) : option Z :=
  match fuel with
  | O => None
  | S fuel =>
      if alloclen_ <? need
      then double_until fuel ((alloclen_ * 2) mod SIZE_MODULUS) need
      else Some alloclen_
  end.

(** The bound of the loop:
    [sizeof(long) + sizeof( *gstr) + len], in [size_t]. *)
Definition needed (len : Z) : Z :=
  (sizeof_long + sizeof_gc_string + len) mod SIZE_MODULUS.

Definition alloclen_for (len : Z) : option Z :=
  double_until 64 8 (needed len).

Definition load (p : nat) : M gc_string :=
  fun ctx => match strings ctx !! p with
             | Some g => inr (g, ctx)
             | None => inl BadPointer
             end.

Definition store (p : nat) (g : gc_string) : M unit :=
  fun ctx => inr (tt, mk_filter_parser_ctx (allocated_strings ctx)
                        (<[p := g]> (strings ctx)) (next_string ctx)).

(** [cds_list_add(&gstr->gc, &parser_ctx->allocated_strings)] *)
Definition cds_list_add (p : nat) : M unit :=
  fun ctx => inr (tt, mk_filter_parser_ctx (p :: allocated_strings ctx)
                        (strings ctx) (next_string ctx)).

(** [cds_list_del(&gstr->gc)] *)
Definition cds_list_del (p : nat) : M unit :=
  fun ctx => inr (tt, mk_filter_parser_ctx
                        (List.filter (fun q => negb (Nat.eqb q p))
                           (allocated_strings ctx))
                        (strings ctx) (next_string ctx)).

(** [free(gstr)] *)
Definition free (p : nat) : M unit :=
  fun ctx => match strings ctx !! p with
             | Some _ =>
                 inr (tt, mk_filter_parser_ctx (allocated_strings ctx)
                            (delete p (strings ctx)) (next_string ctx))
             | None => inl BadPointer
             end.

(** [zmalloc<gc_string>(alloclen)]: [alloclen] zeroed bytes at a fresh
    address, or NULL when [allocates] is false. *)
Definition zmalloc (allocates : bool) (alloclen_ : Z) : M (option nat) :=
  fun ctx =>
    if allocates then
      inr (Some (next_string ctx),
           mk_filter_parser_ctx (allocated_strings ctx)
             (<[next_string ctx := mk_gc_string 0 []]> (strings ctx))
             (S (next_string ctx)))
    else inr (None, ctx).

(** [gc_string_alloc]; writing the members of the structure needs the
    allocation to hold them. *)
Definition gc_string_alloc (allocates : bool) (len : Z) : M (option nat) :=
  match alloclen_for len with
  | None => throw Hang
  | Some alloclen_ =>
      let* gstr := zmalloc allocates alloclen_ in
      match gstr with
      | None => ret None
      | Some p =>
          if alloclen_ <? sizeof_gc_string then throw BufferOverflow
          else
            let* _ := cds_list_add p in
            let* _ := store p (mk_gc_string alloclen_ []) in
            ret (Some p)
      end
  end.

(** The bytes left to [s] by an allocation of [alloclen] bytes. *)
Definition room (g : gc_string) : Z := alloclen g - sizeof_gc_string.

(** [strcpy(gstr->s, src)] and [strcat(gstr->s, src)]; [gstr] may be
    NULL. *)
Definition strcpy (gstr : option nat) (src : list ascii) : M unit :=
  match gstr with
  | None => throw NullDeref
  | Some p =>
      let* g := load p in
      if Z.of_nat (length src) + 1 <=? room g
      then store p (mk_gc_string (alloclen g) src)
      else throw BufferOverflow
  end.

Definition strcat (gstr : option nat) (src : list ascii) : M unit :=
  match gstr with
  | None => throw NullDeref
  | Some p =>
      let* g := load p in
      if Z.of_nat (length (s g) + length src) + 1 <=? room g
      then store p (mk_gc_string (alloclen g) (s g ++ src))
      else throw BufferOverflow
  end.

(** [strlen(gstr->s)], a [size_t]. *)
Definition strlen (p : nat) : M Z :=
  let* g := load p in
  ret (Z.of_nat (length (s g))).

(** [gc_string_append]; the result of [gc_string_alloc] is used
    unchecked. *)
Definition gc_string_append (allocates : bool) (gstr gsrc : nat) : M nat :=
  let* len_src := strlen gsrc in
  let* len_str := strlen gstr in
  let newlen := (len_src + len_str + 1) mod SIZE_MODULUS in
  match alloclen_for newlen with
  | None => throw Hang
  | Some alloclen_ =>
      let* dst := load gstr in
      let* gstr :=
        if alloclen dst <? alloclen_ then
          let* newgstr := gc_string_alloc allocates newlen in
          let* dst := load gstr in
          let* _ := strcpy newgstr (s dst) in
          let* src := load gsrc in
          let* _ := strcat newgstr (s src) in
          let* _ := cds_list_del gstr in
          let* _ := free gstr in
          match newgstr with
          | Some p => ret p
          | None => throw NullDeref
          end
        else
          let* src := load gsrc in
          let* _ := strcat (Some gstr) (s src) in
          ret gstr in
      let* _ := cds_list_del gsrc in
      let* _ := free gsrc in
      ret gstr
  end.

(** [setstring]: [lvalp->gs], the result of [gc_string_alloc], is
    written through unchecked. *)
Definition setstring (allocates : bool) (src : list ascii) : M (option nat) :=
  let* gs := gc_string_alloc allocates
               ((Z.of_nat (length src) + 1) mod SIZE_MODULUS) in
  let* _ := strcpy gs src in
  ret gs.

(** [free_strings(&parser_ctx->allocated_strings)]: every string linked
    is freed. *)
Fixpoint free_each (l : list nat) : M unit :=
  match l with
  | [] => ret tt
  | gstr :: rest =>
      let* _ := free gstr in
      free_each rest
  end.

Definition free_strings : M unit :=
  fun ctx => free_each (allocated_strings ctx) ctx.

(** What the lexer and the grammar do with strings: a token is set, or
    two strings of a character sequence are appended. *)
Inductive string_action : Type :=
  | Setstring (src : list ascii)
  | Append (gstr gsrc : nat).

Definition run_action (a : string_action) : M unit :=
  match a with
  | Setstring src =>
      let* _ := setstring true src in
      ret tt
  | Append gstr gsrc =>
      let* _ := gc_string_append true gstr gsrc in
      ret tt
  end.

Fixpoint run_actions (l : list string_action) : M unit :=
  match l with
  | [] => ret tt
  | a :: rest =>
      let* _ := run_action a in
      run_actions rest
  end.

(** The list [allocated_strings] links each allocated string once, and
    nothing else; addresses not handed out yet are not allocated. *)
Definition tracked (ctx : filter_parser_ctx) : Prop :=
  NoDup (allocated_strings ctx) /\
  (forall p, p ∈ allocated_strings ctx <-> is_Some (strings ctx !! p)) /\
  (forall p, is_Some (strings ctx !! p) -> (p < next_string ctx)%nat).

(** [c], where it returns, keeps [I]. *)
Definition preserves {A : Type} (I : filter_parser_ctx -> Prop) (c : M A) : Prop :=
  forall ctx x ctx', I ctx -> c ctx = inr (x, ctx') -> I ctx'.

(** A fresh context: [CDS_INIT_LIST_HEAD(&parser_ctx->allocated_strings)]. *)
Definition empty_ctx : filter_parser_ctx := mk_filter_parser_ctx [] ∅ 0.

(** Two tokens, the second too long for the allocation of the first. *)
Definition sample_ctx : filter_parser_ctx :=
  mk_filter_parser_ctx [1%nat; 0%nat]
    (<[1%nat := mk_gc_string 128
                  (list_ascii_of_string "cdefghijklmnopqrstuvwxyzabcdefghijklm")]>
       (<[0%nat := mk_gc_string 64 (list_ascii_of_string "ab")]> ∅))
    2.

(** Three tokens are set, then the first two are appended. *)
Definition sample_actions : list string_action :=
  [ Setstring (list_ascii_of_string "ab");
    Setstring (list_ascii_of_string "cdefghijklmnopqrstuvwxyzabcdefghijklm");
    Setstring (list_ascii_of_string "n");
    Append 0 1 ].

End FilterParser.

(* ===================================================================== *)
(** ** Snapshot outputs: lookup by name *)
(* ===================================================================== *)

Module Snapshot.

Definition NUL : ascii := Ascii.zero.

(** A [char] array is the list of its bytes before the end of the array;
    reading past the last byte of the list reads the NUL that ends the
    string. *)
Definition first_char (str : list ascii) : ascii := hd NUL str.

(** [strlen(str)] *)
Fixpoint strlen (str : list ascii) : nat :=
  match str with
  | [] => 0
  | c :: rest => if Ascii.eqb c NUL then 0 else S (strlen rest)
  end.

(** [strncmp(s1, s2, n)]: at most [n] characters are compared, as
    [unsigned char], and the comparison stops after a NUL. *)
Fixpoint strncmp (s1 s2 : list ascii) (n : nat) : Z :=
  match n with
  | O => 0
  | S n =>
      let c1 := first_char s1 in
      let c2 := first_char s2 in
      if negb (Ascii.eqb c1 c2)
      then Z.of_nat (nat_of_ascii c1) - Z.of_nat (nat_of_ascii c2)
      else if Ascii.eqb c1 NUL then 0
      else strncmp (tl s1) (tl s2) n
  end.

(** The string an array holds: its characters before the first NUL. *)
Definition c_str (str : list ascii) : list ascii := take (strlen str) str.

(** [struct snapshot_output], as far as the lookup goes. *)
Record snapshot_output : Type := mk_snapshot_output {
  id : Z;
  name : list ascii
}.

Inductive fault : Type :=
  | AssertFailed.

(** [cds_lfht_for_each_entry(snapshot->output_ht->ht, ...)]: [outputs] are
    the entries of the table in the order of the iteration. *)
Fixpoint for_each_entry (name_ : list ascii) (outputs : list snapshot_output)
    : option snapshot_output :=
  match outputs with
  | [] => None
  | output :: rest =>
      if strncmp (name output) name_ (strlen name_) =? 0
      then Some output
      else for_each_entry name_ rest
  end.

(** [snapshot_find_output_by_name(name, snapshot)]; both pointers may be
    NULL, and [rcu_read_locked] tells whether the caller is inside a
    read-side critical section. *)
Definition snapshot_find_output_by_name (rcu_read_locked : bool)
    (name_ : option (list ascii)) (snapshot : option (list snapshot_output))
    : fault + option snapshot_output :=
  match snapshot with
  | None => inl AssertFailed
  | Some outputs =>
      match name_ with
      | None => inl AssertFailed
      | Some name_ =>
          if rcu_read_locked
          then inr (for_each_entry name_ outputs)
          else inl AssertFailed
      end
  end.

(** Two outputs with their default names, the later one first in the
    table. *)
Definition sample_outputs : list snapshot_output :=
  [ mk_snapshot_output 10 (list_ascii_of_string "snapshot-10");
    mk_snapshot_output 1 (list_ascii_of_string "snapshot-1") ].

End Snapshot.

(* ===================================================================== *)
(** ** The stop-session action *)
(* ===================================================================== *)

Module StopSession.

Definition NUL : ascii := Ascii.zero.

(** [enum lttng_action_status], the values the functions below return. *)
Inductive lttng_action_status : Type :=
  | LTTNG_ACTION_STATUS_OK
  | LTTNG_ACTION_STATUS_ERROR
  | LTTNG_ACTION_STATUS_INVALID.

Inductive fault : Type :=
  | AssertFailed   (* [assert] *)
  | OutOfBounds.   (* a read past the end of a buffer view *)

(** [strlen(str)], [str] being the bytes from a pointer on. *)
Fixpoint strlen (str : list ascii) : nat :=
  match str with
  | [] => 0
  | c :: rest => if Ascii.eqb c NUL then 0 else S (strlen rest)
  end.

(** The string at a pointer: the bytes before the first NUL. *)
Definition c_str (str : list ascii) : list ascii := take (strlen str) str.

(** [strcmp(a, b)]: the characters are compared as [unsigned char]. *)
Fixpoint strcmp (a b : list ascii) : Z :=
  match a, b with
  | [], [] => 0
  | [], c :: _ => - Z.of_nat (nat_of_ascii c)
  | c :: _, [] => Z.of_nat (nat_of_ascii c)
  | c1 :: a, c2 :: b =>
      if Ascii.eqb c1 c2 then strcmp a b
      else Z.of_nat (nat_of_ascii c1) - Z.of_nat (nat_of_ascii c2)
  end.

(** The four bytes of a [uint32_t] in memory, on a little-endian host. *)
Definition byte_of (n : Z) : ascii := ascii_of_N (Z.to_N (n mod 256)).
Definition value_of (c : ascii) : Z := Z.of_N (N_of_ascii c).

Definition UINT32_MODULUS : Z := 2 ^ 32.

Definition uint32_bytes (n : Z) : list ascii :=
  [ byte_of n; byte_of (n / 256); byte_of (n / 65536); byte_of (n / 16777216) ].

Definition uint32_at (data : list ascii) : option Z :=
  match data with
  | b0 :: b1 :: b2 :: b3 :: _ =>
      Some (value_of b0 + 256 * value_of b1 + 65536 * value_of b2
            + 16777216 * value_of b3)
  | _ => None
  end.

(** [sizeof(struct lttng_action_stop_session_comm)]: the structure is
    packed and ends with a flexible array member. *)
Definition sizeof_comm : Z := 4.

Section Action.

(** The firing policies, the dynamic buffers, the buffer views and the
    allocator are not part of this file: their functions are parameters.
    - [lttng_firing_policy_serialize] and [lttng_dynamic_buffer_append]
      return their status and the buffer they leave;
    - [lttng_firing_policy_create_from_payload] returns the length it
      consumed, negative on error, and the policy it created;
    - [lttng_buffer_view_contains_string] takes the view, the offset of the
      string in the view and a length;
    - [lttng_payload_view_from_view] takes the view and an offset, the
      length being -1;
    - [strdup] and [zmalloc] fail by returning NULL. *)
Variable lttng_firing_policy : Type.
Variable lttng_firing_policy_every_n_create : Z -> option lttng_firing_policy.
Variable lttng_firing_policy_copy :
  lttng_firing_policy -> option lttng_firing_policy.
Variable lttng_firing_policy_is_equal :
  option lttng_firing_policy -> option lttng_firing_policy -> bool.
Variable lttng_firing_policy_serialize :
  option lttng_firing_policy -> list ascii -> Z * list ascii.
Variable lttng_firing_policy_create_from_payload :
  list ascii -> Z * option lttng_firing_policy.
Variable lttng_dynamic_buffer_append :
  list ascii -> list ascii -> Z * list ascii.
Variable lttng_buffer_view_contains_string : list ascii -> Z -> Z -> bool.
Variable lttng_payload_view_from_view : list ascii -> Z -> list ascii.
Variable strdup : list ascii -> option (list ascii).
Variable zmalloc : bool.

(** [struct lttng_action_stop_session]; the members it owns are held by
    value, NULL being [None]: to free one is to drop it. *)
Record lttng_action_stop_session : Type := mk_lttng_action_stop_session {
  session_name : option (list ascii);
  policy : option lttng_firing_policy
}.

(** What a [struct lttng_action *] points to: a stop-session action, or
    an action of another type. *)
Inductive lttng_action : Type :=
  | stop_session_action (a : lttng_action_stop_session)
  | other_action (type : Z).

(** [IS_STOP_SESSION_ACTION(action)] *)
Definition IS_STOP_SESSION_ACTION (action : lttng_action) : bool :=
  match action with
  | stop_session_action _ => true
  | other_action _ => false
  end.

Definition lttng_action_stop_session_validate
    (action : option lttng_action_stop_session) : bool :=
  match action with
  | None => false
  | Some action_stop_session =>
      match session_name action_stop_session with
      | None => false
      | Some name => negb (Nat.eqb (strlen name) 0)
      end
  end.

Definition lttng_action_stop_session_is_equal
    (a b : lttng_action_stop_session) : fault + bool :=
  match session_name a, session_name b with
  | Some name_a, Some name_b =>
      if negb (strcmp (c_str name_a) (c_str name_b) =? 0) then inr false
      else inr (lttng_firing_policy_is_equal (policy a) (policy b))
  | _, _ => inl AssertFailed
  end.

Definition lttng_action_stop_session_serialize
    (action : lttng_action_stop_session) (payload : list ascii)
    : fault + (Z * list ascii) :=
  match session_name action with
  | None => inl AssertFailed
  | Some name =>
      let session_name_len := Z.of_nat (strlen name) + 1 in
      let comm := uint32_bytes (session_name_len mod UINT32_MODULUS) in
      let (ret, payload) := lttng_dynamic_buffer_append payload comm in
      if negb (ret =? 0) then inr (-1, payload)
      else
        let (ret, payload) :=
          lttng_dynamic_buffer_append payload (c_str name ++ [NUL]) in
        if negb (ret =? 0) then inr (-1, payload)
        else
          let (ret, payload) :=
            lttng_firing_policy_serialize (policy action) payload in
          if negb (ret =? 0) then inr (-1, payload)
          else inr (0, payload)
  end.

Definition lttng_action_stop_session_set_firing_policy
    (action : option lttng_action) (policy_ : option lttng_firing_policy)
    : lttng_action_status * option lttng_action :=
  match action, policy_ with
  | Some (stop_session_action stop_session_action_), Some policy_ =>
      match lttng_firing_policy_copy policy_ with
      | None => (LTTNG_ACTION_STATUS_ERROR, action)
      | Some copy =>
          (LTTNG_ACTION_STATUS_OK,
           Some (stop_session_action
                   (mk_lttng_action_stop_session
                      (session_name stop_session_action_) (Some copy))))
      end
  | _, _ => (LTTNG_ACTION_STATUS_INVALID, action)
  end.

Definition lttng_action_stop_session_get_firing_policy
    (action : option lttng_action) (policy_ : bool)
    : lttng_action_status * option (option lttng_firing_policy) :=
  match action with
  | Some (stop_session_action stop_session_action_) =>
      if policy_
      then (LTTNG_ACTION_STATUS_OK, Some (policy stop_session_action_))
      else (LTTNG_ACTION_STATUS_INVALID, None)
  | _ => (LTTNG_ACTION_STATUS_INVALID, None)
  end.

Definition lttng_action_stop_session_create : option lttng_action :=
  match lttng_firing_policy_every_n_create 1 with
  | None => None
  | Some policy_ =>
      if zmalloc then
        let action :=
          stop_session_action (mk_lttng_action_stop_session None None) in
        match lttng_action_stop_session_set_firing_policy
                (Some action) (Some policy_) with
        | (LTTNG_ACTION_STATUS_OK, action) => action
        | _ => None
        end
      else None
  end.

Definition lttng_action_stop_session_set_session_name
    (action : option lttng_action) (session_name_ : option (list ascii))
    : lttng_action_status * option lttng_action :=
  match action, session_name_ with
  | Some (stop_session_action action_stop_session), Some session_name_ =>
      if Nat.eqb (strlen session_name_) 0
      then (LTTNG_ACTION_STATUS_INVALID, action)
      else
        match strdup (c_str session_name_) with
        | None =>
            (LTTNG_ACTION_STATUS_ERROR,
             Some (stop_session_action
                     (mk_lttng_action_stop_session
                        None (policy action_stop_session))))
        | Some copy =>
            (LTTNG_ACTION_STATUS_OK,
             Some (stop_session_action
                     (mk_lttng_action_stop_session
                        (Some copy) (policy action_stop_session))))
        end
  | _, _ => (LTTNG_ACTION_STATUS_INVALID, action)
  end.

Definition lttng_action_stop_session_get_session_name
    (action : option lttng_action) (session_name_ : bool)
    : lttng_action_status * option (option (list ascii)) :=
  match action with
  | Some (stop_session_action action_stop_session) =>
      if session_name_
      then (LTTNG_ACTION_STATUS_OK, Some (session_name action_stop_session))
      else (LTTNG_ACTION_STATUS_INVALID, None)
  | _ => (LTTNG_ACTION_STATUS_INVALID, None)
  end.

(** [lttng_action_stop_session_create_from_payload]: the length consumed
    and what [*p_action] is set to, when it is set.  The member
    [session_name_len] is read before anything is known of the size of
    the view. *)
Definition lttng_action_stop_session_create_from_payload
    (view : list ascii) : fault + (Z * option lttng_action) :=
  match uint32_at view with
  | None => inl OutOfBounds
  | Some session_name_len =>
      let session_name_ := drop (Z.to_nat sizeof_comm) view in
      if negb (lttng_buffer_view_contains_string view sizeof_comm
                 session_name_len)
      then inr (-1, None)
      else
        let consumed_len := sizeof_comm + session_name_len in
        let policy_view := lttng_payload_view_from_view view consumed_len in
        let (ret, policy_) :=
          lttng_firing_policy_create_from_payload policy_view in
        if ret <? 0 then inr (-1, None)
        else
          let consumed_len := consumed_len + ret in
          match lttng_action_stop_session_create with
          | None => inr (-1, None)
          | Some action =>
              match lttng_action_stop_session_set_session_name
                      (Some action) (Some session_name_) with
              | (LTTNG_ACTION_STATUS_OK, action) =>
                  match policy_ with
                  | None => inl AssertFailed
                  | Some _ =>
                      match lttng_action_stop_session_set_firing_policy
                              action policy_ with
                      | (LTTNG_ACTION_STATUS_OK, action) =>
                          inr (consumed_len, action)
                      | _ => inr (-1, None)
                      end
                  end
              | _ => inr (-1, None)
              end
          end
  end.

End Action.

Arguments mk_lttng_action_stop_session {lttng_firing_policy}.
Arguments session_name {lttng_firing_policy}.
Arguments policy {lttng_firing_policy}.
Arguments stop_session_action {lttng_firing_policy}.
Arguments other_action {lttng_firing_policy}.

(** A host for the examples: no allocation fails, a firing policy is one
    byte and is serialized as that byte. *)
Definition sample_every_n_create (n : Z) : option ascii := Some (byte_of n).
Definition sample_copy (p : ascii) : option ascii := Some p.
Definition sample_serialize (p : option ascii) (buffer : list ascii)
    : Z * list ascii :=
  match p with
  | Some p => (0, buffer ++ [p])
  | None => (-1, buffer)
  end.
Definition sample_create_from_payload (view : list ascii) : Z * option ascii :=
  match view with
  | p :: _ => (1, Some p)
  | [] => (-1, None)
  end.
Definition sample_append (buffer data : list ascii) : Z * list ascii :=
  (0, buffer ++ data).
Definition sample_contains_string (view : list ascii) (offset len : Z) : bool :=
  let str := drop (Z.to_nat offset) view in
  (0 <=? offset) && (strlen str <? length str)%nat
  && (Z.of_nat (strlen str) + 1 =? len).
Definition sample_view_from_view (view : list ascii) (offset : Z) : list ascii :=
  drop (Z.to_nat offset) view.
Definition sample_strdup (str : list ascii) : option (list ascii) := Some str.

Definition sample_name : list ascii := list_ascii_of_string "s1".
Definition sample_policy : ascii := byte_of 1.

End StopSession.

(* ===================================================================== *)
(** * Properties *)
(* ===================================================================== *)

Module TsdlFacts.

Import Tsdl.
Local Open Scope string_scope.

Lemma escape_char_tsdl (c : ascii) : tsdl_char (escape_char c) = true.
Proof.
  unfold escape_char, tsdl_char.
  destruct (isalnum c) eqn:Halnum; simpl.
  - now rewrite Halnum.
  - destruct (Ascii.eqb c underscore) eqn:Hus; simpl.
    + now rewrite Halnum, Hus.
    + reflexivity.
Qed.

Lemma escape_chars_tsdl (s : string) :
  all_chars tsdl_char (escape_chars s) = true.
Proof.
  induction s as [|c rest IH]; simpl; [reflexivity|].
  now rewrite escape_char_tsdl, IH.
Qed.

Lemma escape_chars_length (s : string) :
  String.length (escape_chars s) = String.length s.
Proof. induction s as [|c rest IH]; simpl; congruence. Qed.

Lemma safe_identifier_not_empty (x : string) :
  is_safe_tsdl_identifier x = true -> x <> "".
Proof. intros Hsafe ->. discriminate Hsafe. Qed.

(** C7: [escape_tsdl_identifier] rejects the empty identifier with
    [InvalidIdentifier]; it returns a whitelisted identifier unchanged; any
    other identifier becomes ['_'] followed by the input in which every
    character that is neither ASCII-alphanumeric nor ['_'] is replaced by
    ['_'], a string over [[A-Za-z0-9_]] only.  ["my field!"] becomes
    ["_my_field_"] and ["uuid"] stays ["uuid"]. *)
Theorem escape_tsdl_identifier_spec (x : string) :
  match escape_tsdl_identifier x with
  | inl e => x = "" /\ e = InvalidIdentifier
  | inr r =>
      x <> "" /\
      if is_safe_tsdl_identifier x then r = x
      else r = String "_" (escape_chars x) /\
           all_chars tsdl_char r = true /\
           String.length r = S (String.length x) /\
           (forall i c, String.get i x = Some c ->
              String.get (S i) r =
                Some (if tsdl_char c then c else "_"%char))
  end /\
  escape_tsdl_identifier "my field!" = inr "_my_field_" /\
  escape_tsdl_identifier "uuid" = inr "uuid" /\
  escape_tsdl_identifier "" = inl InvalidIdentifier.
Proof.
  split; [|repeat split; reflexivity].
  unfold escape_tsdl_identifier.
  destruct (Nat.eqb (String.length x) 0) eqn:Hlen.
  { destruct x; [now split | discriminate Hlen]. }
  assert (Hne : x <> "") by (intros ->; discriminate Hlen).
  clear Hlen.
  destruct (is_safe_tsdl_identifier x); cbv beta iota.
  { now split. }
  split; [exact Hne|].
  split; [reflexivity|].
  split; [cbn [all_chars]; now rewrite escape_chars_tsdl|].
  split; [cbn [String.length]; now rewrite escape_chars_length|].
  intros i. cbn [String.get]. clear Hne.
  revert i.
  induction x as [|d s IH]; intros i ch Hget; [destruct i; discriminate|].
  destruct i as [|i]; cbn [String.get escape_chars] in *.
  - injection Hget as <-. f_equal.
    unfold escape_char, tsdl_char.
    destruct (isalnum d), (Ascii.eqb d underscore); reflexivity.
  - now apply IH.
Qed.

End TsdlFacts.

Module RelaydFacts.

Import Relayd.

(** *** The monad *)

Lemma bind_inr {A B : Type} (c : M A) (k : A -> M B) st x st' :
  c st = inr (x, st') -> bind c k st = k x st'.
Proof. unfold bind. now intros ->. Qed.

(** Exposes the state transformer behind a monadic program. *)
Ltac munfold :=
  unfold bind, ret, throw, modify, get_state, deref, LTTNG_ASSERT,
    load_trace, store_trace, load_session, store_session,
    load_viewer_stream, store_viewer_stream,
    load_viewer_session, store_viewer_session,
    rcu_read_lock, rcu_read_unlock, ASSERT_RCU_READ_LOCKED, call_rcu,
    rcu_read_ongoing, update_trace in *.

(** Runs a monadic program as far as the records in sight are explicit:
    only this development's own plumbing is unfolded, so that lookups in
    the heaps, list functions and arithmetic stay as they are written. *)
Ltac mrun :=
  cbv beta iota zeta delta
    [ bind ret throw modify get_state deref LTTNG_ASSERT
      load_trace store_trace load_session store_session
      load_viewer_stream store_viewer_stream
      load_viewer_session store_viewer_session
      rcu_read_lock rcu_read_unlock ASSERT_RCU_READ_LOCKED call_rcu
      rcu_read_ongoing update_trace rcu_destroy_ctf_trace
      urcu_ref_init urcu_ref_put session_get session_put session_release
      viewer_stream_get lttng_ht_lookup lttng_ht_add_str lttng_ht_del
      cds_list_empty ctf_trace_destroy ctf_trace_release ctf_trace_get
      ctf_trace_put zmalloc_ctf_trace next_relay_ctf_trace_id
      zeroed_ctf_trace goto set_th_trace result_of start step
      ctf_trace_create ctf_trace_get_by_path_or_create
      t_ref t_session t_id t_viewer_metadata_stream t_stream_list t_node
      t_path set_t_ref set_t_session set_t_id set_t_stream_list set_t_node
      set_t_path
      s_ref s_lock s_ctf_traces_ht s_viewer_attached s_current_trace_chunk
      set_s_ref set_s_lock set_s_ctf_traces_ht set_s_viewer_attached
      vstream_ref vs_session_list vs_current_trace_chunk
      set_vs_current_trace_chunk set_vs_session_list
      last_relay_ctf_trace_id rcu_nesting rcu_callbacks ctf_traces
      next_ctf_trace sessions released_sessions viewer_streams
      viewer_sessions relay_streams set_relay_streams
      set_last_relay_ctf_trace_id set_rcu_nesting set_rcu_callbacks
      set_ctf_traces set_next_ctf_trace set_sessions set_released_sessions
      set_viewer_streams set_viewer_sessions
      th_pc th_session th_subpath th_trace th_alloc zmalloc_ok strdup_ok
      no_oom Nat.pred ] in *;
  cbn [fmap option_fmap option_map fst snd] in *.

(** Decides a comparison between literals. *)
Ltac decide_literal_test :=
  match goal with
  | |- context [Z.leb ?a ?b] =>
      let v := eval vm_compute in (Z.leb a b) in
      match v with true => idtac | false => idtac end;
      change (Z.leb a b) with v
  | |- context [Z.eqb ?a ?b] =>
      let v := eval vm_compute in (Z.eqb a b) in
      match v with true => idtac | false => idtac end;
      change (Z.eqb a b) with v
  | |- context [Nat.eqb ?a ?b] =>
      let v := eval vm_compute in (Nat.eqb a b) in
      match v with true => idtac | false => idtac end;
      change (Nat.eqb a b) with v
  | |- context [negb true] => change (negb true) with false
  | |- context [negb false] => change (negb false) with true
  end.

(** [mrun], resolving on the way the heap lookups the context decides. *)
Ltac mgo :=
  repeat (mrun;
          first
            [ rewrite lookup_insert_eq
            | match goal with
              | H : ?m !! ?k = _ |- context [?m !! ?k] => rewrite H
              end
            | decide_literal_test ]);
  mrun.

(** Decides a comparison of integers from what the context knows. *)
Ltac decide_test_by_lia :=
  match goal with
  | |- context [Z.leb ?a ?b] =>
      first
        [ replace (Z.leb a b) with true by (symmetry; apply Z.leb_le; lia)
        | replace (Z.leb a b) with false by (symmetry; apply Z.leb_gt; lia) ]
  | |- context [Z.eqb ?a ?b] =>
      first
        [ replace (Z.eqb a b) with true by (symmetry; apply Z.eqb_eq; lia)
        | replace (Z.eqb a b) with false by (symmetry; apply Z.eqb_neq; lia) ]
  end.

(** [mgo], with the reference-count tests decided by arithmetic. *)
Ltac mgo_lia :=
  repeat (mgo;
          first
            [ rewrite lookup_fmap
            | rewrite Nat.eqb_refl
            | progress unfold urcu_ref_get_unless_zero
            | decide_test_by_lia ]);
  mgo.

Lemma load_trace_some st t tr :
  ctf_traces st !! t = Some tr -> load_trace t st = inr (tr, st).
Proof. unfold load_trace. now intros ->. Qed.

(** *** [ctf_trace_get] *)

(** C3: [ctf_trace_get] hands out a reference exactly when the count was
    strictly positive before the call, incrementing it by one; on a count
    of zero it returns [false] and the state, count included, is what it
    was.  The caller holds the RCU read-side lock or already owns a
    reference, as the function's comment requires. *)
Theorem ctf_trace_get_spec (st : relayd) (trace : nat) (tr : ctf_trace) :
  ctf_traces st !! trace = Some tr ->
  0 <= t_ref tr ->
  rcu_read_ongoing st = true \/ 0 < t_ref tr ->
  ctf_trace_get trace st =
    if 0 <? t_ref tr
    then inr (true,
              set_ctf_traces
                (<[trace := set_t_ref (t_ref tr + 1) tr]> (ctf_traces st)) st)
    else inr (false, st).
Proof.
  intros Hload Hnonneg Hcaller.
  unfold ctf_trace_get.
  rewrite (bind_inr _ _ _ _ _ (load_trace_some _ _ _ Hload)).
  unfold urcu_ref_get_unless_zero.
  destruct (Z.eqb_spec (t_ref tr) 0) as [Hzero|Hpos].
  - rewrite Hzero. simpl.
    destruct Hcaller as [Hrcu|Hlive]; [|lia].
    unfold ASSERT_RCU_READ_LOCKED, bind, get_state, LTTNG_ASSERT, ret.
    now rewrite Hrcu.
  - assert (Hlt : (0 <? t_ref tr) = true) by (apply Z.ltb_lt; lia).
    rewrite Hlt. reflexivity.
Qed.

Lemma ctf_trace_get_spec_witness :
  ctf_trace_get 0 sample_relayd_one_trace =
    if 0 <? t_ref sample_trace
    then inr (true,
              set_ctf_traces
                (<[0%nat := set_t_ref (t_ref sample_trace + 1) sample_trace]>
                   (ctf_traces sample_relayd_one_trace))
                sample_relayd_one_trace)
    else inr (false, sample_relayd_one_trace).
Proof.
  apply (ctf_trace_get_spec sample_relayd_one_trace 0 sample_trace).
  - reflexivity.
  - simpl. lia.
  - right. simpl. lia.
Defined.

(** A reader that meets a trace whose count is zero gets [false] and
    changes nothing. *)
Example ctf_trace_get_dying :
  ctf_trace_get 0 sample_relayd_dying = inr (false, sample_relayd_dying).
Proof. vm_compute. reflexivity. Qed.

(** Outside a read-side critical section a count of zero is a logic error:
    the assertion of [ctf_trace_get] stops the daemon. *)
Lemma ctf_trace_get_unlocked_zero st trace tr :
  ctf_traces st !! trace = Some tr ->
  t_ref tr = 0 ->
  rcu_read_ongoing st = false ->
  ctf_trace_get trace st = inl (AssertFailed "rcu_read_ongoing()").
Proof.
  intros Hload Hzero Hrcu.
  unfold ctf_trace_get.
  rewrite (bind_inr _ _ _ _ _ (load_trace_some _ _ _ Hload)).
  unfold urcu_ref_get_unless_zero. rewrite Hzero. simpl.
  unfold ASSERT_RCU_READ_LOCKED, bind, get_state, LTTNG_ASSERT.
  now rewrite Hrcu.
Qed.

(** *** [ctf_trace_get_viewer_metadata_stream] *)

(** C9: [ctf_trace_get_viewer_metadata_stream] returns NULL when the trace
    has no viewer metadata stream; when one is published it returns it
    with its count incremented if that count was positive, and NULL, with
    nothing changed, if the count was already zero.  No trace is written
    to, whatever the outcome. *)
Theorem ctf_trace_get_viewer_metadata_stream_spec
    (st : relayd) (trace : nat) (tr : ctf_trace) :
  ctf_traces st !! trace = Some tr ->
  match t_viewer_metadata_stream tr with
  | None =>
      ctf_trace_get_viewer_metadata_stream trace st = inr (None, st)
  | Some v =>
      forall vs, viewer_streams st !! v = Some vs -> 0 <= vstream_ref vs ->
        ctf_trace_get_viewer_metadata_stream trace st =
          if 0 <? vstream_ref vs
          then inr (Some v,
                    set_viewer_streams
                      (<[v := mk_relay_viewer_stream (vstream_ref vs + 1)]>
                         (viewer_streams st)) st)
          else inr (None, st)
  end /\
  (forall r st', ctf_trace_get_viewer_metadata_stream trace st = inr (r, st') ->
     ctf_traces st' = ctf_traces st).
Proof.
  intros Hload.
  destruct st as [lid n cbs traces nxt sess rel vstreams vsess rstreams].
  simpl in Hload.
  unfold ctf_trace_get_viewer_metadata_stream.
  munfold. simpl. rewrite Hload.
  destruct (t_viewer_metadata_stream tr) as [v|]; simpl.
  - split.
    + intros vs Hvs Hnonneg.
      unfold viewer_stream_get. munfold. simpl. rewrite Hvs.
      unfold urcu_ref_get_unless_zero.
      destruct (Z.eqb_spec (vstream_ref vs) 0) as [Hzero|Hpos].
      * now rewrite Hzero.
      * assert (Hlt : (0 <? vstream_ref vs) = true) by (apply Z.ltb_lt; lia).
        now rewrite Hlt.
    + intros r st'. unfold viewer_stream_get. munfold. simpl.
      destruct (vstreams !! v) as [vs|]; [|discriminate].
      destruct (urcu_ref_get_unless_zero (vstream_ref vs)) as [[|] count];
        simpl; intros [= <- <-]; reflexivity.
  - split; [reflexivity|].
    intros r st' [= <- <-]. reflexivity.
Qed.

Lemma ctf_trace_get_viewer_metadata_stream_spec_witness :
  ctf_trace_get_viewer_metadata_stream 0 sample_relayd_one_trace
    = inr (None, sample_relayd_one_trace).
Proof.
  exact (proj1 (ctf_trace_get_viewer_metadata_stream_spec
                  sample_relayd_one_trace 0 sample_trace eq_refl)).
Defined.

(** With a published viewer metadata stream: a live one is returned with
    one more reference, a dying one is not returned. *)
Example get_viewer_metadata_stream_live :
  match ctf_trace_get_viewer_metadata_stream 0 (sample_relayd_with_viewer 1) with
  | inr (r, st') =>
      r = Some 4%nat /\
      viewer_streams st' !! 4%nat = Some (mk_relay_viewer_stream 2) /\
      ctf_traces st' = ctf_traces (sample_relayd_with_viewer 1)
  | inl _ => False
  end.
Proof. vm_compute. repeat split. Qed.

Example get_viewer_metadata_stream_dying :
  ctf_trace_get_viewer_metadata_stream 0 (sample_relayd_with_viewer 0)
  = inr (None, sample_relayd_with_viewer 0).
Proof. vm_compute. reflexivity. Qed.

(** *** The table of traces *)

Lemma ht_has_node_unlink t ht : ht_has_node t (ht_unlink t ht) = false.
Proof.
  unfold ht_has_node, ht_unlink.
  induction ht as [|[k t'] ht IH]; simpl; [reflexivity|].
  destruct (Nat.eqb_spec t' t) as [->|Hne]; simpl; [exact IH|].
  destruct (Nat.eqb_spec t' t); [contradiction | exact IH].
Qed.

Lemma find_key_has_node key t ht :
  snd <$> find (fun e : string * nat => String.eqb (fst e) key) ht = Some t ->
  ht_has_node t ht = true.
Proof.
  unfold ht_has_node.
  induction ht as [|[k t'] ht IH]; simpl; [discriminate|].
  destruct (String.eqb k key); simpl.
  - intros [= ->]. now rewrite Nat.eqb_refl.
  - intros Hfind. rewrite (IH Hfind). apply orb_true_r.
Qed.

Lemma lookup_fold_destroy (cbs : list nat) (st : relayd) (t : nat) :
  ctf_traces (fold_left (fun acc t => rcu_destroy_ctf_trace t acc) cbs st) !! t
  = if bool_decide (t ∈ cbs) then None else ctf_traces st !! t.
Proof.
  revert st. induction cbs as [|c cbs IH]; intros st; simpl.
  - reflexivity.
  - rewrite IH. unfold rcu_destroy_ctf_trace. destruct st; simpl.
    destruct (decide (t = c)) as [->|Hne].
    + rewrite lookup_delete_eq.
      rewrite (bool_decide_eq_true_2 (c ∈ c :: cbs)) by apply list_elem_of_here.
      now destruct (bool_decide (c ∈ cbs)).
    + rewrite lookup_delete_ne by congruence.
      destruct (bool_decide (t ∈ cbs)) eqn:Hin.
      * apply bool_decide_eq_true_1 in Hin.
        rewrite bool_decide_eq_true_2; [reflexivity|].
        now apply list_elem_of_further.
      * apply bool_decide_eq_false_1 in Hin.
        rewrite bool_decide_eq_false_2; [reflexivity|].
        intros [?|?]%elem_of_cons; contradiction.
Qed.

Lemma rcu_grace_period_frees st t :
  rcu_nesting st = 0%nat -> t ∈ rcu_callbacks st ->
  ctf_traces (rcu_grace_period st) !! t = None.
Proof.
  intros Hquiet Hin. unfold rcu_grace_period. rewrite Hquiet.
  transitivity
    (ctf_traces (fold_left (fun acc t => rcu_destroy_ctf_trace t acc)
                   (rcu_callbacks st) st) !! t).
  - now destruct (fold_left _ _ _).
  - rewrite lookup_fold_destroy. now rewrite bool_decide_eq_true_2.
Qed.

Lemma rcu_grace_period_keeps st t :
  t ∉ rcu_callbacks st ->
  ctf_traces (rcu_grace_period st) !! t = ctf_traces st !! t.
Proof.
  intros Hnotin. unfold rcu_grace_period.
  destruct (rcu_nesting st); [|reflexivity].
  transitivity
    (ctf_traces (fold_left (fun acc t => rcu_destroy_ctf_trace t acc)
                   (rcu_callbacks st) st) !! t).
  - now destruct (fold_left _ _ _).
  - rewrite lookup_fold_destroy. now rewrite bool_decide_eq_false_2.
Qed.

(** *** [ctf_trace_put] *)

(** C2: dropping the last reference of a published trace unlinks it from
    its session's table within the call, so that no lookup finds it any
    more, while the object stays allocated: it is only handed to
    [call_rcu], and freed when the grace period ends.  The destruction goes
    through only if no stream is linked to the trace any more; otherwise
    the assertion of [ctf_trace_destroy] stops it. *)
Theorem ctf_trace_put_last_ref
    (st : relayd) (trace s : nat) (tr : ctf_trace) (sess : relay_session) :
  ctf_traces st !! trace = Some tr ->
  t_ref tr = 1 ->
  t_session tr = Some s ->
  sessions st !! s = Some sess ->
  ht_has_node trace (s_ctf_traces_ht sess) = true ->
  1 <= s_ref sess ->
  if cds_list_empty (t_stream_list tr) then
    exists st',
      ctf_trace_put trace st = inr (tt, st') /\
      sessions st' !! s =
        Some (set_s_ref (s_ref sess - 1)
                (set_s_ctf_traces_ht (ht_unlink trace (s_ctf_traces_ht sess)) sess)) /\
      (forall key r st'', lttng_ht_lookup s key st' = inr (r, st'') ->
         r <> Some trace) /\
      ctf_traces st' !! trace =
        Some (set_t_path None (set_t_session None (set_t_ref 0 tr))) /\
      rcu_callbacks st' = rcu_callbacks st ++ [trace] /\
      rcu_nesting st' = rcu_nesting st /\
      (rcu_nesting st = 0%nat ->
         ctf_traces (rcu_grace_period st') !! trace = None)
  else
    ctf_trace_put trace st
      = inl (AssertFailed "cds_list_empty(&trace->stream_list)").
Proof.
  intros Hload Href Hsession Hsess Hnode Hsref.
  destruct st as [lid n cbs traces nxt sessions rel vstreams vsess rstreams].
  destruct tr as [ref session id vms streams node path].
  destruct sess as [sref lock ht attached chunk].
  mrun. subst ref session.
  mgo. change (1 - 1) with 0. mgo. rewrite Hnode. mgo.
  destruct streams as [[|x l]|]; [|reflexivity..].
  mgo.
  assert (Hres : (0 <=? sref - 1) = true) by (apply Z.leb_le; lia).
  rewrite Hres. mgo.
  destruct (sref - 1 =? 0); mgo.
  all: eexists; split; [reflexivity|]; mgo.
  all: rewrite ?insert_insert_eq.
  all: split; [reflexivity|].
  all: split;
    [ intros key r st'' Hlook Hr; rewrite Hr in Hlook;
      injection Hlook as Hfind _;
      apply find_key_has_node in Hfind;
      rewrite ht_has_node_unlink in Hfind; discriminate Hfind |].
  all: split; [reflexivity|].
  all: split; [reflexivity|].
  all: split; [reflexivity|].
  all: intros ->; apply rcu_grace_period_frees; [reflexivity|].
  all: apply elem_of_app; right; apply list_elem_of_here.
Qed.

Lemma ctf_trace_put_last_ref_witness :
  exists st',
    ctf_trace_put 0 sample_relayd_one_trace = inr (tt, st') /\
    sessions st' !! 5%nat =
      Some (set_s_ref (s_ref sample_session_one_trace - 1)
              (set_s_ctf_traces_ht
                 (ht_unlink 0 (s_ctf_traces_ht sample_session_one_trace))
                 sample_session_one_trace)) /\
    (forall key r st'', lttng_ht_lookup 5 key st' = inr (r, st'') ->
       r <> Some 0%nat) /\
    ctf_traces st' !! 0%nat =
      Some (set_t_path None (set_t_session None (set_t_ref 0 sample_trace))) /\
    rcu_callbacks st' = rcu_callbacks sample_relayd_one_trace ++ [0%nat] /\
    rcu_nesting st' = rcu_nesting sample_relayd_one_trace /\
    (rcu_nesting sample_relayd_one_trace = 0%nat ->
       ctf_traces (rcu_grace_period st') !! 0%nat = None).
Proof.
  apply (ctf_trace_put_last_ref sample_relayd_one_trace 0 5
           sample_trace sample_session_one_trace);
    try reflexivity.
  simpl. lia.
Defined.

(** *** Running [ctf_trace_get_by_path_or_create] to completion *)

Lemma run_unfold fuel th st :
  run (S fuel) th st =
    match th_pc th with
    | pc_return _ => inr (th, st)
    | _ => bind (step th) (run fuel) st
    end.
Proof. simpl. now destruct (th_pc th). Qed.

Lemma run_returned fuel th st r :
  th_pc th = pc_return r -> run fuel th st = inr (th, st).
Proof. intros Hpc. destruct fuel; simpl; [reflexivity|]. now rewrite Hpc. Qed.

(** One statement of the machine, then whatever the context decides. *)
Ltac mstep := rewrite run_unfold; mgo.

Lemma find_key_in key (ht : list (string * nat)) k t :
  find (fun e : string * nat => String.eqb (fst e) key) ht = Some (k, t) ->
  k = key /\ (k, t) ∈ ht.
Proof.
  intros Hfind. apply find_some in Hfind as [Hin Heq].
  apply String.eqb_eq in Heq. split; [exact Heq|].
  now apply list_elem_of_In.
Qed.

Lemma find_key_none key (ht : list (string * nat)) :
  find (fun e : string * nat => String.eqb (fst e) key) ht = None ->
  key ∉ fst <$> ht.
Proof.
  intros Hfind Hin.
  apply list_elem_of_fmap in Hin as ([k t] & -> & Hin).
  apply list_elem_of_In in Hin.
  pose proof (find_none _ _ Hfind _ Hin) as Hneq. simpl in Hneq.
  now rewrite String.eqb_refl in Hneq.
Qed.

(** The lookup finds a live trace: the call returns it, one reference
    richer, and creates nothing. *)
Lemma get_by_path_found alloc s subpath st sess k t tr :
  sessions st !! s = Some sess ->
  find (fun e : string * nat => String.eqb (fst e) subpath)
    (s_ctf_traces_ht sess) = Some (k, t) ->
  ctf_traces st !! t = Some tr ->
  0 < t_ref tr ->
  ctf_trace_get_by_path_or_create alloc s subpath st =
    inr (Some t,
         set_ctf_traces (<[t := set_t_ref (t_ref tr + 1) tr]> (ctf_traces st)) st).
Proof.
  intros Hsess Hfind Htrace Hlive.
  destruct st as [lid n cbs traces nxt sessions rel vstreams vsess rstreams].
  destruct tr as [ref session id vms streams node path].
  destruct sess as [sref lock ht attached chunk].
  mrun. mstep. rewrite Hfind. mgo.
  unfold urcu_ref_get_unless_zero.
  destruct (Z.eqb_spec ref 0) as [->|_]; [lia|]. mgo.
  now rewrite run_returned with (r := Some t).
Qed.

(** The lookup finds nothing, the session is live and memory is
    available: the call allocates, fills in and publishes a new trace. *)
Lemma get_by_path_created s subpath st sess :
  sessions st !! s = Some sess ->
  find (fun e : string * nat => String.eqb (fst e) subpath)
    (s_ctf_traces_ht sess) = None ->
  0 < s_ref sess ->
  ctf_trace_get_by_path_or_create no_oom s subpath st =
    inr (Some (next_ctf_trace st), after_create s subpath sess st).
Proof.
  intros Hsess Hfind Hlive.
  destruct st as [lid n cbs traces nxt sessions rel vstreams vsess rstreams].
  destruct sess as [sref lock ht attached chunk].
  mrun. mstep. rewrite Hfind. mgo.
  mstep. mstep. mstep.
  unfold urcu_ref_get_unless_zero.
  destruct (Z.eqb_spec sref 0) as [->|_]; [lia|]. mgo.
  do 7 mstep.
  rewrite run_returned with (r := Some nxt) by reflexivity.
  unfold after_create. mgo. rewrite !insert_insert_eq. reflexivity.
Qed.

(** [ctf_trace_create] itself, under the same conditions. *)
Lemma ctf_trace_create_succeeds s subpath st sess :
  sessions st !! s = Some sess ->
  0 < s_ref sess ->
  ctf_trace_create no_oom s subpath st =
    inr (Some (next_ctf_trace st), after_create s subpath sess st).
Proof.
  intros Hsess Hlive.
  destruct st as [lid n cbs traces nxt sessions rel vstreams vsess rstreams].
  destruct sess as [sref lock ht attached chunk].
  mrun. do 3 mstep.
  unfold urcu_ref_get_unless_zero.
  destruct (Z.eqb_spec sref 0) as [->|_]; [lia|]. mgo.
  do 7 mstep.
  rewrite run_returned with (r := Some nxt) by reflexivity.
  unfold after_create. mgo. rewrite !insert_insert_eq. reflexivity.
Qed.

(** *** The machine always comes to an end *)

Lemma returns_ret {A : Type} (x : A) (Q : A -> Prop) : Q x -> returns (ret x) Q.
Proof. intros HQ st y st' [= <- _]. exact HQ. Qed.

Lemma returns_bind {A B : Type} (c : M A) (k : A -> M B) (Q : B -> Prop) :
  (forall x, returns (k x) Q) -> returns (bind c k) Q.
Proof.
  intros Hk st y st' Hrun. unfold bind in Hrun.
  destruct (c st) as [f|[x st1]]; [discriminate|].
  exact (Hk x _ _ _ Hrun).
Qed.

Lemma fuel_safe_ret {A : Type} (x : A) : fuel_safe (ret x).
Proof. intros st. discriminate. Qed.

Lemma fuel_safe_bind {A B : Type} (c : M A) (k : A -> M B) :
  fuel_safe c -> (forall x, fuel_safe (k x)) -> fuel_safe (bind c k).
Proof.
  intros Hc Hk st. unfold bind.
  destruct (c st) as [f|[x st1]] eqn:Hrun.
  - intros [= ->]. exact (Hc _ Hrun).
  - apply Hk.
Qed.

Lemma fuel_safe_throw {A : Type} (f : fault) :
  f <> OutOfFuel -> fuel_safe (@throw A f).
Proof. intros Hne st [= Heq]. contradiction. Qed.

Lemma fuel_safe_modify (f : relayd -> relayd) : fuel_safe (modify f).
Proof. intros st. discriminate. Qed.

Lemma fuel_safe_get_state : fuel_safe get_state.
Proof. intros st. discriminate. Qed.

Lemma fuel_safe_load_trace t : fuel_safe (load_trace t).
Proof. intros st. unfold load_trace. now destruct (_ !! _). Qed.

Lemma fuel_safe_load_session s : fuel_safe (load_session s).
Proof. intros st. unfold load_session. now destruct (_ !! _). Qed.

Lemma fuel_safe_store_trace t tr : fuel_safe (store_trace t tr).
Proof. apply fuel_safe_modify. Qed.

Lemma fuel_safe_store_session s sess : fuel_safe (store_session s sess).
Proof. apply fuel_safe_modify. Qed.

Lemma fuel_safe_rcu_read_lock : fuel_safe rcu_read_lock.
Proof. apply fuel_safe_modify. Qed.

Lemma fuel_safe_rcu_read_unlock : fuel_safe rcu_read_unlock.
Proof. apply fuel_safe_modify. Qed.

Lemma fuel_safe_call_rcu t : fuel_safe (call_rcu t).
Proof. apply fuel_safe_modify. Qed.

Create HintDb fuel discriminated.

#[local] Hint Resolve fuel_safe_ret fuel_safe_modify fuel_safe_get_state
  fuel_safe_load_trace fuel_safe_load_session fuel_safe_store_trace
  fuel_safe_store_session fuel_safe_rcu_read_lock fuel_safe_rcu_read_unlock
  fuel_safe_call_rcu : fuel.

(** Walks through a monadic program, one construct at a time. *)
Ltac fuel_safe_walk :=
  repeat
    first
      [ solve [auto with fuel]
      | apply fuel_safe_bind; [|intros ?]
      | apply fuel_safe_throw; discriminate
      | match goal with
        | |- fuel_safe (match ?x with _ => _ end) => destruct x
        | |- fuel_safe (if ?b then _ else _) => destruct b
        | |- fuel_safe (let (_, _) := ?p in _) => destruct p
        end ].

Lemma fuel_safe_assert cond what : fuel_safe (LTTNG_ASSERT cond what).
Proof. unfold LTTNG_ASSERT. fuel_safe_walk. Qed.

Lemma fuel_safe_deref {A : Type} (p : option A) : fuel_safe (deref p).
Proof. unfold deref. fuel_safe_walk. Qed.

#[local] Hint Resolve fuel_safe_assert fuel_safe_deref : fuel.

Lemma fuel_safe_session_get s : fuel_safe (session_get s).
Proof. unfold session_get. fuel_safe_walk. Qed.

Lemma fuel_safe_session_put s : fuel_safe (session_put s).
Proof.
  unfold session_put, urcu_ref_put, session_release.
  fuel_safe_walk.
Qed.

#[local] Hint Resolve fuel_safe_session_get fuel_safe_session_put : fuel.

Lemma fuel_safe_ctf_trace_get t : fuel_safe (ctf_trace_get t).
Proof.
  unfold ctf_trace_get, ASSERT_RCU_READ_LOCKED. fuel_safe_walk.
Qed.

Lemma fuel_safe_ctf_trace_put t : fuel_safe (ctf_trace_put t).
Proof.
  unfold ctf_trace_put, urcu_ref_put, ctf_trace_release, ctf_trace_destroy,
    lttng_ht_del, ASSERT_RCU_READ_LOCKED.
  fuel_safe_walk.
Qed.

#[local] Hint Resolve fuel_safe_ctf_trace_get fuel_safe_ctf_trace_put : fuel.

Lemma fuel_safe_step th : fuel_safe (step th).
Proof.
  unfold step, lttng_ht_lookup, lttng_ht_add_str, zmalloc_ctf_trace,
    next_relay_ctf_trace_id, update_trace.
  fuel_safe_walk.
Qed.

(** Each statement brings the call closer to its return. *)
Lemma step_progress th :
  returns (step th)
    (fun th' => match th_pc th with
                | pc_return _ => th' = th
                | _ => (remaining (th_pc th') < remaining (th_pc th))%nat
                end).
Proof.
  unfold step.
  destruct (th_pc th);
    repeat
      first
        [ apply returns_bind; intros ?
        | apply returns_ret; simpl; lia
        | apply returns_ret; reflexivity
        | match goal with
          | |- returns (match ?x with _ => _ end) _ => destruct x
          | |- returns (if ?b then _ else _) _ => destruct b
          end ].
Qed.

Lemma run_reaches_return fuel th st th' st' :
  (remaining (th_pc th) <= fuel)%nat ->
  run fuel th st = inr (th', st') ->
  exists r, th_pc th' = pc_return r.
Proof.
  revert th st. induction fuel as [|fuel IH]; intros th st Hfuel Hrun.
  - injection Hrun as <- <-. destruct (th_pc th); simpl in Hfuel; eauto; lia.
  - rewrite run_unfold in Hrun.
    destruct (th_pc th) eqn:Hpc;
      try (injection Hrun as <- <-; eauto; fail).
    all: unfold bind in Hrun;
      destruct (step th st) as [f|[th1 st1]] eqn:Hstep; [discriminate|];
      pose proof (step_progress th _ _ _ Hstep) as Hless;
      rewrite Hpc in Hless; simpl in Hfuel, Hless;
      apply (IH th1 st1); [lia | exact Hrun].
Qed.

Lemma run_fuel_safe fuel th : fuel_safe (run fuel th).
Proof.
  revert th. induction fuel as [|fuel IH]; intros th st.
  - discriminate.
  - rewrite run_unfold. destruct (th_pc th); try discriminate.
    all: apply fuel_safe_bind; [apply fuel_safe_step | intros th'; apply IH].
Qed.

(** [ctf_trace_get_by_path_or_create] and [ctf_trace_create] return or
    stop on a fault of the C code: the fuel of the model never runs out. *)
Lemma ctf_trace_get_by_path_or_create_total alloc s subpath st :
  ctf_trace_get_by_path_or_create alloc s subpath st <> inl OutOfFuel /\
  ctf_trace_create alloc s subpath st <> inl OutOfFuel.
Proof.
  unfold ctf_trace_get_by_path_or_create, ctf_trace_create, bind.
  split.
  - destruct (run 11 _ st) as [f|[th' st']] eqn:Hrun.
    + intros [= ->]. exact (run_fuel_safe _ _ _ Hrun).
    + destruct (run_reaches_return 11 (start pc_lookup alloc s subpath)
                  st th' st' (le_n 11) Hrun) as [r Hpc].
      clear Hrun. unfold result_of. rewrite Hpc. discriminate.
  - destruct (run 10 _ st) as [f|[th' st']] eqn:Hrun.
    + intros [= ->]. exact (run_fuel_safe _ _ _ Hrun).
    + destruct (run_reaches_return 10 (start pc_zmalloc alloc s subpath)
                  st th' st' (le_n 10) Hrun) as [r Hpc].
      clear Hrun. unfold result_of. rewrite Hpc. discriminate.
Qed.

(** *** The error path of [ctf_trace_create] *)

Lemma ctf_trace_destroy_zeroed_list st trace tr :
  ctf_traces st !! trace = Some tr ->
  t_stream_list tr = None ->
  ctf_trace_destroy trace st
    = inl (AssertFailed "cds_list_empty(&trace->stream_list)").
Proof.
  intros Hload Hlist.
  destruct st as [lid n cbs traces nxt sessions rel vstreams vsess rstreams].
  destruct tr as [ref session id vms streams node path].
  mrun. subst streams. mgo. reflexivity.
Qed.

(** C10: the put on the error path of [ctf_trace_create] drops the count of
    a trace that was never published, and the release path does not
    survive it.  When [session_get] fails, [trace->session] is still NULL
    and [ctf_trace_release] dereferences it.  When [strdup] fails, the node
    was never added to [ctf_traces_ht], so the deletion cannot succeed and
    the assertion on its return value fails. *)
Theorem ctf_trace_create_error_path_faults
    (alloc : alloc_outcome) (s : nat) (subpath : string)
    (st : relayd) (sess : relay_session) :
  sessions st !! s = Some sess ->
  zmalloc_ok alloc = true ->
  ht_has_node (next_ctf_trace st) (s_ctf_traces_ht sess) = false ->
  (s_ref sess = 0 ->
     ctf_trace_create alloc s subpath st = inl NullDeref) /\
  (0 < s_ref sess -> strdup_ok alloc = false ->
     ctf_trace_create alloc s subpath st = inl (AssertFailed "!ret")).
Proof.
  intros Hsess Hzmalloc Hfresh.
  destruct st as [lid n cbs traces nxt sessions rel vstreams vsess rstreams].
  destruct sess as [sref lock ht attached chunk].
  destruct alloc as [zok sok].
  mrun. subst zok. split.
  - intros ->. do 3 mstep.
    unfold urcu_ref_get_unless_zero. mgo.
    mstep. change (1 - 1) with 0. mgo. reflexivity.
  - intros Hlive ->. do 3 mstep.
    unfold urcu_ref_get_unless_zero.
    destruct (Z.eqb_spec sref 0) as [->|_]; [lia|]. mgo.
    do 3 mstep. change (1 - 1) with 0. mgo.
    rewrite Hfresh. mgo. reflexivity.
Qed.

Lemma ctf_trace_create_error_path_faults_witness :
  (s_ref sample_session = 0 ->
     ctf_trace_create (mk_alloc_outcome true false) 5
       "ust/uid/1000/64-bit" sample_relayd = inl NullDeref) /\
  (0 < s_ref sample_session -> strdup_ok (mk_alloc_outcome true false) = false ->
     ctf_trace_create (mk_alloc_outcome true false) 5
       "ust/uid/1000/64-bit" sample_relayd = inl (AssertFailed "!ret")).
Proof.
  apply (ctf_trace_create_error_path_faults
           (mk_alloc_outcome true false) 5 "ust/uid/1000/64-bit"
           sample_relayd sample_session); reflexivity.
Defined.

(** The two failing inputs, evaluated. *)
Example create_with_strdup_failure :
  ctf_trace_get_by_path_or_create (mk_alloc_outcome true false) 5
    "ust/uid/1000/64-bit" sample_relayd
  = inl (AssertFailed "!ret").
Proof. vm_compute. reflexivity. Qed.

Example create_on_vanishing_session :
  ctf_trace_get_by_path_or_create no_oom 5 "ust/uid/1000/64-bit"
    (set_sessions {[ 5%nat := set_s_ref 0 sample_session ]} sample_relayd)
  = inl NullDeref.
Proof. vm_compute. reflexivity. Qed.

(** *** Calls made one after the other *)

Lemma next_id_no_wrap (last : Z) :
  0 <= last -> last + 1 < UINT64_MODULUS ->
  (last + 1) mod UINT64_MODULUS = last + 1.
Proof. intros Hlo Hhi. apply Z.mod_small. lia. Qed.

Lemma filter_key_absent key (ht : list (string * nat)) :
  key ∉ fst <$> ht ->
  List.filter (fun e => String.eqb (fst e) key) ht = [].
Proof.
  induction ht as [|[k t] ht IH]; simpl; [reflexivity|].
  intros Hnotin. apply not_elem_of_cons in Hnotin as [Hne Hrest].
  destruct (String.eqb_spec k key) as [->|_]; [contradiction|].
  now apply IH.
Qed.

Lemma filter_key_found key (ht : list (string * nat)) k t :
  NoDup (fst <$> ht) ->
  find (fun e : string * nat => String.eqb (fst e) key) ht = Some (k, t) ->
  snd <$> List.filter (fun e => String.eqb (fst e) key) ht = [t].
Proof.
  induction ht as [|[k' t'] ht IH]; simpl; [discriminate|].
  intros Hnodup Hfind. apply NoDup_cons in Hnodup as [Hhead Hrest].
  destruct (String.eqb_spec k' key) as [->|Hne].
  - injection Hfind as <- <-. simpl.
    now rewrite (filter_key_absent _ _ Hhead).
  - now apply IH.
Qed.

Lemma wf_ref_bump st t tr :
  wf st -> ctf_traces st !! t = Some tr -> 0 < t_ref tr ->
  wf (set_ctf_traces (<[t := set_t_ref (t_ref tr + 1) tr]> (ctf_traces st)) st).
Proof.
  intros (Htables & Hkeys & [Hheap Hcbs] & [Hlast Hids]) Hload Hlive.
  destruct st as [lid n cbs traces nxt sessions rel vstreams vsess rstreams].
  unfold wf, tables_ok, keys_unique, alloc_ok, ids_ok in *. simpl in *.
  split; [|split; [exact Hkeys|split; [split|split]]].
  - intros s sess k t' Hs Hin.
    destruct (Htables _ _ _ _ Hs Hin) as (Hlt & Hcb & tr' & Hl & Hc).
    split; [exact Hlt|]. split; [exact Hcb|].
    destruct (decide (t = t')) as [<-|Hne].
    + rewrite lookup_insert_eq. eexists. split; [reflexivity|].
      rewrite Hload in Hl. injection Hl as <-.
      destruct tr; unfold constructed in *; simpl in *.
      intuition lia.
    + rewrite lookup_insert_ne by exact Hne. eauto.
  - intros t' Hsome. apply Hheap.
    destruct (decide (t = t')) as [<-|Hne].
    + now rewrite Hload.
    + now rewrite lookup_insert_ne in Hsome.
  - exact Hcbs.
  - exact Hlast.
  - intros t' tr' Hl.
    destruct (decide (t = t')) as [<-|Hne].
    + rewrite lookup_insert_eq in Hl. injection Hl as <-.
      specialize (Hids _ _ Hload). now destruct tr.
    + rewrite lookup_insert_ne in Hl by exact Hne. eauto.
Qed.

Lemma wf_after_create st s sess subpath :
  wf st ->
  sessions st !! s = Some sess ->
  find (fun e : string * nat => String.eqb (fst e) subpath)
    (s_ctf_traces_ht sess) = None ->
  last_relay_ctf_trace_id st + 1 < UINT64_MODULUS ->
  wf (after_create s subpath sess st).
Proof.
  intros (Htables & Hkeys & [Hheap Hcbs] & [Hlast Hids]) Hsess Hfind Hwrap.
  destruct st as [lid n cbs traces nxt sessions rel vstreams vsess rstreams].
  unfold wf, tables_ok, keys_unique, alloc_ok, ids_ok, after_create in *.
  simpl in *.
  rewrite (next_id_no_wrap lid Hlast Hwrap).
  assert (Hfresh : traces !! nxt = None).
  { destruct (traces !! nxt) eqn:Hl; [|reflexivity].
    assert (nxt < nxt)%nat by (apply Hheap; eauto). lia. }
  split; [|split; [|split; [split|split]]].
  - intros s' sess' k t Hs Hin.
    destruct (decide (s = s')) as [<-|Hne].
    + rewrite lookup_insert_eq in Hs. injection Hs as <-.
      destruct sess; simpl in *.
      apply elem_of_cons in Hin as [[= -> ->]|Hin].
      * split; [lia|]. split.
        { intros Hcb. apply Hcbs in Hcb. lia. }
        rewrite lookup_insert_eq. eexists. split; [reflexivity|].
        unfold constructed; simpl. repeat split; eauto; lia.
      * destruct (Htables _ _ _ _ Hsess Hin) as (Hlt & Hcb & tr & Hl & Hc).
        split; [lia|]. split; [exact Hcb|].
        rewrite lookup_insert_ne by lia. eauto.
    + rewrite lookup_insert_ne in Hs by exact Hne.
      destruct (Htables _ _ _ _ Hs Hin) as (Hlt & Hcb & tr & Hl & Hc).
      split; [lia|]. split; [exact Hcb|].
      rewrite lookup_insert_ne by lia. eauto.
  - intros s' sess' Hs.
    destruct (decide (s = s')) as [<-|Hne].
    + rewrite lookup_insert_eq in Hs. injection Hs as <-.
      destruct sess; simpl in *.
      apply NoDup_cons. split; [now apply find_key_none|].
      exact (Hkeys _ _ Hsess).
    + rewrite lookup_insert_ne in Hs by exact Hne. eauto.
  - intros t Hsome.
    destruct (decide (nxt = t)) as [<-|Hne]; [lia|].
    rewrite lookup_insert_ne in Hsome by exact Hne.
    apply Hheap in Hsome. lia.
  - intros t Hcb. apply Hcbs in Hcb. lia.
  - lia.
  - intros t tr Hl.
    destruct (decide (nxt = t)) as [<-|Hne].
    + rewrite lookup_insert_eq in Hl. injection Hl as <-. simpl. lia.
    + rewrite lookup_insert_ne in Hl by exact Hne.
      specialize (Hids _ _ Hl). lia.
Qed.

Lemma published_under_ref_bump st s subpath t tr :
  published_under
    (set_ctf_traces (<[t := tr]> (ctf_traces st)) st) s subpath
  = published_under st s subpath.
Proof. now destruct st. Qed.

Lemma wf_sample_relayd : wf sample_relayd.
Proof.
  unfold wf, tables_ok, keys_unique, alloc_ok, ids_ok, sample_relayd. simpl.
  split; [|split; [|split; [split|split]]].
  - intros s sess k t Hs Hin.
    apply lookup_singleton_Some in Hs as [_ <-].
    now apply elem_of_nil in Hin.
  - intros s sess Hs.
    apply lookup_singleton_Some in Hs as [_ <-]. constructor.
  - intros t [tr Hl]. now rewrite lookup_empty in Hl.
  - intros t Hin. now apply elem_of_nil in Hin.
  - lia.
  - intros t tr Hl. now rewrite lookup_empty in Hl.
Qed.

Lemma get_by_path_hit_ref alloc st s subpath sess k t :
  wf st ->
  sessions st !! s = Some sess ->
  find (fun e : string * nat => String.eqb (fst e) subpath)
    (s_ctf_traces_ht sess) = Some (k, t) ->
  exists tr,
    ctf_traces st !! t = Some tr /\
    0 < t_ref tr /\
    ctf_trace_get_by_path_or_create alloc s subpath st
    = inr (Some t,
           set_ctf_traces
             (<[t := set_t_ref (t_ref tr + 1) tr]> (ctf_traces st)) st) /\
    wf (set_ctf_traces
          (<[t := set_t_ref (t_ref tr + 1) tr]> (ctf_traces st)) st).
Proof.
  intros Hwf Hsess Hfind.
  pose proof Hwf as (Htables & _).
  destruct (find_key_in _ _ _ _ Hfind) as [-> Hin].
  destruct (Htables _ _ _ _ Hsess Hin) as (_ & _ & tr & Hload & Hlive & _).
  exists tr. split; [exact Hload|]. split; [exact Hlive|].
  split; [exact (get_by_path_found alloc _ _ _ _ _ _ _
                   Hsess Hfind Hload Hlive)|].
  now apply wf_ref_bump.
Qed.

Lemma published_under_found st s subpath sess k t :
  wf st ->
  sessions st !! s = Some sess ->
  find (fun e : string * nat => String.eqb (fst e) subpath)
    (s_ctf_traces_ht sess) = Some (k, t) ->
  published_under st s subpath = [t].
Proof.
  intros (_ & Hkeys & _) Hsess Hfind.
  unfold published_under. rewrite Hsess.
  exact (filter_key_found _ _ _ _ (Hkeys _ _ Hsess) Hfind).
Qed.

(** Calls that find the trace: each returns it and takes one reference. *)
Lemma in_sequence_hits s subpath sess k t (allocs : list alloc_outcome) :
  forall st tr,
    wf st ->
    sessions st !! s = Some sess ->
    find (fun e : string * nat => String.eqb (fst e) subpath)
      (s_ctf_traces_ht sess) = Some (k, t) ->
    ctf_traces st !! t = Some tr ->
    exists st2 tr2,
      get_by_path_or_create_in_sequence allocs s subpath st
      = inr (repeat (Some t) (length allocs), st2) /\
      wf st2 /\
      sessions st2 = sessions st /\
      next_ctf_trace st2 = next_ctf_trace st /\
      ctf_traces st2 !! t = Some tr2 /\
      t_ref tr2 = t_ref tr + Z.of_nat (length allocs).
Proof.
  induction allocs as [|alloc rest IH]; intros st tr Hwf Hsess Hfind Hload.
  - exists st, tr. split; [reflexivity|]. split; [exact Hwf|].
    split; [reflexivity|]. split; [reflexivity|]. split; [exact Hload|].
    cbn [length]. lia.
  - destruct (get_by_path_hit_ref alloc st s subpath sess k t Hwf Hsess Hfind)
      as (tr' & Hload' & Hlive & Hcall & Hwf1).
    rewrite Hload in Hload'. injection Hload' as <-.
    set (st1 := set_ctf_traces
                  (<[t := set_t_ref (t_ref tr + 1) tr]> (ctf_traces st)) st)
      in *.
    assert (Hsess1 : sessions st1 !! s = Some sess)
      by (subst st1; now destruct st).
    assert (Hload1 : ctf_traces st1 !! t = Some (set_t_ref (t_ref tr + 1) tr)).
    { subst st1. destruct st. cbn. apply lookup_insert_eq. }
    destruct (IH st1 _ Hwf1 Hsess1 Hfind Hload1)
      as (st2 & tr2 & Hrest & Hwf2 & Hsame & Hnext & Hload2 & Href).
    exists st2, tr2. split.
    + cbn [get_by_path_or_create_in_sequence length repeat].
      rewrite (bind_inr _ _ _ _ _ Hcall), (bind_inr _ _ _ _ _ Hrest).
      reflexivity.
    + split; [exact Hwf2|].
      split; [rewrite Hsame; subst st1; now destruct st|].
      split; [rewrite Hnext; subst st1; now destruct st|].
      split; [exact Hload2|].
      rewrite Href. destruct tr. cbn [length]. cbn. lia.
Qed.

(** C1 (amended): when the calls for one [(session, subpath)] come one
    after the other, the first returns a trace that is the only one
    published under [subpath] and holds one reference on it: the count is
    1 when the call created the trace, one more than it was when the call
    found it.  The calls that follow, however many and whatever their
    allocations would yield, all return that same trace, allocate
    nothing, leave it the only trace published under [subpath] and take
    one reference each. *)
Theorem sequential_get_by_path_or_create_unique
    (st : relayd) (s : nat) (subpath : string) (sess : relay_session) :
  wf st ->
  sessions st !! s = Some sess ->
  0 < s_ref sess ->
  last_relay_ctf_trace_id st + 1 < UINT64_MODULUS ->
  exists t st1 tr1,
    ctf_trace_get_by_path_or_create no_oom s subpath st = inr (Some t, st1) /\
    wf st1 /\
    published_under st1 s subpath = [t] /\
    ctf_traces st1 !! t = Some tr1 /\
    t_ref tr1 = match ctf_traces st !! t with
                | Some tr => t_ref tr + 1
                | None => 1
                end /\
    forall allocs : list alloc_outcome, exists st2 tr2,
      get_by_path_or_create_in_sequence allocs s subpath st1
      = inr (repeat (Some t) (length allocs), st2) /\
      wf st2 /\
      published_under st2 s subpath = [t] /\
      next_ctf_trace st2 = next_ctf_trace st1 /\
      ctf_traces st2 !! t = Some tr2 /\
      t_ref tr2 = t_ref tr1 + Z.of_nat (length allocs).
Proof.
  intros Hwf Hsess Hlive Hwrap.
  assert (Hlater : forall st1 sess1 k t tr1,
            wf st1 -> sessions st1 !! s = Some sess1 ->
            find (fun e : string * nat => String.eqb (fst e) subpath)
              (s_ctf_traces_ht sess1) = Some (k, t) ->
            ctf_traces st1 !! t = Some tr1 ->
            forall allocs : list alloc_outcome, exists st2 tr2,
              get_by_path_or_create_in_sequence allocs s subpath st1
              = inr (repeat (Some t) (length allocs), st2) /\
              wf st2 /\
              published_under st2 s subpath = [t] /\
              next_ctf_trace st2 = next_ctf_trace st1 /\
              ctf_traces st2 !! t = Some tr2 /\
              t_ref tr2 = t_ref tr1 + Z.of_nat (length allocs)).
  { intros st1 sess1 k t tr1 Hwf1 Hsess1 Hfind1 Hload1 allocs.
    destruct (in_sequence_hits s subpath sess1 k t allocs st1 tr1
                Hwf1 Hsess1 Hfind1 Hload1)
      as (st2 & tr2 & Hrun & Hwf2 & Hsame & Hnext & Hload2 & Href).
    exists st2, tr2. split; [exact Hrun|]. split; [exact Hwf2|].
    split; [|now repeat split].
    apply (published_under_found st2 s subpath sess1 k t Hwf2);
      [now rewrite Hsame|exact Hfind1]. }
  destruct (find (fun e : string * nat => String.eqb (fst e) subpath)
              (s_ctf_traces_ht sess)) as [[k t]|] eqn:Hfind.
  - destruct (get_by_path_hit_ref no_oom st s subpath sess k t Hwf Hsess Hfind)
      as (tr & Hload & Hpos & Hcall & Hwf1).
    set (st1 := set_ctf_traces
                  (<[t := set_t_ref (t_ref tr + 1) tr]> (ctf_traces st)) st)
      in *.
    assert (Hsess1 : sessions st1 !! s = Some sess)
      by (subst st1; now destruct st).
    assert (Hload1 : ctf_traces st1 !! t = Some (set_t_ref (t_ref tr + 1) tr)).
    { subst st1. destruct st. cbn. apply lookup_insert_eq. }
    exists t, st1, (set_t_ref (t_ref tr + 1) tr).
    split; [exact Hcall|]. split; [exact Hwf1|].
    split; [exact (published_under_found st1 s subpath sess k t
                     Hwf1 Hsess1 Hfind)|].
    split; [exact Hload1|].
    split; [rewrite Hload; now destruct tr|].
    exact (Hlater st1 sess k t _ Hwf1 Hsess1 Hfind Hload1).
  - pose proof (wf_after_create _ _ _ _ Hwf Hsess Hfind Hwrap) as Hwf1.
    set (created := mk_ctf_trace 1 (Some s)
                      ((last_relay_ctf_trace_id st + 1) mod UINT64_MODULUS)
                      None (Some []) (Some subpath) (Some subpath)).
    set (sess1 := set_s_ctf_traces_ht
                    ((subpath, next_ctf_trace st) :: s_ctf_traces_ht sess)
                    (set_s_ref (s_ref sess + 1) sess)).
    assert (Hsess1 : sessions (after_create s subpath sess st) !! s
                     = Some sess1).
    { unfold after_create. simpl. apply lookup_insert_eq. }
    assert (Hfind1 : find (fun e : string * nat => String.eqb (fst e) subpath)
                       (s_ctf_traces_ht sess1)
                     = Some (subpath, next_ctf_trace st)).
    { subst sess1. simpl. now rewrite String.eqb_refl. }
    assert (Hload1 : ctf_traces (after_create s subpath sess st)
                       !! next_ctf_trace st = Some created).
    { unfold after_create. simpl. apply lookup_insert_eq. }
    assert (Hfresh : ctf_traces st !! next_ctf_trace st = None).
    { destruct Hwf as (_ & _ & [Hheap _] & _).
      destruct (ctf_traces st !! next_ctf_trace st) eqn:Hl; [|reflexivity].
      specialize (Hheap (next_ctf_trace st) ltac:(eauto)). lia. }
    exists (next_ctf_trace st), (after_create s subpath sess st), created.
    split; [now apply get_by_path_created|].
    split; [exact Hwf1|].
    split; [exact (published_under_found _ s subpath sess1 subpath _
                     Hwf1 Hsess1 Hfind1)|].
    split; [exact Hload1|].
    split; [now rewrite Hfresh|].
    exact (Hlater _ sess1 subpath _ _ Hwf1 Hsess1 Hfind1 Hload1).
Qed.

Lemma sequential_get_by_path_or_create_unique_witness :
  exists t st1 tr1,
    ctf_trace_get_by_path_or_create no_oom 5 "ust/uid/1000/64-bit"
      sample_relayd = inr (Some t, st1) /\
    published_under st1 5 "ust/uid/1000/64-bit" = [t] /\
    ctf_traces st1 !! t = Some tr1 /\
    t_ref tr1 = 1 /\
    exists st2 tr2,
      get_by_path_or_create_in_sequence [no_oom; no_oom; no_oom] 5
        "ust/uid/1000/64-bit" st1
      = inr ([Some t; Some t; Some t], st2) /\
      published_under st2 5 "ust/uid/1000/64-bit" = [t] /\
      next_ctf_trace st2 = next_ctf_trace st1 /\
      ctf_traces st2 !! t = Some tr2 /\
      t_ref tr2 = 4.
Proof.
  destruct (sequential_get_by_path_or_create_unique sample_relayd 5
              "ust/uid/1000/64-bit" sample_session)
    as (t & st1 & tr1 & Hcall & _ & Hpub & Hload & Href & Hlater).
  - exact wf_sample_relayd.
  - reflexivity.
  - simpl. lia.
  - simpl. unfold UINT64_MODULUS. lia.
  - assert (Ht : t = 0%nat).
    { vm_compute in Hcall. now injection Hcall as <- _. }
    subst t. cbn in Href.
    destruct (Hlater [no_oom; no_oom; no_oom])
      as (st2 & tr2 & Hrun & _ & Hpub2 & Hnext & Hload2 & Href2).
    exists 0%nat, st1, tr1.
    split; [exact Hcall|]. split; [exact Hpub|]. split; [exact Hload|].
    split; [exact Href|].
    exists st2, tr2.
    split; [exact Hrun|]. split; [exact Hpub2|]. split; [exact Hnext|].
    split; [exact Hload2|]. rewrite Href2, Href. reflexivity.
Defined.

(** What the race of two callers leaves: two traces, at addresses 0 and 1,
    both published under the same key, one returned to each caller. *)
Example racing_outcome :
  match sys_run racing_schedule
          (repeat (start pc_lookup no_oom 5 "ust/uid/1000/64-bit") 2,
           sample_relayd) with
  | inr (threads', st') =>
      th_pc <$> threads' = [pc_return (Some 0%nat); pc_return (Some 1%nat)] /\
      published_under st' 5 "ust/uid/1000/64-bit" = [1%nat; 0%nat] /\
      t_id <$> ctf_traces st' !! 0%nat = Some 1 /\
      t_id <$> ctf_traces st' !! 1%nat = Some 2
  | inl _ => False
  end.
Proof. vm_compute. repeat split. Qed.

(** C1 (as stated) does not hold: two callers whose lookups both miss
    before either of them publishes each create and publish their own
    trace; [ctf_trace_create] adds its node without looking again. *)
Lemma concurrent_creators_publish_twice : ~ exactly_once_under_concurrency.
Proof.
  intros Hclaim.
  destruct (sys_run racing_schedule
              (repeat (start pc_lookup no_oom 5 "ust/uid/1000/64-bit") 2,
               sample_relayd)) as [f|[threads' st']] eqn:Hrun.
  - vm_compute in Hrun. discriminate Hrun.
  - destruct (Hclaim sample_relayd 5%nat "ust/uid/1000/64-bit"%string 2%nat
                racing_schedule threads' st' wf_sample_relayd eq_refl Hrun)
      as [_ Hsame].
    vm_compute in Hrun. injection Hrun as <- <-.
    assert (Habsurd : 0%nat = 1%nat).
    { match type of Hsame with
      | forall th1 th2 t1 t2, th1 ∈ [?a; ?b] -> _ =>
          apply (Hsame a b 0%nat 1%nat)
      end.
      - apply list_elem_of_here.
      - apply list_elem_of_further, list_elem_of_here.
      - reflexivity.
      - reflexivity. }
    discriminate Habsurd.
Qed.

(** *** [ctf_trace_close] *)

Section CloseStreams.

(** What [ctf_trace_close] does with a callee that leaves the traces and
    the caller's read-side nesting alone. *)
Variable tsc : nat -> relayd -> relayd.
Hypothesis tsc_frame : forall x st,
  ctf_traces (tsc x st) = ctf_traces st /\
  rcu_nesting (tsc x st) = rcu_nesting st.

Lemma close_all_cons x streams st :
  close_all tsc (x :: streams) st = close_all tsc streams (tsc x st).
Proof. reflexivity. Qed.

Lemma close_all_frame streams st :
  ctf_traces (close_all tsc streams st) = ctf_traces st /\
  rcu_nesting (close_all tsc streams st) = rcu_nesting st.
Proof.
  revert st. induction streams as [|x l IH]; intros st; [easy|].
  rewrite close_all_cons.
  destruct (IH (tsc x st)) as [-> ->]. apply tsc_frame.
Qed.

Lemma ctf_trace_close_runs st trace tr streams :
  ctf_traces st !! trace = Some tr ->
  t_stream_list tr = Some streams ->
  ctf_trace_close tsc trace st =
    inr (0, set_rcu_nesting (rcu_nesting st)
              (close_all tsc streams (set_rcu_nesting (S (rcu_nesting st)) st))).
Proof.
  intros Hload Hlist.
  unfold ctf_trace_close.
  destruct st as [lid n cbs traces nxt sessions rel vstreams vsess rstreams].
  destruct tr as [ref session id vms slist node path].
  mrun. subst slist. mgo.
  match goal with
  | |- context [close_all tsc streams ?st] =>
      destruct (close_all_frame streams st) as [_ Hn];
      destruct (close_all tsc streams st)
  end.
  mrun. now subst.
Qed.

End CloseStreams.

Lemma try_stream_close_frame x st :
  ctf_traces (try_stream_close x st) = ctf_traces st /\
  rcu_nesting (try_stream_close x st) = rcu_nesting st.
Proof.
  unfold try_stream_close.
  destruct (relay_streams st !! x) as [[]|]; destruct st; easy.
Qed.

Lemma try_stream_close_state x y st :
  relay_streams (try_stream_close x st) !! y =
    match relay_streams st !! y with
    | Some Indexed | Some Ready =>
        if decide (x = y) then Some Closing else relay_streams st !! y
    | other => other
    end.
Proof.
  unfold try_stream_close.
  destruct (decide (x = y)) as [<-|Hne].
  - destruct (relay_streams st !! x) as [[]|] eqn:Hx;
      destruct st; simpl in *; rewrite ?lookup_insert_eq, ?Hx; reflexivity.
  - destruct (relay_streams st !! x) as [[]|] eqn:Hx;
      destruct st as [lid n cbs traces nxt sessions rel vstreams vsess rstreams];
      simpl in *; rewrite ?lookup_insert_ne by exact Hne;
      destruct (rstreams !! y) as [[]|]; reflexivity.
Qed.

Lemma relayd_streams_ext st1 st2 :
  (forall y, relay_streams st1 !! y = relay_streams st2 !! y) ->
  set_relay_streams ∅ st1 = set_relay_streams ∅ st2 ->
  st1 = st2.
Proof.
  intros Hext Hrest.
  destruct st1, st2; simpl in *.
  injection Hrest as -> -> -> -> -> -> -> -> ->.
  f_equal. now apply map_eq.
Qed.

Lemma try_stream_close_rest x st :
  set_relay_streams ∅ (try_stream_close x st) = set_relay_streams ∅ st.
Proof.
  unfold try_stream_close.
  destruct (relay_streams st !! x) as [[]|]; destruct st; reflexivity.
Qed.

Lemma try_stream_close_idempotent x st :
  try_stream_close x (try_stream_close x st) = try_stream_close x st.
Proof.
  apply relayd_streams_ext; [intros y|].
  - rewrite !try_stream_close_state.
    destruct (relay_streams st !! y) as [[]|]; try reflexivity;
      destruct (decide (x = y)); reflexivity.
  - now rewrite !try_stream_close_rest.
Qed.

Lemma try_stream_close_commutes x y st :
  try_stream_close x (try_stream_close y st)
  = try_stream_close y (try_stream_close x st).
Proof.
  apply relayd_streams_ext; [intros z|].
  - rewrite !try_stream_close_state.
    destruct (relay_streams st !! z) as [[]|]; try reflexivity;
      destruct (decide (x = z)), (decide (y = z)); reflexivity.
  - now rewrite !try_stream_close_rest.
Qed.

Lemma close_all_state streams st y :
  relay_streams (close_all try_stream_close streams st) !! y =
    match relay_streams st !! y with
    | Some Indexed | Some Ready =>
        if bool_decide (y ∈ streams) then Some Closing
        else relay_streams st !! y
    | other => other
    end.
Proof.
  revert st. induction streams as [|x l IH]; intros st.
  - cbn. destruct (relay_streams st !! y) as [[]|]; reflexivity.
  - rewrite close_all_cons, IH, try_stream_close_state.
    destruct (relay_streams st !! y) as [[]|] eqn:Hy; try reflexivity.
    + destruct (decide (x = y)) as [->|Hne].
      * now rewrite (bool_decide_eq_true_2 (y ∈ y :: l))
          by apply list_elem_of_here.
      * apply (f_equal (fun b : bool =>
                          if b then Some Closing else Some Indexed)).
        apply bool_decide_ext. rewrite elem_of_cons. split; [tauto|].
        intros [Heq|Hin]; [now subst|exact Hin].
    + destruct (decide (x = y)) as [->|Hne].
      * now rewrite (bool_decide_eq_true_2 (y ∈ y :: l))
          by apply list_elem_of_here.
      * apply (f_equal (fun b : bool =>
                          if b then Some Closing else Some Ready)).
        apply bool_decide_ext. rewrite elem_of_cons. split; [tauto|].
        intros [Heq|Hin]; [now subst|exact Hin].
Qed.

Lemma close_all_rest streams st :
  set_relay_streams ∅ (close_all try_stream_close streams st)
  = set_relay_streams ∅ st.
Proof.
  revert st. induction streams as [|x l IH]; intros st; [reflexivity|].
  now rewrite close_all_cons, IH, try_stream_close_rest.
Qed.

Lemma close_all_closed streams st :
  close_all try_stream_close streams (close_all try_stream_close streams st)
  = close_all try_stream_close streams st.
Proof.
  apply relayd_streams_ext; [intros y|now rewrite !close_all_rest].
  rewrite !close_all_state.
  destruct (relay_streams st !! y) as [[]|] eqn:Hy; try reflexivity;
    destruct (bool_decide (y ∈ streams)); rewrite ?Hy; reflexivity.
Qed.

(** C5: [ctf_trace_close] on a trace whose stream list is initialised,
    [try_stream_close] being the transition to [Closing] of section 4.3.
    It returns 0.  Every stream linked to the trace that was [Indexed] or
    [Ready] is [Closing] afterwards; a stream that is not linked, or that
    was in another state, is as it was.  Nothing else changes: the traces
    and their reference counts, the sessions and the read-side nesting
    are what they were.  A second close returns 0 and changes nothing. *)
Theorem ctf_trace_close_spec (st : relayd) (trace : nat) (tr : ctf_trace)
    (streams : list nat) :
  ctf_traces st !! trace = Some tr ->
  t_stream_list tr = Some streams ->
  exists st',
    ctf_trace_close try_stream_close trace st = inr (0, st') /\
    (forall stream,
       stream ∈ streams ->
       relay_streams st !! stream = Some Indexed \/
       relay_streams st !! stream = Some Ready ->
       relay_streams st' !! stream = Some Closing) /\
    (forall stream,
       stream ∉ streams \/
       (relay_streams st !! stream <> Some Indexed /\
        relay_streams st !! stream <> Some Ready) ->
       relay_streams st' !! stream = relay_streams st !! stream) /\
    set_relay_streams ∅ st' = set_relay_streams ∅ st /\
    ctf_traces st' !! trace = Some tr /\
    ctf_trace_close try_stream_close trace st' = inr (0, st').
Proof.
  intros Hload Hlist.
  set (locked := set_rcu_nesting (S (rcu_nesting st)) st).
  set (st' := set_rcu_nesting (rcu_nesting st)
                (close_all try_stream_close streams locked)).
  assert (Hstate : forall y,
            relay_streams st' !! y =
              match relay_streams st !! y with
              | Some Indexed | Some Ready =>
                  if bool_decide (y ∈ streams) then Some Closing
                  else relay_streams st !! y
              | other => other
              end).
  { intros y. subst st'.
    replace (relay_streams (set_rcu_nesting (rcu_nesting st)
                              (close_all try_stream_close streams locked)))
      with (relay_streams (close_all try_stream_close streams locked))
      by now destruct (close_all try_stream_close streams locked).
    rewrite close_all_state. subst locked. now destruct st. }
  assert (Hrest : set_relay_streams ∅ st' = set_relay_streams ∅ st).
  { subst st'.
    pose proof (close_all_rest streams locked) as Hrest.
    destruct (close_all_frame try_stream_close try_stream_close_frame
                streams locked) as [_ Hnest].
    destruct (close_all try_stream_close streams locked).
    subst locked. destruct st. cbn in *.
    injection Hrest as -> _ -> -> -> -> -> -> ->. reflexivity. }
  assert (Hheap : ctf_traces st' = ctf_traces st).
  { apply (f_equal ctf_traces) in Hrest. now destruct st', st. }
  assert (Hnest : rcu_nesting st' = rcu_nesting st).
  { apply (f_equal rcu_nesting) in Hrest. now destruct st', st. }
  exists st'.
  split; [exact (ctf_trace_close_runs try_stream_close try_stream_close_frame
                   st trace tr streams Hload Hlist)|].
  split; [|split; [|split; [exact Hrest|split; [now rewrite Hheap|]]]].
  - intros stream Hin Hopen. rewrite Hstate.
    rewrite (bool_decide_eq_true_2 _ Hin). now destruct Hopen as [-> | ->].
  - intros stream Hleft. rewrite Hstate.
    destruct (relay_streams st !! stream) as [[]|]; try reflexivity;
      destruct Hleft as [Hout|[Hindexed Hready]];
      try (now rewrite (bool_decide_eq_false_2 _ Hout));
      congruence.
  - rewrite (ctf_trace_close_runs try_stream_close try_stream_close_frame
               st' trace tr streams) by (rewrite ?Hheap; assumption).
    do 2 f_equal. rewrite Hnest.
    assert (Hrelock : set_rcu_nesting (S (rcu_nesting st)) st'
                      = close_all try_stream_close streams locked).
    { subst st'.
      destruct (close_all_frame try_stream_close try_stream_close_frame
                  streams locked) as [_ Hn].
      destruct (close_all try_stream_close streams locked).
      subst locked. destruct st. cbn in *. now rewrite Hn. }
    rewrite Hrelock, close_all_closed. reflexivity.
Qed.

Lemma ctf_trace_close_spec_witness :
  exists st',
    ctf_trace_close try_stream_close 0 sample_relayd_two_streams
      = inr (0, st') /\
    relay_streams st' !! 7%nat = Some Closing /\
    relay_streams st' !! 8%nat = Some Closing /\
    ctf_traces st' !! 0%nat = Some sample_trace_two_streams /\
    ctf_trace_close try_stream_close 0 st' = inr (0, st').
Proof.
  destruct (ctf_trace_close_spec sample_relayd_two_streams 0
              sample_trace_two_streams [7%nat; 8%nat] eq_refl eq_refl)
    as (st' & Hrun & Hclosing & _ & _ & Htrace & Hagain).
  exists st'. split; [exact Hrun|].
  split; [apply Hclosing; [apply list_elem_of_here|right; reflexivity]|].
  split; [apply Hclosing;
          [apply list_elem_of_further, list_elem_of_here|left; reflexivity]|].
  split; [exact Htrace|exact Hagain].
Defined.

(** The two streams of the sample trace end up [Closing]. *)
Example close_sample_trace :
  match ctf_trace_close try_stream_close 0 sample_relayd_two_streams with
  | inr (r, st') =>
      r = 0 /\
      relay_streams st' !! 7%nat = Some Closing /\
      relay_streams st' !! 8%nat = Some Closing
  | inl _ => False
  end.
Proof. vm_compute. repeat split. Qed.

(** *** Viewer sessions *)

Lemma session_linked_intro (session v : nat) (vs : relay_viewer_session)
    (st : relayd) :
  viewer_sessions st !! v = Some vs ->
  session ∈ vs_session_list vs ->
  session_linked session st = true.
Proof.
  intros Hvs Hin. unfold session_linked. apply bool_decide_eq_true_2.
  exists v, vs. now split.
Qed.

Lemma session_linked_elim (session : nat) (st : relayd) :
  session_linked session st = true ->
  exists v vs, viewer_sessions st !! v = Some vs /\
               session ∈ vs_session_list vs.
Proof.
  unfold session_linked. intros Hlinked.
  apply bool_decide_eq_true_1 in Hlinked. exact Hlinked.
Qed.

Lemma session_linked_insert (session v : nat) (slist : list nat)
    (chunk : option nat) lid n cbs traces nxt sessions rel vstreams vsess
    rstreams :
  session_linked session
    (mk_relayd lid n cbs traces nxt sessions rel vstreams
       (<[v := mk_relay_viewer_session (session :: slist) chunk]> vsess)
       rstreams)
  = true.
Proof.
  apply (session_linked_intro session v
           (mk_relay_viewer_session (session :: slist) chunk)).
  - apply lookup_insert_eq.
  - apply list_elem_of_here.
Qed.

(** C8: under the session lock and with a live session,
    [viewer_session_attach] answers
    - ALREADY when a viewer is attached, and then neither the viewer
      session nor the session changes;
    - OK when none is attached and the copy of the session's current trace
      chunk succeeds: the flag is set, the viewer session holds the copy and
      links the session, which is one reference richer;
    - UNK when the copy fails, the session not being linked.
    In the OK case, attaching again answers ALREADY, the detach succeeds
    and the attach after it answers OK again. *)
Theorem viewer_session_attach_outcomes
    (chunk_copy : nat -> option nat) (st : relayd) (vsession session : nat)
    (sess : relay_session) (vs : relay_viewer_session) :
  sessions st !! session = Some sess ->
  viewer_sessions st !! vsession = Some vs ->
  s_lock sess = true ->
  0 < s_ref sess ->
  exists st',
    if s_viewer_attached sess then
      viewer_session_attach chunk_copy vsession session st
        = inr (LTTNG_VIEWER_ATTACH_ALREADY, st') /\
      viewer_sessions st' = viewer_sessions st /\
      sessions st' !! session = Some sess
    else
      match copied_chunk chunk_copy (s_current_trace_chunk sess) with
      | Some viewer_chunk =>
          viewer_session_attach chunk_copy vsession session st
            = inr (LTTNG_VIEWER_ATTACH_OK, st') /\
          sessions st' !! session =
            Some (set_s_viewer_attached true (set_s_ref (s_ref sess + 1) sess)) /\
          viewer_sessions st' !! vsession =
            Some (mk_relay_viewer_session
                    (session :: vs_session_list vs) viewer_chunk) /\
          exists st'',
            attach_detach_scenario chunk_copy vsession session st
              = inr ((LTTNG_VIEWER_ATTACH_OK, LTTNG_VIEWER_ATTACH_ALREADY, 0,
                      LTTNG_VIEWER_ATTACH_OK), st'')
      | None =>
          viewer_session_attach chunk_copy vsession session st
            = inr (LTTNG_VIEWER_ATTACH_UNK, st') /\
          viewer_sessions st' !! vsession =
            Some (set_vs_current_trace_chunk None vs)
      end.
Proof.
  intros Hsess Hvs Hlock Hlive.
  destruct st as [lid n cbs traces nxt sessions rel vstreams vsess rstreams].
  destruct sess as [sref lock ht attached chunk].
  destruct vs as [slist vchunk].
  simpl in Hsess, Hvs, Hlock, Hlive.
  unfold attach_detach_scenario, viewer_session_attach,
    viewer_session_detach, viewer_session_set_trace_chunk_copy,
    pthread_mutex_lock_session, pthread_mutex_unlock_session,
    session_list_add, session_list_del, copied_chunk, is_attach_ok.
  mrun. subst lock.
  destruct attached.
  - mgo_lia.
    eexists. split; [reflexivity|]. mrun. split; [reflexivity|].
    rewrite lookup_insert_eq. do 2 f_equal. lia.
  - destruct chunk as [c|]; [destruct (chunk_copy c) as [vc|] eqn:Hcopy|].
    + mgo_lia. rewrite !Hcopy. mgo_lia.
      eexists. split; [reflexivity|]. mrun.
      rewrite !lookup_insert_eq.
      split; [reflexivity|]. split; [reflexivity|].
      repeat (progress (mgo_lia; rewrite ?Hcopy, ?session_linked_insert)).
      eexists. reflexivity.
    + mgo_lia. rewrite !Hcopy. mgo_lia.
      eexists. split; [reflexivity|]. mrun.
      now rewrite lookup_insert_eq.
    + mgo_lia.
      eexists. split; [reflexivity|]. mrun.
      rewrite !lookup_insert_eq.
      split; [reflexivity|]. split; [reflexivity|].
      repeat (progress (mgo_lia; rewrite ?session_linked_insert)).
      eexists. reflexivity.
Qed.

Lemma viewer_session_attach_outcomes_witness :
  exists st',
    viewer_session_attach chunk_copy_ok 9 5 sample_relayd_viewer
      = inr (LTTNG_VIEWER_ATTACH_OK, st') /\
    sessions st' !! 5%nat =
      Some (set_s_viewer_attached true
              (set_s_ref (s_ref sample_locked_session + 1)
                 sample_locked_session)) /\
    viewer_sessions st' !! 9%nat =
      Some (mk_relay_viewer_session [5%nat] (Some 103%nat)) /\
    exists st'',
      attach_detach_scenario chunk_copy_ok 9 5 sample_relayd_viewer
        = inr ((LTTNG_VIEWER_ATTACH_OK, LTTNG_VIEWER_ATTACH_ALREADY, 0,
                LTTNG_VIEWER_ATTACH_OK), st'').
Proof.
  apply (viewer_session_attach_outcomes chunk_copy_ok sample_relayd_viewer
           9 5 sample_locked_session (mk_relay_viewer_session [] None));
    try reflexivity.
Defined.

(** A failed copy answers UNK, yet leaves [viewer_attached] set: the next
    attach is refused with ALREADY although no viewer is attached. *)
Example attach_after_failed_copy :
  match viewer_session_attach chunk_copy_fails 9 5 sample_relayd_viewer with
  | inr (first, st') =>
      first = LTTNG_VIEWER_ATTACH_UNK /\
      s_viewer_attached <$> sessions st' !! 5%nat = Some true /\
      vs_session_list <$> viewer_sessions st' !! 9%nat = Some [] /\
      match viewer_session_attach chunk_copy_ok 9 5 st' with
      | inr (second, _) => second = LTTNG_VIEWER_ATTACH_ALREADY
      | inl _ => False
      end
  | inl _ => False
  end.
Proof. vm_compute. repeat split. Qed.

(** A session whose count is zero cannot be attached to: UNK. *)
Example attach_to_vanishing_session :
  match viewer_session_attach chunk_copy_ok 9 5
          (set_sessions {[ 5%nat := set_s_ref 0 sample_locked_session ]}
             sample_relayd_viewer) with
  | inr (status, _) => status = LTTNG_VIEWER_ATTACH_UNK
  | inl _ => False
  end.
Proof. vm_compute. reflexivity. Qed.

(** *** Calls in flight: the invariant *)

Lemma elem_of_has_node k t (ht : list (string * nat)) :
  (k, t) ∈ ht -> ht_has_node t ht = true.
Proof.
  unfold ht_has_node. intros Hin. apply existsb_exists.
  exists (k, t). split; [now apply list_elem_of_In|]. apply Nat.eqb_refl.
Qed.

Lemma has_node_elem_of t (ht : list (string * nat)) :
  ht_has_node t ht = true -> exists k, (k, t) ∈ ht.
Proof.
  unfold ht_has_node. intros Hex.
  apply existsb_exists in Hex as ([k t'] & Hin & Heq).
  apply Nat.eqb_eq in Heq. simpl in Heq. subst t'.
  exists k. now apply list_elem_of_In.
Qed.

Lemma same_tables_lookup st st' s sess' :
  same_tables st st' -> sessions st' !! s = Some sess' ->
  exists sess, sessions st !! s = Some sess /\
               s_ctf_traces_ht sess = s_ctf_traces_ht sess'.
Proof.
  intros Hsame Hs. specialize (Hsame s). rewrite Hs in Hsame.
  destruct (sessions st !! s) as [sess|]; [|discriminate Hsame].
  injection Hsame as Heq. eauto.
Qed.

Lemma unpublished_same_tables st st' t :
  same_tables st st' -> unpublished st t -> unpublished st' t.
Proof.
  intros Hsame Hunpub s sess' Hs.
  destruct (same_tables_lookup _ _ _ _ Hsame Hs) as (sess & Hs0 & <-).
  eauto.
Qed.

Lemma published_not_unpublished st s sess k t :
  sessions st !! s = Some sess -> (k, t) ∈ s_ctf_traces_ht sess ->
  unpublished st t -> False.
Proof.
  intros Hs Hin Hunpub.
  pose proof (elem_of_has_node _ _ _ Hin) as Hnode.
  rewrite (Hunpub _ _ Hs) in Hnode. discriminate Hnode.
Qed.

Lemma threads_distinct_update threads i th th' :
  threads_distinct threads ->
  threads !! i = Some th ->
  (forall t, under_construction th' = Some t ->
     under_construction th = Some t \/
     forall j thj, threads !! j = Some thj -> under_construction thj <> Some t) ->
  threads_distinct (<[i := th']> threads).
Proof.
  intros Hdistinct Hi Hsame j1 j2 th1 th2 t H1 H2 Huc1 Huc2.
  assert (Hlen : (i < length threads)%nat) by (eapply lookup_lt_Some; eauto).
  destruct (decide (i = j1)) as [<-|Hne1]; destruct (decide (i = j2)) as [<-|Hne2].
  - reflexivity.
  - rewrite list_lookup_insert_eq in H1 by exact Hlen. injection H1 as <-.
    rewrite list_lookup_insert_ne in H2 by exact Hne2.
    destruct (Hsame _ Huc1) as [Hold|Hfresh].
    + exact (Hdistinct _ _ _ _ _ Hi H2 Hold Huc2).
    + now destruct (Hfresh _ _ H2).
  - rewrite list_lookup_insert_eq in H2 by exact Hlen. injection H2 as <-.
    rewrite list_lookup_insert_ne in H1 by exact Hne1.
    destruct (Hsame _ Huc2) as [Hold|Hfresh].
    + exact (Hdistinct _ _ _ _ _ H1 Hi Huc1 Hold).
    + now destruct (Hfresh _ _ H1).
  - rewrite list_lookup_insert_ne in H1 by exact Hne1.
    rewrite list_lookup_insert_ne in H2 by exact Hne2.
    exact (Hdistinct _ _ _ _ _ H1 H2 Huc1 Huc2).
Qed.

Lemma ids_grow_refl st : ids_grow st st.
Proof. split; [lia|]. intros t tr' Hl. right. left. eauto. Qed.

Lemma ids_grow_trans st1 st2 st3 :
  ids_grow st1 st2 -> ids_grow st2 st3 -> ids_grow st1 st3.
Proof.
  intros [Hlast12 Hids12] [Hlast23 Hids23]. split; [lia|].
  intros t tr3 Hl3.
  destruct (Hids23 _ _ Hl3) as [Hzero|[(tr2 & Hl2 & Heq)|Hnew]].
  - now left.
  - destruct (Hids12 _ _ Hl2) as [Hzero|[(tr1 & Hl1 & Heq1)|Hnew]].
    + left. congruence.
    + right. left. exists tr1. split; [exact Hl1 | congruence].
    + right. right. lia.
  - right. right. lia.
Qed.

(** A step that only writes to the trace its own thread is building (and
    possibly hands it the next id). *)
Lemma inv_own_update threads st i th t tr th' st' tr' :
  sys_inv (threads, st) ->
  threads !! i = Some th ->
  under_construction th = Some t ->
  ctf_traces st !! t = Some tr ->
  same_tables st st' ->
  next_ctf_trace st' = next_ctf_trace st ->
  rcu_callbacks st' = rcu_callbacks st ->
  ctf_traces st' = <[t := tr']> (ctf_traces st) ->
  (last_relay_ctf_trace_id st' = last_relay_ctf_trace_id st /\
   t_id tr' = t_id tr) \/
  (last_relay_ctf_trace_id st' = last_relay_ctf_trace_id st + 1 /\
   t_id tr' = last_relay_ctf_trace_id st + 1) ->
  under_construction th' = None \/
  (under_construction th' = Some t /\
   built (th_pc th') (th_session th') (th_subpath th') tr') ->
  sys_inv (<[i := th']> threads, st') /\ ids_grow st st' /\
  last_relay_ctf_trace_id st' <= last_relay_ctf_trace_id st + 1.
Proof.
  intros (Htables & [Hheap Hcbs] & [Hlast Hids] & Hdistinct_ids & Hthreads & Hdistinct)
    Hi Huc Hload Hsame Hnext Hcallbacks Hheap' Hid Hth'.
  simpl in *.
  destruct (Hthreads _ _ Hi _ Huc) as (Hlt & Hnotcb & Hunpub & _).
  assert (Hother : forall x, x <> t -> ctf_traces st' !! x = ctf_traces st !! x).
  { intros x Hne. rewrite Hheap'. now apply lookup_insert_ne. }
  assert (Hown : ctf_traces st' !! t = Some tr').
  { rewrite Hheap'. apply lookup_insert_eq. }
  assert (Hlen : (i < length threads)%nat) by (eapply lookup_lt_Some; eauto).
  split; [split; [|split; [|split; [|split; [|split]]]]|split]; simpl.
  - intros s sess' k t0 Hs Hin.
    destruct (same_tables_lookup _ _ _ _ Hsame Hs) as (sess & Hs0 & Heq).
    rewrite <- Heq in Hin.
    destruct (Htables _ _ _ _ Hs0 Hin) as (Hlt0 & Hcb0 & tr0 & Hl0 & Hc0).
    rewrite Hnext, Hcallbacks. split; [exact Hlt0|]. split; [exact Hcb0|].
    exists tr0. split; [|exact Hc0].
    rewrite Hother; [exact Hl0|].
    intros ->. exact (published_not_unpublished _ _ _ _ _ Hs0 Hin Hunpub).
  - unfold alloc_ok. rewrite Hnext, Hcallbacks. split; [|exact Hcbs].
    intros x Hsome. destruct (decide (x = t)) as [->|Hne]; [exact Hlt|].
    rewrite Hother in Hsome by exact Hne. now apply Hheap.
  - split; [lia|]. intros x trx Hl.
    destruct (decide (x = t)) as [->|Hne].
    + rewrite Hown in Hl. injection Hl as <-.
      specialize (Hids _ _ Hload). lia.
    + rewrite Hother in Hl by exact Hne. specialize (Hids _ _ Hl). lia.
  - intros t1 t2 tr1 tr2 Hl1 Hl2 Hpos Heq.
    destruct (decide (t1 = t)) as [->|Hne1]; destruct (decide (t2 = t)) as [->|Hne2];
      [reflexivity|..].
    + rewrite Hown in Hl1. injection Hl1 as <-.
      rewrite Hother in Hl2 by exact Hne2.
      destruct Hid as [[_ Hsameid]|[_ Hnewid]].
      * rewrite Hsameid in Hpos, Heq.
        exact (Hdistinct_ids _ _ _ _ Hload Hl2 Hpos Heq).
      * specialize (Hids _ _ Hl2). lia.
    + rewrite Hown in Hl2. injection Hl2 as <-.
      rewrite Hother in Hl1 by exact Hne1.
      destruct Hid as [[_ Hsameid]|[_ Hnewid]].
      * rewrite Hsameid in Heq.
        exact (Hdistinct_ids _ _ _ _ Hl1 Hload Hpos Heq).
      * specialize (Hids _ _ Hl1). lia.
    + rewrite Hother in Hl1 by exact Hne1.
      rewrite Hother in Hl2 by exact Hne2.
      exact (Hdistinct_ids _ _ _ _ Hl1 Hl2 Hpos Heq).
  - intros j thj Hj tj Hucj.
    rewrite Hnext, Hcallbacks.
    destruct (decide (i = j)) as [<-|Hne].
    + rewrite list_lookup_insert_eq in Hj by exact Hlen. injection Hj as <-.
      destruct Hth' as [Hnone|[Hsome Hbuilt]]; [congruence|].
      assert (tj = t) as -> by congruence.
      split; [exact Hlt|]. split; [exact Hnotcb|].
      split; [now apply (unpublished_same_tables st)|].
      eauto.
    + rewrite list_lookup_insert_ne in Hj by exact Hne.
      destruct (Hthreads _ _ Hj _ Hucj) as (Hltj & Hcbj & Hunpubj & trj & Hlj & Hbj).
      split; [exact Hltj|]. split; [exact Hcbj|].
      split; [now apply (unpublished_same_tables st)|].
      exists trj. split; [|exact Hbj].
      rewrite Hother; [exact Hlj|].
      intros ->. apply Hne. exact (Hdistinct _ _ _ _ _ Hi Hj Huc Hucj).
  - apply (threads_distinct_update _ _ th); [exact Hdistinct | exact Hi |].
    intros t0 Huc0. left.
    destruct Hth' as [Hnone|[Hsome _]]; congruence.
  - split; [lia|]. intros x trx Hl.
    destruct (decide (x = t)) as [->|Hne].
    + rewrite Hown in Hl. injection Hl as <-.
      destruct Hid as [[_ Hsameid]|[Hnewlast Hnewid]].
      * right. left. eauto.
      * right. right. lia.
    + rewrite Hother in Hl by exact Hne. right. left. eauto.
  - lia.
Qed.

Lemma thread_ok_stable st st' th :
  thread_ok st th ->
  (forall t, under_construction th = Some t ->
     unpublished st t -> unpublished st' t) ->
  (next_ctf_trace st <= next_ctf_trace st')%nat ->
  (forall x, x ∈ rcu_callbacks st' -> x ∈ rcu_callbacks st) ->
  (forall t, under_construction th = Some t -> (t < next_ctf_trace st)%nat ->
     ctf_traces st' !! t = ctf_traces st !! t) ->
  thread_ok st' th.
Proof.
  intros Hok Hunpub Hnext Hcbs Hheap t Huc.
  destruct (Hok _ Huc) as (Hlt & Hcb & Hun & tr & Hl & Hb).
  split; [lia|]. split; [intros Hin; apply Hcb, Hcbs, Hin|].
  split; [now apply Hunpub|].
  exists tr. split; [|exact Hb]. now rewrite Hheap.
Qed.

Lemma tables_ok_stable st st' :
  tables_ok st ->
  same_tables st st' ->
  (next_ctf_trace st <= next_ctf_trace st')%nat ->
  (forall x, x ∈ rcu_callbacks st' -> x ∈ rcu_callbacks st) ->
  (forall s k t tr, (t < next_ctf_trace st)%nat ->
     t ∉ rcu_callbacks st ->
     ctf_traces st !! t = Some tr -> constructed s k tr ->
     exists tr', ctf_traces st' !! t = Some tr' /\ constructed s k tr') ->
  tables_ok st'.
Proof.
  intros Htables Hsame Hnext Hcbs Hheap s sess' k t Hs Hin.
  destruct (same_tables_lookup _ _ _ _ Hsame Hs) as (sess & Hs0 & Heq).
  rewrite <- Heq in Hin.
  destruct (Htables _ _ _ _ Hs0 Hin) as (Hlt & Hcb & tr & Hl & Hc).
  split; [lia|]. split; [intros Hin'; apply Hcb, Hcbs, Hin'|].
  eauto.
Qed.

(** A step that writes nothing the invariant looks at, and leaves its
    thread with no trace under construction. *)
Lemma inv_no_write threads st i th th' st' :
  sys_inv (threads, st) ->
  threads !! i = Some th ->
  same_tables st st' ->
  next_ctf_trace st' = next_ctf_trace st ->
  rcu_callbacks st' = rcu_callbacks st ->
  ctf_traces st' = ctf_traces st ->
  last_relay_ctf_trace_id st' = last_relay_ctf_trace_id st ->
  under_construction th' = None ->
  sys_inv (<[i := th']> threads, st') /\ ids_grow st st' /\
  last_relay_ctf_trace_id st' <= last_relay_ctf_trace_id st + 1.
Proof.
  intros (Htables & Halloc & Hids & Hdistinct_ids & Hthreads & Hdistinct)
    Hi Hsame Hnext Hcallbacks Hheap Hlast Hth'.
  simpl in *.
  assert (Hlen : (i < length threads)%nat) by (eapply lookup_lt_Some; eauto).
  split; [split; [|split; [|split; [|split; [|split]]]]|split]; simpl.
  - apply (tables_ok_stable st); [assumption..| | |].
    + lia.
    + now rewrite Hcallbacks.
    + intros s k t tr _ _ Hl Hc. rewrite Hheap. eauto.
  - unfold alloc_ok. now rewrite Hnext, Hcallbacks, Hheap.
  - unfold ids_ok. now rewrite Hlast, Hheap.
  - unfold ids_distinct. now rewrite Hheap.
  - intros j thj Hj.
    destruct (decide (i = j)) as [<-|Hne].
    + rewrite list_lookup_insert_eq in Hj by exact Hlen. injection Hj as <-.
      intros t Huc. congruence.
    + rewrite list_lookup_insert_ne in Hj by exact Hne.
      apply (thread_ok_stable st); [now apply (Hthreads j)| | | |].
      * intros t _. now apply unpublished_same_tables.
      * lia.
      * now rewrite Hcallbacks.
      * intros t _ _. now rewrite Hheap.
  - apply (threads_distinct_update _ _ th); [exact Hdistinct | exact Hi |].
    intros t Huc. congruence.
  - split; [lia|]. intros t tr' Hl. right. left.
    rewrite Hheap in Hl. eauto.
  - lia.
Qed.

(** A lookup that takes a reference on a published trace. *)
Lemma inv_ref_bump threads st i th th' st' s sess k t tr :
  sys_inv (threads, st) ->
  threads !! i = Some th ->
  sessions st !! s = Some sess ->
  (k, t) ∈ s_ctf_traces_ht sess ->
  ctf_traces st !! t = Some tr ->
  same_tables st st' ->
  next_ctf_trace st' = next_ctf_trace st ->
  rcu_callbacks st' = rcu_callbacks st ->
  ctf_traces st' = <[t := set_t_ref (t_ref tr + 1) tr]> (ctf_traces st) ->
  last_relay_ctf_trace_id st' = last_relay_ctf_trace_id st ->
  under_construction th' = None ->
  sys_inv (<[i := th']> threads, st') /\ ids_grow st st' /\
  last_relay_ctf_trace_id st' <= last_relay_ctf_trace_id st + 1.
Proof.
  intros (Htables & [Hheap0 Hcbs] & [Hlast0 Hids] & Hdistinct_ids & Hthreads & Hdistinct)
    Hi Hs Hin Hload Hsame Hnext Hcallbacks Hheap Hlast Hth'.
  simpl in *.
  assert (Hlen : (i < length threads)%nat) by (eapply lookup_lt_Some; eauto).
  assert (Hother : forall x, x <> t -> ctf_traces st' !! x = ctf_traces st !! x).
  { intros x Hne. rewrite Hheap. now apply lookup_insert_ne. }
  assert (Hown : ctf_traces st' !! t = Some (set_t_ref (t_ref tr + 1) tr)).
  { rewrite Hheap. apply lookup_insert_eq. }
  assert (Hsameid : forall x trx, ctf_traces st' !! x = Some trx ->
            exists tr0, ctf_traces st !! x = Some tr0 /\ t_id trx = t_id tr0).
  { intros x trx Hl. destruct (decide (x = t)) as [->|Hne].
    - rewrite Hown in Hl. injection Hl as <-. exists tr. now destruct tr.
    - rewrite Hother in Hl by exact Hne. eauto. }
  split; [split; [|split; [|split; [|split; [|split]]]]|split]; simpl.
  - apply (tables_ok_stable st); [assumption..| | |].
    + lia.
    + now rewrite Hcallbacks.
    + intros s0 k0 t0 tr0 _ _ Hl0 Hc0.
      destruct (decide (t0 = t)) as [->|Hne].
      * rewrite Hown. eexists. split; [reflexivity|].
        rewrite Hload in Hl0. injection Hl0 as <-.
        destruct tr; unfold constructed in *; simpl in *. intuition lia.
      * rewrite Hother by exact Hne. eauto.
  - unfold alloc_ok. rewrite Hnext, Hcallbacks. split; [|exact Hcbs].
    intros x [trx Hl]. destruct (Hsameid _ _ Hl) as (tr0 & Hl0 & _).
    apply Hheap0. eauto.
  - split; [lia|]. intros x trx Hl.
    destruct (Hsameid _ _ Hl) as (tr0 & Hl0 & ->). rewrite Hlast. eauto.
  - intros t1 t2 tr1 tr2 Hl1 Hl2 Hpos Heq.
    destruct (Hsameid _ _ Hl1) as (tr1' & Hl1' & Heq1).
    destruct (Hsameid _ _ Hl2) as (tr2' & Hl2' & Heq2).
    apply (Hdistinct_ids _ _ _ _ Hl1' Hl2'); congruence.
  - intros j thj Hj.
    destruct (decide (i = j)) as [<-|Hne].
    + rewrite list_lookup_insert_eq in Hj by exact Hlen. injection Hj as <-.
      intros t0 Huc. congruence.
    + rewrite list_lookup_insert_ne in Hj by exact Hne.
      pose proof (Hthreads _ _ Hj) as Hokj.
      apply (thread_ok_stable st); [exact Hokj| | | |].
      * intros t0 _. now apply unpublished_same_tables.
      * lia.
      * now rewrite Hcallbacks.
      * intros t0 Huc _. apply Hother. intros ->.
        destruct (Hokj _ Huc) as (_ & _ & Hunpub & _).
        exact (published_not_unpublished _ _ _ _ _ Hs Hin Hunpub).
  - apply (threads_distinct_update _ _ th); [exact Hdistinct | exact Hi |].
    intros t0 Huc. congruence.
  - split; [lia|]. intros x trx Hl. right. left.
    destruct (Hsameid _ _ Hl) as (tr0 & Hl0 & Heq0). eauto.
  - lia.
Qed.

(** The allocation of a new, zeroed trace. *)
Lemma inv_zmalloc threads st i th th' st' :
  sys_inv (threads, st) ->
  threads !! i = Some th ->
  same_tables st st' ->
  next_ctf_trace st' = S (next_ctf_trace st) ->
  rcu_callbacks st' = rcu_callbacks st ->
  ctf_traces st' = <[next_ctf_trace st := zeroed_ctf_trace]> (ctf_traces st) ->
  last_relay_ctf_trace_id st' = last_relay_ctf_trace_id st ->
  under_construction th' = Some (next_ctf_trace st) ->
  th_pc th' = pc_ref_init ->
  under_construction th = None ->
  sys_inv (<[i := th']> threads, st') /\ ids_grow st st' /\
  last_relay_ctf_trace_id st' <= last_relay_ctf_trace_id st + 1.
Proof.
  intros (Htables & [Hheap0 Hcbs] & [Hlast0 Hids] & Hdistinct_ids & Hthreads & Hdistinct)
    Hi Hsame Hnext Hcallbacks Hheap Hlast Hth' Hpc Hth.
  simpl in *.
  assert (Hlen : (i < length threads)%nat) by (eapply lookup_lt_Some; eauto).
  assert (Hother : forall x, (x < next_ctf_trace st)%nat ->
            ctf_traces st' !! x = ctf_traces st !! x).
  { intros x Hlt. rewrite Hheap. apply lookup_insert_ne. lia. }
  assert (Hown : ctf_traces st' !! next_ctf_trace st = Some zeroed_ctf_trace).
  { rewrite Hheap. apply lookup_insert_eq. }
  assert (Hcases : forall x trx, ctf_traces st' !! x = Some trx ->
            (x = next_ctf_trace st /\ trx = zeroed_ctf_trace) \/
            (x <> next_ctf_trace st /\ ctf_traces st !! x = Some trx)).
  { intros x trx Hl. destruct (decide (x = next_ctf_trace st)) as [->|Hne].
    - left. rewrite Hown in Hl. now injection Hl as <-.
    - right. rewrite Hheap, lookup_insert_ne in Hl by congruence. eauto. }
  split; [split; [|split; [|split; [|split; [|split]]]]|split]; simpl.
  - apply (tables_ok_stable st); [assumption..| | |].
    + lia.
    + now rewrite Hcallbacks.
    + intros s k t tr Hlt _ Hl Hc. rewrite Hother by exact Hlt. eauto.
  - unfold alloc_ok. rewrite Hnext, Hcallbacks. split.
    + intros x [trx Hl]. destruct (Hcases _ _ Hl) as [[-> _]|[_ Hl0]]; [lia|].
      assert (x < next_ctf_trace st)%nat by (apply Hheap0; eauto). lia.
    + intros x Hin. apply Hcbs in Hin. lia.
  - split; [lia|]. intros x trx Hl. rewrite Hlast.
    destruct (Hcases _ _ Hl) as [[_ ->]|[_ Hl0]]; [simpl; lia | eauto].
  - intros t1 t2 tr1 tr2 Hl1 Hl2 Hpos Heq.
    destruct (Hcases _ _ Hl1) as [[_ ->]|[_ Hl1']]; [simpl in Hpos; lia|].
    destruct (Hcases _ _ Hl2) as [[_ ->]|[_ Hl2']]; [simpl in Heq; lia|].
    exact (Hdistinct_ids _ _ _ _ Hl1' Hl2' Hpos Heq).
  - intros j thj Hj.
    destruct (decide (i = j)) as [<-|Hne].
    + rewrite list_lookup_insert_eq in Hj by exact Hlen. injection Hj as <-.
      intros t Huc. assert (t = next_ctf_trace st) as -> by congruence.
      split; [lia|]. split.
      { rewrite Hcallbacks. intros Hin. apply Hcbs in Hin. lia. }
      split.
      { intros s sess' Hs.
        destruct (ht_has_node (next_ctf_trace st) (s_ctf_traces_ht sess'))
          eqn:Hnode; [|reflexivity].
        apply has_node_elem_of in Hnode as [k Hin].
        destruct (same_tables_lookup _ _ _ _ Hsame Hs) as (sess & Hs0 & Heq).
        rewrite <- Heq in Hin.
        destruct (Htables _ _ _ _ Hs0 Hin) as (Hlt & _). lia. }
      exists zeroed_ctf_trace. split; [exact Hown|]. now rewrite Hpc.
    + rewrite list_lookup_insert_ne in Hj by exact Hne.
      apply (thread_ok_stable st); [now apply (Hthreads j)| | | |].
      * intros t _. now apply unpublished_same_tables.
      * lia.
      * now rewrite Hcallbacks.
      * intros t _ Hlt. now apply Hother.
  - apply (threads_distinct_update _ _ th); [exact Hdistinct | exact Hi |].
    intros t Huc. right. intros j thj Hj Hucj.
    destruct (Hthreads _ _ Hj _ Hucj) as (Hlt & _).
    assert (t = next_ctf_trace st) by congruence. lia.
  - split; [lia|]. intros x trx Hl.
    destruct (Hcases _ _ Hl) as [[_ ->]|[_ Hl0]]; [now left|].
    right. left. eauto.
  - lia.
Qed.

(** The publication of a trace that is fully built. *)
Lemma inv_publish threads st i th th' st' t sess :
  sys_inv (threads, st) ->
  threads !! i = Some th ->
  th_pc th = pc_ht_add ->
  th_trace th = Some t ->
  sessions st !! th_session th = Some sess ->
  sessions st' =
    <[th_session th :=
        set_s_ctf_traces_ht ((th_subpath th, t) :: s_ctf_traces_ht sess) sess]>
      (sessions st) ->
  next_ctf_trace st' = next_ctf_trace st ->
  rcu_callbacks st' = rcu_callbacks st ->
  ctf_traces st' = ctf_traces st ->
  last_relay_ctf_trace_id st' = last_relay_ctf_trace_id st ->
  under_construction th' = None ->
  sys_inv (<[i := th']> threads, st') /\ ids_grow st st' /\
  last_relay_ctf_trace_id st' <= last_relay_ctf_trace_id st + 1.
Proof.
  intros (Htables & Halloc & Hids & Hdistinct_ids & Hthreads & Hdistinct)
    Hi Hpc Htrace Hs Hsessions Hnext Hcallbacks Hheap Hlast Hth'.
  simpl in *.
  assert (Hlen : (i < length threads)%nat) by (eapply lookup_lt_Some; eauto).
  assert (Huc : under_construction th = Some t).
  { unfold under_construction. now rewrite Hpc. }
  destruct (Hthreads _ _ Hi _ Huc) as (Hlt & Hnotcb & Hunpub & tr & Hload & Hbuilt).
  rewrite Hpc in Hbuilt.
  destruct Hbuilt as (Href & Hsession & Hpath & Hlist & Hid & Hnode).
  split; [split; [|split; [|split; [|split; [|split]]]]|split]; simpl.
  - intros s sess' k t0 Hs' Hin.
    rewrite Hnext, Hcallbacks, Hheap. rewrite Hsessions in Hs'.
    destruct (decide (th_session th = s)) as [<-|Hne].
    + rewrite lookup_insert_eq in Hs'. injection Hs' as <-.
      destruct sess; simpl in Hin.
      apply elem_of_cons in Hin as [[= -> ->]|Hin].
      * split; [exact Hlt|]. split; [exact Hnotcb|].
        exists tr. split; [exact Hload|].
        unfold constructed. repeat split; try assumption; lia.
      * exact (Htables _ _ _ _ Hs Hin).
    + rewrite lookup_insert_ne in Hs' by exact Hne.
      exact (Htables _ _ _ _ Hs' Hin).
  - unfold alloc_ok. now rewrite Hnext, Hcallbacks, Hheap.
  - unfold ids_ok. now rewrite Hlast, Hheap.
  - unfold ids_distinct. now rewrite Hheap.
  - intros j thj Hj.
    destruct (decide (i = j)) as [<-|Hne].
    + rewrite list_lookup_insert_eq in Hj by exact Hlen. injection Hj as <-.
      intros t0 Huc0. congruence.
    + rewrite list_lookup_insert_ne in Hj by exact Hne.
      pose proof (Hthreads _ _ Hj) as Hokj.
      apply (thread_ok_stable st); [exact Hokj| | | |].
      * intros tj Hucj Hunpubj s sess' Hs'. rewrite Hsessions in Hs'.
        destruct (decide (th_session th = s)) as [<-|Hnes].
        -- rewrite lookup_insert_eq in Hs'. injection Hs' as <-.
           destruct sess; unfold ht_has_node; simpl.
           destruct (Nat.eqb_spec t tj) as [->|_].
           ++ destruct Hne. exact (Hdistinct _ _ _ _ _ Hi Hj Huc Hucj).
           ++ simpl. exact (Hunpubj _ _ Hs).
        -- rewrite lookup_insert_ne in Hs' by exact Hnes. eauto.
      * lia.
      * now rewrite Hcallbacks.
      * intros tj _ _. now rewrite Hheap.
  - apply (threads_distinct_update _ _ th); [exact Hdistinct | exact Hi |].
    intros t0 Huc0. congruence.
  - split; [lia|]. intros x trx Hl. right. left.
    rewrite Hheap in Hl. eauto.
  - lia.
Qed.

Lemma rcu_grace_period_fields st :
  sessions (rcu_grace_period st) = sessions st /\
  next_ctf_trace (rcu_grace_period st) = next_ctf_trace st /\
  last_relay_ctf_trace_id (rcu_grace_period st) = last_relay_ctf_trace_id st /\
  (forall x, x ∈ rcu_callbacks (rcu_grace_period st) -> x ∈ rcu_callbacks st).
Proof.
  unfold rcu_grace_period. destruct (rcu_nesting st); [|easy].
  assert (Hfold : forall cbs acc,
    sessions (fold_left (fun acc t => rcu_destroy_ctf_trace t acc) cbs acc)
      = sessions acc /\
    next_ctf_trace (fold_left (fun acc t => rcu_destroy_ctf_trace t acc) cbs acc)
      = next_ctf_trace acc /\
    last_relay_ctf_trace_id
      (fold_left (fun acc t => rcu_destroy_ctf_trace t acc) cbs acc)
      = last_relay_ctf_trace_id acc).
  { induction cbs as [|c cbs IH]; intros acc; simpl; [easy|].
    destruct (IH (rcu_destroy_ctf_trace c acc)) as (-> & -> & ->).
    now destruct acc. }
  destruct (Hfold (rcu_callbacks st) st) as (Hs & Hn & Hl).
  destruct (fold_left _ _ _); simpl in *.
  repeat split; try assumption.
  intros x Hin. now apply elem_of_nil in Hin.
Qed.

Lemma rcu_grace_period_heap st t tr :
  ctf_traces (rcu_grace_period st) !! t = Some tr ->
  ctf_traces st !! t = Some tr.
Proof.
  unfold rcu_grace_period. destruct (rcu_nesting st); [|easy].
  intros Hl.
  assert (Hl' : ctf_traces
                  (fold_left (fun acc t => rcu_destroy_ctf_trace t acc)
                     (rcu_callbacks st) st) !! t = Some tr).
  { now destruct (fold_left _ _ _). }
  rewrite lookup_fold_destroy in Hl'.
  now destruct (bool_decide _).
Qed.

(** The end of a grace period. *)
Lemma inv_grace_period threads st :
  sys_inv (threads, st) ->
  sys_inv (threads, rcu_grace_period st) /\ ids_grow st (rcu_grace_period st) /\
  last_relay_ctf_trace_id (rcu_grace_period st)
    <= last_relay_ctf_trace_id st + 1.
Proof.
  intros (Htables & [Hheap0 Hcbs] & [Hlast0 Hids] & Hdistinct_ids & Hthreads & Hdistinct).
  simpl in *.
  destruct (rcu_grace_period_fields st) as (Hs & Hn & Hl & Hc).
  assert (Hsame : same_tables st (rcu_grace_period st)).
  { intros s. now rewrite Hs. }
  split; [split; [|split; [|split; [|split; [|split]]]]|split]; simpl.
  - apply (tables_ok_stable st); [assumption..| | |].
    + lia.
    + exact Hc.
    + intros s k t tr _ Hnotin Hload Hcons. exists tr. split; [|exact Hcons].
      now rewrite rcu_grace_period_keeps.
  - unfold alloc_ok. rewrite Hn. split.
    + intros x [trx Hlx]. apply Hheap0. apply rcu_grace_period_heap in Hlx. eauto.
    + intros x Hin. apply Hcbs, Hc, Hin.
  - split; [lia|]. intros x trx Hlx. rewrite Hl.
    apply rcu_grace_period_heap in Hlx. eauto.
  - intros t1 t2 tr1 tr2 Hl1 Hl2.
    apply rcu_grace_period_heap in Hl1, Hl2. eauto.
  - intros j thj Hj.
    pose proof (Hthreads _ _ Hj) as Hokj.
    apply (thread_ok_stable st); [exact Hokj| | | |].
    + intros t _. now apply unpublished_same_tables.
    + lia.
    + exact Hc.
    + intros t Huc _. apply rcu_grace_period_keeps.
      now destruct (Hokj _ Huc) as (_ & Hcb & _).
  - exact Hdistinct.
  - split; [lia|]. intros x trx Hlx. right. left.
    apply rcu_grace_period_heap in Hlx. eauto.
  - lia.
Qed.

(** Applies a case of the invariant and discharges what holds by
    computation. *)
Ltac by_case lemma :=
  eapply lemma; try eassumption; try reflexivity;
  try (intros ?; reflexivity).

(** A statement that works on the trace its thread is building: the
    trace is there, by the invariant, and the statement runs. *)
Ltac own_trace Hok Hstep st local :=
  destruct local as [t|];
  [ destruct (Hok t eq_refl) as (Hlt & Hcb & Hunpub & tr & Hload & Hbuilt);
    revert Hstep;
    destruct st as [lid n cbs traces nxt sessions rel vstreams vsess rstreams];
    destruct tr as [ref session id vms streams node path];
    simpl in Hbuilt; mgo
  | exfalso; revert Hstep;
    destruct st as [lid n cbs traces nxt sessions rel vstreams vsess rstreams];
    mgo; discriminate ].

(** Every statement of a call in flight keeps the invariant. *)
Lemma step_preserves threads st i th th' st' :
  sys_inv (threads, st) ->
  threads !! i = Some th ->
  last_relay_ctf_trace_id st + 1 < UINT64_MODULUS ->
  step th st = inr (th', st') ->
  sys_inv (<[i := th']> threads, st') /\ ids_grow st st' /\
  last_relay_ctf_trace_id st' <= last_relay_ctf_trace_id st + 1.
Proof.
  intros Hinv Hi Hwrap Hstep.
  pose proof Hinv as (Htables & _ & [Hlast _] & _ & Hthreads & _).
  simpl in Htables, Hlast, Hthreads.
  pose proof (Hthreads _ _ Hi) as Hok.
  destruct th as [pc s subpath local alloc].
  destruct pc.
  - (* pc_lookup *)
    destruct (sessions st !! s) as [sess|] eqn:Hsess.
    2:{ exfalso. revert Hstep.
        destruct st as [lid n cbs traces nxt sessions rel vstreams vsess rstreams].
        mgo. discriminate. }
    destruct (find (fun e : string * nat => String.eqb (fst e) subpath)
                (s_ctf_traces_ht sess)) as [[k t]|] eqn:Hfind.
    + destruct (find_key_in _ _ _ _ Hfind) as [-> Hin].
      destruct (Htables _ _ _ _ Hsess Hin) as (_ & _ & tr & Hload & Hlive & _).
      revert Hstep.
      destruct st as [lid n cbs traces nxt sessions rel vstreams vsess rstreams].
      destruct tr as [ref session id vms streams node path].
      destruct sess as [sref lock ht attached chunk].
      mgo. rewrite Hfind. mgo_lia.
      intros [= <- <-].
      by_case inv_ref_bump.
    + revert Hstep.
      destruct st as [lid n cbs traces nxt sessions rel vstreams vsess rstreams].
      destruct sess as [sref lock ht attached chunk].
      mgo. rewrite Hfind. mgo.
      intros [= <- <-].
      by_case inv_no_write.
  - (* pc_zmalloc *)
    revert Hstep.
    destruct st as [lid n cbs traces nxt sessions rel vstreams vsess rstreams].
    destruct alloc as [[|] sok]; mgo; intros [= <- <-].
    + by_case inv_zmalloc.
    + by_case inv_no_write.
  - (* pc_ref_init *)
    own_trace Hok Hstep st local. intros [= <- <-].
    by_case inv_own_update.
    + left. split; reflexivity.
    + right. split; [reflexivity|]. reflexivity.
  - (* pc_session_get *)
    destruct (sessions st !! s) as [sess|] eqn:Hsess.
    2:{ exfalso. revert Hstep.
        destruct st as [lid n cbs traces nxt sessions rel vstreams vsess rstreams].
        mgo. discriminate. }
    destruct sess as [sref lock ht attached chunk].
    assert (Hsame : forall v,
      same_tables st
        (set_sessions
           (<[s := mk_relay_session v lock ht attached chunk]> (Relayd.sessions st))
           st)).
    { intros v s'. destruct st; simpl in *.
      destruct (decide (s = s')) as [<-|Hne].
      - now rewrite lookup_insert_eq, Hsess.
      - now rewrite lookup_insert_ne. }
    destruct local as [t|].
    + destruct (Hok t eq_refl) as (Hlt & Hcb & Hunpub & tr & Hload & Hbuilt).
      revert Hstep. specialize (Hsame (sref + 1)).
      destruct st as [lid n cbs traces nxt sessions rel vstreams vsess rstreams].
      mgo. unfold urcu_ref_get_unless_zero.
      destruct (sref =? 0); mgo; intros [= <- <-].
      * eapply inv_own_update with (tr' := tr); try eassumption;
          try reflexivity; try (intros ?; reflexivity).
        -- symmetry. apply insert_id. exact Hload.
        -- left. split; reflexivity.
        -- right. split; [reflexivity|]. exact Hbuilt.
      * eapply inv_own_update with (tr' := tr); try eassumption; try reflexivity.
        -- symmetry. apply insert_id. exact Hload.
        -- left. split; reflexivity.
        -- right. split; [reflexivity|]. exact Hbuilt.
    + revert Hstep. specialize (Hsame (sref + 1)).
      destruct st as [lid n cbs traces nxt sessions rel vstreams vsess rstreams].
      mgo. unfold urcu_ref_get_unless_zero.
      destruct (sref =? 0); mgo; intros [= <- <-].
      * by_case inv_no_write.
      * eapply inv_no_write; try eassumption; reflexivity.
  - (* pc_set_session *)
    own_trace Hok Hstep st local. intros [= <- <-].
    by_case inv_own_update.
    + left. split; reflexivity.
    + right. split; [reflexivity|]. simpl. now split.
  - (* pc_strdup *)
    own_trace Hok Hstep st local.
    destruct alloc as [zok [|]]; mgo; intros [= <- <-].
    + by_case inv_own_update.
      * left. split; reflexivity.
      * right. split; [reflexivity|]. simpl. intuition.
    + by_case inv_own_update.
      * left. split; reflexivity.
      * right. split; [reflexivity|]. simpl. intuition.
  - (* pc_init_list *)
    own_trace Hok Hstep st local. intros [= <- <-].
    by_case inv_own_update.
    + left. split; reflexivity.
    + right. split; [reflexivity|]. simpl. intuition eauto.
  - (* pc_assign_id *)
    own_trace Hok Hstep st local.
    rewrite (next_id_no_wrap lid Hlast Hwrap). intros [= <- <-].
    by_case inv_own_update.
    + right. split; reflexivity.
    + right. split; [reflexivity|]. simpl. intuition lia.
  - (* pc_node_init *)
    own_trace Hok Hstep st local. intros [= <- <-].
    by_case inv_own_update.
    + left. split; reflexivity.
    + right. split; [reflexivity|]. simpl. intuition congruence.
  - (* pc_locks_init *)
    own_trace Hok Hstep st local. intros [= <- <-].
    by_case inv_own_update.
    + left. split; reflexivity.
    + right. split; [reflexivity|]. simpl. intuition.
  - (* pc_ht_add *)
    destruct (sessions st !! s) as [sess|] eqn:Hsess.
    2:{ exfalso. revert Hstep.
        destruct local as [t|];
          [destruct (Hok t eq_refl) as (_ & _ & _ & tr & Hload & Hbuilt)|];
          destruct st as [lid n cbs traces nxt sessions rel vstreams vsess rstreams];
          [destruct tr as [ref session id vms streams node path];
           simpl in Hbuilt; destruct Hbuilt as (_ & _ & _ & _ & _ & ->)|];
          mgo; discriminate. }
    destruct sess as [sref lock ht attached chunk].
    own_trace Hok Hstep st local.
    destruct Hbuilt as (Href & Hsession & Hpath & Hlist & Hid & Hnode).
    subst node. mgo. intros [= <- <-].
    by_case inv_publish.
  - (* pc_error *)
    exfalso.
    own_trace Hok Hstep st local.
    subst ref. change (1 - 1) with 0. mgo.
    destruct session as [s0|]; mgo; [|discriminate].
    destruct (sessions !! s0) as [[sref0 lock0 ht0 attached0 chunk0]|] eqn:Hsess0;
      mgo; [|discriminate].
    pose proof (Hunpub _ _ Hsess0) as Hnode. simpl in Hnode.
    rewrite Hnode. mgo. discriminate.
  - (* pc_return *)
    revert Hstep.
    destruct st as [lid n cbs traces nxt sessions rel vstreams vsess rstreams].
    mgo. intros [= <- <-].
    by_case inv_no_write.
Qed.

Lemma sys_step_preserves a c c' :
  sys_inv c ->
  last_relay_ctf_trace_id (snd c) + 1 < UINT64_MODULUS ->
  sys_step a c = inr c' ->
  sys_inv c' /\ ids_grow (snd c) (snd c') /\
  last_relay_ctf_trace_id (snd c') <= last_relay_ctf_trace_id (snd c) + 1.
Proof.
  destruct c as [threads st]. intros Hinv Hwrap Hstep. simpl in *.
  destruct a as [i|].
  - destruct (threads !! i) as [th|] eqn:Hi.
    + destruct (step th st) as [f|[th' st']] eqn:Hth; [discriminate|].
      injection Hstep as <-.
      exact (step_preserves _ _ _ _ _ _ Hinv Hi Hwrap Hth).
    + injection Hstep as <-. simpl.
      split; [exact Hinv|]. split; [apply ids_grow_refl | lia].
  - injection Hstep as <-. simpl. now apply inv_grace_period.
Qed.

(** Whatever the schedule, the invariant holds at the end of the run, and
    the ids grew along it. *)
Lemma sys_run_preserves schedule c c' :
  sys_inv c ->
  last_relay_ctf_trace_id (snd c) + Z.of_nat (length schedule) < UINT64_MODULUS ->
  sys_run schedule c = inr c' ->
  sys_inv c' /\ ids_grow (snd c) (snd c').
Proof.
  revert c. induction schedule as [|a rest IH]; intros c Hinv Hwrap Hrun.
  - injection Hrun as <-. split; [exact Hinv | apply ids_grow_refl].
  - simpl in Hrun, Hwrap.
    destruct (sys_step a c) as [f|c1] eqn:Hstep; [discriminate|].
    destruct (sys_step_preserves _ _ _ Hinv ltac:(lia) Hstep)
      as (Hinv1 & Hgrow1 & Hbound).
    destruct (IH c1 Hinv1 ltac:(lia) Hrun) as (Hinv' & Hgrow').
    split; [exact Hinv'|]. exact (ids_grow_trans _ _ _ Hgrow1 Hgrow').
Qed.

Lemma sys_inv_fresh_callers st callers :
  wf st -> ids_distinct st ->
  Forall (fun th => under_construction th = None) callers ->
  sys_inv (callers, st).
Proof.
  intros (Htables & _ & Halloc & Hids) Hdistinct Hcallers.
  rewrite Forall_lookup in Hcallers.
  split; [exact Htables|]. split; [exact Halloc|]. split; [exact Hids|].
  split; [exact Hdistinct|]. split; simpl.
  - intros i th Hi t Huc. rewrite (Hcallers _ _ Hi) in Huc. discriminate.
  - intros i j thi thj t Hi _ Huc. rewrite (Hcallers _ _ Hi) in Huc.
    discriminate.
Qed.

Lemma sys_inv_sample :
  sys_inv (repeat (start pc_lookup no_oom 5 "ust/uid/1000/64-bit") 2,
           sample_relayd).
Proof.
  apply sys_inv_fresh_callers.
  - exact wf_sample_relayd.
  - intros t1 t2 tr1 tr2 Hl1. simpl in Hl1.
    now rewrite lookup_empty in Hl1.
  - repeat constructor.
Qed.

(** C4: however the calls in flight interleave, whatever a lookup in a
    session's table returns is an allocated trace whose reference count is
    live and whose session link, path, node key, stream list and id are
    set; a trace that a call is still building is linked in no table; and
    the trace a call is about to add carries all of these fields. *)
Theorem publication_after_construction
    (schedule : list action) (threads threads' : list thread)
    (st st' : relayd) :
  sys_inv (threads, st) ->
  last_relay_ctf_trace_id st + Z.of_nat (length schedule) < UINT64_MODULUS ->
  sys_run schedule (threads, st) = inr (threads', st') ->
  (forall s key t st'',
     lttng_ht_lookup s key st' = inr (Some t, st'') ->
     exists tr, ctf_traces st' !! t = Some tr /\ constructed s key tr) /\
  (forall th t, th ∈ threads' -> under_construction th = Some t ->
     unpublished st' t) /\
  (forall th t, th ∈ threads' -> th_pc th = pc_ht_add -> th_trace th = Some t ->
     exists tr, ctf_traces st' !! t = Some tr /\
                t_ref tr = 1 /\
                constructed (th_session th) (th_subpath th) tr).
Proof.
  intros Hinv Hwrap Hrun.
  destruct (sys_run_preserves _ _ _ Hinv Hwrap Hrun)
    as ((Htables & _ & _ & _ & Hthreads & _) & _).
  simpl in Htables, Hthreads.
  split; [|split].
  - intros s key t st'' Hlookup.
    unfold lttng_ht_lookup, bind, load_session, ret in Hlookup.
    destruct (sessions st' !! s) as [sess|] eqn:Hsess; [|discriminate].
    destruct (find _ (s_ctf_traces_ht sess)) as [[k t0]|] eqn:Hfind;
      [|discriminate].
    injection Hlookup as -> _.
    destruct (find_key_in _ _ _ _ Hfind) as [-> Hin].
    destruct (Htables _ _ _ _ Hsess Hin) as (_ & _ & Hconstructed).
    exact Hconstructed.
  - intros th t Hin Huc.
    apply list_elem_of_lookup in Hin as [i Hi].
    now destruct (Hthreads _ _ Hi _ Huc) as (_ & _ & Hunpub & _).
  - intros th t Hin Hpc Htrace.
    apply list_elem_of_lookup in Hin as [i Hi].
    assert (Huc : under_construction th = Some t).
    { unfold under_construction. now rewrite Hpc. }
    destruct (Hthreads _ _ Hi _ Huc) as (_ & _ & _ & tr & Hload & Hbuilt).
    rewrite Hpc in Hbuilt.
    destruct Hbuilt as (Href & Hsession & Hpath & Hlist & Hid & Hnode).
    exists tr. split; [exact Hload|]. split; [exact Href|].
    unfold constructed. repeat split; try assumption; lia.
Qed.

Lemma publication_after_construction_witness :
  exists threads' st',
    sys_run racing_schedule
      (repeat (start pc_lookup no_oom 5 "ust/uid/1000/64-bit") 2,
       sample_relayd) = inr (threads', st') /\
    (forall s key t st'',
       lttng_ht_lookup s key st' = inr (Some t, st'') ->
       exists tr, ctf_traces st' !! t = Some tr /\ constructed s key tr) /\
    (forall th t, th ∈ threads' -> under_construction th = Some t ->
       unpublished st' t) /\
    (forall th t, th ∈ threads' -> th_pc th = pc_ht_add ->
       th_trace th = Some t ->
       exists tr, ctf_traces st' !! t = Some tr /\
                  t_ref tr = 1 /\
                  constructed (th_session th) (th_subpath th) tr).
Proof.
  destruct (sys_run racing_schedule
              (repeat (start pc_lookup no_oom 5 "ust/uid/1000/64-bit") 2,
               sample_relayd)) as [f|[threads' st']] eqn:Hrun.
  - vm_compute in Hrun. discriminate Hrun.
  - exists threads', st'. split; [reflexivity|].
    apply (publication_after_construction racing_schedule
             (repeat (start pc_lookup no_oom 5 "ust/uid/1000/64-bit") 2)
             threads' sample_relayd st').
    + exact sys_inv_sample.
    + vm_compute. reflexivity.
    + exact Hrun.
Defined.

(** C6: along any run of calls in flight the ids handed out are pairwise
    distinct and every id handed out during the run is greater than the
    counter was, hence than every id handed out before; and the trace
    created next gets the counter's value plus one, greater than the id of
    every trace there is.  The counter is a [uint64_t]: this holds as long
    as it has not wrapped. *)
Theorem relay_ctf_trace_ids_increase
    (schedule : list action) (threads threads' : list thread)
    (st st' : relayd) (s : nat) (subpath : string) (sess : relay_session) :
  sys_inv (threads, st) ->
  last_relay_ctf_trace_id st + Z.of_nat (length schedule) + 1 < UINT64_MODULUS ->
  sys_run schedule (threads, st) = inr (threads', st') ->
  sessions st' !! s = Some sess ->
  0 < s_ref sess ->
  ids_distinct st' /\
  ids_grow st st' /\
  exists st'' tr,
    ctf_trace_create no_oom s subpath st'
      = inr (Some (next_ctf_trace st'), st'') /\
    ctf_traces st'' !! next_ctf_trace st' = Some tr /\
    t_id tr = last_relay_ctf_trace_id st' + 1 /\
    last_relay_ctf_trace_id st'' = t_id tr /\
    forall t0 tr0, ctf_traces st' !! t0 = Some tr0 -> t_id tr0 < t_id tr.
Proof.
  intros Hinv Hwrap Hrun Hsess Hlive.
  assert (Hwrap' : last_relay_ctf_trace_id (snd (threads, st))
                   + Z.of_nat (length schedule) < UINT64_MODULUS)
    by (cbn [snd]; lia).
  destruct (sys_run_preserves _ _ _ Hinv Hwrap' Hrun)
    as ((_ & _ & [Hlast Hids] & Hdistinct & _) & Hgrow).
  simpl in Hlast, Hids, Hdistinct, Hgrow.
  split; [exact Hdistinct|]. split; [exact Hgrow|].
  assert (Hbound : last_relay_ctf_trace_id st' + 1 < UINT64_MODULUS).
  { (* the counter moved by at most one per step *)
    clear -Hinv Hwrap Hrun.
    assert (Hgen : forall schedule c c',
      sys_inv c -> 
      last_relay_ctf_trace_id (snd c) + Z.of_nat (length schedule) + 1
        < UINT64_MODULUS ->
      sys_run schedule c = inr c' ->
      last_relay_ctf_trace_id (snd c')
        <= last_relay_ctf_trace_id (snd c) + Z.of_nat (length schedule)).
    { induction schedule0 as [|a rest IH]; intros c c' Hi Hw Hr.
      - injection Hr as <-. simpl. lia.
      - simpl in Hr, Hw.
        destruct (sys_step a c) as [f|c1] eqn:Hstep; [discriminate|].
        destruct (sys_step_preserves _ _ _ Hi ltac:(lia) Hstep)
          as (Hi1 & _ & Hb).
        specialize (IH c1 c' Hi1 ltac:(lia) Hr). simpl. lia. }
    specialize (Hgen _ _ _ Hinv Hwrap Hrun). simpl in Hgen. lia. }
  exists (after_create s subpath sess st'). eexists.
  split; [now apply ctf_trace_create_succeeds|].
  unfold after_create. simpl.
  rewrite lookup_insert_eq, (next_id_no_wrap _ Hlast Hbound).
  split; [reflexivity|]. simpl.
  split; [reflexivity|]. split; [reflexivity|].
  intros t0 tr0 Hl0. specialize (Hids _ _ Hl0). lia.
Qed.

Lemma relay_ctf_trace_ids_increase_witness :
  exists threads' st',
    sys_run racing_schedule
      (repeat (start pc_lookup no_oom 5 "ust/uid/1000/64-bit") 2,
       sample_relayd) = inr (threads', st') /\
    ids_distinct st' /\
    ids_grow sample_relayd st' /\
    exists st'' tr,
      ctf_trace_create no_oom 5 "kernel" st'
        = inr (Some (next_ctf_trace st'), st'') /\
      ctf_traces st'' !! next_ctf_trace st' = Some tr /\
      t_id tr = last_relay_ctf_trace_id st' + 1 /\
      last_relay_ctf_trace_id st'' = t_id tr /\
      forall t0 tr0, ctf_traces st' !! t0 = Some tr0 -> t_id tr0 < t_id tr.
Proof.
  destruct (sys_run racing_schedule
              (repeat (start pc_lookup no_oom 5 "ust/uid/1000/64-bit") 2,
               sample_relayd)) as [f|[threads' st']] eqn:Hrun.
  - vm_compute in Hrun. discriminate Hrun.
  - exists threads', st'. split; [reflexivity|].
    pose proof Hrun as Hfinal. vm_compute in Hfinal.
    injection Hfinal as Hthreads Hst.
    apply (relay_ctf_trace_ids_increase racing_schedule
             (repeat (start pc_lookup no_oom 5 "ust/uid/1000/64-bit") 2)
             threads' sample_relayd st' 5 "kernel"
             (mk_relay_session 3 false
                [("ust/uid/1000/64-bit"%string, 1%nat);
                 ("ust/uid/1000/64-bit"%string, 0%nat)] false None)).
    + exact sys_inv_sample.
    + vm_compute. reflexivity.
    + exact Hrun.
    + rewrite <- Hst. vm_compute. reflexivity.
    + simpl. lia.
Defined.

(** Where the hypothesis on the counter bites: a [uint64_t] at its maximum
    wraps, and the trace created then is given the id 0. *)
Example relay_ctf_trace_id_wraps :
  match ctf_trace_create no_oom 5 "ust/uid/1000/64-bit"
          (set_last_relay_ctf_trace_id (UINT64_MODULUS - 1) sample_relayd) with
  | inr (Some t, st') =>
      t_id <$> ctf_traces st' !! t = Some 0 /\
      last_relay_ctf_trace_id st' = 0
  | _ => False
  end.
Proof. vm_compute. split; reflexivity. Qed.

End RelaydFacts.

Module TsdlEmitterFacts.

Import Tsdl TsdlEmitter.
Local Open Scope string_scope.

(** *** Strings *)

Lemma append_cons (x : ascii) (a b : string) :
  String x a ++ b = String x (a ++ b).
Proof. reflexivity. Qed.

Lemma append_nil_l (s : string) : "" ++ s = s.
Proof. reflexivity. Qed.

Lemma append_nil_r (s : string) : s ++ "" = s.
Proof. induction s as [|c s IH]; [reflexivity|]. rewrite append_cons. congruence. Qed.

Lemma append_assoc (a b c : string) : (a ++ b) ++ c = a ++ (b ++ c).
Proof.
  induction a as [|x a IH]; [reflexivity|].
  rewrite !append_cons. congruence.
Qed.

Lemma occurrences_append (c : ascii) (a b : string) :
  occurrences c (a ++ b) = (occurrences c a + occurrences c b)%nat.
Proof.
  induction a as [|x a IH]; [reflexivity|].
  rewrite append_cons. cbn [occurrences]. rewrite IH. lia.
Qed.

(** *** [escape_tsdl_env_string_value] *)

Lemma escape_env_append (a b : string) :
  escape_tsdl_env_string_value (a ++ b)
  = escape_tsdl_env_string_value a ++ escape_tsdl_env_string_value b.
Proof.
  induction a as [|x a IH]; [reflexivity|].
  rewrite append_cons. cbn [escape_tsdl_env_string_value].
  now rewrite IH, append_assoc.
Qed.

Lemma unescape_escape (s : string) :
  unescape_tsdl_env_string_value (escape_tsdl_env_string_value s) = s.
Proof.
  induction s as [|c s IH]; [reflexivity|].
  cbn [escape_tsdl_env_string_value]. unfold escape_env_char.
  destruct (Ascii.eqb c newline) eqn:Hnl.
  { apply Ascii.eqb_eq in Hnl as ->.
    rewrite !append_cons, append_nil_l. cbn. now rewrite IH. }
  destruct (Ascii.eqb c backslash) eqn:Hbs.
  { apply Ascii.eqb_eq in Hbs as ->.
    rewrite !append_cons, append_nil_l. cbn. now rewrite IH. }
  destruct (Ascii.eqb c double_quote) eqn:Hdq.
  { apply Ascii.eqb_eq in Hdq as ->.
    rewrite !append_cons, append_nil_l. cbn. now rewrite IH. }
  rewrite !append_cons, append_nil_l.
  cbn [unescape_tsdl_env_string_value]. rewrite Hbs. now rewrite IH.
Qed.

(** X1: [escape_tsdl_env_string_value] loses nothing: two values with the
    same escaped form are the same value. *)
Theorem escape_tsdl_env_string_value_injective (s1 s2 : string) :
  escape_tsdl_env_string_value s1 = escape_tsdl_env_string_value s2 ->
  s1 = s2.
Proof.
  intros Heq.
  rewrite <- (unescape_escape s1), <- (unescape_escape s2).
  now rewrite Heq.
Qed.

Lemma escape_tsdl_env_string_value_injective_witness :
  String backslash "n" = String backslash "n".
Proof.
  apply (escape_tsdl_env_string_value_injective
           (String backslash "n") (String backslash "n")).
  reflexivity.
Defined.

(** A line feed and the two characters backslash, ['n'] are different
    values with different escaped forms. *)
Example escape_tsdl_env_string_value_line_feed :
  escape_tsdl_env_string_value (String newline "") = String backslash "n" /\
  escape_tsdl_env_string_value (String backslash "n")
  = String backslash (String backslash "n").
Proof. split; reflexivity. Qed.

(** X2: a value that holds neither a line feed nor a backslash is returned
    as it is; in particular its double quotes are not escaped. *)
Theorem escape_tsdl_env_string_value_plain (s : string) :
  occurrences newline s = 0%nat ->
  occurrences backslash s = 0%nat ->
  escape_tsdl_env_string_value s = s.
Proof.
  induction s as [|c s IH]; [reflexivity|].
  cbn [occurrences escape_tsdl_env_string_value]. unfold escape_env_char.
  intros Hnl Hbs.
  destruct (Ascii.eqb c newline); [discriminate Hnl|].
  destruct (Ascii.eqb c backslash); [discriminate Hbs|].
  cbn [Nat.add] in Hnl, Hbs.
  destruct (Ascii.eqb c double_quote) eqn:Hdq;
    rewrite append_cons, append_nil_l, IH by assumption; [|reflexivity].
  now apply Ascii.eqb_eq in Hdq as ->.
Qed.

Lemma escape_tsdl_env_string_value_plain_witness :
  escape_tsdl_env_string_value
    (String "a" (String double_quote (String "b" "")))
  = String "a" (String double_quote (String "b" "")).
Proof.
  apply (escape_tsdl_env_string_value_plain
           (String "a" (String double_quote (String "b" ""))));
    reflexivity.
Defined.

Lemma escape_env_no_newline (s : string) :
  occurrences newline (escape_tsdl_env_string_value s) = 0%nat.
Proof.
  induction s as [|c s IH]; [reflexivity|].
  cbn [escape_tsdl_env_string_value]. rewrite occurrences_append, IH.
  unfold escape_env_char.
  destruct (Ascii.eqb c newline) eqn:Hnl; [reflexivity|].
  destruct (Ascii.eqb c backslash) eqn:Hbs; [reflexivity|].
  destruct (Ascii.eqb c double_quote) eqn:Hdq; [reflexivity|].
  cbn [occurrences]. now rewrite Hnl.
Qed.

(** *** Numbers *)

Lemma uint_chars (c : ascii) (d : Decimal.uint) :
  is_digit_or_minus c = false ->
  occurrences c (NilEmpty.string_of_uint d) = 0%nat.
Proof.
  intros Hc.
  induction d as [|d IH|d IH|d IH|d IH|d IH|d IH|d IH|d IH|d IH|d IH];
    cbn [NilEmpty.string_of_uint occurrences]; [reflexivity|..];
    rewrite IH;
    match goal with
    | |- ((if Ascii.eqb ?x c then _ else _) + _)%nat = _ =>
        destruct (Ascii.eqb x c) eqn:Heq;
        [apply Ascii.eqb_eq in Heq; subst c; discriminate Hc | reflexivity]
    end.
Qed.

Lemma format_unsigned_chars (c : ascii) (n : N) :
  is_digit_or_minus c = false -> occurrences c (format_unsigned n) = 0%nat.
Proof.
  intros Hc. unfold format_unsigned, NilZero.string_of_uint.
  destruct (N.to_uint n) eqn:Hn; try (rewrite <- Hn; now apply uint_chars).
  cbn [occurrences].
  destruct (Ascii.eqb "0" c) eqn:Heq; [|reflexivity].
  apply Ascii.eqb_eq in Heq; subst c; discriminate Hc.
Qed.

Lemma format_signed_chars (c : ascii) (z : Z) :
  is_digit_or_minus c = false -> occurrences c (format_signed z) = 0%nat.
Proof.
  intros Hc. unfold format_signed, NilZero.string_of_int.
  assert (Hz : forall d, occurrences c (NilZero.string_of_uint d) = 0%nat).
  { intros d. unfold NilZero.string_of_uint.
    destruct d eqn:Hd; try (rewrite <- Hd; now apply uint_chars).
    cbn [occurrences].
    destruct (Ascii.eqb "0" c) eqn:Heq; [|reflexivity].
    apply Ascii.eqb_eq in Heq; subst c; discriminate Hc. }
  destruct (Z.to_int z) as [d|d]; [apply Hz|].
  cbn [occurrences]. rewrite Hz.
  destruct (Ascii.eqb "-" c) eqn:Heq; [|reflexivity].
  apply Ascii.eqb_eq in Heq; subst c; discriminate Hc.
Qed.

(** *** The environment block *)

Lemma fold_visit_environment_lines (fields : list environment_field)
    (env : string) :
  Forall (fun field =>
            occurrences newline (environment_field_name field) = 0%nat)
    fields ->
  occurrences newline
    (fold_left (fun env field => visit_environment_field field env) fields env)
  = (occurrences newline env + length fields)%nat.
Proof.
  intros Hnames. revert env.
  induction Hnames as [|field fields Hname _ IH]; intros env;
    cbn [fold_left length]; [lia|].
  rewrite IH. clear IH.
  assert (occurrences newline (visit_environment_field field env)
          = S (occurrences newline env)) as ->; [|lia].
  destruct field as [name value|name value];
    cbn [visit_environment_field environment_field_name] in *;
    unfold quoted, nl;
    repeat (rewrite ?occurrences_append, ?append_cons; cbn [occurrences]);
    rewrite ?Hname, ?escape_env_no_newline, ?format_signed_chars by reflexivity;
    cbn; lia.
Qed.

(** X3: when no name of the environment holds a line feed, the
    environment block has one line per field between its opening line and
    its two closing line feeds: no value can break a line. *)
Theorem environment_block_lines (fields : list environment_field) :
  Forall (fun field =>
            occurrences newline (environment_field_name field) = 0%nat)
    fields ->
  occurrences newline (environment_block fields) = (length fields + 3)%nat.
Proof.
  intros Hnames.
  unfold environment_block, environment_transfer_description.
  rewrite !occurrences_append, fold_visit_environment_lines by exact Hnames.
  assert (occurrences newline environment_visitor_init = 1%nat) as ->
    by reflexivity.
  cbn. lia.
Qed.

Lemma environment_block_lines_witness :
  occurrences newline
    (environment_block
       [int_field "tracer_major" 2;
        string_field "hostname" (String "a" (String newline "b"))])
  = 5%nat.
Proof.
  apply (environment_block_lines
           [int_field "tracer_major" 2;
            string_field "hostname" (String "a" (String newline "b"))]).
  repeat constructor.
Defined.

(** *** [escape_tsdl_identifier], once more *)

Lemma escape_chars_tsdl_id (s : string) :
  all_chars tsdl_char s = true -> escape_chars s = s.
Proof.
  induction s as [|c s IH]; [reflexivity|].
  cbn [all_chars escape_chars]. intros [Hc Hs]%andb_prop.
  rewrite IH by exact Hs. f_equal.
  unfold escape_char. unfold tsdl_char in Hc.
  destruct (isalnum c); [reflexivity|].
  destruct (Ascii.eqb c underscore); [reflexivity|discriminate Hc].
Qed.

Lemma safe_identifier_no_underscore (s : string) :
  is_safe_tsdl_identifier (String underscore s) = false.
Proof. reflexivity. Qed.

(** X4: on identifiers that are already made of ASCII letters, digits and
    underscores, [escape_tsdl_identifier] is injective: two such names
    never collide once escaped. *)
Theorem escape_tsdl_identifier_injective (x y : string) :
  all_chars tsdl_char x = true ->
  all_chars tsdl_char y = true ->
  escape_tsdl_identifier x = escape_tsdl_identifier y ->
  x = y.
Proof.
  intros Hx Hy. unfold escape_tsdl_identifier.
  rewrite (escape_chars_tsdl_id x Hx), (escape_chars_tsdl_id y Hy).
  destruct x as [|cx x]; destruct y as [|cy y]; cbn [String.length Nat.eqb];
    [reflexivity| | |].
  - destruct (is_safe_tsdl_identifier (String cy y)); discriminate.
  - destruct (is_safe_tsdl_identifier (String cx x)); discriminate.
  - destruct (is_safe_tsdl_identifier (String cx x)) eqn:Hsx;
      destruct (is_safe_tsdl_identifier (String cy y)) eqn:Hsy;
      intros Heq; injection Heq; intros; subst; try reflexivity.
    + now rewrite safe_identifier_no_underscore in Hsx.
    + now rewrite safe_identifier_no_underscore in Hsy.
Qed.

Lemma escape_tsdl_identifier_injective_witness : "cpu_id" = "cpu_id".
Proof.
  apply (escape_tsdl_identifier_injective "cpu_id" "cpu_id"); reflexivity.
Defined.

(** Names with other characters do collide. *)
Example escape_tsdl_identifier_collision :
  escape_tsdl_identifier "a b" = escape_tsdl_identifier "a_b" /\
  escape_tsdl_identifier "a b" = inr "_a_b".
Proof. split; reflexivity. Qed.

(** *** The equations of [visit] *)

Lemma visit_structure (fields : list (string * type)) (v : tsdl_field_visitor) :
  visit (structure fields) v =
  visit_fields fields
    (set_bypass_identifier_escape false (emit "struct {" (indentation_incr v)))
  >>= fun v' =>
    let v' := indentation_decr
                (set_bypass_identifier_escape (_bypass_identifier_escape v) v') in
    inr (emit "}" match fields with
                  | [] => v'
                  | _ :: _ => indent (_indentation_level v') (emit nl v')
                  end).
Proof. reflexivity. Qed.

Lemma visit_signed_variant a sel choices v :
  visit (signed_variant a sel choices) v = visit_variant a sel choices v.
Proof. reflexivity. Qed.

Lemma visit_unsigned_variant a sel choices v :
  visit (unsigned_variant a sel choices) v = visit_variant a sel choices v.
Proof. reflexivity. Qed.

(** *** What the visits leave of the visitor *)

Ltac vred :=
  cbv beta iota zeta delta
    [context kept in_field has_default_clock_class returned and_then prepend
     emit indent emplace_suffix
     indentation_incr indentation_decr new_visitor
     set_description set_current_field_name set_encoding_override
     set_indentation_level set_type_suffixes set_bypass_identifier_escape
     _current_field_name _current_integer_encoding_override
     _indentation_level _trace_abi _type_suffixes _description
     _bypass_identifier_escape _default_clock_class_name
     int_alignment int_byte_order int_size signedness_ base_ roles_
     fp_alignment fp_byte_order exponent_digits mantissa_digits
     integer_ok padding_ok negb orb andb].

Ltac vred_in H :=
  cbv beta iota zeta delta
    [context kept in_field has_default_clock_class returned and_then prepend
     emit indent emplace_suffix
     indentation_incr indentation_decr new_visitor
     set_description set_current_field_name set_encoding_override
     set_indentation_level set_type_suffixes set_bypass_identifier_escape
     _current_field_name _current_integer_encoding_override
     _indentation_level _trace_abi _type_suffixes _description
     _bypass_identifier_escape _default_clock_class_name
     int_alignment int_byte_order int_size signedness_ base_ roles_
     fp_alignment fp_byte_order exponent_digits mantissa_digits
     integer_ok padding_ok negb orb andb] in H.

(** The projections of a literal type. *)
Ltac tred :=
  cbv beta iota zeta delta
    [int_alignment int_byte_order int_size signedness_ base_ roles_
     fp_alignment fp_byte_order exponent_digits mantissa_digits].

Ltac tred_in H :=
  cbv beta iota zeta delta
    [int_alignment int_byte_order int_size signedness_ base_ roles_
     fp_alignment fp_byte_order exponent_digits mantissa_digits] in H.

Lemma emit_byte_order_cases order v :
  emit_byte_order order v = v \/ exists s, emit_byte_order order v = emit s v.
Proof.
  unfold emit_byte_order.
  destruct (byte_order_eqb _ _); [now left|right; eauto].
Qed.

Ltac byte_order_cases_in H :=
  match type of H with
  | context [emit_byte_order ?o ?w] =>
      let Hr := fresh in
      destruct (emit_byte_order_cases o w) as [Hr|[? Hr]];
      rewrite Hr in H; clear Hr
  end.

Ltac byte_order_cases :=
  match goal with
  | |- context [emit_byte_order ?o ?w] =>
      let Hr := fresh in
      destruct (emit_byte_order_cases o w) as [Hr|[? Hr]];
      rewrite Hr; clear Hr
  end.

Lemma kept_refl v : kept v v.
Proof. split; [reflexivity|intros; reflexivity]. Qed.

Lemma kept_trans v1 v2 v3 : kept v1 v2 -> kept v2 v3 -> kept v1 v3.
Proof.
  intros [Hc12 Hl12] [Hc23 Hl23]. split; [congruence|].
  intros Hrange. rewrite Hl23; [now apply Hl12|].
  now rewrite Hl12.
Qed.

(** A step that changes neither the context nor the level. *)
Lemma kept_same v v' :
  context v' = context v ->
  _indentation_level v' = _indentation_level v ->
  kept v v'.
Proof. intros Hc Hl. split; [exact Hc|intros _; exact Hl]. Qed.

Lemma visit_integer_same i v v' :
  visit_integer i v = inr v' ->
  context v' = context v /\
  _indentation_level v' = _indentation_level v /\
  _type_suffixes v' = _type_suffixes v.
Proof.
  intros H.
  destruct v as [stack override level trace_abi sfx desc bypass clock].
  destruct i as [al bo sz sg bs roles].
  unfold visit_integer in H. tred_in H.
  destruct (has_clock_role roles), sg, bs;
    byte_order_cases_in H; destruct override, clock; vred_in H;
    inversion H; subst; repeat split; reflexivity.
Qed.

Lemma visit_integer_kept i v v' : visit_integer i v = inr v' -> kept v v'.
Proof.
  intros (Hc & Hl & _)%visit_integer_same. now apply kept_same.
Qed.

Lemma visit_integer_returned i v :
  returned (visit_integer i v) = integer_ok (has_default_clock_class v) i.
Proof.
  destruct v as [stack override level trace_abi sfx desc bypass clock].
  destruct i as [al bo sz sg bs roles].
  unfold visit_integer, integer_ok. tred.
  destruct (has_clock_role roles), sg, bs;
    byte_order_cases; destruct override, clock; vred; reflexivity.
Qed.

Lemma visit_floating_point_same f v :
  context (visit_floating_point f v) = context v /\
  _indentation_level (visit_floating_point f v) = _indentation_level v /\
  _type_suffixes (visit_floating_point f v) = _type_suffixes v.
Proof.
  destruct v as [stack override level trace_abi sfx desc bypass clock].
  destruct f as [al bo ed md].
  unfold visit_floating_point. tred.
  byte_order_cases; vred; repeat split; reflexivity.
Qed.

Lemma emit_mappings_same level first ms v :
  context (emit_mappings level first ms v) = context v /\
  _indentation_level (emit_mappings level first ms v) = _indentation_level v /\
  _type_suffixes (emit_mappings level first ms v) = _type_suffixes v.
Proof.
  revert first v. induction ms as [|m ms IH]; intros first v;
    cbn [emit_mappings]; [repeat split; reflexivity|].
  destruct (IH false (emit_mapping level first m v)) as (-> & -> & ->).
  destruct v as [stack override lvl trace_abi sfx desc bypass clock].
  unfold emit_mapping.
  destruct first, (Z.eqb (range_begin m) (range_end m)); vred;
    repeat split; reflexivity.
Qed.

Lemma visit_enumeration_same i ms v v' :
  visit_enumeration i ms v = inr v' ->
  context v' = context v /\
  _indentation_level v' = _indentation_level v /\
  _type_suffixes v' = _type_suffixes v.
Proof.
  unfold visit_enumeration.
  destruct (visit_integer i _) as [e|integer_visitor]; [discriminate|].
  intros [= <-].
  match goal with
  | |- context [emit_mappings ?l ?f ms ?w] =>
      destruct (emit_mappings_same l f ms w) as (Hc & Hl & Hs);
      set (w' := emit_mappings l f ms w) in *
  end.
  destruct w' as [stack' override' lvl' abi' sfx' desc' bypass' clock'].
  destruct v as [stack override lvl trace_abi sfx desc bypass clock].
  vred_in Hc. vred_in Hl. vred_in Hs. vred.
  repeat split; congruence.
Qed.

Lemma visit_enumeration_returned i ms v :
  returned (visit_enumeration i ms v) = integer_ok false i.
Proof.
  unfold visit_enumeration.
  pose proof (visit_integer_returned i
                (new_visitor (_trace_abi (emit "enum : " v))
                   (_indentation_level (emit "enum : " v)) None)) as Hint.
  destruct (visit_integer i _); cbn [returned] in *; exact Hint.
Qed.

Lemma emit_padding_same a v v' :
  emit_padding a v = inr v' ->
  context v' = context v /\
  _indentation_level v' = _indentation_level v /\
  _type_suffixes v' = _type_suffixes v /\
  _current_integer_encoding_override v'
  = _current_integer_encoding_override v.
Proof.
  destruct v as [stack override lvl trace_abi sfx desc bypass clock].
  unfold emit_padding.
  destruct (N.eqb a 0); [intros [= <-]; repeat split; reflexivity|].
  cbn [_current_field_name].
  destruct stack as [|top stack]; [discriminate|].
  intros [= <-]. vred. repeat split; reflexivity.
Qed.

Lemma emit_padding_returned a v :
  returned (emit_padding a v) = padding_ok (in_field v) a.
Proof.
  destruct v as [stack override lvl trace_abi sfx desc bypass clock].
  unfold emit_padding, padding_ok.
  destruct (N.eqb a 0); [reflexivity|].
  cbn [_current_field_name in_field orb].
  now destruct stack.
Qed.

Lemma identifier_returned name v :
  match identifier name v with inr _ => true | inl _ => false end
  = (_bypass_identifier_escape v || negb (String.eqb name ""))%bool.
Proof.
  unfold identifier. destruct (_bypass_identifier_escape v); [reflexivity|].
  cbn [orb]. unfold escape_tsdl_identifier.
  destruct name as [|c name]; [reflexivity|].
  cbn [String.length Nat.eqb String.eqb negb].
  now destruct (is_safe_tsdl_identifier (String c name)).
Qed.

Lemma location_identifier_returned loc v :
  match location_identifier loc v with inr _ => true | inl _ => false end
  = location_ok (_bypass_identifier_escape v) loc.
Proof.
  unfold location_identifier, location_tail, location_ok.
  destruct (last loc) as [name|]; [|reflexivity].
  apply identifier_returned.
Qed.

Lemma indentation_round_trip (n : Z) :
  0 <= n < UINT_MODULUS ->
  ((n + 1) mod UINT_MODULUS - 1) mod UINT_MODULUS = n.
Proof.
  unfold UINT_MODULUS. intros Hn.
  destruct (Z.eq_dec n (2 ^ 32 - 1)) as [->|Hne]; [reflexivity|].
  rewrite (Z.mod_small (n + 1)) by lia.
  rewrite Z.mod_small by lia. lia.
Qed.

Lemma indentation_in_range (n : Z) :
  0 <= (n + 1) mod UINT_MODULUS < UINT_MODULUS.
Proof. apply Z.mod_pos_bound. reflexivity. Qed.

Lemma visit_static_length_array_kept a accept n v v' :
  (forall w w', accept w = inr w' -> kept w w') ->
  visit_static_length_array a accept n v = inr v' -> kept v v'.
Proof.
  intros Haccept. unfold visit_static_length_array.
  destruct (emit_padding a v) as [e|v1] eqn:Hpad; [discriminate|].
  cbn [and_then].
  destruct (accept v1) as [e|v2] eqn:Hel; [discriminate|].
  cbn [and_then]. intros [= <-].
  apply emit_padding_same in Hpad as (Hc & Hl & _).
  apply (kept_trans v v1); [now apply kept_same|].
  apply (kept_trans v1 v2); [now apply Haccept|].
  now apply kept_same.
Qed.

Lemma visit_dynamic_length_array_kept a accept loc v v' :
  (forall w w', accept w = inr w' -> kept w w') ->
  visit_dynamic_length_array a accept loc v = inr v' -> kept v v'.
Proof.
  intros Haccept. unfold visit_dynamic_length_array.
  destruct (emit_padding a v) as [e|v1] eqn:Hpad; [discriminate|].
  cbn [and_then].
  destruct (accept v1) as [e|v2] eqn:Hel; [discriminate|].
  cbn [and_then].
  destruct (location_identifier loc v2) as [e|name]; [discriminate|].
  intros [= <-].
  apply emit_padding_same in Hpad as (Hc & Hl & _).
  apply (kept_trans v v1); [now apply kept_same|].
  apply (kept_trans v1 v2); [now apply Haccept|].
  now apply kept_same.
Qed.

Lemma visit_field_kept name accept v v' :
  (forall w w', accept w = inr w' -> kept w w') ->
  visit_field name accept v = inr v' ->
  kept v v' /\ _type_suffixes v' = [].
Proof.
  intros Haccept. unfold visit_field.
  destruct (identifier name v) as [e|pushed]; [discriminate|].
  destruct (accept _) as [e|w] eqn:Hacc; [discriminate|].
  cbn [and_then].
  apply Haccept in Hacc as [Hc Hl].
  destruct v as [stack override lvl trace_abi sfx desc bypass clock].
  destruct w as [stack' override' lvl' abi' sfx' desc' bypass' clock'].
  vred_in Hc. vred_in Hl. vred.
  injection Hc as -> -> -> ->.
  intros [= <-]. vred. repeat split. exact Hl.
Qed.

Lemma visit_fields_kept fields :
  Forall (fun f => forall v v', visit (snd f) v = inr v' -> kept v v') fields ->
  forall v v', visit_fields fields v = inr v' -> kept v v'.
Proof.
  induction 1 as [|[name field_type] fields Hty _ IH]; intros v v';
    cbn [visit_fields].
  { intros [= <-]. apply kept_refl. }
  destruct (visit_field name _ _) as [e|w] eqn:Hfield; [discriminate|].
  cbn [and_then]. intros Hrest.
  apply visit_field_kept in Hfield as [Hfield _]; [|exact Hty].
  apply (kept_trans v (indent (_indentation_level v) (emit nl v)));
    [now apply kept_same|].
  apply (kept_trans _ w); [exact Hfield|now apply IH].
Qed.

Lemma visit_choices_kept choices :
  Forall (fun c => forall v v', visit (snd c) v = inr v' -> kept v v') choices ->
  forall v v', visit_choices choices v = inr v' -> kept v v'.
Proof.
  induction 1 as [|[mapping choice_type] choices Hty _ IH]; intros v v';
    cbn [visit_choices].
  { intros [= <-]. apply kept_refl. }
  destruct (visit choice_type _) as [e|w] eqn:Hchoice; [discriminate|].
  cbn [and_then]. intros Hrest.
  apply Hty in Hchoice.
  apply (kept_trans v (indent (_indentation_level v) v));
    [now apply kept_same|].
  apply (kept_trans _ w); [exact Hchoice|].
  apply (kept_trans w (emit (" " ++ mapping_name mapping ++ ";" ++ nl) w));
    [now apply kept_same|now apply IH].
Qed.

Lemma visit_kept (t : type) :
  forall v v', visit t v = inr v' -> kept v v'.
Proof.
  induction t using type_nested_ind; intros v v'.
  - apply visit_integer_kept.
  - cbn [visit]. intros [= <-].
    destruct (visit_floating_point_same f v) as (Hc & Hl & _).
    now apply kept_same.
  - cbn [visit]. intros (Hc & Hl & _)%visit_enumeration_same.
    now apply kept_same.
  - cbn [visit]. intros (Hc & Hl & _)%visit_enumeration_same.
    now apply kept_same.
  - cbn [visit]. now apply visit_static_length_array_kept.
  - cbn [visit]. now apply visit_dynamic_length_array_kept.
  - cbn [visit]. apply visit_static_length_array_kept.
    intros w w'. apply visit_integer_kept.
  - cbn [visit]. apply visit_dynamic_length_array_kept.
    intros w w'. apply visit_integer_kept.
  - cbn [visit]. destruct e; intros [= <-]; now apply kept_same.
  - rewrite visit_structure.
    destruct (visit_fields fields _) as [e|w] eqn:Hfields; [discriminate|].
    cbn [and_then]. intros [= <-].
    apply visit_fields_kept in Hfields as [Hc Hl]; [|assumption].
    destruct v as [stack override lvl trace_abi sfx desc bypass clock].
    destruct w as [stack' override' lvl' abi' sfx' desc' bypass' clock'].
    vred_in Hc. vred_in Hl. injection Hc as -> -> _ ->.
    specialize (Hl (indentation_in_range lvl)). subst lvl'.
    split; [destruct fields; reflexivity|].
    intros Hrange. destruct fields; vred; now apply indentation_round_trip.
  - rewrite visit_signed_variant. unfold visit_variant.
    destruct (emit_padding _ v) as [e|v1] eqn:Hpad; [discriminate|].
    cbn [and_then].
    destruct (location_identifier _ _) as [e|name]; [discriminate|].
    destruct (visit_choices choices _) as [e|w] eqn:Hchoices; [discriminate|].
    cbn [and_then]. intros [= <-].
    apply visit_choices_kept in Hchoices as [Hc Hl]; [|assumption].
    apply emit_padding_same in Hpad as (Hc1 & Hl1 & _).
    destruct v as [stack override lvl trace_abi sfx desc bypass clock].
    destruct v1 as [stack1 override1 lvl1 abi1 sfx1 desc1 bypass1 clock1].
    destruct w as [stack' override' lvl' abi' sfx' desc' bypass' clock'].
    vred_in Hc. vred_in Hl. vred_in Hc1. vred_in Hl1.
    injection Hc as -> -> _ ->. injection Hc1 as -> -> -> ->. subst lvl1.
    specialize (Hl (indentation_in_range lvl)). subst lvl'.
    split; [reflexivity|].
    intros Hrange. vred. now apply indentation_round_trip.
  - rewrite visit_unsigned_variant. unfold visit_variant.
    destruct (emit_padding _ v) as [e|v1] eqn:Hpad; [discriminate|].
    cbn [and_then].
    destruct (location_identifier _ _) as [e|name]; [discriminate|].
    destruct (visit_choices choices _) as [e|w] eqn:Hchoices; [discriminate|].
    cbn [and_then]. intros [= <-].
    apply visit_choices_kept in Hchoices as [Hc Hl]; [|assumption].
    apply emit_padding_same in Hpad as (Hc1 & Hl1 & _).
    destruct v as [stack override lvl trace_abi sfx desc bypass clock].
    destruct v1 as [stack1 override1 lvl1 abi1 sfx1 desc1 bypass1 clock1].
    destruct w as [stack' override' lvl' abi' sfx' desc' bypass' clock'].
    vred_in Hc. vred_in Hl. vred_in Hc1. vred_in Hl1.
    injection Hc as -> -> _ ->. injection Hc1 as -> -> -> ->. subst lvl1.
    specialize (Hl (indentation_in_range lvl)). subst lvl'.
    split; [reflexivity|].
    intros Hrange. vred. now apply indentation_round_trip.
  - cbn [visit]. intros Hvisit.
    apply (kept_trans v (set_encoding_override (Some e) v));
      [now apply kept_same|].
    eapply visit_static_length_array_kept; [|exact Hvisit].
    intros w w'. apply visit_integer_kept.
  - cbn [visit]. intros Hvisit.
    apply (kept_trans v (set_encoding_override (Some e) v));
      [now apply kept_same|].
    eapply visit_dynamic_length_array_kept; [|exact Hvisit].
    intros w w'. apply visit_integer_kept.
Qed.

(** *** When a visit returns *)

Lemma context_reads v w :
  context w = context v ->
  _bypass_identifier_escape w = _bypass_identifier_escape v /\
  in_field w = in_field v /\
  has_default_clock_class w = has_default_clock_class v.
Proof.
  destruct v, w. vred. intros [= -> -> -> ->]. repeat split; reflexivity.
Qed.

Lemma emittable_structure bypass named clock fields :
  emittable bypass named clock (structure fields) = fields_ok clock fields.
Proof. induction fields as [|[name ty] fields IH]; [reflexivity|].
  cbn [fields_ok]. rewrite <- IH. reflexivity.
Qed.

Lemma emittable_signed_variant bypass named clock a sel choices :
  emittable bypass named clock (signed_variant a sel choices)
  = (padding_ok named a && location_ok bypass sel
     && choices_ok named clock choices)%bool.
Proof.
  cbn [emittable]. f_equal.
  induction choices as [|[m ty] choices IH]; [reflexivity|].
  cbn [choices_ok]. now rewrite <- IH.
Qed.

Lemma emittable_unsigned_variant bypass named clock a sel choices :
  emittable bypass named clock (unsigned_variant a sel choices)
  = (padding_ok named a && location_ok bypass sel
     && choices_ok named clock choices)%bool.
Proof.
  cbn [emittable]. f_equal.
  induction choices as [|[m ty] choices IH]; [reflexivity|].
  cbn [choices_ok]. now rewrite <- IH.
Qed.

Lemma visit_static_length_array_returned a accept n v b :
  (forall w, context w = context v -> returned (accept w) = b) ->
  returned (visit_static_length_array a accept n v)
  = (padding_ok (in_field v) a && b)%bool.
Proof.
  intros Haccept. unfold visit_static_length_array.
  rewrite <- emit_padding_returned.
  destruct (emit_padding a v) as [e|v1] eqn:Hpad; [reflexivity|].
  cbn [and_then returned andb].
  apply emit_padding_same in Hpad as (Hc & _).
  rewrite <- (Haccept v1 Hc).
  now destruct (accept v1).
Qed.

Lemma visit_dynamic_length_array_returned a accept loc v b :
  (forall w w', accept w = inr w' -> kept w w') ->
  (forall w, context w = context v -> returned (accept w) = b) ->
  returned (visit_dynamic_length_array a accept loc v)
  = (padding_ok (in_field v) a && b
     && location_ok (_bypass_identifier_escape v) loc)%bool.
Proof.
  intros Hkept Haccept. unfold visit_dynamic_length_array.
  rewrite <- emit_padding_returned.
  destruct (emit_padding a v) as [e|v1] eqn:Hpad; [reflexivity|].
  cbn [and_then returned andb].
  apply emit_padding_same in Hpad as (Hc & _).
  rewrite <- (Haccept v1 Hc).
  destruct (accept v1) as [e|v2] eqn:Hel; [reflexivity|].
  cbn [and_then returned andb].
  apply Hkept in Hel as [Hc2 _].
  assert (Hb : _bypass_identifier_escape v2 = _bypass_identifier_escape v).
  { apply context_reads. congruence. }
  rewrite <- Hb, <- location_identifier_returned.
  now destruct (location_identifier loc v2).
Qed.

Lemma visit_field_returned name accept v b :
  (forall w w', accept w = inr w' -> kept w w') ->
  (forall w, _bypass_identifier_escape w = _bypass_identifier_escape v ->
             _default_clock_class_name w = _default_clock_class_name v ->
             in_field w = true ->
             returned (accept w) = b) ->
  returned (visit_field name accept v)
  = ((_bypass_identifier_escape v || negb (String.eqb name "")) && b)%bool.
Proof.
  intros Hkept Haccept. unfold visit_field.
  rewrite <- identifier_returned.
  destruct (identifier name v) as [e|pushed]; [reflexivity|].
  cbn [andb].
  rewrite <- (Haccept (set_current_field_name (pushed :: _current_field_name v) v));
    try reflexivity.
  destruct (accept _) as [e|w] eqn:Hacc; [reflexivity|].
  cbn [and_then returned].
  apply Hkept in Hacc as [Hc _].
  destruct v as [stack override lvl trace_abi sfx desc bypass clock].
  destruct w as [stack' override' lvl' abi' sfx' desc' bypass' clock'].
  vred_in Hc. injection Hc as -> -> -> ->. reflexivity.
Qed.

Lemma has_default_clock_class_eq v w :
  _default_clock_class_name w = _default_clock_class_name v ->
  has_default_clock_class w = has_default_clock_class v.
Proof. unfold has_default_clock_class. now intros ->. Qed.

Lemma visit_fields_returned fields :
  Forall (fun f => forall v,
            returned (visit (snd f) v)
            = emittable (_bypass_identifier_escape v) (in_field v)
                (has_default_clock_class v) (snd f)) fields ->
  forall v, _bypass_identifier_escape v = false ->
    returned (visit_fields fields v)
    = fields_ok (has_default_clock_class v) fields.
Proof.
  induction 1 as [|[name field_type] fields Hty _ IH]; intros v Hbypass;
    [reflexivity|].
  cbn [visit_fields fields_ok snd] in *.
  set (v1 := indent (_indentation_level v) (emit nl v)).
  assert (Hv1 : context v1 = context v) by reflexivity.
  destruct (context_reads v v1 Hv1) as (Hb1 & Hf1 & Hk1).
  pose proof (visit_field_returned name (visit field_type) v1
                (emittable false true (has_default_clock_class v) field_type)
                (visit_kept field_type)) as Hfield.
  rewrite Hb1, Hbypass in Hfield. cbn [orb] in Hfield.
  rewrite <- Hfield; clear Hfield.
  - destruct (visit_field name (visit field_type) v1) as [e|w] eqn:Hw;
      [reflexivity|].
    cbn [and_then returned andb].
    apply visit_field_kept in Hw as [[Hc _] _]; [|apply visit_kept].
    destruct (context_reads v1 w Hc) as (Hb & Hf & Hk).
    rewrite IH by congruence. congruence.
  - intros w Hbw Hcw Hfw. rewrite Hty, Hbw, Hfw.
    now rewrite (has_default_clock_class_eq v w).
Qed.

Lemma visit_choices_returned choices :
  Forall (fun c => forall v,
            returned (visit (snd c) v)
            = emittable (_bypass_identifier_escape v) (in_field v)
                (has_default_clock_class v) (snd c)) choices ->
  forall v, _bypass_identifier_escape v = true ->
    returned (visit_choices choices v)
    = choices_ok (in_field v) (has_default_clock_class v) choices.
Proof.
  induction 1 as [|[mapping choice_type] choices Hty _ IH]; intros v Hbypass;
    [reflexivity|].
  cbn [visit_choices choices_ok snd] in *.
  set (v1 := indent (_indentation_level v) v).
  assert (Hv1 : context v1 = context v) by reflexivity.
  destruct (context_reads v v1 Hv1) as (Hb1 & Hf1 & Hk1).
  pose proof (Hty v1) as Hty1. rewrite Hb1, Hbypass, Hf1, Hk1 in Hty1.
  rewrite <- Hty1. clear Hty1.
  destruct (visit choice_type v1) as [e|w] eqn:Hw; [reflexivity|].
  cbn [and_then returned andb].
  apply visit_kept in Hw as [Hc _].
  destruct (context_reads v1 w Hc) as (Hb & Hf & Hk).
  set (w1 := emit _ w).
  assert (Hw1 : context w1 = context w) by reflexivity.
  destruct (context_reads w w1 Hw1) as (Hb' & Hf' & Hk').
  rewrite IH by congruence. congruence.
Qed.

(** X6: what a type needs for its visit to return, exactly: the visit of
    [t] returns if and only if [t] is [emittable] for the escape mode of
    the visitor, for whether it is visiting a field, and for whether it
    has a default clock class name. *)
Theorem visit_returns_iff_emittable (t : type) (v : tsdl_field_visitor) :
  returned (visit t v)
  = emittable (_bypass_identifier_escape v) (in_field v)
      (has_default_clock_class v) t.
Proof.
  revert v. induction t using type_nested_ind; intros v.
  - apply visit_integer_returned.
  - reflexivity.
  - apply visit_enumeration_returned.
  - apply visit_enumeration_returned.
  - cbn [visit emittable]. apply visit_static_length_array_returned.
    intros w Hw. destruct (context_reads v w Hw) as (<- & <- & <-).
    apply IHt.
  - cbn [visit emittable]. apply visit_dynamic_length_array_returned.
    + apply visit_kept.
    + intros w Hw. destruct (context_reads v w Hw) as (<- & <- & <-).
      apply IHt.
  - cbn [visit emittable].
    rewrite (visit_static_length_array_returned _ _ _ _ true);
      [now rewrite andb_true_r|].
    intros w _. now rewrite visit_integer_returned.
  - cbn [visit emittable].
    rewrite (visit_dynamic_length_array_returned _ _ _ _ true);
      [now rewrite andb_true_r| |].
    + intros w w'. apply visit_integer_kept.
    + intros w _. now rewrite visit_integer_returned.
  - cbn [visit emittable]. now destruct e.
  - rewrite visit_structure, emittable_structure.
    etransitivity;
      [|exact (visit_fields_returned fields H
                 (set_bypass_identifier_escape false
                    (emit "struct {" (indentation_incr v))) eq_refl)].
    now destruct (visit_fields fields _).
  - rewrite visit_signed_variant, emittable_signed_variant.
    unfold visit_variant. rewrite <- emit_padding_returned.
    destruct (emit_padding a v) as [e|v1] eqn:Hpad; [reflexivity|].
    cbn [and_then returned andb].
    apply emit_padding_same in Hpad as (Hc & _).
    destruct (context_reads v v1 Hc) as (Hb & Hf & Hk).
    rewrite <- Hb, <- Hf, <- Hk.
    change (_bypass_identifier_escape v1)
      with (_bypass_identifier_escape (indentation_incr v1)).
    rewrite <- location_identifier_returned.
    destruct (location_identifier sel (indentation_incr v1)) as [e|name];
      [reflexivity|].
    cbn [andb].
    etransitivity;
      [|exact (visit_choices_returned choices H
                 (set_bypass_identifier_escape true
                    (emit ("variant <" ++ name ++ "> {" ++ nl)
                       (indentation_incr v1))) eq_refl)].
    now destruct (visit_choices choices _).
  - rewrite visit_unsigned_variant, emittable_unsigned_variant.
    unfold visit_variant. rewrite <- emit_padding_returned.
    destruct (emit_padding a v) as [e|v1] eqn:Hpad; [reflexivity|].
    cbn [and_then returned andb].
    apply emit_padding_same in Hpad as (Hc & _).
    destruct (context_reads v v1 Hc) as (Hb & Hf & Hk).
    rewrite <- Hb, <- Hf, <- Hk.
    change (_bypass_identifier_escape v1)
      with (_bypass_identifier_escape (indentation_incr v1)).
    rewrite <- location_identifier_returned.
    destruct (location_identifier sel (indentation_incr v1)) as [e|name];
      [reflexivity|].
    cbn [andb].
    etransitivity;
      [|exact (visit_choices_returned choices H
                 (set_bypass_identifier_escape true
                    (emit ("variant <" ++ name ++ "> {" ++ nl)
                       (indentation_incr v1))) eq_refl)].
    now destruct (visit_choices choices _).
  - cbn [visit emittable].
    rewrite (visit_static_length_array_returned _ _ _ _ true);
      [now rewrite andb_true_r|].
    intros w _. now rewrite visit_integer_returned.
  - cbn [visit emittable].
    rewrite (visit_dynamic_length_array_returned _ _ _ _ true);
      [now rewrite andb_true_r| |].
    + intros w w'. apply visit_integer_kept.
    + intros w _. now rewrite visit_integer_returned.
Qed.

(** *** The description only grows *)

Lemma set_description_eta v : set_description (_description v) v = v.
Proof. now destruct v. Qed.

Lemma prepend_prepend d1 d2 r : prepend d1 (prepend d2 r) = prepend (d1 ++ d2) r.
Proof.
  destruct r as [e|[stack override lvl trace_abi sfx desc bypass clock]];
    [reflexivity|].
  vred. now rewrite append_assoc.
Qed.

Lemma appends_from_empty f v :
  appends f -> f v = prepend (_description v) (f (set_description "" v)).
Proof.
  intros Hf. rewrite <- (Hf v (_description v)).
  now rewrite set_description_eta.
Qed.

Lemma appends_bind f g :
  appends f -> appends g -> appends (fun v => f v >>= g).
Proof.
  intros Hf Hg v d. cbv beta. rewrite (Hf v d).
  destruct (f (set_description "" v)) as [e|v1]; [reflexivity|].
  cbn [prepend and_then].
  rewrite (Hg v1 (d ++ _description v1)).
  rewrite (appends_from_empty g v1 Hg).
  now rewrite prepend_prepend.
Qed.

Lemma appends_after g f :
  pure_appends g -> appends f -> appends (fun v => f (g v)).
Proof.
  intros Hg Hf. exact (appends_bind (fun v => inr (g v)) f Hg Hf).
Qed.

Ltac strings_agree :=
  rewrite ?append_nil_l, ?append_nil_r, ?append_assoc; reflexivity.

Ltac pure_appends_crush := vred; strings_agree.

Lemma appends_emit s : pure_appends (emit s).
Proof. intros [stack override lvl trace_abi sfx desc bypass clock] d. pure_appends_crush. Qed.

Lemma visit_integer_appends i : appends (visit_integer i).
Proof.
  intros [stack override lvl trace_abi sfx desc bypass clock] d.
  destruct i as [al bo sz sg bs roles].
  unfold visit_integer. tred.
  assert (Hbo : forall o desc1,
    emit_byte_order o
      (mk_visitor stack override lvl trace_abi sfx desc1 bypass clock)
    = mk_visitor stack override lvl trace_abi sfx
        (desc1 ++ if byte_order_eqb o (abi_byte_order trace_abi) then ""
                  else " byte_order = " ++ byte_order_str o ++ ";")
        bypass clock).
  { intros o desc1. unfold emit_byte_order. cbn [_trace_abi].
    destruct (byte_order_eqb o (abi_byte_order trace_abi));
      [now rewrite append_nil_r|reflexivity]. }
  destruct (has_clock_role roles), sg, bs; vred; rewrite !Hbo;
    destruct override, clock; vred;
    strings_agree.
Qed.

Lemma emit_byte_order_appends o : pure_appends (emit_byte_order o).
Proof.
  intros [stack override lvl trace_abi sfx desc bypass clock] d.
  unfold emit_byte_order. cbn [_trace_abi set_description].
  destruct (byte_order_eqb o (abi_byte_order trace_abi)); vred;
    strings_agree.
Qed.

Lemma visit_floating_point_appends f : pure_appends (visit_floating_point f).
Proof.
  unfold visit_floating_point.
  apply (appends_after (emit _) (fun v => inr (emit " }" (emit_byte_order _ v))));
    [apply appends_emit|].
  apply (appends_after (emit_byte_order _) (fun v => inr (emit " }" v)));
    [apply emit_byte_order_appends|apply appends_emit].
Qed.

Lemma emit_mapping_appends level first m : pure_appends (emit_mapping level first m).
Proof.
  intros [stack override lvl trace_abi sfx desc bypass clock] d.
  unfold emit_mapping.
  destruct first, (Z.eqb (range_begin m) (range_end m)); vred;
    strings_agree.
Qed.

Lemma emit_mappings_appends level first ms :
  pure_appends (emit_mappings level first ms).
Proof.
  revert first. induction ms as [|m ms IH]; intros first.
  - intros [stack override lvl trace_abi sfx desc bypass clock] d.
    cbn [emit_mappings]. vred. strings_agree.
  - cbn [emit_mappings].
    apply (appends_after (emit_mapping level first m)
             (fun v => inr (emit_mappings level false ms v)));
      [apply emit_mapping_appends|apply IH].
Qed.

Lemma visit_enumeration_appends i ms : appends (visit_enumeration i ms).
Proof.
  intros v d. unfold visit_enumeration.
  change (_trace_abi (emit "enum : " (set_description d v)))
    with (_trace_abi v).
  change (_trace_abi (emit "enum : " (set_description "" v)))
    with (_trace_abi v).
  change (_indentation_level (emit "enum : " (set_description d v)))
    with (_indentation_level v).
  change (_indentation_level (emit "enum : " (set_description "" v)))
    with (_indentation_level v).
  destruct (visit_integer i _) as [e|integer_visitor]; [reflexivity|].
  set (text := _description integer_visitor ++ " {" ++ nl).
  change (_indentation_level (emit text (emit "enum : " (set_description d v))))
    with (_indentation_level v).
  change (_indentation_level (emit text (emit "enum : " (set_description "" v))))
    with (_indentation_level v).
  set (level := (_indentation_level v + 1) mod UINT_MODULUS).
  pose proof (emit_mappings_appends level true ms) as Hms.
  pose (close := fun x : tsdl_field_visitor =>
                  emit "}" (indent (_indentation_level x) (emit nl x))).
  assert (Hstep : pure_appends (fun w =>
            close (emit_mappings level true ms (emit text (emit "enum : " w))))).
  { apply (appends_after (emit "enum : ")
             (fun w => inr (close (emit_mappings level true ms (emit text w)))));
      [apply appends_emit|].
    apply (appends_after (emit text)
             (fun w => inr (close (emit_mappings level true ms w))));
      [apply appends_emit|].
    apply (appends_after (emit_mappings level true ms)
             (fun w => inr (close w)));
      [exact Hms|].
    intros [stack override lvl trace_abi sfx desc bypass clock] d'.
    subst close. vred. strings_agree. }
  exact (Hstep v d).
Qed.

Lemma emit_padding_appends a : appends (emit_padding a).
Proof.
  intros [stack override lvl trace_abi sfx desc bypass clock] d.
  unfold emit_padding. destruct (N.eqb a 0).
  { vred. strings_agree. }
  destruct stack as [|top stack]; [reflexivity|].
  vred. strings_agree.
Qed.

Lemma emplace_suffix_appends s : pure_appends (emplace_suffix s).
Proof.
  intros [stack override lvl trace_abi sfx desc bypass clock] d.
  vred. strings_agree.
Qed.

Lemma visit_static_length_array_appends a accept n :
  appends accept -> appends (visit_static_length_array a accept n).
Proof.
  intros Haccept. unfold visit_static_length_array.
  apply appends_bind; [apply emit_padding_appends|].
  apply appends_bind; [exact Haccept|].
  apply emplace_suffix_appends.
Qed.

Lemma location_suffix_appends loc :
  appends (fun v => match location_identifier loc v with
                    | inl e => inl e
                    | inr name => inr (emplace_suffix ("[" ++ name ++ "]") v)
                    end).
Proof.
  intros v d.
  change (location_identifier loc (set_description d v))
    with (location_identifier loc v).
  change (location_identifier loc (set_description "" v))
    with (location_identifier loc v).
  destruct (location_identifier loc v) as [e|name]; [reflexivity|].
  apply emplace_suffix_appends.
Qed.

Lemma visit_dynamic_length_array_appends a accept loc :
  appends accept -> appends (visit_dynamic_length_array a accept loc).
Proof.
  intros Haccept. unfold visit_dynamic_length_array.
  apply appends_bind; [apply emit_padding_appends|].
  apply appends_bind; [exact Haccept|].
  apply location_suffix_appends.
Qed.

Lemma append_suffixes_append sfx a b :
  append_suffixes sfx (a ++ b) = a ++ append_suffixes sfx b.
Proof.
  revert b. induction sfx as [|s sfx IH]; intros b; cbn [append_suffixes];
    [reflexivity|].
  now rewrite append_assoc, IH.
Qed.

Lemma visit_field_appends name accept :
  appends accept -> appends (visit_field name accept).
Proof.
  intros Haccept v d. unfold visit_field.
  change (identifier name (set_description d v)) with (identifier name v).
  change (identifier name (set_description "" v)) with (identifier name v).
  destruct (identifier name v) as [e|pushed]; [reflexivity|].
  change (set_current_field_name
            (pushed :: _current_field_name (set_description d v))
            (set_description d v))
    with (set_description d
            (set_current_field_name (pushed :: _current_field_name v) v)).
  change (set_current_field_name
            (pushed :: _current_field_name (set_description "" v))
            (set_description "" v))
    with (set_description ""
            (set_current_field_name (pushed :: _current_field_name v) v)).
  rewrite Haccept.
  destruct (accept _) as [e|[stack override lvl trace_abi sfx desc bypass clock]];
    [reflexivity|].
  vred. destruct stack as [|top stack]; [reflexivity|].
  vred. rewrite !append_suffixes_append, ?append_assoc. reflexivity.
Qed.

Lemma visit_fields_appends fields :
  Forall (fun f => appends (visit (snd f))) fields ->
  appends (visit_fields fields).
Proof.
  induction 1 as [|[name field_type] fields Hty _ IH].
  - intros [stack override lvl trace_abi sfx desc bypass clock] d.
    cbn [visit_fields]. vred. strings_agree.
  - cbn [visit_fields snd] in *.
    apply appends_bind; [|exact IH].
    apply (appends_after (fun v => indent (_indentation_level v) (emit nl v))
             (visit_field name (visit field_type)));
      [|now apply visit_field_appends].
    intros [stack override lvl trace_abi sfx desc bypass clock] d.
    vred. strings_agree.
Qed.

Lemma visit_choices_appends choices :
  Forall (fun c => appends (visit (snd c))) choices ->
  appends (visit_choices choices).
Proof.
  induction 1 as [|[mapping choice_type] choices Hty _ IH].
  - intros [stack override lvl trace_abi sfx desc bypass clock] d.
    cbn [visit_choices]. vred. strings_agree.
  - cbn [visit_choices snd] in *.
    apply (appends_after (fun v => indent (_indentation_level v) v)
             (fun v => visit choice_type v >>= fun v =>
                visit_choices choices
                  (emit (" " ++ mapping_name mapping ++ ";" ++ nl) v))).
    + intros [stack override lvl trace_abi sfx desc bypass clock] d.
      vred. strings_agree.
    + apply appends_bind; [exact Hty|].
      apply (appends_after (emit _) (visit_choices choices));
        [apply appends_emit|exact IH].
Qed.

Lemma visit_variant_appends a sel choices :
  Forall (fun c => appends (visit (snd c))) choices ->
  appends (visit_variant a sel choices).
Proof.
  intros Hchoices. unfold visit_variant.
  apply appends_bind; [apply emit_padding_appends|].
  intros v d.
  change (location_identifier sel (indentation_incr (set_description d v)))
    with (location_identifier sel v).
  change (location_identifier sel (indentation_incr (set_description "" v)))
    with (location_identifier sel v).
  destruct (location_identifier sel v) as [e|name]; [reflexivity|].
  change (_bypass_identifier_escape (set_description d v))
    with (_bypass_identifier_escape v).
  change (_bypass_identifier_escape (set_description "" v))
    with (_bypass_identifier_escape v).
  set (b := _bypass_identifier_escape v).
  set (text := "variant <" ++ name ++ "> {" ++ nl).
  assert (HF : appends (fun w =>
            visit_choices choices
              (set_bypass_identifier_escape true (emit text (indentation_incr w)))
            >>= fun v' =>
              let v' := indentation_decr (set_bypass_identifier_escape b v') in
              inr (emit "}" (indent (_indentation_level v') v')))).
  { apply appends_bind.
    - apply (appends_after
               (fun w => set_bypass_identifier_escape true
                           (emit text (indentation_incr w)))
               (visit_choices choices));
        [|now apply visit_choices_appends].
      intros [stack override lvl trace_abi sfx desc bypass clock] d'.
      vred. strings_agree.
    - intros [stack override lvl trace_abi sfx desc bypass clock] d'.
      vred. strings_agree. }
  exact (HF v d).
Qed.

Lemma visit_structure_appends fields :
  Forall (fun f => appends (visit (snd f))) fields ->
  appends (visit (structure fields)).
Proof.
  intros Hfields v d. rewrite !visit_structure.
  change (_bypass_identifier_escape (set_description d v))
    with (_bypass_identifier_escape v).
  change (_bypass_identifier_escape (set_description "" v))
    with (_bypass_identifier_escape v).
  set (b := _bypass_identifier_escape v).
  assert (HF : appends (fun w =>
            visit_fields fields
              (set_bypass_identifier_escape false
                 (emit "struct {" (indentation_incr w)))
            >>= fun v' =>
              let v' := indentation_decr (set_bypass_identifier_escape b v') in
              inr (emit "}" match fields with
                            | [] => v'
                            | _ :: _ => indent (_indentation_level v') (emit nl v')
                            end))).
  { apply appends_bind.
    - apply (appends_after
               (fun w => set_bypass_identifier_escape false
                           (emit "struct {" (indentation_incr w)))
               (visit_fields fields));
        [|now apply visit_fields_appends].
      intros [stack override lvl trace_abi sfx desc bypass clock] d'.
      vred. strings_agree.
    - intros [stack override lvl trace_abi sfx desc bypass clock] d'.
      destruct fields; vred; strings_agree. }
  exact (HF v d).
Qed.

Lemma set_encoding_override_appends e : pure_appends (set_encoding_override e).
Proof.
  intros [stack override lvl trace_abi sfx desc bypass clock] d.
  vred. strings_agree.
Qed.



(** X5: a visit that returns hands the visitor back as it took it, the
    description, the suffixes and the encoding override apart: same stack
    of field names, same indentation level, same escape mode, same ABI,
    same clock class name. *)
Theorem visit_restores_visitor (t : type) (v v' : tsdl_field_visitor) :
  0 <= _indentation_level v < UINT_MODULUS ->
  visit t v = inr v' ->
  _current_field_name v' = _current_field_name v /\
  _indentation_level v' = _indentation_level v /\
  _bypass_identifier_escape v' = _bypass_identifier_escape v /\
  _trace_abi v' = _trace_abi v /\
  _default_clock_class_name v' = _default_clock_class_name v.
Proof.
  intros Hrange [Hc Hl]%visit_kept. specialize (Hl Hrange).
  destruct v, v'. vred_in Hc. injection Hc as -> -> -> ->.
  repeat split. exact Hl.
Qed.

Lemma visit_restores_visitor_witness :
  _current_field_name scenario_visitor_after = [] /\
  _indentation_level scenario_visitor_after = 1 /\
  _bypass_identifier_escape scenario_visitor_after = false /\
  _trace_abi scenario_visitor_after = le_abi /\
  _default_clock_class_name scenario_visitor_after = Some "monotonic".
Proof.
  apply (visit_restores_visitor scenario_timestamp scenario_visitor
           scenario_visitor_after).
  - unfold UINT_MODULUS. cbn. lia.
  - vm_compute. reflexivity.
Defined.

(** Scenarios S2, S3 and S4: what the visitor writes. *)
Example scenario_timestamp_description :
  describe le_abi 1 (Some "monotonic") scenario_timestamp
  = inr ("struct {" ++ nl ++ tabs 2 ++
         "integer { size = 64; align = 8; base = 16; map = clock.monotonic.value; } _ts;"
         ++ nl ++ tabs 1 ++ "}").
Proof. vm_compute. reflexivity. Qed.

Example scenario_payload_description :
  describe le_abi 1 None scenario_payload
  = inr ("struct {" ++ nl ++ tabs 2 ++
         "integer { size = 8; align = 8; encoding = UTF8; } _payload[_length];"
         ++ nl ++ tabs 1 ++ "}").
Proof. vm_compute. reflexivity. Qed.

Example scenario_enumeration_description :
  describe le_abi 0 None scenario_enumeration
  = inr ("enum : integer { size = 8; align = 8; signed = true; } {" ++ nl ++
         tabs 1 ++ quoted "A" ++ " = 0," ++ nl ++
         tabs 1 ++ quoted "B" ++ " = 1 ... 3" ++ nl ++ "}").
Proof. vm_compute. reflexivity. Qed.

(** The suffix of an array that is a choice of a variant is written after
    the name of the field that holds the variant. *)
Example variant_with_array_choice_description :
  describe le_abi 0 None variant_with_array_choice
  = inr ("struct {" ++ nl ++ tabs 1 ++ "variant <_tag> {" ++ nl ++ tabs 2 ++
         "integer { size = 8; align = 8; } a;" ++ nl ++ tabs 1 ++ "} _f[3];"
         ++ nl ++ "}").
Proof. vm_compute. reflexivity. Qed.

(** The integer of an enumeration is described without a clock class:
    with a clock role, the visit stops on the assertion, whatever the
    clock class of the visitor. *)
Example enumeration_with_clock_role_aborts :
  describe le_abi 0 (Some "monotonic") enumeration_with_clock_role
  = inl (AssertFailed "_default_clock_class_name").
Proof. vm_compute. reflexivity. Qed.

(** X7: a visit only appends to the description, and what it appends, or
    the way it stops, does not depend on what was described before:
    visiting [t] after [d] gives [d] followed by what visiting [t] from an
    empty description gives. *)
Theorem visit_appends (t : type) (v : tsdl_field_visitor) (d : string) :
  visit t (set_description d v)
  = match visit t (set_description "" v) with
    | inl e => inl e
    | inr v' => inr (set_description (d ++ _description v') v')
    end.
Proof.
  revert v d. change (appends (visit t)).
  induction t using type_nested_ind.
  - apply visit_integer_appends.
  - apply visit_floating_point_appends.
  - apply visit_enumeration_appends.
  - apply visit_enumeration_appends.
  - cbn [visit]. now apply visit_static_length_array_appends.
  - cbn [visit]. now apply visit_dynamic_length_array_appends.
  - intros v d. cbn [visit].
    change (_trace_abi (set_description d v)) with (_trace_abi v).
    change (_trace_abi (set_description "" v)) with (_trace_abi v).
    apply visit_static_length_array_appends, visit_integer_appends.
  - intros v d. cbn [visit].
    change (_trace_abi (set_description d v)) with (_trace_abi v).
    change (_trace_abi (set_description "" v)) with (_trace_abi v).
    apply visit_dynamic_length_array_appends, visit_integer_appends.
  - intros [stack override lvl trace_abi sfx desc bypass clock] d.
    cbn [visit]. destruct e; vred; strings_agree.
  - now apply visit_structure_appends.
  - intros v d. rewrite !visit_signed_variant.
    now apply visit_variant_appends.
  - intros v d. rewrite !visit_unsigned_variant.
    now apply visit_variant_appends.
  - intros v d. cbn [visit].
    change (_trace_abi (set_description d v)) with (_trace_abi v).
    change (_trace_abi (set_description "" v)) with (_trace_abi v).
    exact (appends_after (set_encoding_override (Some e))
             (visit_static_length_array a
                (visit_integer (character_type (_trace_abi v))) n)
             (set_encoding_override_appends (Some e))
             (visit_static_length_array_appends _ _ _
                (visit_integer_appends _)) v d).
  - intros v d. cbn [visit].
    change (_trace_abi (set_description d v)) with (_trace_abi v).
    change (_trace_abi (set_description "" v)) with (_trace_abi v).
    exact (appends_after (set_encoding_override (Some e))
             (visit_dynamic_length_array a
                (visit_integer (character_type (_trace_abi v))) loc)
             (set_encoding_override_appends (Some e))
             (visit_dynamic_length_array_appends _ _ _
                (visit_integer_appends _)) v d).
Qed.

(** *** Stream classes and event classes *)

Lemma describe_produced trace_abi level clock t :
  produced (describe trace_abi level clock t)
  = emittable false false (is_some clock) t.
Proof.
  unfold describe.
  pose proof (visit_returns_iff_emittable t (new_visitor trace_abi level clock))
    as Hvisit.
  destruct (visit t _); destruct clock; exact Hvisit.
Qed.

Lemma append_member_produced trace_abi label clock member str :
  produced (append_member trace_abi label clock member str)
  = member_emittable (is_some clock) member.
Proof.
  destruct member as [t|]; [|reflexivity].
  cbn [append_member member_emittable].
  rewrite <- (describe_produced trace_abi 1 clock t).
  now destruct (describe trace_abi 1 clock t).
Qed.

(** X8: the fragment of a stream class is produced if and only if its
    event header and its packet context can be emitted with the default
    clock class of the stream class, and its event context without any
    clock class; the fragment of an event class if and only if its payload
    can be emitted without any clock class. *)
Theorem class_fragments_produced (trace_abi : abi) (sc : stream_class)
    (ec : event_class) :
  produced (visit_stream_class trace_abi sc)
  = (member_emittable (is_some (default_clock_class_name sc)) (event_header sc)
     && member_emittable (is_some (default_clock_class_name sc))
          (packet_context sc)
     && member_emittable false (event_context sc))%bool /\
  produced (visit_event_class trace_abi ec)
  = emittable false false false (payload ec).
Proof.
  split.
  - unfold visit_stream_class.
    rewrite <- (append_member_produced trace_abi "event.header"
                  (default_clock_class_name sc) (event_header sc)
                  ("stream {" ++ nl ++
                   String tab ("id = " ++ format_unsigned (stream_class_id sc)
                               ++ ";" ++ nl))).
    destruct (append_member trace_abi "event.header" _ _ _) as [e|s1];
      [reflexivity|].
    rewrite <- (append_member_produced trace_abi "packet.context"
                  (default_clock_class_name sc) (packet_context sc) s1).
    destruct (append_member trace_abi "packet.context" _ _ _) as [e|s2];
      [reflexivity|].
    cbn [produced andb].
    pose proof (append_member_produced trace_abi "event.context"
                  None (event_context sc) s2) as Hcontext.
    cbn [is_some] in Hcontext. rewrite <- Hcontext.
    now destruct (append_member trace_abi "event.context" _ _ _).
  - unfold visit_event_class.
    pose proof (describe_produced trace_abi 1 None (payload ec)) as Hpayload.
    cbn [is_some] in Hpayload. rewrite <- Hpayload.
    now destruct (describe trace_abi 1 None (payload ec)).
Qed.

(** A timestamp in the event context stops the emission, default clock
    class or not. *)
Example clock_role_in_event_context :
  visit_stream_class le_abi stream_class_with_clock_in_context
  = inl (AssertFailed "_default_clock_class_name").
Proof. vm_compute. reflexivity. Qed.

End TsdlEmitterFacts.

Module ViewerSessionFacts.

Import Relayd RelaydFacts ViewerSession.

Lemma find_session_elem (session : nat) (l : list nat) :
  find_session session l = if bool_decide (session ∈ l) then 1 else 0.
Proof.
  induction l as [|iter rest IH]; cbn [find_session].
  { rewrite bool_decide_eq_false_2; [reflexivity|]. apply not_elem_of_nil. }
  destruct (Nat.eqb session iter) eqn:Heq.
  - apply Nat.eqb_eq in Heq as ->.
    rewrite bool_decide_eq_true_2; [reflexivity|]. apply list_elem_of_here.
  - apply Nat.eqb_neq in Heq. rewrite IH.
    destruct (bool_decide (session ∈ rest)) eqn:Hrest.
    + apply bool_decide_eq_true_1 in Hrest.
      rewrite bool_decide_eq_true_2; [reflexivity|].
      now apply list_elem_of_further.
    + apply bool_decide_eq_false_1 in Hrest.
      rewrite bool_decide_eq_false_2; [reflexivity|].
      intros [?|?]%elem_of_cons; contradiction.
Qed.

(** Locking and unlocking a session leaves the table of sessions as it was. *)
Lemma relock_sessions (m : gmap nat relay_session) session sess :
  m !! session = Some sess ->
  s_lock sess = false ->
  <[session := set_s_lock false (set_s_lock true sess)]>
    (<[session := set_s_lock true sess]> m) = m.
Proof.
  intros Hsess Hlock. rewrite insert_insert_eq.
  apply insert_id. rewrite Hsess. f_equal.
  destruct sess; cbn in *. now subst.
Qed.

(** X9: on an unlocked session, [viewer_session_is_attached] answers 1
    exactly when the session has a viewer attached and the list of this
    viewer session links it, 0 otherwise (also for a NULL viewer session),
    and leaves the state as it found it: the session lock is released and
    the read-side critical section closed. *)
Theorem viewer_session_is_attached_spec (st : relayd)
    (vsession : option nat) (session : nat) (sess : relay_session) :
  sessions st !! session = Some sess ->
  s_lock sess = false ->
  (forall v, vsession = Some v -> is_Some (viewer_sessions st !! v)) ->
  viewer_session_is_attached vsession session st
  = inr (if attached_to st vsession session then 1 else 0, st).
Proof.
  intros Hsess Hlock Hvs.
  pose proof (relock_sessions (sessions st) session sess Hsess Hlock) as Hrelock.
  unfold viewer_session_is_attached, attached_to,
    pthread_mutex_lock_session, pthread_mutex_unlock_session.
  rewrite Hsess.
  destruct st as [lid n cbs traces nxt sessions rel vstreams vsess rstreams].
  destruct sess as [sref lock ht attached chunk].
  cbn in Hsess, Hlock, Hvs, Hrelock. subst lock.
  destruct vsession as [v|].
  - destruct (Hvs v eq_refl) as [vs Hv]. cbn in Hv.
    destruct attached; mgo; rewrite Hrelock, ?find_session_elem;
      destruct vs; reflexivity.
  - mgo. now rewrite Hrelock.
Qed.

Lemma viewer_session_is_attached_spec_witness :
  viewer_session_is_attached (Some 9%nat) 5 sample_relayd_attached
  = inr (1, sample_relayd_attached).
Proof.
  apply (viewer_session_is_attached_spec sample_relayd_attached (Some 9%nat) 5
           (mk_relay_session 2 false [] true (Some 3%nat))).
  - reflexivity.
  - reflexivity.
  - intros v [= <-]. vm_compute. eauto.
Defined.

(** X10: [viewer_session_detach] on an unlocked, live session.  With no
    viewer attached it answers -1 and changes nothing, whatever the viewer
    session.  With a viewer attached, [vsession] being a viewer session
    and the session being linked in the list of a viewer session, it
    answers 0, clears the flag, unlinks the session from the list that
    links it, drops the reference the list held (the session is released
    when it was the last) and releases the lock. *)
Theorem viewer_session_detach_spec (st : relayd) (vsession session : nat)
    (sess : relay_session) :
  sessions st !! session = Some sess ->
  s_lock sess = false ->
  0 < s_ref sess ->
  (s_viewer_attached sess = true ->
   is_Some (viewer_sessions st !! vsession) /\
   exists v vs, viewer_sessions st !! v = Some vs /\
                session ∈ vs_session_list vs) ->
  exists st',
    viewer_session_detach vsession session st
    = inr (if s_viewer_attached sess then 0 else -1, st') /\
    if s_viewer_attached sess then
      sessions st' !! session
      = Some (set_s_viewer_attached false (set_s_ref (s_ref sess - 1) sess)) /\
      viewer_sessions st' = unlink_session session <$> viewer_sessions st /\
      released_sessions st'
      = released_sessions st ++ (if s_ref sess =? 1 then [session] else []) /\
      rcu_nesting st' = rcu_nesting st
    else st' = st.
Proof.
  intros Hsess Hlock Hlive Hlinked.
  pose proof (relock_sessions (sessions st) session sess Hsess Hlock) as Hrelock.
  unfold viewer_session_detach, pthread_mutex_lock_session,
    pthread_mutex_unlock_session, session_list_del, unlink_session.
  destruct st as [lid n cbs traces nxt sessions rel vstreams vsess rstreams].
  destruct sess as [sref lock ht attached chunk].
  cbn in Hsess, Hlock, Hlive, Hrelock, Hlinked. subst lock.
  destruct attached.
  - destruct (Hlinked eq_refl) as [[vs0 Hvs0] (v & vs & Hvs & Hin)].
    assert (Hdel : forall sessions',
              session_linked session
                (mk_relayd lid n cbs traces nxt sessions' rel vstreams vsess
                   rstreams) = true).
    { intros sessions'. now apply (session_linked_intro session v vs). }
    destruct (Z.eq_dec sref 1) as [->|Hne].
    + mgo_lia. rewrite Hdel. mgo_lia.
      eexists. split; [reflexivity|]. mrun.
      rewrite lookup_insert_eq. repeat split; reflexivity.
    + mgo_lia. rewrite Hdel. mgo_lia.
      eexists. split; [reflexivity|]. mrun.
      rewrite lookup_insert_eq.
      replace (sref =? 1) with false by (symmetry; apply Z.eqb_neq; lia).
      rewrite app_nil_r. repeat split; reflexivity.
  - mgo_lia. eexists. split; [reflexivity|]. now rewrite Hrelock.
Qed.

Lemma viewer_session_detach_spec_witness :
  exists st',
    viewer_session_detach 9 5 sample_relayd_attached = inr (0, st') /\
    sessions st' !! 5%nat = Some (mk_relay_session 1 false [] false (Some 3%nat)) /\
    viewer_sessions st'
    = unlink_session 5 <$> viewer_sessions sample_relayd_attached /\
    released_sessions st' = [] /\
    rcu_nesting st' = 0%nat.
Proof.
  apply (viewer_session_detach_spec sample_relayd_attached 9 5
           (mk_relay_session 2 false [] true (Some 3%nat)));
    [reflexivity|reflexivity|cbn; lia|].
  intros _. split.
  - exists (mk_relay_viewer_session [5%nat] (Some 103%nat)). reflexivity.
  - exists 9%nat, (mk_relay_viewer_session [5%nat] (Some 103%nat)).
    split; [reflexivity|apply list_elem_of_here].
Defined.

(** Outside these conditions the detach does not return: a [vsession]
    that is no viewer session is dereferenced for its lock, and a session
    flagged attached that no list links, as a failed chunk copy leaves
    it, has a node whose neighbours cannot be written to. *)
Example viewer_session_detach_faults :
  viewer_session_detach 77 5 sample_relayd_attached = inl BadPointer /\
  viewer_session_detach 9 5
    (set_viewer_sessions {[ 9%nat := mk_relay_viewer_session [] None ]}
       sample_relayd_attached)
  = inl NullDeref.
Proof. split; reflexivity. Qed.

(** X11: when the copy of the current trace chunk fails,
    [viewer_session_attach] answers UNK and gives its reference back, but
    leaves [viewer_attached] set although no list links the session: from
    then on every attach answers ALREADY, whoever asks and whatever the
    chunk registry does, while [viewer_session_is_attached] answers 0. *)
Theorem viewer_session_attach_failed_copy (st : relayd)
    (chunk_copy : nat -> option nat) (vsession session chunk : nat)
    (sess : relay_session) (vs : relay_viewer_session) :
  sessions st !! session = Some sess ->
  viewer_sessions st !! vsession = Some vs ->
  s_lock sess = true ->
  0 < s_ref sess ->
  s_viewer_attached sess = false ->
  s_current_trace_chunk sess = Some chunk ->
  chunk_copy chunk = None ->
  session ∉ vs_session_list vs ->
  exists st',
    viewer_session_attach chunk_copy vsession session st
    = inr (LTTNG_VIEWER_ATTACH_UNK, st') /\
    sessions st' !! session = Some (set_s_viewer_attached true sess) /\
    viewer_sessions st' !! vsession
    = Some (set_vs_current_trace_chunk None vs) /\
    (forall chunk_copy' : nat -> option nat,
       exists st'',
         viewer_session_attach chunk_copy' vsession session st'
         = inr (LTTNG_VIEWER_ATTACH_ALREADY, st'')) /\
    exists st'',
      (let* _ := pthread_mutex_unlock_session session in
       viewer_session_is_attached (Some vsession) session) st'
      = inr (0, st'').
Proof.
  intros Hsess Hvs Hlock Hlive Hattached Hchunk Hcopy Hnotin.
  destruct st as [lid n cbs traces nxt sessions rel vstreams vsess rstreams].
  destruct sess as [sref lock ht attached c].
  destruct vs as [slist vchunk].
  cbn in Hsess, Hvs, Hlock, Hlive, Hattached, Hchunk, Hnotin.
  subst lock attached c.
  unfold viewer_session_attach, viewer_session_set_trace_chunk_copy,
    session_list_add, is_attach_ok.
  mgo_lia. rewrite !Hcopy. mgo_lia.
  eexists. split; [reflexivity|]. mrun.
  rewrite !lookup_insert_eq.
  split; [do 2 f_equal; lia|]. split; [reflexivity|]. split.
  - intros chunk_copy'. mgo_lia. eexists. reflexivity.
  - unfold viewer_session_is_attached, pthread_mutex_lock_session,
      pthread_mutex_unlock_session.
    mgo_lia. rewrite find_session_elem.
    rewrite bool_decide_eq_false_2 by exact Hnotin.
    eexists. reflexivity.
Qed.

Lemma viewer_session_attach_failed_copy_witness :
  exists st',
    viewer_session_attach chunk_copy_fails 9 5 sample_relayd_viewer
    = inr (LTTNG_VIEWER_ATTACH_UNK, st') /\
    sessions st' !! 5%nat
    = Some (set_s_viewer_attached true sample_locked_session) /\
    viewer_sessions st' !! 9%nat
    = Some (set_vs_current_trace_chunk None (mk_relay_viewer_session [] None)) /\
    (forall chunk_copy' : nat -> option nat,
       exists st'',
         viewer_session_attach chunk_copy' 9 5 st'
         = inr (LTTNG_VIEWER_ATTACH_ALREADY, st'')) /\
    exists st'',
      (let* _ := pthread_mutex_unlock_session 5 in
       viewer_session_is_attached (Some 9%nat) 5) st'
      = inr (0, st'').
Proof.
  apply (viewer_session_attach_failed_copy sample_relayd_viewer
           chunk_copy_fails 9 5 3 sample_locked_session
           (mk_relay_viewer_session [] None));
    try reflexivity.
  cbn. apply not_elem_of_nil.
Defined.

(** X12: a connection that attaches to a session with no viewer yet, and
    whose chunk copy succeeds, is told so: after the attach
    [viewer_session_is_attached] answers 1 for its viewer session and 0
    for another one that does not link the session; the detach succeeds
    and [viewer_session_is_attached] answers 0 afterwards.  The session is
    then as before the attach, its lock released. *)
Theorem attach_query_detach_spec (st : relayd)
    (chunk_copy : nat -> option nat) (vsession other session : nat)
    (sess : relay_session) (vs ovs : relay_viewer_session) :
  sessions st !! session = Some sess ->
  viewer_sessions st !! vsession = Some vs ->
  viewer_sessions st !! other = Some ovs ->
  vsession <> other ->
  s_lock sess = true ->
  0 < s_ref sess ->
  s_viewer_attached sess = false ->
  session ∉ vs_session_list ovs ->
  is_Some (copied_chunk chunk_copy (s_current_trace_chunk sess)) ->
  exists st',
    attach_query_detach chunk_copy vsession other session st
    = inr ((LTTNG_VIEWER_ATTACH_OK, 1, 0, 0, 0), st') /\
    sessions st' !! session = Some (set_s_lock false sess).
Proof.
  intros Hsess Hvs Hovs Hne Hlock Hlive Hattached Hnotin [viewer_chunk Hcopy].
  destruct st as [lid n cbs traces nxt sessions rel vstreams vsess rstreams].
  destruct sess as [sref lock ht attached c].
  destruct vs as [slist vchunk]. destruct ovs as [olist ochunk].
  cbn in Hsess, Hvs, Hovs, Hlock, Hlive, Hattached, Hnotin, Hcopy.
  subst lock attached.
  assert (Hother : forall x : relay_viewer_session,
            <[vsession := x]> vsess !! other = Some (mk_relay_viewer_session olist ochunk)).
  { intros x. rewrite lookup_insert_ne by exact Hne. exact Hovs. }
  unfold attach_query_detach, viewer_session_attach, viewer_session_detach,
    viewer_session_is_attached, viewer_session_set_trace_chunk_copy,
    pthread_mutex_lock_session, pthread_mutex_unlock_session,
    session_list_add, session_list_del, is_attach_ok.
  unfold copied_chunk in Hcopy.
  destruct c as [c|]; [destruct (chunk_copy c) as [vc|] eqn:Hc; [|discriminate]|].
  - repeat (progress (mgo_lia;
                      rewrite ?Hc, ?Hother, ?insert_insert_eq, ?Nat.eqb_refl)).
    rewrite !find_session_elem.
    rewrite (bool_decide_eq_false_2 _ Hnotin).
    rewrite (bool_decide_eq_true_2 (session ∈ session :: slist))
      by apply list_elem_of_here.
    repeat (progress (mgo_lia;
                      rewrite ?Hc, ?Hother, ?insert_insert_eq, ?Nat.eqb_refl,
                        ?session_linked_insert)).
    eexists. split; [reflexivity|]. mrun.
    rewrite lookup_insert_eq. do 2 f_equal. lia.
  - repeat (progress (mgo_lia;
                      rewrite ?Hother, ?insert_insert_eq, ?Nat.eqb_refl)).
    rewrite !find_session_elem.
    rewrite (bool_decide_eq_false_2 _ Hnotin).
    rewrite (bool_decide_eq_true_2 (session ∈ session :: slist))
      by apply list_elem_of_here.
    repeat (progress (mgo_lia;
                      rewrite ?Hother, ?insert_insert_eq, ?Nat.eqb_refl,
                        ?session_linked_insert)).
    eexists. split; [reflexivity|]. mrun.
    rewrite lookup_insert_eq. do 2 f_equal. lia.
Qed.

Lemma attach_query_detach_spec_witness :
  exists st',
    attach_query_detach chunk_copy_ok 9 10 5 sample_relayd_two_viewers
    = inr ((LTTNG_VIEWER_ATTACH_OK, 1, 0, 0, 0), st') /\
    sessions st' !! 5%nat = Some (set_s_lock false sample_locked_session).
Proof.
  apply (attach_query_detach_spec sample_relayd_two_viewers chunk_copy_ok
           9 10 5 sample_locked_session
           (mk_relay_viewer_session [] None) (mk_relay_viewer_session [] None));
    try reflexivity.
  - lia.
  - cbn. apply not_elem_of_nil.
  - vm_compute. eauto.
Defined.

End ViewerSessionFacts.

Module EnableEventsFacts.

Import EnableEvents.

Lemma eqb_false (a b : ascii) : a <> b -> Ascii.eqb a b = false.
Proof. intros Hne. now apply Ascii.eqb_neq. Qed.

(** *** [check_exclusion_subsets] never reads past a terminator *)

Lemma scan_literal_prefix (p : list ascii) :
  literal_prefix p ->
  forall (x : list ascii) (fuel : nat),
    (length p + 1 <= fuel)%nat ->
    exists v, scan fuel (at_ (p ++ [star])) (at_ x) = inr v.
Proof.
  induction 1 as [|c p Hnul Hstar Hbs _ IH|c p Hnul _ IH]; intros x fuel Hfuel.
  - destruct fuel as [|fuel]; [cbn in Hfuel; lia|].
    cbn [scan app deref]. change (Ascii.eqb star backslash) with false.
    cbv iota.
    destruct x as [|d x]; cbn [deref].
    + change (Ascii.eqb NUL star) with false. cbv iota.
      rewrite Ascii.eqb_refl. eauto.
    + destruct (Ascii.eqb d star); [eauto|].
      rewrite Ascii.eqb_refl. eauto.
  - destruct fuel as [|fuel]; [cbn in Hfuel; lia|].
    cbn [length] in Hfuel.
    cbn [scan app deref]. rewrite (eqb_false c backslash Hbs).
    destruct x as [|d x]; cbn [deref].
    + change (Ascii.eqb NUL star) with false. cbv iota.
      rewrite (eqb_false c star Hstar).
      unfold cmp_chars. cbn [deref].
      rewrite (eqb_false NUL c) by congruence. cbn [negb]. eauto.
    + destruct (Ascii.eqb d star); [eauto|].
      rewrite (eqb_false c star Hstar).
      unfold cmp_chars. cbn [deref next].
      destruct (Ascii.eqb d c); cbn [negb]; [|eauto].
      apply IH. lia.
  - destruct fuel as [|fuel]; [cbn in Hfuel; lia|].
    cbn [length] in Hfuel.
    cbn [scan app deref]. rewrite Ascii.eqb_refl.
    destruct x as [|d x]; cbn [deref].
    + change (Ascii.eqb NUL backslash) with false. cbn [negb]. eauto.
    + destruct (Ascii.eqb d backslash); cbn [negb]; [|eauto].
      unfold cmp_chars. cbn [next deref].
      destruct x as [|d' x]; cbn [deref].
      * rewrite (eqb_false NUL c) by congruence. cbn [negb]. eauto.
      * destruct (Ascii.eqb d' c); cbn [negb]; [|eauto].
        cbn [next]. destruct fuel as [|fuel]; [lia|].
        apply IH. lia.
Qed.

(** X13: for an event name whose only globbing star is its last
    character (ordinary and escaped characters before it), whatever the
    exclusion, [check_exclusion_subsets] returns: it reads neither string
    past its terminating NUL and its loop ends. *)
Theorem check_exclusion_subsets_in_bounds (p exclusion : list ascii) :
  literal_prefix p ->
  exists v, check_exclusion_subsets (p ++ [star]) exclusion = inr v.
Proof.
  intros Hp. unfold check_exclusion_subsets.
  apply scan_literal_prefix; [exact Hp|].
  rewrite length_app. cbn [length]. lia.
Qed.

Lemma check_exclusion_subsets_in_bounds_witness :
  exists v,
    check_exclusion_subsets
      (list_ascii_of_string "my_app:" ++ [star])
      (list_ascii_of_string "my_app:tick") = inr v.
Proof.
  apply (check_exclusion_subsets_in_bounds
           (list_ascii_of_string "my_app:")
           (list_ascii_of_string "my_app:tick")).
  cbn. repeat (apply literal_char; [discriminate..|]). apply literal_nil.
Defined.

(** Without a star in the event name the scan can leave both strings. *)
Example check_exclusion_subsets_without_star :
  check_exclusion_subsets (list_ascii_of_string "foo")
    (list_ascii_of_string "foo") = inl OutOfBounds.
Proof. vm_compute. reflexivity. Qed.

(** *** What [check_exclusion_subsets] answers *)

Lemma excludes_all_cons (c : ascii) (p x : list ascii) :
  c <> star -> excludes_all (c :: p) (c :: x) <-> excludes_all p x.
Proof.
  intros Hstar. split.
  - intros (q & r & Hq & Hx). destruct q as [|d q].
    + cbn in Hx. congruence.
    + cbn in Hx. injection Hx as <- ->.
      exists q, r. split; [|reflexivity].
      destruct Hq as [k Hk]. cbn in Hk. injection Hk as ->. now exists k.
  - intros (q & r & [k ->] & ->). exists (c :: q), r.
    split; [|reflexivity]. now exists k.
Qed.

Lemma scan_plain (p : list ascii) :
  plain p ->
  forall (x : list ascii) (fuel : nat),
    (length p + 1 <= fuel)%nat ->
    exists v, scan fuel (at_ (p ++ [star])) (at_ x) = inr v /\
              verdict_for p x v.
Proof.
  induction 1 as [|c p (Hnul & Hstar & Hbs) _ IH]; intros x fuel Hfuel.
  - destruct fuel as [|fuel]; [cbn in Hfuel; lia|].
    cbn [scan app deref]. change (Ascii.eqb star backslash) with false.
    cbv iota.
    destruct x as [|d x]; cbn [deref].
    + change (Ascii.eqb NUL star) with false. cbv iota.
      rewrite Ascii.eqb_refl. eexists. split; [reflexivity|].
      right; left. repeat split.
      * intros (q & r & _ & Hx). now destruct q.
      * apply prefix_nil.
    + destruct (Ascii.eqb d star) eqn:Hd.
      * apply Ascii.eqb_eq in Hd as ->.
        eexists. split; [reflexivity|]. left. split; [|reflexivity].
        exists [], x. split; [apply prefix_nil|reflexivity].
      * apply Ascii.eqb_neq in Hd.
        rewrite Ascii.eqb_refl. eexists. split; [reflexivity|].
        right; left. repeat split; [|apply prefix_nil].
        intros (q & r & Hq & Hx).
        apply prefix_nil_inv in Hq as ->. cbn in Hx. congruence.
  - destruct fuel as [|fuel]; [cbn in Hfuel; lia|].
    cbn [length] in Hfuel.
    cbn [scan app deref]. rewrite (eqb_false c backslash Hbs).
    destruct x as [|d x]; cbn [deref].
    + change (Ascii.eqb NUL star) with false. cbv iota.
      rewrite (eqb_false c star Hstar).
      unfold cmp_chars. cbn [deref].
      rewrite (eqb_false NUL c) by congruence. cbn [negb].
      eexists. split; [reflexivity|]. right; right. repeat split.
      * intros (q & r & _ & Hx). now destruct q.
      * intros [k Hk]. discriminate Hk.
    + destruct (Ascii.eqb d star) eqn:Hd.
      * apply Ascii.eqb_eq in Hd as ->.
        eexists. split; [reflexivity|]. left. split; [|reflexivity].
        exists [], x. split; [apply prefix_nil|reflexivity].
      * apply Ascii.eqb_neq in Hd.
        rewrite (eqb_false c star Hstar).
        unfold cmp_chars. cbn [deref next].
        destruct (Ascii.eqb d c) eqn:Hdc; cbn [negb].
        -- apply Ascii.eqb_eq in Hdc as ->.
           destruct (IH x fuel ltac:(lia)) as (v & Hscan & Hv).
           exists v. split; [exact Hscan|].
           unfold verdict_for in *.
           rewrite (excludes_all_cons c p x Hstar).
           destruct Hv as [(HA & ->)|[(HA & HB & ->)|(HA & HB & ->)]].
           ++ left. now split.
           ++ right; left. repeat split; [exact HA|].
              now apply prefix_cons.
           ++ right; right. repeat split; [exact HA|].
              intros Hpre. apply HB. now apply prefix_cons_inv_2 in Hpre.
        -- apply Ascii.eqb_neq in Hdc.
           eexists. split; [reflexivity|]. right; right. repeat split.
           ++ intros (q & r & Hq & Hx). destruct q as [|d' q].
              ** cbn in Hx. congruence.
              ** cbn in Hx. injection Hx as -> ->.
                 apply prefix_cons_inv_1 in Hq. congruence.
           ++ intros Hpre. apply prefix_cons_inv_1 in Hpre. congruence.
Qed.

(** X14: for an event name made of ordinary characters followed by a
    star, [check_exclusion_subsets] answers
    - -1, without a warning, when the exclusion has a star after a
      beginning of the event name: it would exclude every event;
    - 0, without a warning, when the exclusion begins with the whole of the
      event name before its star;
    - 0, with a warning, in every other case: the exclusion excludes
      nothing. *)
Theorem check_exclusion_subsets_spec (p exclusion : list ascii) :
  plain p ->
  exists v,
    check_exclusion_subsets (p ++ [star]) exclusion = inr v /\
    ((excludes_all p exclusion /\ v = mk_verdict (-1) false) \/
     (~ excludes_all p exclusion /\ p `prefix_of` exclusion /\
      v = mk_verdict 0 false) \/
     (~ excludes_all p exclusion /\ ~ p `prefix_of` exclusion /\
      v = mk_verdict 0 true)).
Proof.
  intros Hp. unfold check_exclusion_subsets.
  apply scan_plain; [exact Hp|].
  rewrite length_app. cbn [length]. lia.
Qed.

Lemma check_exclusion_subsets_spec_witness :
  exists v,
    check_exclusion_subsets (list_ascii_of_string "foo" ++ [star])
      (list_ascii_of_string "fo*") = inr v /\
    ((excludes_all (list_ascii_of_string "foo") (list_ascii_of_string "fo*") /\
      v = mk_verdict (-1) false) \/
     (~ excludes_all (list_ascii_of_string "foo") (list_ascii_of_string "fo*") /\
      list_ascii_of_string "foo" `prefix_of` list_ascii_of_string "fo*" /\
      v = mk_verdict 0 false) \/
     (~ excludes_all (list_ascii_of_string "foo") (list_ascii_of_string "fo*") /\
      ~ list_ascii_of_string "foo" `prefix_of` list_ascii_of_string "fo*" /\
      v = mk_verdict 0 true)).
Proof.
  apply (check_exclusion_subsets_spec (list_ascii_of_string "foo")
           (list_ascii_of_string "fo*")).
  cbn. repeat (apply Forall_cons; split; [repeat split; discriminate|]).
  apply Forall_nil. exact I.
Defined.

(** The three answers. *)
Example check_exclusion_subsets_answers :
  check_exclusion_subsets (list_ascii_of_string "foo*")
    (list_ascii_of_string "fo*") = inr (mk_verdict (-1) false) /\
  check_exclusion_subsets (list_ascii_of_string "foo*")
    (list_ascii_of_string "foo_bar") = inr (mk_verdict 0 false) /\
  check_exclusion_subsets (list_ascii_of_string "foo*")
    (list_ascii_of_string "bar") = inr (mk_verdict 0 true).
Proof. vm_compute. repeat split. Qed.

(** *** [print_exclusions] stays inside its allocation *)

Lemma to_int_small (z : Z) : 0 <= z < 2 ^ 31 -> to_int z = z.
Proof.
  intros Hz. unfold to_int, INT_MODULUS.
  rewrite Z.mod_small by lia.
  destruct (z <? 2 ^ 31) eqn:Hlt; [reflexivity|].
  apply Z.ltb_ge in Hlt. lia.
Qed.

Lemma total_length_cons (x : list ascii) (xs : list (list ascii)) :
  total_length (x :: xs) = Z.of_nat (length x) + total_length xs.
Proof. unfold total_length. cbn [concat]. rewrite length_app. lia. Qed.

Lemma total_length_nonneg (xs : list (list ascii)) : 0 <= total_length xs.
Proof. unfold total_length. lia. Qed.

Lemma required_length_sum (xs : list (list ascii)) (acc : Z) :
  0 <= acc ->
  acc + total_length xs + 4 * Z.of_nat (length xs) < 2 ^ 31 ->
  required_length xs acc = acc + total_length xs + 4 * Z.of_nat (length xs).
Proof.
  revert acc. induction xs as [|x xs IH]; intros acc Hacc Hbound.
  { cbn [required_length length]. unfold total_length. cbn. lia. }
  cbn [required_length]. rewrite total_length_cons in *.
  cbn [length] in *.
  pose proof (total_length_nonneg xs) as Hxs.
  rewrite to_int_small by lia.
  rewrite IH by lia. lia.
Qed.

Lemma quoted_list_length (x : list ascii) (xs : list (list ascii)) :
  Z.of_nat (length (quoted_list (x :: xs)))
  = total_length (x :: xs) + 4 * Z.of_nat (length (x :: xs)) - 2.
Proof.
  revert x. induction xs as [|y xs IH]; intros x.
  - cbn [quoted_list]. rewrite total_length_cons.
    rewrite !length_app. cbn [length]. unfold total_length. cbn. lia.
  - change (quoted_list (x :: y :: xs))
      with ([double_quote] ++ x ++ [double_quote] ++
            list_ascii_of_string ", " ++ quoted_list (y :: xs)).
    rewrite !length_app, total_length_cons.
    rewrite !Nat2Z.inj_add, IH.
    cbn [length list_ascii_of_string]. lia.
Qed.

Lemma strcat_fits (src : list ascii) (cap : Z) (t : list ascii) :
  Z.of_nat (length t + length src + 1) <= cap ->
  strcat src (mk_buffer cap t) = inr (mk_buffer cap (t ++ src)).
Proof.
  intros Hfit. unfold strcat. cbn [capacity text].
  now replace (_ <=? cap) with true by (symmetry; apply Z.leb_le; lia).
Qed.

Lemma write_exclusions_more (x y : list ascii) (xs : list (list ascii))
    (b : buffer) :
  write_exclusions (x :: y :: xs) b
  = match strcat [double_quote] b with
    | inl f => inl f
    | inr b =>
        match strcat x b with
        | inl f => inl f
        | inr b =>
            match strcat [double_quote] b with
            | inl f => inl f
            | inr b =>
                match strcat (list_ascii_of_string ", ") b with
                | inl f => inl f
                | inr b => write_exclusions (y :: xs) b
                end
            end
        end
    end.
Proof. reflexivity. Qed.

Lemma write_exclusions_fits (xs : list (list ascii)) (cap : Z) (t : list ascii) :
  Z.of_nat (length t + length (quoted_list xs) + 1) <= cap ->
  write_exclusions xs (mk_buffer cap t)
  = inr (mk_buffer cap (t ++ quoted_list xs)).
Proof.
  revert t. induction xs as [|x xs IH]; intros t Hfit.
  { cbn. now rewrite app_nil_r. }
  destruct xs as [|y xs].
  - cbn [quoted_list write_exclusions] in *.
    rewrite !length_app in Hfit. cbn [length] in Hfit.
    rewrite strcat_fits by (cbn [length]; lia).
    rewrite strcat_fits by (rewrite !length_app; cbn [length]; lia).
    rewrite strcat_fits by (rewrite !length_app; cbn [length]; lia).
    now rewrite <- !app_assoc.
  - change (quoted_list (x :: y :: xs))
      with ([double_quote] ++ x ++ [double_quote] ++
            list_ascii_of_string ", " ++ quoted_list (y :: xs)) in *.
    rewrite !length_app in Hfit. cbn [length list_ascii_of_string] in Hfit.
    rewrite write_exclusions_more.
    rewrite strcat_fits by (cbn [length]; lia).
    rewrite strcat_fits by (rewrite !length_app; cbn [length]; lia).
    rewrite strcat_fits by (rewrite !length_app; cbn [length]; lia).
    rewrite strcat_fits
      by (rewrite !length_app; cbn [length list_ascii_of_string]; lia).
    rewrite IH.
    + now rewrite <- !app_assoc.
    + rewrite !length_app. cbn [length list_ascii_of_string]. lia.
Qed.

(** X15: as long as the length it computes fits an [int],
    [print_exclusions] writes the string made of [" excluding "] and of
    the exclusions, each between double quotes, separated by [", "]; every
    [strcat] stays inside the allocation, which is two bytes larger than
    the string and its terminating NUL. *)
Theorem print_exclusions_fits (exclusions : list (list ascii)) :
  exclusions <> [] ->
  total_length exclusions + 4 * Z.of_nat (length exclusions) + 12 < 2 ^ 31 ->
  print_exclusions true exclusions
  = inr (Some (mk_buffer
                 (total_length exclusions
                  + 4 * Z.of_nat (length exclusions) + 12)
                 (preamble ++ quoted_list exclusions))) /\
  Z.of_nat (length (preamble ++ quoted_list exclusions)) + 1 + 2
  = total_length exclusions + 4 * Z.of_nat (length exclusions) + 12.
Proof.
  intros Hne Hbound.
  destruct exclusions as [|x xs]; [congruence|]. clear Hne.
  pose proof (total_length_nonneg (x :: xs)) as Htotal.
  pose proof (quoted_list_length x xs) as Hquoted.
  assert (Hpre : length preamble = 11%nat) by reflexivity.
  split.
  - unfold print_exclusions.
    rewrite required_length_sum by lia.
    unfold sizeof_preamble. rewrite to_int_small by lia.
    cbn [negb]. rewrite Z.mod_small by lia.
    unfold strncpy. cbn [capacity]. rewrite Hpre.
    replace (Z.of_nat (11 + 1) <=? _) with true
      by (symmetry; apply Z.leb_le; lia).
    rewrite write_exclusions_fits; [reflexivity|].
    rewrite Hpre. lia.
  - rewrite length_app, Hpre. lia.
Qed.

Lemma print_exclusions_fits_witness :
  print_exclusions true
    [list_ascii_of_string "a"; list_ascii_of_string "bc"]
  = inr (Some (mk_buffer
                 (total_length
                    [list_ascii_of_string "a"; list_ascii_of_string "bc"]
                  + 4 * Z.of_nat 2 + 12)
                 (preamble ++
                  quoted_list
                    [list_ascii_of_string "a"; list_ascii_of_string "bc"]))) /\
  Z.of_nat (length (preamble ++
                    quoted_list
                      [list_ascii_of_string "a"; list_ascii_of_string "bc"]))
  + 1 + 2
  = total_length [list_ascii_of_string "a"; list_ascii_of_string "bc"]
    + 4 * Z.of_nat 2 + 12.
Proof.
  apply (print_exclusions_fits
           [list_ascii_of_string "a"; list_ascii_of_string "bc"]).
  - discriminate.
  - vm_compute. reflexivity.
Defined.

End EnableEventsFacts.

Module FilterParserFacts.

Import FilterParser.

(** *** The size of an allocation *)

Lemma double_until_zero (fuel : nat) (need : Z) :
  0 < need -> double_until fuel 0 need = None.
Proof.
  intros Hneed. induction fuel as [|fuel IH]; [reflexivity|].
  cbn [double_until].
  replace (0 <? need) with true by (symmetry; apply Z.ltb_lt; lia).
  exact IH.
Qed.

Lemma pow2_double (k : Z) : 0 <= k -> 2 ^ k * 2 = 2 ^ (k + 1).
Proof. intros Hk. rewrite Z.pow_add_r by lia. lia. Qed.

Lemma pow2_le_63 (k : Z) : 0 <= k <= 63 -> 0 < 2 ^ k <= 2 ^ 63.
Proof.
  intros Hk. split; [apply Z.pow_pos_nonneg; lia|].
  apply Z.pow_le_mono_r; lia.
Qed.

(** [None] is a loop that never ends: more fuel does not help. *)
Lemma double_until_hangs (fuel : nat) (k need : Z) :
  0 <= k <= 63 -> 2 ^ 63 < need ->
  double_until fuel (2 ^ k) need = None.
Proof.
  revert k. induction fuel as [|fuel IH]; intros k Hk Hneed; [reflexivity|].
  cbn [double_until].
  pose proof (pow2_le_63 k Hk) as Hpow.
  replace (2 ^ k <? need) with true by (symmetry; apply Z.ltb_lt; lia).
  rewrite pow2_double by lia.
  destruct (Z.eq_dec k 63) as [->|Hne].
  - change ((2 ^ (63 + 1)) mod SIZE_MODULUS) with 0.
    apply double_until_zero. lia.
  - assert (H64 : 2 ^ (k + 1) <= 2 ^ 63) by (apply Z.pow_le_mono_r; lia).
    unfold SIZE_MODULUS. rewrite Z.mod_small.
    + apply IH; lia.
    + split; [apply Z.pow_nonneg; lia|].
      assert (2 ^ 63 < 2 ^ 64) by reflexivity. lia.
Qed.

Lemma double_until_power (fuel : nat) (k need : Z) :
  0 <= k <= 63 ->
  need <= 2 ^ 63 ->
  2 ^ k < 2 * need ->
  64 - k <= Z.of_nat fuel ->
  exists k', k <= k' <= 63 /\
             double_until fuel (2 ^ k) need = Some (2 ^ k') /\
             need <= 2 ^ k' < 2 * need.
Proof.
  revert k. induction fuel as [|fuel IH]; intros k Hk Hneed Hlow Hfuel;
    [lia|].
  cbn [double_until].
  pose proof (pow2_le_63 k Hk) as Hpow.
  destruct (2 ^ k <? need) eqn:Hlt.
  - apply Z.ltb_lt in Hlt.
    assert (Hk63 : k < 63).
    { destruct (Z.eq_dec k 63) as [->|]; lia. }
    rewrite pow2_double by lia.
    assert (H64 : 2 ^ (k + 1) <= 2 ^ 63) by (apply Z.pow_le_mono_r; lia).
    unfold SIZE_MODULUS. rewrite Z.mod_small.
    + destruct (IH (k + 1)) as (k' & Hk' & Hrun & Hfit); try lia.
      { rewrite <- pow2_double by lia. lia. }
      exists k'. split; [lia|]. now split.
    + split; [apply Z.pow_nonneg; lia|].
      assert (2 ^ 63 < 2 ^ 64) by reflexivity. lia.
  - apply Z.ltb_ge in Hlt. exists k. split; [lia|]. split; [reflexivity|lia].
Qed.

Lemma needed_small (len : Z) :
  0 <= len ->
  sizeof_long + sizeof_gc_string + len < 2 ^ 64 ->
  needed len = sizeof_long + sizeof_gc_string + len.
Proof.
  intros Hlen Hmax. unfold needed, SIZE_MODULUS. apply Z.mod_small.
  unfold sizeof_long, sizeof_gc_string in *. lia.
Qed.

Lemma alloclen_for_bounds (len : Z) :
  0 <= len ->
  sizeof_long + sizeof_gc_string + len <= 2 ^ 63 ->
  exists k, alloclen_for len = Some (2 ^ k) /\
            sizeof_long + sizeof_gc_string + len <= 2 ^ k
            < 2 * (sizeof_long + sizeof_gc_string + len).
Proof.
  intros Hlen Hmax.
  assert (H63 : 2 ^ 63 < 2 ^ 64) by reflexivity.
  unfold alloclen_for. rewrite needed_small by lia.
  destruct (double_until_power 64 3 (sizeof_long + sizeof_gc_string + len))
    as (k & Hk & Hrun & Hfit); try lia.
  { unfold sizeof_long, sizeof_gc_string. cbn. lia. }
  exists k. now split.
Qed.

(** X16: the size [gc_string_alloc] asks for.  With [need] the sum of
    [sizeof(long)], of [sizeof(struct gc_string)] and of [len]: when
    [need] is at most [2^63] the loop ends on the least power of two that
    holds [need] bytes, which is less than twice [need]; when [need] is
    above [2^63] the loop never ends, the doubling wrapping to 0. *)
Theorem alloclen_for_spec (len : Z) :
  0 <= len ->
  sizeof_long + sizeof_gc_string + len < 2 ^ 64 ->
  let need := sizeof_long + sizeof_gc_string + len in
  (need <= 2 ^ 63 ->
   exists k, alloclen_for len = Some (2 ^ k) /\ need <= 2 ^ k < 2 * need) /\
  (2 ^ 63 < need -> forall fuel, double_until fuel 8 (needed len) = None).
Proof.
  intros Hlen Hmax need. split.
  - intros Hneed. now apply alloclen_for_bounds.
  - intros Hneed fuel. rewrite needed_small by assumption.
    apply (double_until_hangs fuel 3); [lia|exact Hneed].
Qed.

Lemma alloclen_for_spec_witness :
  exists k, alloclen_for 33 = Some (2 ^ k) /\
            sizeof_long + sizeof_gc_string + 33 <= 2 ^ k
            < 2 * (sizeof_long + sizeof_gc_string + 33).
Proof.
  apply (alloclen_for_spec 33); [lia|reflexivity|].
  vm_compute. discriminate.
Defined.

Lemma alloclen_for_fits (len : Z) :
  0 <= len ->
  sizeof_long + sizeof_gc_string + len <= 2 ^ 63 ->
  exists a, alloclen_for len = Some a /\
            sizeof_long + sizeof_gc_string + len <= a.
Proof.
  intros Hlen Hmax.
  destruct (alloclen_for_bounds len Hlen Hmax) as (k & Hrun & Hbound & _).
  eauto.
Qed.

(** *** The list of allocated strings *)

Lemma tracked_alloc lst heap nxt g :
  tracked (mk_filter_parser_ctx lst heap nxt) ->
  tracked (mk_filter_parser_ctx (nxt :: lst) (<[nxt := g]> heap) (S nxt)).
Proof.
  intros (Hnodup & Hlinked & Hbelow). cbn in *.
  assert (Hfresh : heap !! nxt = None).
  { destruct (heap !! nxt) eqn:Hnxt; [|reflexivity].
    specialize (Hbelow nxt ltac:(eauto)). lia. }
  split; [|split]; cbn.
  - apply NoDup_cons. split; [|exact Hnodup].
    intros Hin%Hlinked. rewrite Hfresh in Hin. now destruct Hin.
  - intros p. destruct (decide (p = nxt)) as [->|Hne].
    + rewrite lookup_insert_eq. split; [eauto|intros _; apply list_elem_of_here].
    + rewrite lookup_insert_ne by congruence. rewrite <- Hlinked.
      rewrite elem_of_cons. tauto.
  - intros p. destruct (decide (p = nxt)) as [->|Hne]; [lia|].
    rewrite lookup_insert_ne by congruence.
    intros Hin%Hbelow. lia.
Qed.

Lemma tracked_store lst heap nxt p g :
  is_Some (heap !! p) ->
  tracked (mk_filter_parser_ctx lst heap nxt) ->
  tracked (mk_filter_parser_ctx lst (<[p := g]> heap) nxt).
Proof.
  intros Hp (Hnodup & Hlinked & Hbelow). cbn in *.
  assert (Hdom : forall q, is_Some (<[p := g]> heap !! q) <-> is_Some (heap !! q)).
  { intros q. destruct (decide (q = p)) as [->|Hne].
    - rewrite lookup_insert_eq. split; eauto.
    - now rewrite lookup_insert_ne by congruence. }
  split; [|split]; cbn; [exact Hnodup| |].
  - intros q. now rewrite Hdom.
  - intros q Hq. apply Hbelow. now apply Hdom.
Qed.

Lemma tracked_free lst heap nxt p :
  tracked (mk_filter_parser_ctx lst heap nxt) ->
  tracked (mk_filter_parser_ctx
             (List.filter (fun q => negb (Nat.eqb q p)) lst)
             (delete p heap) nxt).
Proof.
  intros (Hnodup & Hlinked & Hbelow). cbn in *.
  assert (Hfilter : forall q,
            q ∈ List.filter (fun q => negb (Nat.eqb q p)) lst
            <-> q <> p /\ q ∈ lst).
  { intros q. rewrite !list_elem_of_In, filter_In, negb_true_iff,
      Nat.eqb_neq. tauto. }
  split; [|split]; cbn.
  - clear Hlinked Hfilter. induction Hnodup as [|x l Hx _ IH];
      [constructor|].
    cbn [List.filter]. destruct (negb (Nat.eqb x p)); [|exact IH].
    apply NoDup_cons. split; [|exact IH].
    rewrite list_elem_of_In, filter_In, <- list_elem_of_In. tauto.
  - intros q. split.
    + intros [Hne Hin]%Hfilter.
      rewrite lookup_delete_ne by congruence. now apply Hlinked.
    + intros Hq. apply Hfilter.
      destruct (decide (q = p)) as [->|Hne].
      * rewrite lookup_delete_eq in Hq. now destruct Hq.
      * rewrite lookup_delete_ne in Hq by congruence.
        split; [exact Hne|now apply Hlinked].
  - intros q Hq. apply Hbelow.
    destruct (decide (q = p)) as [->|Hne].
    + rewrite lookup_delete_eq in Hq. now destruct Hq.
    + now rewrite lookup_delete_ne in Hq by congruence.
Qed.

(** *** Running the string functions *)

Lemma bind_run {A B : Type} (c : M A) (k : A -> M B) ctx x ctx' :
  c ctx = inr (x, ctx') -> bind c k ctx = k x ctx'.
Proof. unfold bind. now intros ->. Qed.

Lemma bind_fault {A B : Type} (c : M A) (k : A -> M B) ctx f :
  c ctx = inl f -> bind c k ctx = inl f.
Proof. unfold bind. now intros ->. Qed.

Lemma load_run lst heap nxt p g :
  heap !! p = Some g ->
  load p (mk_filter_parser_ctx lst heap nxt)
  = inr (g, mk_filter_parser_ctx lst heap nxt).
Proof. unfold load. cbn [strings]. now intros ->. Qed.

Lemma strlen_run lst heap nxt p g :
  heap !! p = Some g ->
  strlen p (mk_filter_parser_ctx lst heap nxt)
  = inr (Z.of_nat (length (s g)), mk_filter_parser_ctx lst heap nxt).
Proof.
  intros Hp. unfold strlen. now rewrite (bind_run _ _ _ _ _ (load_run _ _ _ _ _ Hp)).
Qed.

Lemma gc_string_alloc_run lst heap nxt len a :
  alloclen_for len = Some a ->
  sizeof_gc_string <= a ->
  gc_string_alloc true len (mk_filter_parser_ctx lst heap nxt)
  = inr (Some nxt,
         mk_filter_parser_ctx (nxt :: lst)
           (<[nxt := mk_gc_string a []]> heap) (S nxt)).
Proof.
  intros Ha Hfit. unfold gc_string_alloc. rewrite Ha.
  unfold bind, zmalloc. cbn [next_string allocated_strings strings].
  replace (a <? sizeof_gc_string) with false by (symmetry; apply Z.ltb_ge; lia).
  unfold cds_list_add, store, ret.
  cbn [next_string allocated_strings strings].
  now rewrite insert_insert_eq.
Qed.

Lemma strcpy_run lst heap nxt p g src :
  heap !! p = Some g ->
  Z.of_nat (length src) + 1 <= alloclen g - sizeof_gc_string ->
  strcpy (Some p) src (mk_filter_parser_ctx lst heap nxt)
  = inr (tt, mk_filter_parser_ctx lst
               (<[p := mk_gc_string (alloclen g) src]> heap) nxt).
Proof.
  intros Hp Hfit. unfold strcpy.
  rewrite (bind_run _ _ _ _ _ (load_run _ _ _ _ _ Hp)).
  unfold room.
  now replace (_ <=? _) with true by (symmetry; apply Z.leb_le; lia).
Qed.

Lemma strcat_run lst heap nxt p g src :
  heap !! p = Some g ->
  Z.of_nat (length (s g) + length src) + 1 <= alloclen g - sizeof_gc_string ->
  strcat (Some p) src (mk_filter_parser_ctx lst heap nxt)
  = inr (tt, mk_filter_parser_ctx lst
               (<[p := mk_gc_string (alloclen g) (s g ++ src)]> heap) nxt).
Proof.
  intros Hp Hfit. unfold strcat.
  rewrite (bind_run _ _ _ _ _ (load_run _ _ _ _ _ Hp)).
  unfold room.
  now replace (_ <=? _) with true by (symmetry; apply Z.leb_le; lia).
Qed.

Lemma cds_list_del_run lst heap nxt p :
  cds_list_del p (mk_filter_parser_ctx lst heap nxt)
  = inr (tt, mk_filter_parser_ctx
               (List.filter (fun q => negb (Nat.eqb q p)) lst) heap nxt).
Proof. reflexivity. Qed.

Lemma free_run lst heap nxt p g :
  heap !! p = Some g ->
  free p (mk_filter_parser_ctx lst heap nxt)
  = inr (tt, mk_filter_parser_ctx lst (delete p heap) nxt).
Proof. unfold free. cbn [strings]. now intros ->. Qed.

Ltac brun L := rewrite (bind_run _ _ _ _ _ L); cbv beta.

Ltac look :=
  repeat first
    [ rewrite lookup_insert_eq
    | rewrite lookup_insert_ne by lia
    | rewrite lookup_delete_ne by lia
    | rewrite lookup_delete_eq
    | rewrite insert_insert_eq ];
  first [eassumption | reflexivity].

Ltac bload := erewrite bind_run by (apply load_run; look); cbv beta.
Ltac bfree := erewrite bind_run by (eapply free_run; look); cbv beta.
Ltac bstr L :=
  erewrite bind_run
    by (apply L;
        [look | unfold sizeof_gc_string; cbn [alloclen s length];
                rewrite ?length_app; lia]);
  cbv beta; cbn [alloclen s app]; rewrite ?insert_insert_eq.

Lemma tracked_empty_ctx : tracked empty_ctx.
Proof.
  split; [constructor|]. split; cbn.
  - intros p. rewrite lookup_empty. split.
    + now intros ?%elem_of_nil.
    + now intros [? ?].
  - intros p. rewrite lookup_empty. now intros [? ?].
Qed.

Lemma tracked_sample_ctx : tracked sample_ctx.
Proof. do 2 apply tracked_alloc. exact tracked_empty_ctx. Qed.

(** X17: on a string [gstr] and a distinct string [gsrc], both allocated,
    whose lengths stay below the allocation limit, [gc_string_append]
    returns a string that holds the characters of [gstr] followed by those
    of [gsrc] within its allocation; [gsrc] is freed; the result is [gstr]
    itself, or a string at an address not allocated before with [gstr]
    freed; every other string is untouched, and the list of allocated
    strings still links exactly the allocated strings. *)
Theorem gc_string_append_spec (ctx : filter_parser_ctx) (gstr gsrc : nat)
    (dst src : gc_string) :
  tracked ctx ->
  strings ctx !! gstr = Some dst ->
  strings ctx !! gsrc = Some src ->
  gstr <> gsrc ->
  sizeof_long + sizeof_gc_string
    + (Z.of_nat (length (s src)) + Z.of_nat (length (s dst)) + 1) <= 2 ^ 63 ->
  exists r a ctx',
    gc_string_append true gstr gsrc ctx = inr (r, ctx') /\
    strings ctx' !! r = Some (mk_gc_string a (s dst ++ s src)) /\
    Z.of_nat (length (s dst ++ s src)) + 1 <= a - sizeof_gc_string /\
    strings ctx' !! gsrc = None /\
    (r = gstr \/ strings ctx' !! gstr = None /\ strings ctx !! r = None) /\
    (forall p, p <> r -> p <> gstr -> p <> gsrc ->
               strings ctx' !! p = strings ctx !! p) /\
    tracked ctx'.
Proof.
  intros Htracked Hdst Hsrc Hne Hmax.
  destruct ctx as [lst heap nxt]. cbn [strings] in Hdst, Hsrc.
  set (newlen := Z.of_nat (length (s src)) + Z.of_nat (length (s dst)) + 1) in *.
  assert (Hsmall : newlen mod SIZE_MODULUS = newlen).
  { apply Z.mod_small. unfold SIZE_MODULUS, sizeof_long, sizeof_gc_string in *.
    assert (2 ^ 63 < 2 ^ 64) by reflexivity. lia. }
  destruct (alloclen_for_fits newlen ltac:(lia) Hmax) as (a & Ha & Hfit).
  assert (Hbelow : (gstr < nxt)%nat /\ (gsrc < nxt)%nat).
  { destruct Htracked as (_ & _ & Hbelow). cbn in Hbelow.
    split; apply Hbelow; eauto. }
  assert (Hfresh : heap !! nxt = None).
  { destruct Htracked as (_ & _ & Hlt). cbn in Hlt.
    destruct (heap !! nxt) eqn:Hnxt; [|reflexivity].
    specialize (Hlt nxt ltac:(eauto)). lia. }
  assert (Hlen : Z.of_nat (length (s dst ++ s src)) + 1 = newlen).
  { rewrite length_app. subst newlen. lia. }
  unfold gc_string_append.
  brun (strlen_run lst heap nxt gsrc src Hsrc).
  brun (strlen_run lst heap nxt gstr dst Hdst).
  fold newlen. rewrite Hsmall, Ha.
  brun (load_run lst heap nxt gstr dst Hdst).
  unfold sizeof_long, sizeof_gc_string in *.
  destruct (Z.ltb_spec (alloclen dst) a) as [Hgrow|Hroom].
  - replace (alloclen dst <? a) with true by (symmetry; apply Z.ltb_lt; lia).
    exists nxt, a. eexists. split.
    { erewrite bind_run; cycle 1.
      { brun (gc_string_alloc_run lst heap nxt newlen a Ha
                ltac:(unfold sizeof_gc_string; lia)).
        bload. bstr strcpy_run. bload. bstr strcat_run.
        brun (cds_list_del_run (nxt :: lst)
                (<[nxt := mk_gc_string a (s dst ++ s src)]> heap) (S nxt) gstr).
        bfree. reflexivity. }
      brun (cds_list_del_run
              (List.filter (fun q => negb (Nat.eqb q gstr)) (nxt :: lst))
              (delete gstr (<[nxt := mk_gc_string a (s dst ++ s src)]> heap))
              (S nxt) gsrc).
      bfree. reflexivity. }
    cbn [strings].
    split; [look|]. split; [lia|]. split; [look|].
    split; [right; split; look|].
    split.
    { intros p Hp1 Hp2 Hp3.
      now rewrite !lookup_delete_ne, lookup_insert_ne by congruence. }
    do 2 apply tracked_free. now apply tracked_alloc.
  - replace (alloclen dst <? a) with false by (symmetry; apply Z.ltb_ge; lia).
    exists gstr, (alloclen dst). eexists. split.
    { erewrite bind_run; cycle 1.
      { bload. bstr strcat_run. reflexivity. }
      brun (cds_list_del_run lst
              (<[gstr := mk_gc_string (alloclen dst) (s dst ++ s src)]> heap)
              nxt gsrc).
      bfree. reflexivity. }
    cbn [strings].
    split; [look|]. split; [lia|]. split; [look|].
    split; [now left|].
    split.
    { intros p Hp1 Hp2 Hp3.
      now rewrite lookup_delete_ne, lookup_insert_ne by congruence. }
    apply tracked_free. apply tracked_store; [eauto|exact Htracked].
Qed.

Lemma gc_string_append_spec_witness :
  exists r a ctx',
    gc_string_append true 0 1 sample_ctx = inr (r, ctx') /\
    strings ctx' !! r
    = Some (mk_gc_string a
              (list_ascii_of_string "abcdefghijklmnopqrstuvwxyzabcdefghijklm")) /\
    tracked ctx'.
Proof.
  destruct (gc_string_append_spec sample_ctx 0 1
              (mk_gc_string 64 (list_ascii_of_string "ab"))
              (mk_gc_string 128
                 (list_ascii_of_string "cdefghijklmnopqrstuvwxyzabcdefghijklm")))
    as (r & a & ctx' & Hrun & Hr & _ & _ & _ & _ & Htracked).
  - exact tracked_sample_ctx.
  - reflexivity.
  - reflexivity.
  - lia.
  - vm_compute. discriminate.
  - exists r, a, ctx'. split; [exact Hrun|]. split; [exact Hr|exact Htracked].
Defined.

Lemma gc_string_alloc_fails lst heap nxt len a :
  alloclen_for len = Some a ->
  gc_string_alloc false len (mk_filter_parser_ctx lst heap nxt)
  = inr (None, mk_filter_parser_ctx lst heap nxt).
Proof. intros Ha. unfold gc_string_alloc. now rewrite Ha. Qed.

(** X18: the result of [gc_string_alloc] is used unchecked.  When the
    allocation fails, [setstring] writes through a NULL pointer, and so
    does [gc_string_append] whenever the allocation of [gstr] is smaller
    than the two strings, the NUL and the two headers need; when it is
    large enough, [gc_string_append] allocates nothing and returns [gstr]
    itself. *)
Theorem allocation_failure_unchecked (ctx : filter_parser_ctx)
    (gstr gsrc : nat) (dst src : gc_string) (token : list ascii) :
  strings ctx !! gstr = Some dst ->
  strings ctx !! gsrc = Some src ->
  gstr <> gsrc ->
  sizeof_long + sizeof_gc_string + (Z.of_nat (length token) + 1) <= 2 ^ 63 ->
  sizeof_long + sizeof_gc_string
    + (Z.of_nat (length (s src)) + Z.of_nat (length (s dst)) + 1) <= 2 ^ 63 ->
  setstring false token ctx = inl NullDeref /\
  (alloclen dst
   < sizeof_long + sizeof_gc_string
     + (Z.of_nat (length (s src)) + Z.of_nat (length (s dst)) + 1) ->
   gc_string_append false gstr gsrc ctx = inl NullDeref) /\
  (2 * (sizeof_long + sizeof_gc_string
        + (Z.of_nat (length (s src)) + Z.of_nat (length (s dst)) + 1))
   <= alloclen dst ->
   exists ctx', gc_string_append false gstr gsrc ctx = inr (gstr, ctx')).
Proof.
  intros Hdst Hsrc Hne Htoken Hmax.
  destruct ctx as [lst heap nxt]. cbn [strings] in Hdst, Hsrc.
  assert (H63 : 2 ^ 63 < 2 ^ 64) by reflexivity.
  split; [|split].
  - unfold setstring.
    assert (Hsmall : (Z.of_nat (length token) + 1) mod SIZE_MODULUS
                     = Z.of_nat (length token) + 1).
    { apply Z.mod_small.
      unfold SIZE_MODULUS, sizeof_long, sizeof_gc_string in *. lia. }
    rewrite Hsmall.
    destruct (alloclen_for_fits (Z.of_nat (length token) + 1) ltac:(lia) Htoken)
      as (a & Ha & _).
    brun (gc_string_alloc_fails lst heap nxt _ a Ha).
    reflexivity.
  - intros Hsmaller.
    set (newlen := Z.of_nat (length (s src)) + Z.of_nat (length (s dst)) + 1) in *.
    assert (Hsmall : newlen mod SIZE_MODULUS = newlen).
    { apply Z.mod_small.
      unfold SIZE_MODULUS, sizeof_long, sizeof_gc_string in *. lia. }
    destruct (alloclen_for_fits newlen ltac:(lia) Hmax) as (a & Ha & Hfit).
    unfold gc_string_append.
    brun (strlen_run lst heap nxt gsrc src Hsrc).
    brun (strlen_run lst heap nxt gstr dst Hdst).
    fold newlen. rewrite Hsmall, Ha.
    brun (load_run lst heap nxt gstr dst Hdst).
    replace (alloclen dst <? a) with true by (symmetry; apply Z.ltb_lt; lia).
    apply bind_fault.
    brun (gc_string_alloc_fails lst heap nxt newlen a Ha).
    bload. reflexivity.
  - intros Hlarger.
    set (newlen := Z.of_nat (length (s src)) + Z.of_nat (length (s dst)) + 1) in *.
    assert (Hsmall : newlen mod SIZE_MODULUS = newlen).
    { apply Z.mod_small.
      unfold SIZE_MODULUS, sizeof_long, sizeof_gc_string in *. lia. }
    destruct (alloclen_for_bounds newlen ltac:(lia) Hmax)
      as (k & Ha & Hfit & Hleast).
    unfold gc_string_append.
    brun (strlen_run lst heap nxt gsrc src Hsrc).
    brun (strlen_run lst heap nxt gstr dst Hdst).
    fold newlen. rewrite Hsmall, Ha.
    brun (load_run lst heap nxt gstr dst Hdst).
    replace (alloclen dst <? 2 ^ k) with false
      by (symmetry; apply Z.ltb_ge; lia).
    eexists.
    erewrite bind_run; cycle 1.
    { bload. unfold sizeof_long, sizeof_gc_string in *.
      bstr strcat_run. reflexivity. }
    brun (cds_list_del_run lst
            (<[gstr := mk_gc_string (alloclen dst) (s dst ++ s src)]> heap)
            nxt gsrc).
    bfree. reflexivity.
Qed.

Lemma allocation_failure_unchecked_witness :
  setstring false (list_ascii_of_string "n") sample_ctx = inl NullDeref /\
  gc_string_append false 0 1 sample_ctx = inl NullDeref.
Proof.
  destruct (allocation_failure_unchecked sample_ctx 0 1
              (mk_gc_string 64 (list_ascii_of_string "ab"))
              (mk_gc_string 128
                 (list_ascii_of_string "cdefghijklmnopqrstuvwxyzabcdefghijklm"))
              (list_ascii_of_string "n"))
    as (Hset & Happend & _).
  - reflexivity.
  - reflexivity.
  - lia.
  - vm_compute. discriminate.
  - vm_compute. discriminate.
  - split; [exact Hset|]. apply Happend. reflexivity.
Defined.

(** *** What the string functions keep *)

Lemma preserves_ret {A : Type} I (x : A) : preserves I (ret x).
Proof. intros ctx y ctx' HI [= _ <-]. exact HI. Qed.

Lemma preserves_throw {A : Type} I f : preserves I (@throw A f).
Proof. intros ctx y ctx' _ [=]. Qed.

Lemma preserves_bind {A B : Type} I (c : M A) (k : A -> M B) :
  preserves I c -> (forall x, preserves I (k x)) -> preserves I (bind c k).
Proof.
  intros Hc Hk ctx y ctx' HI. unfold bind.
  destruct (c ctx) as [f|[x ctx1]] eqn:Hrun; [intros [=]|].
  intros Hrest. exact (Hk x ctx1 y ctx' (Hc ctx x ctx1 HI Hrun) Hrest).
Qed.

Lemma preserves_load I p : preserves I (load p).
Proof.
  intros ctx g ctx' HI. unfold load.
  destruct (strings ctx !! p); [|intros [=]].
  now intros [= _ <-].
Qed.

Lemma preserves_strlen I p : preserves I (strlen p).
Proof.
  apply preserves_bind; [apply preserves_load|intros; apply preserves_ret].
Qed.

Lemma preserves_store p g :
  preserves (fun ctx => tracked ctx /\ is_Some (strings ctx !! p)) (store p g).
Proof.
  intros [lst heap nxt] [] ctx' [HI Hp] [= <-]. cbn in *. split.
  - now apply tracked_store.
  - cbn. rewrite lookup_insert_eq. eauto.
Qed.

Lemma tracked_store_at p g ctx u ctx' :
  tracked ctx -> is_Some (strings ctx !! p) ->
  store p g ctx = inr (u, ctx') -> tracked ctx'.
Proof.
  intros HI Hp Hrun.
  exact (proj1 (preserves_store p g ctx u ctx' (conj HI Hp) Hrun)).
Qed.

Lemma preserves_strcpy gstr src : preserves tracked (strcpy gstr src).
Proof.
  destruct gstr as [p|]; [|apply preserves_throw].
  intros ctx u ctx' HI. unfold strcpy, bind, load.
  destruct (strings ctx !! p) as [g|] eqn:Hp; [|intros [=]].
  destruct (_ <=? _); [|intros [=]].
  apply tracked_store_at; eauto.
Qed.

Lemma preserves_strcat gstr src : preserves tracked (strcat gstr src).
Proof.
  destruct gstr as [p|]; [|apply preserves_throw].
  intros ctx u ctx' HI. unfold strcat, bind, load.
  destruct (strings ctx !! p) as [g|] eqn:Hp; [|intros [=]].
  destruct (_ <=? _); [|intros [=]].
  apply tracked_store_at; eauto.
Qed.

Lemma preserves_gc_string_alloc allocates len :
  preserves tracked (gc_string_alloc allocates len).
Proof.
  intros [lst heap nxt] r ctx' HI. unfold gc_string_alloc.
  destruct (alloclen_for len) as [a|]; [|intros [=]].
  destruct allocates; [|now intros [= _ <-]].
  unfold bind, zmalloc. cbn [next_string allocated_strings strings].
  destruct (a <? sizeof_gc_string); [intros [=]|].
  unfold cds_list_add, store, ret.
  cbn [next_string allocated_strings strings].
  intros [= _ <-]. rewrite insert_insert_eq. now apply tracked_alloc.
Qed.

(** [cds_list_del(&gstr->gc); free(gstr);] *)
Lemma preserves_unlink_free {B : Type} p (k : unit -> M B) :
  (forall u, preserves tracked (k u)) ->
  preserves tracked (bind (cds_list_del p) (fun _ => bind (free p) k)).
Proof.
  intros Hk [lst heap nxt] y ctx' HI.
  unfold bind at 1, cds_list_del.
  cbn [next_string allocated_strings strings].
  unfold bind, free. cbn [next_string allocated_strings strings].
  destruct (heap !! p) as [g|]; [|intros [=]].
  apply Hk. now apply tracked_free.
Qed.

Lemma preserves_gc_string_append allocates gstr gsrc :
  preserves tracked (gc_string_append allocates gstr gsrc).
Proof.
  unfold gc_string_append.
  apply preserves_bind; [apply preserves_strlen|intros len_src].
  apply preserves_bind; [apply preserves_strlen|intros len_str].
  cbv zeta. destruct (alloclen_for _) as [a|]; [|apply preserves_throw].
  apply preserves_bind; [apply preserves_load|intros dst].
  apply preserves_bind.
  - destruct (alloclen dst <? a).
    + apply preserves_bind; [apply preserves_gc_string_alloc|intros newgstr].
      apply preserves_bind; [apply preserves_load|intros dst'].
      apply preserves_bind; [apply preserves_strcpy|intros _].
      apply preserves_bind; [apply preserves_load|intros src].
      apply preserves_bind; [apply preserves_strcat|intros _].
      apply preserves_unlink_free. intros _.
      destruct newgstr; [apply preserves_ret|apply preserves_throw].
    + apply preserves_bind; [apply preserves_load|intros src].
      apply preserves_bind; [apply preserves_strcat|intros _].
      apply preserves_ret.
  - intros r. apply preserves_unlink_free. intros _. apply preserves_ret.
Qed.

Lemma preserves_setstring allocates src :
  preserves tracked (setstring allocates src).
Proof.
  unfold setstring.
  apply preserves_bind; [apply preserves_gc_string_alloc|intros gs].
  apply preserves_bind; [apply preserves_strcpy|intros _].
  apply preserves_ret.
Qed.

Lemma preserves_run_actions l : preserves tracked (run_actions l).
Proof.
  induction l as [|a l IH]; [apply preserves_ret|].
  cbn [run_actions]. apply preserves_bind; [|intros _; exact IH].
  destruct a as [src|gstr gsrc]; cbn [run_action].
  - apply preserves_bind; [apply preserves_setstring|intros; apply preserves_ret].
  - apply preserves_bind; [apply preserves_gc_string_append
                          |intros; apply preserves_ret].
Qed.

Lemma free_each_run (l lst : list nat) (heap : gmap nat gc_string) nxt :
  NoDup l ->
  (forall p, p ∈ l -> is_Some (heap !! p)) ->
  exists heap',
    free_each l (mk_filter_parser_ctx lst heap nxt)
    = inr (tt, mk_filter_parser_ctx lst heap' nxt) /\
    forall q, heap' !! q = if decide (q ∈ l) then None else heap !! q.
Proof.
  revert heap. induction l as [|p l IH]; intros heap Hnodup Hall.
  - exists heap. split; [reflexivity|].
    intros q. destruct (decide (q ∈ [])) as [Hin|]; [|reflexivity].
    now apply elem_of_nil in Hin.
  - apply NoDup_cons in Hnodup as [Hp Hnodup].
    destruct (Hall p (list_elem_of_here _ _)) as [g Hg].
    destruct (IH (delete p heap) Hnodup) as (heap' & Hrun & Hheap').
    { intros q Hq. rewrite lookup_delete_ne by (intros ->; contradiction).
      apply Hall. now apply list_elem_of_further. }
    exists heap'. split.
    + cbn [free_each]. rewrite (bind_run _ _ _ _ _ (free_run lst heap nxt p g Hg)).
      exact Hrun.
    + intros q. rewrite Hheap'.
      destruct (decide (q ∈ l)) as [Hin|Hout].
      * rewrite decide_True by now apply list_elem_of_further. reflexivity.
      * destruct (decide (q = p)) as [->|Hne].
        -- rewrite lookup_delete_eq.
           now rewrite decide_True by apply list_elem_of_here.
        -- rewrite lookup_delete_ne by congruence.
           rewrite decide_False; [reflexivity|].
           intros [?|?]%elem_of_cons; contradiction.
Qed.

(** X19: the list of allocated strings never loses track of a string.
    From a context whose list links exactly the allocated strings, each
    once, every sequence of [setstring] and [gc_string_append] that runs
    to its end leaves such a context, and [free_strings] then frees each
    string still allocated, once: it frees no string twice and leaves none
    allocated. *)
Theorem free_strings_frees_all (l : list string_action)
    (ctx ctx' : filter_parser_ctx) :
  tracked ctx ->
  run_actions l ctx = inr (tt, ctx') ->
  tracked ctx' /\
  exists ctx'',
    free_strings ctx' = inr (tt, ctx'') /\ strings ctx'' = ∅.
Proof.
  intros HI Hrun.
  pose proof (preserves_run_actions l ctx tt ctx' HI Hrun) as HI'.
  split; [exact HI'|].
  destruct ctx' as [lst heap nxt].
  destruct HI' as (Hnodup & Hlinked & _). cbn in Hnodup, Hlinked.
  destruct (free_each_run lst lst heap nxt Hnodup) as (heap' & Hfree & Hheap').
  { intros p. apply Hlinked. }
  eexists. split; [exact Hfree|]. cbn [strings].
  apply map_empty. intros q. rewrite Hheap'.
  destruct (decide (q ∈ lst)) as [|Hout]; [reflexivity|].
  destruct (heap !! q) eqn:Hq; [|reflexivity].
  exfalso. apply Hout, Hlinked. eauto.
Qed.

Lemma sample_actions_run :
  exists ctx',
    run_actions sample_actions empty_ctx = inr (tt, ctx') /\
    allocated_strings ctx' = [3%nat; 2%nat].
Proof.
  eexists. split; [vm_compute; reflexivity|reflexivity].
Qed.

Lemma free_strings_frees_all_witness :
  exists ctx' ctx'',
    run_actions sample_actions empty_ctx = inr (tt, ctx') /\
    allocated_strings ctx' = [3%nat; 2%nat] /\
    free_strings ctx' = inr (tt, ctx'') /\ strings ctx'' = ∅.
Proof.
  destruct sample_actions_run as (ctx' & Hrun & Hlist).
  destruct (free_strings_frees_all sample_actions empty_ctx ctx'
              tracked_empty_ctx Hrun) as (_ & ctx'' & Hfree & Hnone).
  exists ctx', ctx''.
  split; [exact Hrun|]. split; [exact Hlist|]. split; [exact Hfree|exact Hnone].
Defined.

End FilterParserFacts.

Module SnapshotFacts.

Import Snapshot.

Lemma code_diff (c1 c2 : ascii) :
  Z.of_nat (nat_of_ascii c1) - Z.of_nat (nat_of_ascii c2) = 0 -> c1 = c2.
Proof.
  intros Hdiff.
  assert (Hn : nat_of_ascii c1 = nat_of_ascii c2) by lia.
  rewrite <- (ascii_nat_embedding c1), Hn. apply ascii_nat_embedding.
Qed.

Lemma strncmp_prefix (s1 s2 : list ascii) :
  strncmp s1 s2 (strlen s2) = 0 <-> c_str s2 `prefix_of` c_str s1.
Proof.
  unfold c_str. revert s1. induction s2 as [|c2 s2 IH]; intros s1.
  - cbn. split; [intros _; apply prefix_nil|reflexivity].
  - cbn [strlen]. destruct (Ascii.eqb_spec c2 NUL) as [->|Hnul].
    + cbn. split; [intros _; apply prefix_nil|reflexivity].
    + cbn [strncmp]. cbv zeta. unfold first_char.
      destruct s1 as [|c1 s1]; cbn [hd tl strlen].
      * destruct (Ascii.eqb_spec NUL c2) as [Heq|Hne]; [now subst c2|].
        cbn [negb take]. split.
        -- intros Hdiff%code_diff. contradiction.
        -- intros [k Hk]. discriminate Hk.
      * destruct (Ascii.eqb_spec c1 c2) as [->|Hne]; cbn [negb].
        -- destruct (Ascii.eqb_spec c2 NUL) as [|_]; [contradiction|].
           cbn [take]. rewrite IH. split.
           ++ intros [k Hk]. exists k. cbn. now rewrite Hk.
           ++ intros [k Hk]. exists k. cbn in Hk. now injection Hk.
        -- split.
           ++ intros Hdiff%code_diff. contradiction.
           ++ intros [k Hk]. exfalso. apply Hne.
              destruct (Ascii.eqb c1 NUL); cbn in Hk; [discriminate Hk|].
              now injection Hk.
Qed.

(** X20: inside a read-side critical section,
    [snapshot_find_output_by_name] returns the first output, in the order
    of the iteration of the table, whose name begins with the name asked
    for, and NULL when there is none: the names are compared over the
    length of the name asked for only, so that an output of that exact
    name is returned only when no output before it has a name that begins
    with it. *)
Theorem snapshot_find_output_by_name_prefix (name_ : list ascii)
    (outputs : list snapshot_output) :
  snapshot_find_output_by_name true (Some name_) (Some outputs)
  = inr (List.find
           (fun output =>
              bool_decide (c_str name_ `prefix_of` c_str (name output)))
           outputs).
Proof.
  cbn. f_equal. induction outputs as [|output rest IH]; [reflexivity|].
  cbn [for_each_entry List.find]. rewrite IH.
  destruct (Z.eqb_spec (strncmp (name output) name_ (strlen name_)) 0)
    as [Hzero|Hdiff].
  - now rewrite bool_decide_eq_true_2 by now apply strncmp_prefix.
  - rewrite bool_decide_eq_false_2; [reflexivity|].
    intros Hprefix. now apply Hdiff, strncmp_prefix.
Qed.

(** The output of the exact name is not the one found. *)
Example snapshot_find_output_by_name_shadowed :
  snapshot_find_output_by_name true
    (Some (list_ascii_of_string "snapshot-1")) (Some sample_outputs)
  = inr (Some (mk_snapshot_output 10 (list_ascii_of_string "snapshot-10"))).
Proof. reflexivity. Qed.

End SnapshotFacts.

Module StopSessionFacts.

Import StopSession.

(** *** Strings and bytes *)

Lemma strlen_no_nul (str : list ascii) :
  NUL ∉ str -> strlen str = length str.
Proof.
  induction str as [|c str IH]; [reflexivity|].
  intros Hnul. cbn [strlen length].
  destruct (Ascii.eqb_spec c NUL) as [->|_].
  - exfalso. apply Hnul, list_elem_of_here.
  - f_equal. apply IH. intros Hin. now apply Hnul, list_elem_of_further.
Qed.

Lemma strlen_terminated (str rest : list ascii) :
  NUL ∉ str -> strlen (str ++ NUL :: rest) = length str.
Proof.
  induction str as [|c str IH]; intros Hnul.
  - reflexivity.
  - cbn [app strlen length]. destruct (Ascii.eqb_spec c NUL) as [->|_].
    + exfalso. apply Hnul, list_elem_of_here.
    + f_equal. apply IH. intros Hin. now apply Hnul, list_elem_of_further.
Qed.

Lemma strlen_le (str : list ascii) : (strlen str <= length str)%nat.
Proof.
  induction str as [|c str IH]; [reflexivity|].
  cbn [strlen length]. destruct (Ascii.eqb c NUL); lia.
Qed.

Lemma c_str_no_nul (str : list ascii) : NUL ∉ c_str str.
Proof.
  unfold c_str. induction str as [|c str IH]; [apply not_elem_of_nil|].
  cbn [strlen]. destruct (Ascii.eqb_spec c NUL) as [->|Hne].
  - apply not_elem_of_nil.
  - cbn [take]. intros [Heq|Hin]%elem_of_cons; [now apply Hne|now apply IH].
Qed.

Lemma strlen_c_str (str : list ascii) : strlen (c_str str) = strlen str.
Proof.
  rewrite (strlen_no_nul _ (c_str_no_nul str)). unfold c_str.
  rewrite length_take. pose proof (strlen_le str). lia.
Qed.

Lemma c_str_terminated (str rest : list ascii) :
  NUL ∉ str -> c_str (str ++ NUL :: rest) = str.
Proof.
  intros Hnul. unfold c_str. rewrite strlen_terminated by exact Hnul.
  now rewrite take_app_length.
Qed.

Lemma c_str_id (str : list ascii) : NUL ∉ str -> c_str str = str.
Proof.
  intros Hnul. unfold c_str. rewrite strlen_no_nul by exact Hnul.
  apply firstn_all.
Qed.

Lemma value_of_byte_of (n : Z) : value_of (byte_of n) = n mod 256.
Proof.
  unfold value_of, byte_of.
  assert (Hrange : 0 <= n mod 256 < 256) by (apply Z.mod_pos_bound; lia).
  rewrite N_ascii_embedding by lia. lia.
Qed.

Lemma uint32_at_bytes (n : Z) (rest : list ascii) :
  0 <= n < UINT32_MODULUS -> uint32_at (uint32_bytes n ++ rest) = Some n.
Proof.
  intros Hn. unfold UINT32_MODULUS in Hn. cbn [uint32_bytes app uint32_at].
  rewrite !value_of_byte_of. f_equal.
  assert (H32 : 2 ^ 32 = 4294967296) by reflexivity.
  pose proof (Z.div_mod n 256 ltac:(lia)) as Ha.
  pose proof (Z.div_mod n 65536 ltac:(lia)) as Hb.
  pose proof (Z.div_mod n 16777216 ltac:(lia)) as Hc.
  pose proof (Z.div_mod (n / 256) 256 ltac:(lia)) as H1.
  pose proof (Z.div_mod (n / 65536) 256 ltac:(lia)) as H2.
  rewrite Z.div_div in H1 by lia. rewrite Z.div_div in H2 by lia.
  change (256 * 256) with 65536 in H1. change (65536 * 256) with 16777216 in H2.
  assert (H3 : n / 16777216 < 256)
    by (apply Z.div_lt_upper_bound; lia).
  assert (H4 : 0 <= n / 16777216) by (apply Z.div_pos; lia).
  rewrite (Z.mod_small (n / 16777216)) by lia.
  lia.
Qed.

(** *** The session name *)

Section Name.

Variable lttng_firing_policy : Type.
Variable strdup : list ascii -> option (list ascii).

(** [strdup] returns NULL or a copy of the string. *)
Hypothesis strdup_copies : forall str copy, strdup str = Some copy -> copy = str.

(** X21: [lttng_action_stop_session_set_session_name], with a [strdup]
    that returns NULL or a copy.  When it answers OK the action is valid
    and [lttng_action_stop_session_get_session_name] gives the name that
    was set, the firing policy being untouched; when it answers INVALID
    the action is as it was; when it answers ERROR the action has lost
    the name it had and is no longer valid. *)
Theorem set_session_name_outcomes
    (action : option (lttng_action lttng_firing_policy))
    (session_name_ : option (list ascii)) :
  let (status, action') :=
    lttng_action_stop_session_set_session_name lttng_firing_policy strdup
      action session_name_ in
  match status with
  | LTTNG_ACTION_STATUS_OK =>
      exists a name a',
        action = Some (stop_session_action a) /\
        session_name_ = Some name /\
        action' = Some (stop_session_action a') /\
        policy a' = policy a /\
        lttng_action_stop_session_get_session_name lttng_firing_policy
          action' true
        = (LTTNG_ACTION_STATUS_OK, Some (Some (c_str name))) /\
        lttng_action_stop_session_validate lttng_firing_policy (Some a') = true
  | LTTNG_ACTION_STATUS_INVALID => action' = action
  | LTTNG_ACTION_STATUS_ERROR =>
      exists a a',
        action = Some (stop_session_action a) /\
        action' = Some (stop_session_action a') /\
        policy a' = policy a /\
        lttng_action_stop_session_validate lttng_firing_policy (Some a') = false
  end.
Proof.
  unfold lttng_action_stop_session_set_session_name.
  destruct action as [[a|type]|]; [|reflexivity|reflexivity].
  destruct session_name_ as [name|]; [|reflexivity].
  destruct (Nat.eqb_spec (strlen name) 0) as [Hempty|Hname]; [reflexivity|].
  destruct (strdup (c_str name)) as [copy|] eqn:Hcopy.
  - apply strdup_copies in Hcopy. subst copy.
    exists a, name. eexists. repeat split.
    cbn. rewrite strlen_c_str. now apply negb_true_iff, Nat.eqb_neq.
  - exists a. eexists. repeat split.
Qed.

End Name.

Lemma set_session_name_outcomes_witness :
  exists a',
    lttng_action_stop_session_set_session_name ascii sample_strdup
      (Some (stop_session_action
               (mk_lttng_action_stop_session None (Some sample_policy))))
      (Some sample_name)
    = (LTTNG_ACTION_STATUS_OK, Some (stop_session_action a')) /\
    lttng_action_stop_session_validate ascii (Some a') = true.
Proof.
  pose proof (set_session_name_outcomes ascii sample_strdup
                (fun str copy (H : Some str = Some copy) =>
                   eq_sym (f_equal (default str) H))
                (Some (stop_session_action
                         (mk_lttng_action_stop_session None (Some sample_policy))))
                (Some sample_name)) as H.
  cbn in H. destruct H as (a & name & a' & _ & _ & [= <-] & _ & _ & Hvalid).
  eexists. split; [reflexivity|exact Hvalid].
Defined.

(** The length of the name is read before the size of the view is known:
    a view shorter than the length field is read past its end. *)
Lemma create_from_payload_short_view (lttng_firing_policy : Type)
    every_n_create copy create_from_payload contains_string view_from_view
    strdup zmalloc (view : list ascii) :
  (length view < 4)%nat ->
  lttng_action_stop_session_create_from_payload lttng_firing_policy
    every_n_create copy create_from_payload contains_string view_from_view
    strdup zmalloc view
  = inl OutOfBounds.
Proof.
  intros Hshort. unfold lttng_action_stop_session_create_from_payload.
  destruct view as [|b0 [|b1 [|b2 [|b3 view]]]]; try reflexivity.
  cbn in Hshort. lia.
Qed.

(** *** Serialization *)

Section RoundTrip.

Variable lttng_firing_policy : Type.
Variable lttng_firing_policy_every_n_create : Z -> option lttng_firing_policy.
Variable lttng_firing_policy_copy :
  lttng_firing_policy -> option lttng_firing_policy.
Variable lttng_firing_policy_serialize :
  option lttng_firing_policy -> list ascii -> Z * list ascii.
Variable lttng_firing_policy_create_from_payload :
  list ascii -> Z * option lttng_firing_policy.
Variable lttng_dynamic_buffer_append :
  list ascii -> list ascii -> Z * list ascii.
Variable lttng_buffer_view_contains_string : list ascii -> Z -> Z -> bool.
Variable lttng_payload_view_from_view : list ascii -> Z -> list ascii.
Variable strdup : list ascii -> option (list ascii).
Variable zmalloc : bool.

(** The bytes a firing policy is serialized to. *)
Variable policy_bytes : lttng_firing_policy -> list ascii.

(** No allocation fails, and a copy is the value copied. *)
Hypothesis every_n_created : is_Some (lttng_firing_policy_every_n_create 1).
Hypothesis policy_copied : forall p, lttng_firing_policy_copy p = Some p.
Hypothesis string_copied : forall str, strdup str = Some str.
Hypothesis action_allocated : zmalloc = true.

(** The buffers are appended to. *)
Hypothesis buffer_appended : forall buffer data,
  lttng_dynamic_buffer_append buffer data = (0, buffer ++ data).
Hypothesis policy_serialized : forall p buffer,
  lttng_firing_policy_serialize (Some p) buffer
  = (0, buffer ++ policy_bytes p).

(** A firing policy is read back from the bytes it was serialized to,
    whatever follows them. *)
Hypothesis policy_read_back : forall p rest,
  lttng_firing_policy_create_from_payload (policy_bytes p ++ rest)
  = (Z.of_nat (length (policy_bytes p)), Some p).

(** A view holds a string of [len] bytes with its NUL at an offset when
    these bytes are there; the view from an offset on is what follows
    the offset. *)
Hypothesis string_contained : forall view offset str rest,
  0 <= offset ->
  NUL ∉ str ->
  drop (Z.to_nat offset) view = str ++ NUL :: rest ->
  lttng_buffer_view_contains_string view offset (Z.of_nat (length str) + 1)
  = true.
Hypothesis view_from_offset : forall view offset,
  0 <= offset ->
  lttng_payload_view_from_view view offset = drop (Z.to_nat offset) view.

(** X22: an action that was serialized is read back.  On a host where no
    allocation fails, where buffers and firing policies are appended to
    the payload, where a firing policy is read back from its bytes and
    where the string and view functions accept what they are given: for a
    non-empty session name that holds no NUL and whose length fits the
    32-bit field, [lttng_action_stop_session_serialize] appends the
    length of the name with its NUL, the name with its NUL and the
    firing policy, and [lttng_action_stop_session_create_from_payload]
    on these bytes, whatever follows them, consumes exactly these bytes
    and creates the action that was serialized. *)
Theorem serialize_create_from_payload_round_trip
    (name rest : list ascii) (p : lttng_firing_policy) :
  name <> [] ->
  NUL ∉ name ->
  Z.of_nat (length name) + 1 < UINT32_MODULUS ->
  let action := mk_lttng_action_stop_session (Some name) (Some p) in
  exists bytes,
    (forall payload,
       lttng_action_stop_session_serialize lttng_firing_policy
         lttng_firing_policy_serialize lttng_dynamic_buffer_append
         action payload
       = inr (0, payload ++ bytes)) /\
    lttng_action_stop_session_create_from_payload lttng_firing_policy
      lttng_firing_policy_every_n_create lttng_firing_policy_copy
      lttng_firing_policy_create_from_payload
      lttng_buffer_view_contains_string lttng_payload_view_from_view
      strdup zmalloc (bytes ++ rest)
    = inr (Z.of_nat (length bytes), Some (stop_session_action action)).
Proof.
  intros Hname Hnul Hlen action.
  set (len := Z.of_nat (length name) + 1) in *.
  exists (uint32_bytes len ++ (name ++ [NUL]) ++ policy_bytes p).
  split.
  - intros payload. unfold lttng_action_stop_session_serialize, action.
    cbn [session_name policy].
    rewrite strlen_no_nul, c_str_id by exact Hnul. fold len.
    rewrite Z.mod_small by lia.
    rewrite !buffer_appended. cbn [Z.eqb negb].
    rewrite policy_serialized. cbn [Z.eqb negb].
    now rewrite <- !app_assoc.
  - set (view := (uint32_bytes len ++ (name ++ [NUL]) ++ policy_bytes p)
                   ++ rest).
    assert (Hview : view = uint32_bytes len
                           ++ name ++ NUL :: (policy_bytes p ++ rest)).
    { unfold view. now rewrite <- !app_assoc. }
    assert (Hstring : drop (Z.to_nat sizeof_comm) view
                      = name ++ NUL :: (policy_bytes p ++ rest)).
    { now rewrite Hview. }
    assert (Hpolicy : drop (Z.to_nat (sizeof_comm + len)) view
                      = policy_bytes p ++ rest).
    { replace view
        with ((uint32_bytes len ++ name ++ [NUL]) ++ policy_bytes p ++ rest)
        by (unfold view; now rewrite <- !app_assoc).
      apply drop_app_length'.
      rewrite !length_app. cbn [length uint32_bytes].
      unfold sizeof_comm, len. lia. }
    assert (Hlength : length name <> 0%nat) by now destruct name.
    unfold lttng_action_stop_session_create_from_payload.
    rewrite Hview at 1. rewrite uint32_at_bytes by lia.
    unfold len at 1.
    rewrite (string_contained view sizeof_comm name (policy_bytes p ++ rest))
      by (try exact Hstring; try exact Hnul; unfold sizeof_comm; lia).
    cbn [negb]. fold len.
    rewrite view_from_offset by (unfold sizeof_comm; lia).
    rewrite Hpolicy, policy_read_back.
    replace (Z.of_nat (length (policy_bytes p)) <? 0) with false
      by (symmetry; apply Z.ltb_ge; lia).
    unfold lttng_action_stop_session_create.
    destruct every_n_created as [q ->]. rewrite action_allocated.
    unfold lttng_action_stop_session_set_firing_policy,
      lttng_action_stop_session_set_session_name.
    rewrite !policy_copied. cbn [session_name policy].
    rewrite Hstring, strlen_terminated, c_str_terminated by exact Hnul.
    destruct (Nat.eqb_spec (length name) 0) as [|_]; [contradiction|].
    rewrite string_copied. do 2 f_equal.
    rewrite !length_app. cbn [length uint32_bytes].
    unfold sizeof_comm, len. lia.
Qed.

End RoundTrip.

Lemma sample_contains_string_accepts (view : list ascii) (offset : Z)
    (str rest : list ascii) :
  0 <= offset ->
  NUL ∉ str ->
  drop (Z.to_nat offset) view = str ++ NUL :: rest ->
  sample_contains_string view offset (Z.of_nat (length str) + 1) = true.
Proof.
  intros Hoffset Hnul Hdrop. unfold sample_contains_string.
  rewrite Hdrop, strlen_terminated by exact Hnul.
  rewrite length_app. cbn [length].
  rewrite Z.eqb_refl, andb_true_r. apply andb_true_intro. split.
  - now apply Z.leb_le.
  - apply Nat.ltb_lt. lia.
Qed.

Lemma sample_name_no_nul : NUL ∉ sample_name.
Proof.
  intros Hin. unfold sample_name in Hin. cbn in Hin.
  repeat (apply elem_of_cons in Hin as [Hin|Hin]; [discriminate Hin|]).
  now apply elem_of_nil in Hin.
Qed.

Lemma serialize_create_from_payload_round_trip_witness :
  exists bytes,
    lttng_action_stop_session_serialize ascii sample_serialize sample_append
      (mk_lttng_action_stop_session (Some sample_name) (Some sample_policy)) []
    = inr (0, bytes) /\
    lttng_action_stop_session_create_from_payload ascii
      sample_every_n_create sample_copy sample_create_from_payload
      sample_contains_string sample_view_from_view sample_strdup true bytes
    = inr (Z.of_nat (length bytes),
           Some (stop_session_action
                   (mk_lttng_action_stop_session
                      (Some sample_name) (Some sample_policy)))).
Proof.
  destruct (serialize_create_from_payload_round_trip ascii
              sample_every_n_create sample_copy sample_serialize
              sample_create_from_payload sample_append
              sample_contains_string sample_view_from_view sample_strdup true
              (fun p => [p])
              (ex_intro _ (byte_of 1) eq_refl)
              (fun p => eq_refl) (fun str => eq_refl) eq_refl
              (fun buffer data => eq_refl) (fun p buffer => eq_refl)
              (fun p rest => eq_refl)
              sample_contains_string_accepts
              (fun view offset _ => eq_refl)
              sample_name [] sample_policy)
    as (bytes & Hserialize & Hcreate).
  - discriminate.
  - exact sample_name_no_nul.
  - reflexivity.
  - exists bytes. split.
    + exact (Hserialize []).
    + rewrite app_nil_r in Hcreate. exact Hcreate.
Defined.

(** *** Equality *)

Lemma code_zero (c : ascii) : Z.of_nat (nat_of_ascii c) = 0 -> c = NUL.
Proof.
  intros Hzero. rewrite <- (ascii_nat_embedding c).
  replace (nat_of_ascii c) with 0%nat by lia. reflexivity.
Qed.

Lemma code_same (c1 c2 : ascii) :
  Z.of_nat (nat_of_ascii c1) - Z.of_nat (nat_of_ascii c2) = 0 -> c1 = c2.
Proof.
  intros Hdiff.
  assert (Hn : nat_of_ascii c1 = nat_of_ascii c2) by lia.
  rewrite <- (ascii_nat_embedding c1), Hn. apply ascii_nat_embedding.
Qed.

Lemma strcmp_zero (a b : list ascii) :
  NUL ∉ a -> NUL ∉ b -> strcmp a b = 0 <-> a = b.
Proof.
  revert b. induction a as [|c1 a IH]; intros [|c2 b] Ha Hb; cbn [strcmp].
  - tauto.
  - split; [|discriminate]. intros Hzero. exfalso. apply Hb.
    replace NUL with c2 by (apply code_zero; lia). apply list_elem_of_here.
  - split; [|discriminate]. intros Hzero%code_zero. exfalso. apply Ha.
    subst c1. apply list_elem_of_here.
  - destruct (Ascii.eqb_spec c1 c2) as [->|Hne].
    + rewrite IH.
      * split; [now intros ->|now intros [= ->]].
      * intros Hin. now apply Ha, list_elem_of_further.
      * intros Hin. now apply Hb, list_elem_of_further.
    + split; [intros Hsame%code_same; contradiction|now intros [= -> _]].
Qed.

Section Equality.

Variable lttng_firing_policy : Type.
Variable lttng_firing_policy_is_equal :
  option lttng_firing_policy -> option lttng_firing_policy -> bool.

Lemma is_equal_named (a b : lttng_action_stop_session lttng_firing_policy)
    (name_a name_b : list ascii) :
  session_name a = Some name_a ->
  session_name b = Some name_b ->
  lttng_action_stop_session_is_equal lttng_firing_policy
    lttng_firing_policy_is_equal a b
  = inr (bool_decide (c_str name_a = c_str name_b)
         && lttng_firing_policy_is_equal (policy a) (policy b)).
Proof.
  intros Ha Hb. unfold lttng_action_stop_session_is_equal.
  rewrite Ha, Hb.
  destruct (Z.eqb_spec (strcmp (c_str name_a) (c_str name_b)) 0)
    as [Hsame|Hdiff]; cbn [negb].
  - apply strcmp_zero in Hsame; try apply c_str_no_nul.
    now rewrite bool_decide_eq_true_2.
  - rewrite bool_decide_eq_false_2; [reflexivity|].
    intros Hsame. apply Hdiff, strcmp_zero; try apply c_str_no_nul.
    exact Hsame.
Qed.

Hypothesis policy_reflexive : forall p, lttng_firing_policy_is_equal p p = true.
Hypothesis policy_symmetric : forall p q,
  lttng_firing_policy_is_equal p q = lttng_firing_policy_is_equal q p.
Hypothesis policy_transitive : forall p q r,
  lttng_firing_policy_is_equal p q = true ->
  lttng_firing_policy_is_equal q r = true ->
  lttng_firing_policy_is_equal p r = true.

(** X23: on actions that have a session name,
    [lttng_action_stop_session_is_equal] answers true exactly when the two
    names are the same string and the firing policies are equal; it is an
    equivalence as soon as the comparison of the firing policies is one.
    On an action that has no name, such as one just created, it trips
    its assertion. *)
Theorem is_equal_equivalence
    (a b c : lttng_action_stop_session lttng_firing_policy)
    (name_a name_b name_c : list ascii) :
  session_name a = Some name_a ->
  session_name b = Some name_b ->
  session_name c = Some name_c ->
  let is_equal :=
    lttng_action_stop_session_is_equal lttng_firing_policy
      lttng_firing_policy_is_equal in
  (is_equal a b = inr true <->
   c_str name_a = c_str name_b /\
   lttng_firing_policy_is_equal (policy a) (policy b) = true) /\
  is_equal a a = inr true /\
  is_equal a b = is_equal b a /\
  (is_equal a b = inr true -> is_equal b c = inr true ->
   is_equal a c = inr true) /\
  (forall nameless, session_name nameless = None ->
     is_equal a nameless = inl AssertFailed /\
     is_equal nameless a = inl AssertFailed).
Proof.
  intros Ha Hb Hc is_equal. unfold is_equal.
  assert (Hiff : forall x y name_x name_y,
            session_name x = Some name_x -> session_name y = Some name_y ->
            lttng_action_stop_session_is_equal lttng_firing_policy
              lttng_firing_policy_is_equal x y = inr true <->
            c_str name_x = c_str name_y /\
            lttng_firing_policy_is_equal (policy x) (policy y) = true).
  { intros x y name_x name_y Hx Hy.
    rewrite (is_equal_named x y name_x name_y Hx Hy). split.
    - intros [= [Hname%bool_decide_eq_true Hpolicy]%andb_true_iff].
      now split.
    - intros [Hname Hpolicy]. f_equal. apply andb_true_iff.
      split; [now apply bool_decide_eq_true|exact Hpolicy]. }
  split; [now apply Hiff|]. split; [|split; [|split]].
  - apply (Hiff a a name_a name_a Ha Ha). split; [reflexivity|].
    apply policy_reflexive.
  - rewrite (is_equal_named a b name_a name_b Ha Hb),
      (is_equal_named b a name_b name_a Hb Ha).
    rewrite (policy_symmetric (policy a) (policy b)). do 2 f_equal.
    apply bool_decide_ext. split; intros Heq; now symmetry.
  - intros [Hab1 Hab2]%(Hiff a b name_a name_b Ha Hb)
           [Hbc1 Hbc2]%(Hiff b c name_b name_c Hb Hc).
    apply (Hiff a c name_a name_c Ha Hc). split; [congruence|].
    exact (policy_transitive _ _ _ Hab2 Hbc2).
  - intros nameless Hnone. unfold lttng_action_stop_session_is_equal.
    now rewrite Ha, Hnone.
Qed.

End Equality.

Lemma is_equal_equivalence_witness :
  lttng_action_stop_session_is_equal ascii
    (fun p q => bool_decide (p = q))
    (mk_lttng_action_stop_session (Some sample_name) (Some sample_policy))
    (mk_lttng_action_stop_session (Some sample_name) (Some sample_policy))
  = inr true.
Proof.
  destruct (is_equal_equivalence ascii (fun p q => bool_decide (p = q))
           (fun p => bool_decide_eq_true_2 _ eq_refl)
           (fun p q => bool_decide_ext _ _ (conj (@eq_sym _ p q) (@eq_sym _ q p)))
           (fun p q r Hpq Hqr =>
              bool_decide_eq_true_2 _
                (eq_trans (bool_decide_eq_true_1 _ Hpq)
                          (bool_decide_eq_true_1 _ Hqr)))
           (mk_lttng_action_stop_session (Some sample_name) (Some sample_policy))
           (mk_lttng_action_stop_session (Some sample_name) (Some sample_policy))
           (mk_lttng_action_stop_session (Some sample_name) (Some sample_policy))
           sample_name sample_name sample_name eq_refl eq_refl eq_refl)
    as (_ & Hreflexive & _).
  exact Hreflexive.
Defined.

End StopSessionFacts.
